(** * Graph kernels of OS_project: a shallow embedding and its properties

    The development follows the C sources of the repository:

    - [FinalProject/part7/graph.c]       adjacency-list graph, Euler circuit
    - [OS_project/part7/maxflow.c]       Edmonds-Karp maximum flow
    - [OS_project/part7/mst.c]           Prim with a lazy binary heap
    - [OS_project/part7/maxclique.c]     maximum clique by backtracking
    - [FinalProject/part7/cliquecount.c] clique counting
    - [FinalProject/part8/server.c], [OS_project/part7/server.c],
      [FinalProject/part11/server_pipeline.c]  weighted request handling

    Modelling conventions.

    - A C [int] is a [Z].  The sums that can leave the range of [int] on
      a graph that the servers accept are taken in 32-bit two's complement
      arithmetic ([wrap32]), as the compiled code takes them: the residual
      entries and [max_flow] of [maxflow.c], [total_weight] of [mst.c].
      The clique counters are exact, and the properties of a count are
      stated for counts of at most [INT_MAX].  Index arithmetic and
      comparisons are exact: they stay within the range of [int].
    - Vertex arguments of the public functions are [Z] (any C int may be
      passed); once [in_bounds] has accepted them they are indices, and the
      [to] field of an adjacency node, which only ever holds an accepted
      index, is a [nat].
    - A singly linked adjacency list is the [list] of its nodes from the
      head; an [int*] array is a [list] read with [nth] and written with
      [upd]; an [int**] matrix is a list of rows.
    - The outcomes of [malloc], [calloc] and [realloc] are arguments: two
      booleans for the two calls of [graph_add_weighted_edge], and for the
      code that goes on or gives another answer after a failed call
      ([graph.c]'s Euler functions, [maxflow.c], the request handling of
      the servers) the list [Alloc] of the outcomes of the run in call
      order.  [mst.c] and the clique modules are modelled in the runs
      where their allocations succeed.
    - [while] loops whose bound is not syntactic carry a fuel argument and
      return [None] when it runs out; totality is proved separately.

    Layout.  The program comes first, one definition for each C function,
    under the name of the function.  Then come the notions in which the
    properties are stated and proved (the representation invariant of
    [graph.h], paths, cuts, spanning trees, loop invariants), among them
    the same functions in exact arithmetic and without allocation failure
    (names ending in [_ok]), to which the program is related by simulation
    lemmas, and the graphs used as examples.  The properties follow, module
    by module. *)

From Stdlib Require Import ZArith List Lia Bool Arith PeanoNat Permutation.
Import ListNotations.

(** * The program *)

(** ** The graph module and the servers *)

(** *** Arrays *)

Fixpoint upd {A : Type} (l : list A) (i : nat) (x : A) : list A :=
  match l, i with
  | [], _ => []
  | _ :: r, O => x :: r
  | a :: r, S j => a :: upd r j x
  end.

(** *** The graph module ([graph.h], [graph.c]) *)

Record EdgeNode : Type := mkEdgeNode { to : nat; weight : Z }.

Record Graph : Type := mkGraph { n : nat; adj : list (list EdgeNode) }.

(** [g->adj[u].head], as the list of the nodes reachable from it. *)
Definition head (g : Graph) (u : nat) : list EdgeNode := nth u (adj g) [].

Definition in_bounds (g : option Graph) (v : Z) : bool :=
  match g with
  | None => false
  | Some g => (0 <=? v)%Z && (v <? Z.of_nat (n g))%Z
  end.

Fixpoint count_to (l : list EdgeNode) (v : nat) : nat :=
  match l with
  | [] => 0
  | e :: r => (if to e =? v then 1 else 0) + count_to r v
  end.

Definition count_neighbor (g : Graph) (u v : nat) : nat := count_to (head g u) v.

Definition edge_exists_simple (g : Graph) (u v : nat) : bool :=
  if u =? v then 2 <=? count_neighbor g u u else 1 <=? count_neighbor g u v.

Definition graph_create (n0 : Z) : option Graph :=
  if (n0 <=? 0)%Z then None
  else Some (mkGraph (Z.to_nat n0) (repeat [] (Z.to_nat n0))).

(** Return codes of [graph_add_edge] and [graph_add_weighted_edge]. *)
Definition RC_OK : Z := 0.

Definition RC_BOUNDS : Z := -1.

Definition RC_NOMEM : Z := -2.

Definition RC_DUP : Z := -3.

Definition set_head (g : Graph) (u : nat) (l : list EdgeNode) : Graph :=
  mkGraph (n g) (upd (adj g) u l).

(** [graph_add_weighted_edge]; [m1] and [m2] tell whether the two [malloc]
    calls of the taken branch succeed.  The result is the return code and
    the graph after the call. *)
Definition graph_add_weighted_edge (m1 m2 : bool) (g : Graph) (u v : Z) (w : Z)
  : Z * Graph :=
  if negb (in_bounds (Some g) u) || negb (in_bounds (Some g) v) then (RC_BOUNDS, g)
  else
    let u' := Z.to_nat u in
    let v' := Z.to_nat v in
    if edge_exists_simple g u' v' then (RC_DUP, g)
    else if u' =? v' then
      if negb m1 || negb m2 then (RC_NOMEM, g)
      else
        let e1 := mkEdgeNode u' w in
        let e2 := mkEdgeNode u' w in
        (RC_OK, set_head g u' (e2 :: e1 :: head g u'))
    else
      if negb m1 || negb m2 then (RC_NOMEM, g)
      else
        let e1 := mkEdgeNode v' w in
        let e2 := mkEdgeNode u' w in
        let l1 := e1 :: head g u' in
        let l2 := e2 :: head g v' in
        (RC_OK, set_head (set_head g u' l1) v' l2).

Definition graph_add_edge (m1 m2 : bool) (g : Graph) (u v : Z) : Z * Graph :=
  graph_add_weighted_edge m1 m2 g u v 1.

Fixpoint first_weight (l : list EdgeNode) (v : nat) : Z :=
  match l with
  | [] => 0
  | e :: r => if to e =? v then weight e else first_weight r v
  end.

Definition graph_get_edge_weight (g : option Graph) (u v : Z) : Z :=
  if negb (in_bounds g u) || negb (in_bounds g v) then 0%Z
  else
    match g with
    | None => 0%Z
    | Some g' => first_weight (head g' (Z.to_nat u)) (Z.to_nat v)
    end.

Definition degree_vertex_adj (g : Graph) (v : nat) : nat := length (head g v).

(** *** Weighted request handling of the servers

    The servers receive triplets [(src, dest, weight)], add the edge with
    [graph_add_edge] and then overwrite the weight fields by hand. *)

(** One scan [for (edge = head; edge; edge = edge->next)
    if (edge->to == v) edge->weight = w;]. *)
Definition set_weights (l : list EdgeNode) (v : nat) (w : Z) : list EdgeNode :=
  map (fun e => if to e =? v then mkEdgeNode (to e) w else e) l.

(** The two scans, over [adj[src]] and, when [src != dest], over [adj[dest]]. *)
Definition rewrite_weights (g : Graph) (src dest : nat) (w : Z) : Graph :=
  let g1 := set_head g src (set_weights (head g src) dest w) in
  if src =? dest then g1
  else set_head g1 dest (set_weights (head g1 dest) src w).

Definition triplet_ok (g : Graph) (src dest w : Z) : bool :=
  (0 <=? src)%Z && (src <? Z.of_nat (n g))%Z &&
  (0 <=? dest)%Z && (dest <? Z.of_nat (n g))%Z && (0 <? w)%Z.

(** **** Allocation in a run

    Where the code goes on after a failed allocation, the outcomes of the
    allocation calls of the run are an argument: one boolean for each call
    of [malloc], [calloc] or [realloc], in the order of the calls, [true]
    for a call that succeeds.  The calls made after the list is used up
    succeed. *)

Definition Alloc : Type := list bool.

Definition alloc (o : Alloc) : bool * Alloc :=
  match o with
  | [] => (true, [])
  | m :: o' => (m, o')
  end.

(** A call of [graph_create]: [malloc] for the graph, then [calloc] for the
    lists. *)
Definition graph_create_call (o : Alloc) (n0 : Z) : option Graph * Alloc :=
  if (n0 <=? 0)%Z then (None, o)
  else
    let '(m1, o1) := alloc o in
    if negb m1 then (None, o1)
    else
      let '(m2, o2) := alloc o1 in
      if negb m2 then (None, o2) else (graph_create n0, o2).

(** A call of [graph_add_edge]: the two [malloc] calls are reached when the
    arguments are in range and the edge is not there yet. *)
Definition graph_add_edge_call (o : Alloc) (g : Graph) (u v : Z) : Z * Graph * Alloc :=
  if negb (in_bounds (Some g) u) || negb (in_bounds (Some g) v)
     || edge_exists_simple g (Z.to_nat u) (Z.to_nat v)
  then (graph_add_edge true true g u v, o)
  else
    let '(m1, o1) := alloc o in
    let '(m2, o2) := alloc o1 in
    (graph_add_edge m1 m2 g u v, o2).

(** Loop body of [process_weighted_request] ([FinalProject/part8/server.c])
    and of [handle_client_request] ([FinalProject/part11/server_pipeline.c]):
    the return value of [graph_add_edge] is dropped, also when it tells
    that an allocation failed. *)
Definition process_triplet (st : Graph * Alloc) (t : Z * Z * Z) : Graph * Alloc :=
  let '(g, o) := st in
  let '(src, dest, w) := t in
  if triplet_ok g src dest w then
    let '(_, g1, o1) := graph_add_edge_call o g src dest in
    (rewrite_weights g1 (Z.to_nat src) (Z.to_nat dest) w, o1)
  else st.

(** The loop over the triplets of the request, from the graph that
    [graph_create] returned. *)
Definition process_weighted_request (o : Alloc) (g : Graph) (ts : list (Z * Z * Z))
  : Graph :=
  fst (fold_left process_triplet ts (g, o)).

(** [process_mst_weighted_request] ([OS_project/part7/server.c]): a first loop
    adds the edges and records in [weighted_edges] the triplets whose
    [graph_add_edge] returned 0; a second loop rewrites the weights of the
    recorded triplets only.  [edges_added] is the number of recorded
    triplets. *)
Definition mst_add_triplet (st : Graph * list (nat * nat * Z) * Alloc) (t : Z * Z * Z)
  : Graph * list (nat * nat * Z) * Alloc :=
  let '(g, weighted_edges, o) := st in
  let '(src, dest, w) := t in
  if (src <? 0)%Z || (src >=? Z.of_nat (n g))%Z ||
     (dest <? 0)%Z || (dest >=? Z.of_nat (n g))%Z then st
  else if (w <=? 0)%Z then st
  else
    let '(result, g1, o1) := graph_add_edge_call o g src dest in
    if (result =? 0)%Z
    then (g1, weighted_edges ++ [(Z.to_nat src, Z.to_nat dest, w)], o1)
    else (g1, weighted_edges, o1).

Definition mst_rewrite (g : Graph) (e : nat * nat * Z) : Graph :=
  let '(src, dest, w) := e in rewrite_weights g src dest w.

(** The request is the vertex count [n0], the edge count [num_edges] and
    the triplets received after them.  [None] is a refused request (return
    value -1); [Some g] is the graph that is handed to the algorithm. *)
Definition process_mst_weighted_request (o : Alloc) (n0 num_edges : Z)
    (ts : list (Z * Z * Z)) : option Graph :=
  if (n0 <=? 0)%Z || (50 <? n0)%Z then None
  else if (num_edges <? 0)%Z || (n0 * n0 <? num_edges)%Z then None
  else if (Z.of_nat (length ts) <? num_edges)%Z then None
  else
    match graph_create_call o n0 with
    | (None, _) => None
    | (Some g, o1) =>
        let '(m, o2) := alloc o1 in
        if negb m then None
        else
          let '(g1, weighted_edges, _) :=
            fold_left mst_add_triplet (firstn (Z.to_nat num_edges) ts) (g, [], o2) in
          if length weighted_edges =? 0 then None
          else Some (fold_left mst_rewrite weighted_edges g1)
    end.

(** ** Cliques ([maxclique.c], [cliquecount.c]) *)

(** *** Matrices *)

Definition Matrix : Type := list (list Z).

Definition mget (m : Matrix) (i j : nat) : Z := nth j (nth i m []) 0%Z.

Definition mset (m : Matrix) (i j : nat) (x : Z) : Matrix :=
  upd m i (upd (nth i m []) j x).

Definition zero_matrix (k : nat) : Matrix := repeat (repeat 0%Z k) k.

(** [build_adjacency_matrix], the same static function in both files: the
    matrix is cleared, then every node [u -> v] with [u != v] sets
    [adj_matrix[u][v] = 1]. *)
Definition build_adjacency_matrix (g : Graph) : Matrix :=
  fold_left
    (fun m u =>
       fold_left (fun m e => if negb (u =? to e) then mset m u (to e) 1%Z else m)
                 (head g u) m)
    (seq 0 (n g)) (zero_matrix (n g)).

(** [is_connected_to_all]; the clique is the prefix
    [current_clique[0 .. clique_size-1]] of the working array. *)
Fixpoint is_connected_to_all (adj_matrix : Matrix) (v : nat) (current_clique : list nat)
  : bool :=
  match current_clique with
  | [] => true
  | c :: rest =>
      if (mget adj_matrix v c =? 0)%Z then false
      else is_connected_to_all adj_matrix v rest
  end.

(** The pair [(best_clique, *best_size)]. *)
Definition Best : Type := (list nat * nat)%type.

(** Entry of [max_clique_backtrack]: [if (current_size > *best_size)]. *)
Definition improve (current_clique : list nat) (best : Best) : Best :=
  if snd best <? length current_clique
  then (current_clique, length current_clique) else best.

(** The loop [for (v = start_vertex; v < n; v++)] of [max_clique_backtrack]
    over the vertices [cands = start_vertex .. n-1] still to try; the
    recursive call made for [v] starts at [v+1], that is on the rest of
    [cands], and begins by comparing its clique with the best one. *)
Fixpoint max_clique_loop (adj_matrix : Matrix) (cands : list nat)
    (current_clique : list nat) (best : Best) {struct cands} : Best :=
  match cands with
  | [] => best
  | v :: rest =>
      let best' :=
        if is_connected_to_all adj_matrix v current_clique
        then max_clique_loop adj_matrix rest (current_clique ++ [v])
               (improve (current_clique ++ [v]) best)
        else best in
      max_clique_loop adj_matrix rest current_clique best'
  end.

Definition max_clique_backtrack (adj_matrix : Matrix) (n0 start_vertex : nat)
    (current_clique : list nat) (best : Best) : Best :=
  max_clique_loop adj_matrix (seq start_vertex (n0 - start_vertex)) current_clique
    (improve current_clique best).

Record MaxClique_Result : Type := mkMaxClique {
  mc_vertices : list nat;
  mc_size : Z;
  mc_is_valid : bool
}.

Definition graph_max_clique (g : Graph) : MaxClique_Result :=
  if n g =? 0 then mkMaxClique [] 0 true
  else if n g =? 1 then mkMaxClique [0] 1 true
  else
    let adj_matrix := build_adjacency_matrix g in
    let best :=
      fold_left (fun best start => max_clique_backtrack adj_matrix (n g) (start + 1) [start] best)
                (seq 0 (n g)) ([], 0) in
    if 0 <? snd best then mkMaxClique (fst best) (Z.of_nat (snd best)) true
    else mkMaxClique [] 0 false.

(** The loop of [count_cliques_of_size_recursive]; the two tests at the
    entry of the recursive call are made where the call is.  [count] is the
    exact number of the cliques found: the [int] of the code holds it as
    long as it is at most [INT_MAX], and the properties of a count are
    stated for counts within this range wherever a larger count would
    change them. *)
Fixpoint count_size_loop (adj_matrix : Matrix) (cands : list nat)
    (current_clique : list nat) (target_size : Z) (count : Z) {struct cands} : Z :=
  match cands with
  | [] => count
  | v :: rest =>
      let count' :=
        if is_connected_to_all adj_matrix v current_clique then
          let clique' := current_clique ++ [v] in
          if (Z.of_nat (length clique') =? target_size)%Z then (count + 1)%Z
          else if (Z.of_nat (length clique') + Z.of_nat (length rest) <? target_size)%Z
               then count
               else count_size_loop adj_matrix rest clique' target_size count
        else count in
      count_size_loop adj_matrix rest current_clique target_size count'
  end.

Definition count_cliques_of_size_recursive (adj_matrix : Matrix) (n0 start_vertex : nat)
    (current_clique : list nat) (target_size : Z) (count : Z) : Z :=
  if (Z.of_nat (length current_clique) =? target_size)%Z then (count + 1)%Z
  else if (Z.of_nat (length current_clique) + (Z.of_nat n0 - Z.of_nat start_vertex)
           <? target_size)%Z then count
  else count_size_loop adj_matrix (seq start_vertex (n0 - start_vertex))
         current_clique target_size count.

(** [graph_count_cliques_of_size]: [None] is the return value 0, [Some c]
    is the return value 1 with [*count = c]. *)
Definition graph_count_cliques_of_size (g : Graph) (clique_size : Z) : option Z :=
  if (clique_size <? 1)%Z then None
  else if (Z.of_nat (n g) <? clique_size)%Z then Some 0%Z
  else Some (count_cliques_of_size_recursive (build_adjacency_matrix g) (n g) 0 []
               clique_size 0).

(** ** Euler circuits ([graph.c]) *)

(** *** The [Vec] of the Euler code *)

(** [Vec]: the array [a] of [cap] cells, the first [n] in use.  A cell that
    [realloc] adds holds 0 here; the code writes a cell before it reads it. *)
Record Vec : Type := mkVec { v_a : list Z; v_n : nat; v_cap : nat }.

(** [v_reserve]; [m] tells whether [realloc] succeeds.  The result is the
    return value and the vector after the call. *)
Definition v_reserve (m : bool) (v : Vec) (cap : nat) : Z * Vec :=
  if cap <=? v_cap v then (0%Z, v)
  else
    let c := if v_cap v =? 0 then 16 else v_cap v * 2 in
    let c := if c <? cap then cap else c in
    if negb m then ((-1)%Z, v)
    else (0%Z, mkVec (v_a v ++ repeat 0%Z (c - v_cap v)) (v_n v) c).

Definition v_push (m : bool) (v : Vec) (x : Z) : Z * Vec :=
  let '(rc, v1) := v_reserve m v (v_n v + 1) in
  if negb (rc =? 0)%Z then ((-1)%Z, v1)
  else (0%Z, mkVec (upd (v_a v1) (v_n v1) x) (v_n v1 + 1) (v_cap v1)).

(** [v_pop] and [v_back], called on a vector that is not empty. *)
Definition v_pop (v : Vec) : Z * Vec :=
  (nth (v_n v - 1) (v_a v) 0%Z, mkVec (v_a v) (v_n v - 1) (v_cap v)).

Definition v_back (v : Vec) : Z := nth (v_n v - 1) (v_a v) 0%Z.

Definition v_free (v : Vec) : Vec := mkVec [] 0 0.

(** The exchange [t = a[i]; a[i] = a[j]; a[j] = t]. *)
Definition v_swap (a : list Z) (i j : nat) : list Z :=
  upd (upd a i (nth j a 0%Z)) j (nth i a 0%Z).

(** [v_reverse]: [for (i = 0, j = n-1; i < j; i++, j--)]; with [n = 0] the
    loop does not run. *)
Fixpoint v_reverse_loop (fuel : nat) (a : list Z) (i j : nat) : option (list Z) :=
  match fuel with
  | O => None
  | S fuel' =>
      if i <? j then v_reverse_loop fuel' (v_swap a i j) (i + 1) (j - 1)
      else Some a
  end.

Definition v_reverse (v : Vec) : option Vec :=
  match v_reverse_loop (v_n v + 1) (v_a v) 0 (v_n v - 1) with
  | None => None
  | Some a => Some (mkVec a (v_n v) (v_cap v))
  end.

(** The cells in use, and the invariant of a vector. *)
Definition v_items (v : Vec) : list Z := firstn (v_n v) (v_a v).

(** A call of [v_push] in a run: [v_reserve] calls [realloc] when the vector
    is full. *)
Definition v_push_call (o : Alloc) (v : Vec) (x : Z) : Z * Vec * Alloc :=
  if v_n v + 1 <=? v_cap v then (v_push true v x, o)
  else let '(m, o1) := alloc o in (v_push m v x, o1).

(** *** [is_connected_ignore_isolated] and [graph_has_euler_circuit] *)

(** The first vertex of nonzero degree, [None] for [start == -1]. *)
Definition first_with_degree (g : Graph) : option nat :=
  find (fun i => 0 <? degree_vertex_adj g i) (seq 0 (n g)).

(** [ok] of the last loop. *)
Definition all_with_degree_visited (g : Graph) (vis : list bool) : bool :=
  forallb (fun i => negb ((0 <? degree_vertex_adj g i) && negb (nth i vis false)))
          (seq 0 (n g)).

(** The loop over the degrees: [None] for the early [return 0], else
    [Some sumdeg]. *)
Fixpoint sum_even_degrees (g : Graph) (vs : list nat) (sumdeg : nat) : option nat :=
  match vs with
  | [] => Some sumdeg
  | i :: rest =>
      let d := degree_vertex_adj g i in
      if negb (d mod 2 =? 0) then None
      else sum_even_degrees g rest (sumdeg + d)
  end.

(** The scan of [adj[u]] inside the stack loop: [vis[v] = 1] and then
    [(void)v_push(&st, v)], whose return value is dropped. *)
Definition visit_neighbors (l : list EdgeNode) (s : Vec * list bool * Alloc)
  : Vec * list bool * Alloc :=
  fold_left
    (fun (s : Vec * list bool * Alloc) e =>
       let '(st, vis, o) := s in
       let v := to e in
       if nth v vis false then s
       else
         let '(_, st1, o1) := v_push_call o st (Z.of_nat v) in
         (st1, upd vis v true, o1))
    l s.

(** [while (st.n)]. *)
Fixpoint dfs_loop (fuel : nat) (g : Graph) (s : Vec * list bool * Alloc)
  : option (list bool * Alloc) :=
  match fuel with
  | O => None
  | S fuel' =>
      let '(st, vis, o) := s in
      if v_n st =? 0 then Some (vis, o)
      else
        let '(u, st1) := v_pop st in
        dfs_loop fuel' g (visit_neighbors (head g (Z.to_nat u)) (st1, vis, o))
  end.

(** The result is the return value and the allocation outcomes that are
    left; [None] when the fuel [2 * n] does not suffice for the stack loop.
    When [calloc] fails the answer is 0. *)
Definition is_connected_ignore_isolated (o : Alloc) (g : Graph) : option (bool * Alloc) :=
  match first_with_degree g with
  | None => Some (true, o)
  | Some start =>
      let '(m, o1) := alloc o in
      if negb m then Some (false, o1)
      else
        let '(_, st, o2) := v_push_call o1 (mkVec [] 0 0) (Z.of_nat start) in
        match dfs_loop (2 * n g) g (st, upd (repeat false (n g)) start true, o2) with
        | None => None
        | Some (vis, o3) => Some (all_with_degree_visited g vis, o3)
        end
  end.

Definition graph_has_euler_circuit (o : Alloc) (g : option Graph) : option (bool * Alloc) :=
  match g with
  | None => Some (false, o)
  | Some g =>
      match is_connected_ignore_isolated o g with
      | None => None
      | Some (false, o1) => Some (false, o1)
      | Some (true, o1) =>
          match sum_even_degrees g (seq 0 (n g)) 0 with
          | None => Some (false, o1)
          | Some sumdeg => Some (negb (sumdeg =? 0), o1)
          end
      end
  end.

(** *** [build_edge_view] *)

Record EdgeView : Type := mkEdgeView {
  ev_edges : list (nat * nat);      (* [edges[0 .. m-1]] *)
  ev_incid : list Vec               (* [incid[0 .. n-1]] *)
}.

Definition ev_m (ev : EdgeView) : nat := length (ev_edges ev).

(** The variables of the two nested loops: the view, the capacity [m_est]
    of [edges], [loop_half], and the allocation outcomes that are left. *)
Record ViewState : Type := mkViewState {
  vs_ev : EdgeView;
  vs_m_est : nat;
  vs_loop_half : list nat;
  vs_alloc : Alloc
}.

(** [edges[m] = (u, v)], the two [v_push] calls and [m++], after the
    [realloc] of [edges] when [m == m_est].  [None] is the return value
    -1. *)
Definition view_add_edge (u v : nat) (s : ViewState) : option ViewState :=
  let ev := vs_ev s in
  let m := ev_m ev in
  let grown :=
    if m =? vs_m_est s then
      let '(ok, o1) := alloc (vs_alloc s) in
      if ok then Some (if vs_m_est s =? 0 then 16 else vs_m_est s * 2, o1) else None
    else Some (vs_m_est s, vs_alloc s) in
  match grown with
  | None => None
  | Some (m_est, o1) =>
      let '(rc1, vu, o2) := v_push_call o1 (nth u (ev_incid ev) (mkVec [] 0 0)) (Z.of_nat m) in
      if negb (rc1 =? 0)%Z then None
      else
        let incid1 := upd (ev_incid ev) u vu in
        let '(rc2, vv, o3) := v_push_call o2 (nth v incid1 (mkVec [] 0 0)) (Z.of_nat m) in
        if negb (rc2 =? 0)%Z then None
        else
          Some (mkViewState (mkEdgeView (ev_edges ev ++ [(u, v)]) (upd incid1 v vv))
                  m_est (vs_loop_half s) o3)
  end.

(** The body of the inner loop, for the node [e] of [adj[u]]. *)
Definition view_step (u : nat) (s : option ViewState) (e : EdgeNode) : option ViewState :=
  match s with
  | None => None
  | Some s =>
      let v := to e in
      if u =? v then
        let h := nth u (vs_loop_half s) 0 + 1 in
        let s1 := mkViewState (vs_ev s) (vs_m_est s) (upd (vs_loop_half s) u h) (vs_alloc s) in
        if Nat.even h then view_add_edge u u s1 else Some s1
      else if u <? v then view_add_edge u v s
      else Some s
  end.

(** [None] is the return value -1; otherwise the view, and the allocation
    outcomes that are left. *)
Definition build_edge_view (o : Alloc) (g : Graph) : option (EdgeView * Alloc) :=
  let '(m1, o1) := alloc o in
  if negb m1 then None
  else
    let sumdeg := list_sum (map (degree_vertex_adj g) (seq 0 (n g))) in
    let m_est := sumdeg / 2 + 1 in
    let '(m2, o2) := alloc o1 in
    if negb m2 then None
    else
      let '(m3, o3) := alloc o2 in
      if negb m3 then None
      else
        match fold_left (fun s u => fold_left (view_step u) (head g u) s) (seq 0 (n g))
                (Some (mkViewState (mkEdgeView [] (repeat (mkVec [] 0 0) (n g)))
                         m_est (repeat 0 (n g)) o3)) with
        | None => None
        | Some s => Some (vs_ev s, vs_alloc s)
        end.

(** *** [graph_find_euler_circuit] *)

(** [while (it[u] < incid[u].n && used[incid[u].a[it[u]]]) it[u]++], on the
    cells [l] of [incid[u]] from index [i] on; the result is the new [it[u]]. *)
Fixpoint skip_used (used : list bool) (l : list Z) (i : nat) : nat :=
  match l with
  | [] => i
  | e :: rest => if nth (Z.to_nat e) used false then skip_used used rest (S i) else i
  end.

Record Walk : Type := mkWalk {
  w_stack : Vec;
  w_path : Vec;
  w_used : list bool;
  w_it : list nat;
  w_alloc : Alloc
}.

(** One turn of [while (stack.n)] on a stack that is not empty.  The return
    values of the [v_push] calls are dropped. *)
Definition walk_step (ev : EdgeView) (s : Walk) : Walk :=
  let u := Z.to_nat (v_back (w_stack s)) in
  let inc := nth u (ev_incid ev) (mkVec [] 0 0) in
  let i := skip_used (w_used s) (skipn (nth u (w_it s) 0) (v_items inc)) (nth u (w_it s) 0) in
  if i =? v_n inc then
    let '(_, path1, o1) := v_push_call (w_alloc s) (w_path s) (Z.of_nat u) in
    let '(_, stack1) := v_pop (w_stack s) in
    mkWalk stack1 path1 (w_used s) (upd (w_it s) u i) o1
  else
    let ei := Z.to_nat (nth i (v_a inc) 0%Z) in
    let it' := upd (w_it s) u (i + 1) in
    if negb (nth ei (w_used s) false) then
      let '(a, b) := nth ei (ev_edges ev) (0, 0) in
      let v := if u =? a then b else a in
      let '(_, stack1, o1) := v_push_call (w_alloc s) (w_stack s) (Z.of_nat v) in
      mkWalk stack1 (w_path s) (upd (w_used s) ei true) it' o1
    else mkWalk (w_stack s) (w_path s) (w_used s) it' (w_alloc s).

Fixpoint walk_loop (fuel : nat) (ev : EdgeView) (s : Walk) : option Walk :=
  match fuel with
  | O => None
  | S fuel' =>
      if v_n (w_stack s) =? 0 then Some s
      else walk_loop fuel' ev (walk_step ev s)
  end.

Definition first_incident (ev : EdgeView) : option nat :=
  find (fun i => 0 <? v_n (nth i (ev_incid ev) (mkVec [] 0 0)))
       (seq 0 (length (ev_incid ev))).

(** The part of [graph_find_euler_circuit] before the walk: the test, the
    edge view, the start vertex and the two [calloc] calls.  The outer
    [option] is [None] when a loop runs out of fuel; inside, [None] is the
    return value 0, and otherwise the walk starts with the allocation
    outcomes that are left. *)
Definition find_euler_setup (o : Alloc) (g : Graph)
  : option (option (EdgeView * nat * Alloc)) :=
  match graph_has_euler_circuit o (Some g) with
  | None => None
  | Some (false, _) => Some None
  | Some (true, o1) =>
      match build_edge_view o1 g with
      | None => Some None
      | Some (ev, o2) =>
          match first_incident ev with
          | None => Some None
          | Some start =>
              let '(m1, o3) := alloc o2 in
              let '(m2, o4) := alloc o3 in
              if negb m1 || negb m2 then Some None
              else Some (Some (ev, start, o4))
          end
      end
  end.

(** The outer [option] is [None] when a loop runs out of fuel; inside,
    [None] is the return value 0 and [Some cycle] the return value 1 with
    the vertex numbers [cycle] in [*out_cycle]. *)
Definition graph_find_euler_circuit (o : Alloc) (g : Graph) : option (option (list nat)) :=
  match find_euler_setup o g with
  | None => None
  | Some None => Some None
  | Some (Some (ev, start, o4)) =>
      let '(_, stack, o5) := v_push_call o4 (mkVec [] 0 0) (Z.of_nat start) in
      let s0 := mkWalk stack (mkVec [] 0 0) (repeat false (ev_m ev))
                       (repeat 0 (length (ev_incid ev))) o5 in
      match walk_loop (2 * list_sum (map v_n (ev_incid ev)) + 2) ev s0 with
      | None => None
      | Some s =>
          match v_reverse (w_path s) with
          | None => None
          | Some path =>
              if v_n path <? 1 then Some None
              else Some (Some (map Z.to_nat (v_items path)))
          end
      end
  end.

(** ** Maximum flow ([maxflow.c]) *)

Definition INT_MAX : Z := 2147483647.

Definition INT_MIN : Z := -2147483648.

(** The [int] that 32-bit two's complement arithmetic leaves for the exact
    result [x]: the sums that the code accumulates wrap around, as they do
    in the compiled code. *)
Definition wrap32 (x : Z) : Z := ((x + 2147483648) mod 4294967296 - 2147483648)%Z.

(** [build_capacity_matrix]: the matrix is cleared, then every node
    [u -> v] with [u != v] writes its weight to [capacity_matrix[u][v]]. *)
Definition build_capacity_matrix (g : Graph) : Matrix :=
  fold_left
    (fun m u =>
       fold_left (fun m edge => let v := to edge in
                                if negb (u =? v) then mset m u v (weight edge) else m)
                 (head g u) m)
    (seq 0 (n g)) (zero_matrix (n g)).

(** The circular queue of capacity [cap], as the list of the items between
    [front] and [rear]. *)
Definition queue_enqueue (cap : nat) (q : list nat) (item : nat) : list nat :=
  if cap <=? length q then q else q ++ [item].

Record Bfs : Type := mkBfs {
  b_visited : list bool;
  b_parent : list Z;
  b_queue : list nat;
  b_found : bool
}.

(** The loop [for (v = 0; v < n; v++)] of [bfs_find_path_ok] for the dequeued
    vertex [u], over the vertices [vs] still to look at; reaching the sink
    sets [found] and breaks. *)
Fixpoint bfs_scan (res_graph : Matrix) (n0 u sink : nat) (vs : list nat) (st : Bfs) : Bfs :=
  match vs with
  | [] => st
  | v :: rest =>
      if negb (nth v (b_visited st) false) && (0 <? mget res_graph u v)%Z then
        let parent' := upd (b_parent st) v (Z.of_nat u) in
        let visited' := upd (b_visited st) v true in
        let queue' := queue_enqueue n0 (b_queue st) v in
        if v =? sink then mkBfs visited' parent' queue' true
        else bfs_scan res_graph n0 u sink rest (mkBfs visited' parent' queue' (b_found st))
      else bfs_scan res_graph n0 u sink rest st
  end.

(** [while (!queue_is_empty(q) && !found)]. *)
Fixpoint bfs_loop (fuel : nat) (res_graph : Matrix) (n0 sink : nat) (st : Bfs)
  : option Bfs :=
  match fuel with
  | O => None
  | S fuel' =>
      match b_queue st with
      | [] => Some st
      | u :: q' =>
          if b_found st then Some st
          else bfs_loop fuel' res_graph n0 sink
                 (bfs_scan res_graph n0 u sink (seq 0 n0)
                    (mkBfs (b_visited st) (b_parent st) q' (b_found st)))
      end
  end.

Definition bfs_start (n0 source : nat) (parent : list Z) : Bfs :=
  mkBfs (upd (repeat false n0) source true) (upd parent source (-1)%Z) [source] false.

(** [bfs_find_path]: the value returned, the [parent] array on return and
    the allocation outcomes left.  The [calloc] of [visited] and the two
    [malloc]s of [queue_create] are tested by the code: when one fails the
    function returns 0 before it writes to [parent]. *)
Definition bfs_find_path (o : Alloc) (res_graph : Matrix) (n0 source sink : nat)
    (parent : list Z) : option (bool * list Z * Alloc) :=
  let '(visited_ok, o1) := alloc o in
  if negb visited_ok then Some (false, parent, o1)
  else
    let '(q_ok, o2) := alloc o1 in
    if negb q_ok then Some (false, parent, o2)
    else
      let '(data_ok, o3) := alloc o2 in
      if negb data_ok then Some (false, parent, o3)
      else
        match bfs_loop (n0 + 1) res_graph n0 sink (bfs_start n0 source parent) with
        | None => None
        | Some st => Some (b_found st, b_parent st, o3)
        end.

(** [for (v = sink; v != source; v = parent[v])] of [find_path_flow]. *)
Fixpoint find_path_flow_from (fuel : nat) (res_graph : Matrix) (source v : nat)
    (parent : list Z) (path_flow : Z) : option Z :=
  match fuel with
  | O => None
  | S fuel' =>
      if v =? source then Some path_flow
      else
        let u := Z.to_nat (nth v parent 0%Z) in
        let path_flow' :=
          if (mget res_graph u v <? path_flow)%Z then mget res_graph u v else path_flow in
        find_path_flow_from fuel' res_graph source u parent path_flow'
  end.

Definition find_path_flow (res_graph : Matrix) (n0 source sink : nat) (parent : list Z)
  : option Z :=
  find_path_flow_from (n0 + 1) res_graph source sink parent INT_MAX.

(** [res_graph[u][v] -= path_flow; res_graph[v][u] += path_flow], in 32-bit
    arithmetic. *)
Definition push_flow (res_graph : Matrix) (u v : nat) (path_flow : Z) : Matrix :=
  let r1 := mset res_graph u v (wrap32 (mget res_graph u v - path_flow)) in
  mset r1 v u (wrap32 (mget r1 v u + path_flow)).

Fixpoint update_residual_from (fuel : nat) (res_graph : Matrix) (source v : nat)
    (parent : list Z) (path_flow : Z) : option Matrix :=
  match fuel with
  | O => None
  | S fuel' =>
      if v =? source then Some res_graph
      else
        let u := Z.to_nat (nth v parent 0%Z) in
        update_residual_from fuel' (push_flow res_graph u v path_flow) source u parent path_flow
  end.

Definition update_residual_graph (res_graph : Matrix) (n0 source sink : nat)
    (parent : list Z) (path_flow : Z) : option Matrix :=
  update_residual_from (n0 + 1) res_graph source sink parent path_flow.

(** The Edmonds-Karp loop [while (bfs_find_path(...))] with
    [max_flow += path_flow] in 32-bit arithmetic.  A search that returns 0,
    for want of a path or of memory, ends the loop. *)
Fixpoint max_flow_loop (fuel : nat) (o : Alloc) (res_graph : Matrix) (n0 source sink : nat)
    (parent : list Z) (max_flow : Z) : option Z :=
  match fuel with
  | O => None
  | S fuel' =>
      match bfs_find_path o res_graph n0 source sink parent with
      | None => None
      | Some (false, _, _) => Some max_flow
      | Some (true, parent', o') =>
          match find_path_flow res_graph n0 source sink parent' with
          | None => None
          | Some path_flow =>
              match update_residual_graph res_graph n0 source sink parent' path_flow with
              | None => None
              | Some res_graph' =>
                  max_flow_loop fuel' o' res_graph' n0 source sink parent'
                    (wrap32 (max_flow + path_flow))
              end
          end
      end
  end.

Fixpoint zsum (f : nat -> Z) (k : nat) : Z :=
  match k with
  | O => 0%Z
  | S k' => (zsum f k' + f k')%Z
  end.

(** A bound on the number of augmentations: each takes at least 1 from the
    positive entries of the row of the source. *)
Definition max_flow_fuel (capacity : Matrix) (n0 source : nat) : nat :=
  Z.to_nat (zsum (fun v => Z.max 0 (mget capacity source v)) n0) + 1.

(** The loop [for (i = 0; i < n; i++) res_graph[i] = malloc(...)] of
    [graph_max_flow], which stops at the first row that cannot be
    allocated. *)
Fixpoint alloc_rows (k : nat) (o : Alloc) : bool * Alloc :=
  match k with
  | O => (true, o)
  | S k' => let '(row_ok, o1) := alloc o in
            if row_ok then alloc_rows k' o1 else (false, o1)
  end.

(** [graph_max_flow]: the outer [None] is a loop out of fuel; inside, [None]
    is the return value 0 and [Some v] the return value 1 with
    [*max_flow_value = v].  The allocations are those of [res_graph], of its
    [n] rows and of [parent], in this order, then those of every call of
    [bfs_find_path].  The [parent] array is not initialised by the code; it
    is written before it is read. *)
Definition graph_max_flow (o : Alloc) (g : Graph) (source sink : Z) : option (option Z) :=
  if (source <? 0)%Z || (sink <? 0)%Z || (source >=? Z.of_nat (n g))%Z ||
     (sink >=? Z.of_nat (n g))%Z || (source =? sink)%Z
  then Some None
  else
    let '(res_ok, o1) := alloc o in
    if negb res_ok then Some None
    else
      let '(rows_ok, o2) := alloc_rows (n g) o1 in
      if negb rows_ok then Some None
      else
        let res_graph := build_capacity_matrix g in
        let '(parent_ok, o3) := alloc o2 in
        if negb parent_ok then Some None
        else
          match max_flow_loop (max_flow_fuel res_graph (n g) (Z.to_nat source)) o3
                  res_graph (n g) (Z.to_nat source) (Z.to_nat sink)
                  (repeat 0%Z (n g)) 0%Z with
          | None => None
          | Some v => Some (Some v)
          end.

(** [graph_max_flow_default]; the inner [None] is the return value 0. *)
Definition graph_max_flow_default (o : Alloc) (g : option Graph) : option (option Z) :=
  match g with
  | None => Some None
  | Some g =>
      if n g <? 2 then Some None
      else graph_max_flow o g 0 (Z.of_nat (n g) - 1)
  end.

(** ** Minimum spanning tree ([OS_project/part7/mst.c]) *)

(** *** The priority queue

    The heap is the array [data] with its first [size] cells in use.  A
    cell that was never written holds [pq_node0]; the code reads none. *)

Record PQ_Node : Type := mkPQNode { pq_weight : Z; pq_vertex : nat }.

Record PriorityQueue : Type := mkPQ {
  pq_data : list PQ_Node;
  pq_size : nat;
  pq_capacity : nat
}.

Definition pq_node0 : PQ_Node := mkPQNode 0 0.

Definition pq_get (data : list PQ_Node) (i : nat) : PQ_Node := nth i data pq_node0.

Definition pq_create (capacity : nat) : PriorityQueue :=
  mkPQ (repeat pq_node0 capacity) 0 capacity.

(** [pq_swap(&data[i], &data[j])]. *)
Definition pq_swap (data : list PQ_Node) (i j : nat) : list PQ_Node :=
  upd (upd data i (pq_get data j)) j (pq_get data i).

Fixpoint pq_heapify_up (fuel : nat) (data : list PQ_Node) (index : nat)
  : option (list PQ_Node) :=
  match fuel with
  | O => None
  | S fuel' =>
      if 0 <? index then
        let parent := (index - 1) / 2 in
        if (pq_weight (pq_get data index) >=? pq_weight (pq_get data parent))%Z
        then Some data
        else pq_heapify_up fuel' (pq_swap data index parent) parent
      else Some data
  end.

Fixpoint pq_heapify_down (fuel : nat) (data : list PQ_Node) (size index : nat)
  : option (list PQ_Node) :=
  match fuel with
  | O => None
  | S fuel' =>
      let smallest := index in
      let left := 2 * index + 1 in
      let right := 2 * index + 2 in
      let smallest :=
        if (left <? size)
           && (pq_weight (pq_get data left) <? pq_weight (pq_get data smallest))%Z
        then left else smallest in
      let smallest :=
        if (right <? size)
           && (pq_weight (pq_get data right) <? pq_weight (pq_get data smallest))%Z
        then right else smallest in
      if smallest =? index then Some data
      else pq_heapify_down fuel' (pq_swap data index smallest) size smallest
  end.

(** [pq_push]: the returned integer is 0 when the queue is full. *)
Definition pq_push (pq : PriorityQueue) (weight : Z) (vertex : nat)
  : option (Z * PriorityQueue) :=
  if pq_capacity pq <=? pq_size pq then Some (0%Z, pq)
  else
    match pq_heapify_up (pq_size pq + 1)
            (upd (pq_data pq) (pq_size pq) (mkPQNode weight vertex)) (pq_size pq) with
    | None => None
    | Some data => Some (1%Z, mkPQ data (pq_size pq + 1) (pq_capacity pq))
    end.

(** [pq_pop], called on a queue that is not empty. *)
Definition pq_pop (pq : PriorityQueue) : option (PQ_Node * PriorityQueue) :=
  let result := pq_get (pq_data pq) 0 in
  let size := pq_size pq - 1 in
  if 0 <? size then
    match pq_heapify_down size (upd (pq_data pq) 0 (pq_get (pq_data pq) size)) size 0 with
    | None => None
    | Some data => Some (result, mkPQ data size (pq_capacity pq))
    end
  else Some (result, mkPQ (pq_data pq) size (pq_capacity pq)).

Definition pq_is_empty (pq : PriorityQueue) : bool := pq_size pq =? 0.

(** *** Prim's algorithm *)

(** [build_weight_matrix]: the matrix is cleared, then every node [u -> v]
    with [u != v] writes its weight to [weight_matrix[u][v]]. *)
Definition build_weight_matrix (g : Graph) : Matrix :=
  fold_left
    (fun m u =>
       fold_left (fun m edge => let v := to edge in
                                if negb (u =? v) then mset m u v (weight edge) else m)
                 (head g u) m)
    (seq 0 (n g)) (zero_matrix (n g)).

Record MST_Edge : Type := mkMSTEdge { mst_u : nat; mst_v : nat; mst_weight : Z }.

Record MST_Result : Type := mkMSTResult {
  mst_edges : list MST_Edge;
  num_edges : Z;
  total_weight : Z;
  is_connected : bool
}.

(** The variables of the main loop. *)
Record Prim : Type := mkPrim {
  pr_pq : PriorityQueue;
  pr_in_mst : list bool;
  pr_key : list Z;
  pr_parent : list Z
}.

(** The body of [for (int v = 0; v < n; v++)]. *)
Definition prim_update (weight_matrix : Matrix) (u : nat) (st : Prim) (v : nat)
  : option Prim :=
  let weight := mget weight_matrix u v in
  if (0 <? weight)%Z && negb (nth v (pr_in_mst st) false)
     && (weight <? nth v (pr_key st) 0)%Z
  then
    match pq_push (pr_pq st) weight v with
    | None => None
    | Some (_, pq') =>
        Some (mkPrim pq' (pr_in_mst st) (upd (pr_key st) v weight)
                (upd (pr_parent st) v (Z.of_nat u)))
    end
  else Some st.

Fixpoint prim_scan (weight_matrix : Matrix) (u : nat) (vs : list nat) (st : Prim)
  : option Prim :=
  match vs with
  | [] => Some st
  | v :: vs' =>
      match prim_update weight_matrix u st v with
      | None => None
      | Some st' => prim_scan weight_matrix u vs' st'
      end
  end.

(** [while (!pq_is_empty(pq))]. *)
Fixpoint prim_loop (fuel : nat) (weight_matrix : Matrix) (n0 : nat) (st : Prim)
  : option Prim :=
  match fuel with
  | O => None
  | S fuel' =>
      if pq_is_empty (pr_pq st) then Some st
      else
        match pq_pop (pr_pq st) with
        | None => None
        | Some (current, pq') =>
            let u := pq_vertex current in
            if nth u (pr_in_mst st) false
            then prim_loop fuel' weight_matrix n0
                   (mkPrim pq' (pr_in_mst st) (pr_key st) (pr_parent st))
            else
              match prim_scan weight_matrix u (seq 0 n0)
                      (mkPrim pq' (upd (pr_in_mst st) u true) (pr_key st) (pr_parent st))
              with
              | None => None
              | Some st' => prim_loop fuel' weight_matrix n0 st'
              end
        end
  end.

Definition vertices_in_mst (in_mst : list bool) (n0 : nat) : nat :=
  length (filter (fun i => nth i in_mst false) (seq 0 n0)).

(** The loop that fills [result->edges]: the edges so far, [edge_count] and
    [total_weight], an [int] sum.  [edge_count] stays below [n]. *)
Definition emit_edge (weight_matrix : Matrix) (parent : list Z)
    (acc : list MST_Edge * Z * Z) (v : nat) : list MST_Edge * Z * Z :=
  let '(es, edge_count, total) := acc in
  if negb (nth v parent (-1) =? -1)%Z then
    let p := Z.to_nat (nth v parent (-1)%Z) in
    (es ++ [mkMSTEdge p v (mget weight_matrix p v)],
     (edge_count + 1)%Z, wrap32 (total + mget weight_matrix p v))
  else acc.

Definition emit_edges (weight_matrix : Matrix) (parent : list Z) (n0 : nat)
  : list MST_Edge * Z * Z :=
  fold_left (emit_edge weight_matrix parent) (seq 1 (n0 - 1)) ([], 0%Z, 0%Z).

(** [graph_mst_prim] with every allocation succeeding: the outer [None] is a
    loop out of fuel; inside, [None] is the return value 0 and [Some r] the
    return value 1 with [*result = r]. *)
Definition graph_mst_prim (g : option Graph) : option (option MST_Result) :=
  match g with
  | None => Some None
  | Some g =>
      if n g <? 1 then Some None
      else if n g =? 1 then Some (Some (mkMSTResult [] 0 0 true))
      else
        let weight_matrix := build_weight_matrix g in
        let key := upd (repeat INT_MAX (n g)) 0 0%Z in
        match pq_push (pq_create (n g * n g)) 0 0 with
        | None => None
        | Some (_, pq) =>
            match prim_loop (n g * n g + 2) weight_matrix (n g)
                    (mkPrim pq (repeat false (n g)) key (repeat (-1)%Z (n g))) with
            | None => None
            | Some st =>
                if negb (vertices_in_mst (pr_in_mst st) (n g) =? n g)
                then Some (Some (mkMSTResult [] 0 0 false))
                else
                  let '(es, edge_count, total) :=
                    emit_edges weight_matrix (pr_parent st) (n g) in
                  Some (Some (mkMSTResult es edge_count total true))
            end
        end
  end.

(** [graph_mst_weight]. *)
Definition graph_mst_weight (g : option Graph) : option (option Z) :=
  match graph_mst_prim g with
  | None => None
  | Some None => Some None
  | Some (Some r) => if is_connected r then Some (Some (total_weight r)) else Some None
  end.

(** ** More of the graph module ([graph.c]) *)

(** *** [has_weights] *)

(** [has_weights]: the two loops return 1 at the first node whose weight is
    not 1. *)
Definition has_weights (g : option Graph) : bool :=
  match g with
  | None => false
  | Some g =>
      existsb (fun i => existsb (fun e => negb (weight e =? 1)%Z) (head g i))
              (seq 0 (n g))
  end.

(** ** More of the clique modules ([maxclique.c], [cliquecount.c]) *)

(** *** The other functions of the two files *)

(** The function [graph_max_clique_size] of [maxclique.c] (a lemma on
    [graph_max_clique] has that name): [None] is the return value 0. *)
Definition graph_max_clique_size_only (g : option Graph) : option Z :=
  match g with
  | None => None
  | Some g =>
      let result := graph_max_clique g in
      if negb (mc_is_valid result) then None else Some (mc_size result)
  end.

(** The two loops of [graph_is_clique] over the pairs [i < j]; the flag
    [is_clique] is cleared at the first pair that is not joined, which ends
    both loops. *)
Fixpoint all_pairs_joined (adj_matrix : Matrix) (vertices : list nat) : bool :=
  match vertices with
  | [] => true
  | x :: rest =>
      forallb (fun y => negb (mget adj_matrix x y =? 0)%Z) rest
      && all_pairs_joined adj_matrix rest
  end.

(** [graph_is_clique]; [vertices] holds the [size] cells that are read. *)
Definition graph_is_clique (g : option Graph) (vertices : list Z) : bool :=
  match g with
  | None => false
  | Some g =>
      if length vertices <=? 1 then true
      else if existsb (fun v => (v <? 0)%Z || (Z.of_nat (n g) <=? v)%Z) vertices then false
      else all_pairs_joined (build_adjacency_matrix g) (map Z.to_nat vertices)
  end.

(** Entry of [count_cliques_recursive]:
    [if (current_size > 0 && current_size <= max_possible_size)
       counts_by_size[current_size]++].  The counters are exact, as [count]
    is in [count_size_loop]. *)
Definition count_clique (current_size max_possible_size : nat) (counts_by_size : list Z)
  : list Z :=
  if (0 <? current_size) && (current_size <=? max_possible_size)
  then upd counts_by_size current_size (nth current_size counts_by_size 0%Z + 1)%Z
  else counts_by_size.

(** The loop of [count_cliques_recursive] over the vertices still to try. *)
Fixpoint count_cliques_loop (adj_matrix : Matrix) (cands : list nat)
    (current_clique : list nat) (counts_by_size : list Z) (max_possible_size : nat)
    {struct cands} : list Z :=
  match cands with
  | [] => counts_by_size
  | v :: rest =>
      let counts' :=
        if is_connected_to_all adj_matrix v current_clique
        then count_cliques_loop adj_matrix rest (current_clique ++ [v])
               (count_clique (length (current_clique ++ [v])) max_possible_size counts_by_size)
               max_possible_size
        else counts_by_size in
      count_cliques_loop adj_matrix rest current_clique counts' max_possible_size
  end.

Definition count_cliques_recursive (adj_matrix : Matrix) (n0 start_vertex : nat)
    (current_clique : list nat) (counts_by_size : list Z) (max_possible_size : nat)
  : list Z :=
  count_cliques_loop adj_matrix (seq start_vertex (n0 - start_vertex)) current_clique
    (count_clique (length current_clique) max_possible_size counts_by_size)
    max_possible_size.

Record CliqueCount_Result : Type := mkCliqueCount {
  cc_counts_by_size : list Z;
  cc_max_size : Z;
  cc_total_cliques : Z;
  cc_is_valid : bool
}.

(** The loop [for (i = 1; i <= n; i++)] of [graph_count_all_cliques] on the
    pair [(total, max_size)]; [total] is the exact sum. *)
Definition total_and_max (counts_by_size : list Z) (sizes : list nat) : Z * Z :=
  fold_left (fun (acc : Z * Z) i =>
               if (0 <? nth i counts_by_size 0)%Z
               then (fst acc + nth i counts_by_size 0, Z.of_nat i)%Z
               else acc)
            sizes (0%Z, 0%Z).

Definition graph_count_all_cliques (g : Graph) : CliqueCount_Result :=
  if n g =? 0 then mkCliqueCount [] 0 0 true
  else
    let counts :=
      count_cliques_recursive (build_adjacency_matrix g) (n g) 0 []
        (repeat 0%Z (n g + 1)) (n g) in
    let tm := total_and_max counts (seq 1 (n g)) in
    mkCliqueCount counts (snd tm) (fst tm) true.

(** [graph_count_triangles]: the three loops [i < j < k]. *)
Definition graph_count_triangles (g : Graph) : Z :=
  if n g <? 3 then 0%Z
  else
    let adj_matrix := build_adjacency_matrix g in
    fold_left
      (fun count i =>
         fold_left
           (fun count j =>
              if negb (mget adj_matrix i j =? 0)%Z then
                fold_left
                  (fun count k =>
                     if negb (mget adj_matrix i k =? 0)%Z && negb (mget adj_matrix j k =? 0)%Z
                     then (count + 1)%Z else count)
                  (seq (j + 1) (n g - (j + 1))) count
              else count)
           (seq (i + 1) (n g - (i + 1))) count)
      (seq 0 (n g)) 0%Z.

(** [graph_count_edges]: the nodes [u -> v] with [u < v]. *)
Definition graph_count_edges (g : Graph) : Z :=
  fold_left
    (fun count u =>
       fold_left (fun count edge => if u <? to edge then (count + 1)%Z else count)
                 (head g u) count)
    (seq 0 (n g)) 0%Z.

Definition graph_total_clique_count (g : Graph) : option Z :=
  let result := graph_count_all_cliques g in
  if negb (cc_is_valid result) then None else Some (cc_total_cliques result).

Definition graph_has_cliques_of_size (g : Graph) (clique_size : Z) : bool :=
  match graph_count_cliques_of_size g clique_size with
  | None => false
  | Some count => (0 <? count)%Z
  end.

(** ** More of the flow module ([maxflow.c]) *)

(** *** The queue *)

(** The [Queue] of the breadth-first search as the code has it: the cells
    [data], the indices [front] and [rear], the number [size] of items.  A
    cell is written before it is read; a cell never written holds 0 here. *)
Record Queue : Type := mkQueue {
  q_data : list Z;
  q_front : nat;
  q_rear : nat;
  q_size : nat;
  q_capacity : nat
}.

Definition queue_create (capacity : nat) : Queue :=
  mkQueue (repeat 0%Z capacity) 0 0 0 capacity.

Definition queue_is_empty (q : Queue) : bool := q_size q =? 0.

(** [queue_enqueue] on the cells ([queue_enqueue] above is its effect on the
    list of the items); the result is the return value and the queue after
    the call. *)
Definition queue_enqueue_cells (q : Queue) (item : Z) : Z * Queue :=
  if q_capacity q <=? q_size q then (0%Z, q)
  else (1%Z, mkQueue (upd (q_data q) (q_rear q) item) (q_front q)
                     ((q_rear q + 1) mod q_capacity q) (q_size q + 1) (q_capacity q)).

Definition queue_dequeue (q : Queue) : Z * Queue :=
  if queue_is_empty q then ((-1)%Z, q)
  else (nth (q_front q) (q_data q) 0%Z,
        mkQueue (q_data q) ((q_front q + 1) mod q_capacity q) (q_rear q)
                (q_size q - 1) (q_capacity q)).

(** ** The graphs that the servers build *)

(** *** What a request asks for *)

(** The loops of [process_unweighted_request] ([OS_project/part7/server.c],
    and the same loops in [FinalProject/part8/server.c]) over the adjacency
    matrix that starts at [buffer[2]]: the diagonal and the part above it
    are read; the request was checked to hold [2 + n * n] integers.  The
    return value of [graph_add_edge] is dropped (part 8) or only counted
    for the log (part 7). *)
Definition matrix_row_edges (buffer : list Z) (n0 i : nat) (st : Graph * Alloc)
  : Graph * Alloc :=
  fold_left
    (fun (st : Graph * Alloc) j =>
       if (nth (2 + i * n0 + j) buffer 0 =? 1)%Z
       then
         let '(_, g1, o1) := graph_add_edge_call (snd st) (fst st) (Z.of_nat i) (Z.of_nat j) in
         (g1, o1)
       else st)
    (seq i (n0 - i)) st.

Definition process_unweighted_request (o : Alloc) (buffer : list Z) (n0 : nat) (g : Graph)
  : Graph :=
  fst (fold_left (fun st i => matrix_row_edges buffer n0 i st) (seq 0 n0) (g, o)).

(** ** All the maximal cliques ([maxclique.c]) *)

(** *** [bron_kerbosch] and [graph_find_all_maximal_cliques] *)

(** The cells of an array that are joined to [v], in their order: what the
    loops that fill [P_new] and [X_new] keep. *)
Definition neighbours_in (adj_matrix : Matrix) (v : nat) (cells : list nat) : list nat :=
  filter (fun u => negb (mget adj_matrix v u =? 0)%Z) cells.

(** The loop that moves [v] out of [P]: the first cell equal to [v] is
    removed and the cells after it move down. *)
Fixpoint remove_first (v : nat) (P : list nat) : list nat :=
  match P with
  | [] => []
  | x :: rest => if x =? v then rest else x :: remove_first v rest
  end.

(** The loop [for (i = 0; i < P_copy_size; i++)] of [bron_kerbosch]; [rec]
    is the recursive call.  [R], [P] and [X] are the cells in use of the
    three arrays. *)
Fixpoint bk_loop
    (rec : list nat -> list nat -> list nat -> list MaxClique_Result ->
           option (list MaxClique_Result))
    (adj_matrix : Matrix) (R P_copy P X : list nat) (results : list MaxClique_Result)
    {struct P_copy} : option (list MaxClique_Result) :=
  match P_copy with
  | [] => Some results
  | v :: rest =>
      match rec (R ++ [v]) (neighbours_in adj_matrix v P) (neighbours_in adj_matrix v X)
                results with
      | None => None
      | Some results' =>
          bk_loop rec adj_matrix R rest (remove_first v P) (X ++ [v]) results'
      end
  end.

(** [bron_kerbosch], with every allocation succeeding; [None] when the fuel
    runs out. *)
Fixpoint bron_kerbosch (fuel : nat) (adj_matrix : Matrix) (R P X : list nat)
    (results : list MaxClique_Result) {struct fuel} : option (list MaxClique_Result) :=
  match fuel with
  | O => None
  | S fuel' =>
      if (length P =? 0) && (length X =? 0)
      then Some (results ++ [mkMaxClique R (Z.of_nat (length R)) true])
      else bk_loop (bron_kerbosch fuel' adj_matrix) adj_matrix R P P X results
  end.

(** [graph_find_all_maximal_cliques]: the cliques stored in [*max_cliques],
    the return value being 1. *)
Definition graph_find_all_maximal_cliques (g : Graph) : option (list MaxClique_Result) :=
  if n g =? 0 then Some []
  else bron_kerbosch (n g + 1) (build_adjacency_matrix g) [] (seq 0 (n g)) [] [].

(** * Notions of the specification and of the proofs *)

(** ** The graph module and the servers *)

(** *** Weighted request handling of the servers

    The servers receive triplets [(src, dest, weight)], add the edge with
    [graph_add_edge] and then overwrite the weight fields by hand. *)

(** **** The loops in a run without allocation failure *)

Definition all_succeed (o : Alloc) : Prop := Forall (fun m => m = true) o.

Definition process_triplet_ok (g : Graph) (t : Z * Z * Z) : Graph :=
  let '(src, dest, w) := t in
  if triplet_ok g src dest w then
    let g1 := snd (graph_add_edge true true g src dest) in
    rewrite_weights g1 (Z.to_nat src) (Z.to_nat dest) w
  else g.

Definition process_weighted_request_ok (g : Graph) (ts : list (Z * Z * Z)) : Graph :=
  fold_left process_triplet_ok ts g.

Definition mst_add_triplet_ok (st : Graph * list (nat * nat * Z)) (t : Z * Z * Z)
  : Graph * list (nat * nat * Z) :=
  let '(g, weighted_edges) := st in
  let '(src, dest, w) := t in
  if (src <? 0)%Z || (src >=? Z.of_nat (n g))%Z ||
     (dest <? 0)%Z || (dest >=? Z.of_nat (n g))%Z then st
  else if (w <=? 0)%Z then st
  else
    let '(result, g1) := graph_add_edge true true g src dest in
    if (result =? 0)%Z
    then (g1, weighted_edges ++ [(Z.to_nat src, Z.to_nat dest, w)])
    else (g1, weighted_edges).

(** The two loops of [process_mst_weighted_request]. *)
Definition process_mst_weighted_request_ok (g : Graph) (ts : list (Z * Z * Z)) : Graph :=
  let '(g1, weighted_edges) := fold_left mst_add_triplet_ok ts (g, []) in
  fold_left mst_rewrite weighted_edges g1.

(** *** Graphs built through the interface *)

Inductive GraphOp : Type :=
| AddEdge (m1 m2 : bool) (u v : Z)
| AddWeightedEdge (m1 m2 : bool) (u v w : Z).

Definition apply_op (g : Graph) (o : GraphOp) : Graph :=
  match o with
  | AddEdge m1 m2 u v => snd (graph_add_edge m1 m2 g u v)
  | AddWeightedEdge m1 m2 u v w => snd (graph_add_weighted_edge m1 m2 g u v w)
  end.

Definition apply_ops (g : Graph) (os : list GraphOp) : Graph := fold_left apply_op os g.

Definition op_weight_positive (o : GraphOp) : Prop :=
  match o with
  | AddEdge _ _ _ _ => True
  | AddWeightedEdge _ _ _ _ w => (1 <= w)%Z
  end.

(** The representation invariant of [graph.h]: [n > 0] lists, every [to] in
    range, a non-loop edge stored once in each endpoint's list with the same
    weight, a self-loop stored as two nodes of its vertex. *)
Record graph_wf (g : Graph) : Prop := mk_graph_wf {
  wf_pos : 0 < n g;
  wf_len : length (adj g) = n g;
  wf_to : forall u e, In e (head g u) -> to e < n g;
  wf_sym : forall u v w, u <> v ->
      (In (mkEdgeNode v w) (head g u) <-> In (mkEdgeNode u w) (head g v));
  wf_simple : forall u v, u <> v -> count_neighbor g u v <= 1;
  wf_loop : forall u, count_neighbor g u u = 0 \/ count_neighbor g u u = 2
}.
Arguments wf_pos {g}.
Arguments wf_len {g}.
Arguments wf_to {g}.
Arguments wf_sym {g}.
Arguments wf_simple {g}.
Arguments wf_loop {g}.

Definition weights_ge_1 (g : Graph) : Prop :=
  forall u e, In e (head g u) -> (1 <= weight e)%Z.

(** *** Properties of the graph interface *)

(** An edge [a]-[b] that is present, all its nodes in [adj[a]] having the
    weight [w]. *)
Definition edge_has_weight (g : Graph) (a b : nat) (w : Z) : Prop :=
  0 < count_neighbor g a b /\
  forall e, In e (head g a) -> to e = b -> weight e = w.

(** ** Cliques ([maxclique.c], [cliquecount.c]) *)

(** *** The cliques both searches enumerate *)

(** The proper extensions of [current_clique] by increasing vertices of
    [cands], each new vertex adjacent to all the earlier ones, in the order
    in which the backtracking visits them. *)
Fixpoint extensions (adj_matrix : Matrix) (cands : list nat) (current_clique : list nat)
  : list (list nat) :=
  match cands with
  | [] => []
  | v :: rest =>
      (if is_connected_to_all adj_matrix v current_clique
       then (current_clique ++ [v]) :: extensions adj_matrix rest (current_clique ++ [v])
       else [])
      ++ extensions adj_matrix rest current_clique
  end.

Definition max_length (l : list (list nat)) : nat :=
  fold_right (fun c m => Nat.max (length c) m) 0 l.

Definition count_length (l : list (list nat)) (k : Z) : nat :=
  length (filter (fun c => (Z.of_nat (length c) =? k)%Z) l).

(** ** Euler circuits ([graph.c]) *)

(** *** The [Vec] of the Euler code *)

Definition vec_ok (v : Vec) : Prop := v_n v <= v_cap v /\ length (v_a v) = v_cap v.

(** *** The run without allocation failure

    With every allocation succeeding a [Vec] is the list of its cells in
    use; the stack of the two loops has its top first. *)

(** The scan of [adj[u]] inside the stack loop.  The stack [st] is a [Vec]
    whose last element is the head of the list. *)
Definition visit_neighbors_ok (l : list EdgeNode) (st : list nat) (vis : list bool)
  : list nat * list bool :=
  fold_left
    (fun (s : list nat * list bool) e =>
       let v := to e in
       if nth v (snd s) false then s else (v :: fst s, upd (snd s) v true))
    l (st, vis).

Fixpoint dfs_loop_ok (fuel : nat) (g : Graph) (st : list nat) (vis : list bool)
  : option (list bool) :=
  match fuel with
  | O => None
  | S fuel' =>
      match st with
      | [] => Some vis
      | u :: st' =>
          let s := visit_neighbors_ok (head g u) st' vis in
          dfs_loop_ok fuel' g (fst s) (snd s)
      end
  end.

(** [None] when the fuel [2 * n] does not suffice for the stack loop. *)
Definition is_connected_ignore_isolated_ok (g : Graph) : option bool :=
  match first_with_degree g with
  | None => Some true
  | Some start =>
      match dfs_loop_ok (2 * n g) g [start] (upd (repeat false (n g)) start true) with
      | None => None
      | Some vis => Some (all_with_degree_visited g vis)
      end
  end.

Definition graph_has_euler_circuit_ok (g : option Graph) : option bool :=
  match g with
  | None => Some false
  | Some g =>
      match is_connected_ignore_isolated_ok g with
      | None => None
      | Some false => Some false
      | Some true =>
          match sum_even_degrees g (seq 0 (n g)) 0 with
          | None => Some false
          | Some sumdeg => Some (negb (sumdeg =? 0))
          end
      end
  end.

Record EdgeView_ok : Type := mkEdgeView_ok {
  evk_edges : list (nat * nat);      (* [edges[0 .. m-1]] *)
  evk_incid : list (list nat)        (* [incid[0 .. n-1]], each a [Vec] *)
}.

Definition evk_m (ev : EdgeView_ok) : nat := length (evk_edges ev).

(** [v_push(&ev->incid[u], x)]. *)
Definition incid_push_ok (incid : list (list nat)) (u x : nat) : list (list nat) :=
  upd incid u (nth u incid [] ++ [x]).

(** State of the two nested loops: the view and [loop_half]. *)
Definition view_step_ok (u : nat) (s : EdgeView_ok * list nat) (e : EdgeNode)
  : EdgeView_ok * list nat :=
  let '(ev, loop_half) := s in
  let v := to e in
  if u =? v then
    let h := nth u loop_half 0 + 1 in
    let loop_half' := upd loop_half u h in
    if Nat.even h then
      let m := evk_m ev in
      (mkEdgeView_ok (evk_edges ev ++ [(u, u)]) (incid_push_ok (incid_push_ok (evk_incid ev) u m) u m),
       loop_half')
    else (ev, loop_half')
  else if u <? v then
    let m := evk_m ev in
    (mkEdgeView_ok (evk_edges ev ++ [(u, v)]) (incid_push_ok (incid_push_ok (evk_incid ev) u m) v m),
     loop_half)
  else s.

Definition build_edge_view_ok (g : Graph) : EdgeView_ok :=
  fst (fold_left (fun s u => fold_left (view_step_ok u) (head g u) s)
                 (seq 0 (n g))
                 (mkEdgeView_ok [] (repeat [] (n g)), repeat 0 (n g))).

(** [while (it[u] < incid[u].n && used[incid[u].a[it[u]]]) it[u]++], on the
    part [l] of [incid[u]] from index [i] on; the result is the new [it[u]]. *)
Fixpoint skip_used_ok (used : list bool) (l : list nat) (i : nat) : nat :=
  match l with
  | [] => i
  | e :: rest => if nth e used false then skip_used_ok used rest (S i) else i
  end.

Record Walk_ok : Type := mkWalk_ok {
  wk_stack : list nat;      (* top first *)
  wk_path : list nat;       (* in push order *)
  wk_used : list bool;
  wk_it : list nat
}.

(** One turn of [while (stack.n)] on a nonempty stack [u :: rest]. *)
Definition walk_step_ok (ev : EdgeView_ok) (u : nat) (rest : list nat) (s : Walk_ok) : Walk_ok :=
  let inc := nth u (evk_incid ev) [] in
  let i := skip_used_ok (wk_used s) (skipn (nth u (wk_it s) 0) inc) (nth u (wk_it s) 0) in
  if i =? length inc then
    mkWalk_ok rest (wk_path s ++ [u]) (wk_used s) (upd (wk_it s) u i)
  else
    let ei := nth i inc 0 in
    let it' := upd (wk_it s) u (i + 1) in
    if negb (nth ei (wk_used s) false) then
      let '(a, b) := nth ei (evk_edges ev) (0, 0) in
      let v := if u =? a then b else a in
      mkWalk_ok (v :: u :: rest) (wk_path s) (upd (wk_used s) ei true) it'
    else mkWalk_ok (u :: rest) (wk_path s) (wk_used s) it'.

Fixpoint walk_loop_ok (fuel : nat) (ev : EdgeView_ok) (s : Walk_ok) : option Walk_ok :=
  match fuel with
  | O => None
  | S fuel' =>
      match wk_stack s with
      | [] => Some s
      | u :: rest => walk_loop_ok fuel' ev (walk_step_ok ev u rest s)
      end
  end.

Definition first_incident_ok (ev : EdgeView_ok) : option nat :=
  find (fun i => 0 <? length (nth i (evk_incid ev) [])) (seq 0 (length (evk_incid ev))).

(** The outer [option] is [None] when a loop runs out of fuel; inside,
    [None] is the return value 0 and [Some cycle] the return value 1 with
    [*out_cycle = cycle]. *)
Definition graph_find_euler_circuit_ok (g : Graph) : option (option (list nat)) :=
  match graph_has_euler_circuit_ok (Some g) with
  | None => None
  | Some false => Some None
  | Some true =>
      let ev := build_edge_view_ok g in
      match first_incident_ok ev with
      | None => Some None
      | Some start =>
          let s0 := mkWalk_ok [start] [] (repeat false (evk_m ev))
                           (repeat 0 (length (evk_incid ev))) in
          match walk_loop_ok (2 * length (concat (evk_incid ev)) + 2) ev s0 with
          | None => None
          | Some s =>
              let path := rev (wk_path s) in
              if length path <? 1 then Some None else Some (Some path)
          end
      end
  end.

(** *** Adjacency, reachability, degrees *)

Definition adjacent (g : Graph) (u v : nat) : Prop := In v (map to (head g u)).

Definition adjacentb (g : Graph) (u v : nat) : bool := 0 <? count_neighbor g u v.

Inductive reach (g : Graph) (u : nat) : nat -> Prop :=
| reach_refl : reach g u u
| reach_step : forall v w, reach g u v -> adjacent g v w -> reach g u w.

Definition non_isolated (g : Graph) (u : nat) : Prop := exists v, adjacent g u v.

(** The vertices that have an edge are pairwise joined by a path. *)
Definition connected_ignoring_isolated (g : Graph) : Prop :=
  forall u v, non_isolated g u -> non_isolated g v -> reach g u v.

Fixpoint sum_n (f : nat -> nat) (k : nat) : nat :=
  match k with
  | O => 0
  | S k' => sum_n f k' + f k'
  end.

(** The degree of [v] in the undirected graph: one for each other vertex
    joined to [v], two for a self-loop. *)
Definition degree (g : Graph) (v : nat) : nat :=
  sum_n (fun u => if adjacentb g v u then (if u =? v then 2 else 1) else 0) (n g).

Definition has_an_edge (g : Graph) : Prop := exists u v, adjacent g u v.

(** *** The stack loop of [is_connected_ignore_isolated_ok] *)

Definition unvisited (vis : list bool) : nat := length (filter negb vis).

(** ** The edge view and the Hierholzer walk *)

(** *** Incidence lists as a function of the edge array *)

(** How many ends of edge number [e] are at vertex [x]. *)
Definition ends_at (p : nat * nat) (x : nat) : nat :=
  (if fst p =? x then 1 else 0) + (if snd p =? x then 1 else 0).

Definition occ (es : list (nat * nat)) (e x : nat) : nat := ends_at (nth e es (0, 0)) x.

Definition incid_of (es : list (nat * nat)) (x : nat) : list nat :=
  flat_map (fun e => repeat e (occ es e x)) (seq 0 (length es)).

(** *** The invariant of the loops of [build_edge_view_ok] *)

Record view_ok (nv : nat) (ev : EdgeView_ok) : Prop := mk_view_ok {
  vo_len : length (evk_incid ev) = nv;
  vo_incid : forall x, x < nv -> nth x (evk_incid ev) [] = incid_of (evk_edges ev) x;
  vo_range : forall a b, In (a, b) (evk_edges ev) -> a <= b /\ b < nv
}.

(** The edges appended while the list [l] of vertex [u] is scanned, [h] being
    the value of [loop_half[u]] before the scan. *)
Fixpoint scan_edges (u : nat) (l : list EdgeNode) (h : nat) : list (nat * nat) :=
  match l with
  | [] => []
  | e :: rest =>
      if u =? to e then
        (if Nat.even (h + 1) then [(u, u)] else []) ++ scan_edges u rest (h + 1)
      else if u <? to e then (u, to e) :: scan_edges u rest h
      else scan_edges u rest h
  end.

(** *** Counting the pairs of the edge array *)

Definition pair_dec : forall p q : nat * nat, {p = q} + {p <> q}.
Proof. decide equality; apply Nat.eq_dec. Defined.

Definition count_pair (es : list (nat * nat)) (a b : nat) : nat :=
  count_occ pair_dec es (a, b).

(** How often the pair [(a, b)] occurs in the edge array of a well-formed
    graph. *)
Definition edge_multiplicity (g : Graph) (a b : nat) : nat :=
  if a =? b then Nat.div2 (count_neighbor g a a)
  else if a <? b then count_neighbor g a b else 0.

(** *** The circuit returned by [graph_find_euler_circuit_ok] *)

(** The undirected edges of a graph, each once: the pairs [(u, v)] with
    [u <= v] whose ends are adjacent; [(u, u)] is a self-loop. *)
Definition undirected_edges (g : Graph) : list (nat * nat) :=
  flat_map (fun u => map (pair u) (filter (adjacentb g u) (seq u (n g - u))))
           (seq 0 (n g)).

(** The steps of a vertex sequence, and a step as an undirected pair. *)
Fixpoint steps (c : list nat) : list (nat * nat) :=
  match c with
  | x :: ((y :: _) as rest) => (x, y) :: steps rest
  | _ => []
  end.

Definition undirected (p : nat * nat) : nat * nat :=
  (Nat.min (fst p) (snd p), Nat.max (fst p) (snd p)).

(** ** Maximum flow ([maxflow.c]) *)

(** *** The run in exact arithmetic without allocation failure *)

Definition bfs_find_path_ok (res_graph : Matrix) (n0 source sink : nat) (parent : list Z)
  : option (bool * list Z) :=
  match bfs_loop (n0 + 1) res_graph n0 sink (bfs_start n0 source parent) with
  | None => None
  | Some st => Some (b_found st, b_parent st)
  end.

Definition push_flow_ok (res_graph : Matrix) (u v : nat) (path_flow : Z) : Matrix :=
  let r1 := mset res_graph u v (mget res_graph u v - path_flow)%Z in
  mset r1 v u (mget r1 v u + path_flow)%Z.

Fixpoint update_residual_from_ok (fuel : nat) (res_graph : Matrix) (source v : nat)
    (parent : list Z) (path_flow : Z) : option Matrix :=
  match fuel with
  | O => None
  | S fuel' =>
      if v =? source then Some res_graph
      else
        let u := Z.to_nat (nth v parent 0%Z) in
        update_residual_from_ok fuel' (push_flow_ok res_graph u v path_flow) source u parent
          path_flow
  end.

Definition update_residual_graph_ok (res_graph : Matrix) (n0 source sink : nat)
    (parent : list Z) (path_flow : Z) : option Matrix :=
  update_residual_from_ok (n0 + 1) res_graph source sink parent path_flow.

Fixpoint max_flow_loop_ok (fuel : nat) (res_graph : Matrix) (n0 source sink : nat)
    (parent : list Z) (max_flow : Z) : option Z :=
  match fuel with
  | O => None
  | S fuel' =>
      match bfs_find_path_ok res_graph n0 source sink parent with
      | None => None
      | Some (false, _) => Some max_flow
      | Some (true, parent') =>
          match find_path_flow res_graph n0 source sink parent' with
          | None => None
          | Some path_flow =>
              match update_residual_graph_ok res_graph n0 source sink parent' path_flow with
              | None => None
              | Some res_graph' =>
                  max_flow_loop_ok fuel' res_graph' n0 source sink parent'
                    (max_flow + path_flow)%Z
              end
          end
      end
  end.

Definition graph_max_flow_ok (g : Graph) (source sink : Z) : option (option Z) :=
  if (source <? 0)%Z || (sink <? 0)%Z || (source >=? Z.of_nat (n g))%Z ||
     (sink >=? Z.of_nat (n g))%Z || (source =? sink)%Z
  then Some None
  else
    let res_graph := build_capacity_matrix g in
    match max_flow_loop_ok (max_flow_fuel res_graph (n g) (Z.to_nat source))
            res_graph (n g) (Z.to_nat source) (Z.to_nat sink)
            (repeat 0%Z (n g)) 0%Z with
    | None => None
    | Some v => Some (Some v)
    end.

(** *** Sums of integers and matrices *)

(** An [n x n] matrix. *)
Definition mdim (k : nat) (m : Matrix) : Prop :=
  length m = k /\ forall i, (i < k)%nat -> length (nth i m []) = k.

(** The matrix filled from the adjacency lists. *)
Fixpoint last_weight (l : list EdgeNode) (v : nat) (d : Z) : Z :=
  match l with
  | [] => d
  | e :: rest => last_weight rest v (if (to e =? v)%nat then weight e else d)
  end.

(** *** Augmenting along a chain *)

Definition rsum (k : nat) (M : Matrix) (x : nat) : Z := zsum (mget M x) k.

(** *** Flows and cuts *)

(** The capacity of the cut [(S, V \ S)] in the matrix [M]. *)
Definition cut_capacity (M : Matrix) (k : nat) (S : nat -> bool) : Z :=
  zsum (fun a => zsum (fun b => if S a && negb (S b) then mget M a b else 0%Z) k) k.

Definition is_cut (s t : nat) (S : nat -> bool) : Prop := S s = true /\ S t = false.

(** *** Edge-disjoint paths *)

(** A path from [s] to [t]: a vertex sequence whose consecutive vertices are
    joined by an edge. *)
Definition is_path (g : Graph) (s t : nat) (p : list nat) : Prop :=
  hd_error p = Some s /\ last p s = t /\
  forall a b, In (a, b) (steps p) -> adjacent g a b.

(** Paths that use every undirected edge at most once between them. *)
Definition edge_disjoint_paths (g : Graph) (s t : nat) (ps : list (list nat)) : Prop :=
  Forall (is_path g s t) ps /\
  NoDup (flat_map (fun p => map undirected (steps p)) ps).

Definition mk_matrix (k : nat) (f : nat -> nat -> Z) : Matrix :=
  map (fun a => map (f a) (seq 0 k)) (seq 0 k).

(** *** [graph_max_flow_ok] on a graph *)

Definition weights_nonneg (g : Graph) : Prop :=
  forall u e, In e (head g u) -> (0 <= weight e)%Z.

Definition unit_weights (g : Graph) : Prop :=
  forall u e, In e (head g u) -> weight e = 1%Z.

(** ** Minimum spanning tree ([OS_project/part7/mst.c]) *)

(** *** The heap *)

(** The entries in the queue. *)
Definition pq_live (data : list PQ_Node) (size : nat) (e : PQ_Node) : Prop :=
  exists i, i < size /\ pq_get data i = e.

(** Every cell in use weighs at least as much as its parent. *)
Definition heap_ok (data : list PQ_Node) (size : nat) : Prop :=
  forall i, 0 < i < size ->
    (pq_weight (pq_get data ((i - 1) / 2)) <= pq_weight (pq_get data i))%Z.

(** The queue as Prim's loop sees it. *)
Definition pq_in (pq : PriorityQueue) (e : PQ_Node) : Prop :=
  pq_live (pq_data pq) (pq_size pq) e.

Record pq_wf (pq : PriorityQueue) : Prop := mk_pq_wf {
  pqw_heap : heap_ok (pq_data pq) (pq_size pq);
  pqw_size : pq_size pq <= pq_capacity pq;
  pqw_len : length (pq_data pq) = pq_capacity pq
}.

(** *** Trees grown by lightest crossing edges *)

(** The vertices of the tree grown from vertex 0 by the edges
    [(parent, vertex)] of [tr], the latest first. *)
Definition in_tree (tr : list (nat * nat)) (x : nat) : bool :=
  (x =? 0) || existsb (fun e => snd e =? x) tr.

(** Each edge joins a tree vertex to a new one and is a lightest edge
    that leaves the tree. *)
Inductive prim_trace (w : nat -> nat -> Z) (nv : nat) : list (nat * nat) -> Prop :=
| pt_nil : prim_trace w nv []
| pt_cons : forall p v tr,
    prim_trace w nv tr ->
    in_tree tr p = true -> in_tree tr v = false -> v < nv ->
    (0 < w p v)%Z ->
    (forall a b, in_tree tr a = true -> in_tree tr b = false -> b < nv ->
                 (0 < w a b)%Z -> (w p v <= w a b)%Z) ->
    prim_trace w nv ((p, v) :: tr).

Definition tree_step (T : list (nat * nat)) (a b : nat) : Prop :=
  In (a, b) T \/ In (b, a) T.

(** [x] and [y] are joined by edges of [T]. *)
Inductive joined (T : list (nat * nat)) (x : nat) : nat -> Prop :=
| joined_refl : joined T x x
| joined_step : forall y z, joined T x y -> tree_step T y z -> joined T x z.

(** Joined by edges of [T] between vertices outside [S]. *)
Inductive joined_out (T : list (nat * nat)) (S : nat -> bool) (x : nat) : nat -> Prop :=
| jo_refl : joined_out T S x x
| jo_step : forall y z, joined_out T S x y -> S y = false -> S z = false ->
                        tree_step T y z -> joined_out T S x z.

Definition edges_weight (w : nat -> nat -> Z) (T : list (nat * nat)) : Z :=
  fold_right (fun e acc => (w (fst e) (snd e) + acc)%Z) 0%Z T.

Definition zsum_list {A : Type} (f : A -> Z) (l : list A) : Z :=
  fold_right (fun x acc => (f x + acc)%Z) 0%Z l.

(** *** The main loop of [graph_mst_prim] *)

(** The vertices of [vs] that are not in the tree. *)
Definition out_count (in_mst : list bool) (vs : list nat) : nat :=
  length (filter (fun x => negb (nth x in_mst false)) vs).

(** *** [graph_mst_prim] on a graph *)

(** A spanning tree of [g]: [n - 1] edges of [g] that join every vertex to
    vertex 0. *)
Definition spanning_tree (g : Graph) (T : list (nat * nat)) : Prop :=
  (forall a b, In (a, b) T -> a <> b /\ adjacent g a b) /\
  length T = n g - 1 /\
  (forall x, x < n g -> joined T 0 x).

Definition tree_weight (g : Graph) (T : list (nat * nat)) : Z :=
  zsum_list (fun e => graph_get_edge_weight (Some g) (Z.of_nat (fst e)) (Z.of_nat (snd e))) T.

(** The emitted edges as pairs of vertices. *)
Definition mst_pairs (r : MST_Result) : list (nat * nat) :=
  map (fun e => (mst_u e, mst_v e)) (mst_edges r).

(** ** More of the clique modules ([maxclique.c], [cliquecount.c]) *)

(** *** Cliques of a graph *)

(** A list of vertices in strictly increasing order, the first at least [lo]. *)
Fixpoint increasing_from (lo : nat) (c : list nat) : Prop :=
  match c with
  | [] => True
  | x :: rest => lo <= x /\ increasing_from (S x) rest
  end.

(** A clique, listed in increasing order: vertices of the graph, any two of
    them joined by an edge. *)
Definition clique (g : Graph) (c : list nat) : Prop :=
  increasing_from 0 c /\
  (forall x, In x c -> x < n g) /\
  (forall a b, In a c -> In b c -> a <> b -> adjacent g a b).

(** *** What the searches enumerate *)

(** [s] is [l] with some elements left out. *)
Inductive subseq : list nat -> list nat -> Prop :=
| subseq_nil : forall l, subseq [] l
| subseq_take : forall x s l, subseq s l -> subseq (x :: s) (x :: l)
| subseq_skip : forall x s l, subseq s l -> subseq s (x :: l).

(** Every vertex of [ext] passes [is_connected_to_all] against [cur] and the
    vertices of [ext] before it. *)
Fixpoint ext_ok (A : Matrix) (cur ext : list nat) : Prop :=
  match ext with
  | [] => True
  | v :: r => is_connected_to_all A v cur = true /\ ext_ok A (cur ++ [v]) r
  end.

(** Every vertex is joined in the matrix to the vertices listed before it. *)
Fixpoint joined_to_earlier (A : Matrix) (c : list nat) : Prop :=
  match c with
  | [] => True
  | x :: r => (forall y, In y r -> (mget A y x =? 0)%Z = false) /\ joined_to_earlier A r
  end.

(** ** More of the flow module ([maxflow.c]) *)

(** *** The queue *)

(** The items of a queue, oldest first, and the invariant of its fields. *)
Definition queue_items (q : Queue) : list Z :=
  map (fun i => nth ((q_front q + i) mod q_capacity q) (q_data q) 0%Z) (seq 0 (q_size q)).

Definition queue_ok (q : Queue) : Prop :=
  0 < q_capacity q /\
  length (q_data q) = q_capacity q /\
  q_front q < q_capacity q /\
  q_size q <= q_capacity q /\
  q_rear q = (q_front q + q_size q) mod q_capacity q.

(** The total weight of the edges at [x] that are not self-loops. *)
Definition weight_at (g : Graph) (x : nat) : Z :=
  zsum (fun v => if v =? x then 0%Z
                 else graph_get_edge_weight (Some g) (Z.of_nat x) (Z.of_nat v)) (n g).

(** ** More of the spanning tree module ([mst.c]) *)

(** *** When [graph_mst_prim] reports a connected graph *)

(** Every weight is at least 1 and below [INT_MAX], the initial key. *)
Definition weights_in_range (g : Graph) : Prop :=
  forall u e, In e (head g u) -> (1 <= weight e < INT_MAX)%Z.

(** ** The graphs that the servers build *)

(** *** What a request asks for *)

(** A triplet that passes the tests of the servers: both ends are vertices
    and the weight is positive. *)
Definition triplet_valid (n0 : nat) (t : Z * Z * Z) : bool :=
  let '(src, dest, w) := t in
  (0 <=? src)%Z && (src <? Z.of_nat n0)%Z &&
  (0 <=? dest)%Z && (dest <? Z.of_nat n0)%Z && (0 <? w)%Z.

(** The edge between [s] and [d] is the edge between [a] and [b]. *)
Definition joinsb (s d a b : nat) : bool :=
  (s =? a) && (d =? b) || (s =? b) && (d =? a).

Definition triplet_joins (t : Z * Z * Z) (a b : nat) : bool :=
  joinsb (Z.to_nat (fst (fst t))) (Z.to_nat (snd (fst t))) a b.

(** The weight of the first, and of the last, valid triplet of the request
    for the edge between [a] and [b]; [d] when there is none. *)
Fixpoint first_valid_weight (n0 : nat) (ts : list (Z * Z * Z)) (a b : nat) (d : Z) : Z :=
  match ts with
  | [] => d
  | t :: r =>
      if triplet_valid n0 t && triplet_joins t a b then snd t
      else first_valid_weight n0 r a b d
  end.

Fixpoint last_valid_weight (n0 : nat) (ts : list (Z * Z * Z)) (a b : nat) (d : Z) : Z :=
  match ts with
  | [] => d
  | t :: r =>
      last_valid_weight n0 r a b
        (if triplet_valid n0 t && triplet_joins t a b then snd t else d)
  end.

(** The same loops in a run without allocation failure. *)
Definition matrix_row_edges_ok (buffer : list Z) (n0 i : nat) (g : Graph) : Graph :=
  fold_left
    (fun g j =>
       if (nth (2 + i * n0 + j) buffer 0 =? 1)%Z
       then snd (graph_add_edge true true g (Z.of_nat i) (Z.of_nat j))
       else g)
    (seq i (n0 - i)) g.

Definition process_unweighted_request_ok (buffer : list Z) (n0 : nat) (g : Graph) : Graph :=
  fold_left (fun g i => matrix_row_edges_ok buffer n0 i g) (seq 0 n0) g.

(** What the two scans do to a node of the list of [x]. *)
Definition relabel (s d : nat) (w : Z) (x : nat) (e : EdgeNode) : EdgeNode :=
  if joinsb s d x (to e) then mkEdgeNode (to e) w else e.

(** *** The server of part 7: the first triplet counts *)

(** The weight recorded last in [weighted_edges] for the pair; [d] when
    there is none. *)
Definition last_match (E : list (nat * nat * Z)) (a b : nat) (d : Z) : Z :=
  fold_left (fun acc e => if joinsb (fst (fst e)) (snd (fst e)) a b then snd e else acc) E d.

(** ** All the maximal cliques ([maxclique.c]) *)

(** *** Maximal cliques *)

(** A clique to which no vertex can be added. *)
Definition maximal_clique (g : Graph) (c : list nat) : Prop :=
  clique g c /\
  forall x, x < n g -> ~ (forall y, In y c -> x <> y /\ adjacent g x y).

(** The record that [bron_kerbosch] stores for the clique [c]. *)
Definition clique_result (c : list nat) : MaxClique_Result :=
  mkMaxClique c (Z.of_nat (length c)) true.

(** What holds of the three arrays at a call: [R] is a clique, the cells of
    [P] come after those of [R] in increasing order, and [P] and [X]
    together hold the vertices joined to every vertex of [R], none twice. *)
Definition bk_pre (g : Graph) (R P X : list nat) : Prop :=
  increasing_from 0 (R ++ P) /\
  (forall x, In x R -> x < n g) /\
  (forall a b, In a R -> In b R -> a <> b -> adjacent g a b) /\
  (forall x, In x P \/ In x X <-> x < n g /\ forall y, In y R -> x <> y /\ adjacent g x y) /\
  (forall x, In x P -> ~ In x X).

(** ** The Euler code with its allocations ([graph.c]) *)

(** *** [build_edge_view] *)

(** The vectors of a view hold the incidence lists of the view modelled with
    lists. *)
Definition incid_rel (incid : list Vec) (incid_ok : list (list nat)) : Prop :=
  Forall vec_ok incid /\ map v_items incid = map (map Z.of_nat) incid_ok.

Definition view_rel (ev : EdgeView) (ev_ok : EdgeView_ok) : Prop :=
  ev_edges ev = evk_edges ev_ok /\ incid_rel (ev_incid ev) (evk_incid ev_ok).

(** The states of the loops of [build_edge_view], in a run that started
    with the allocation outcomes [o0]. *)
Definition vstate_rel (o0 : Alloc) (s : option ViewState) (s_ok : EdgeView_ok * list nat)
  : Prop :=
  match s with
  | None => ~ all_succeed o0
  | Some s =>
      view_rel (vs_ev s) (fst s_ok) /\ vs_loop_half s = snd s_ok /\
      (all_succeed o0 -> all_succeed (vs_alloc s))
  end.

(** *** The walk of [graph_find_euler_circuit] *)

(** The state of the walk in a run without failure, beside the state of the
    walk modelled with lists. *)
Record walk_rel (ev_ok : EdgeView_ok) (s : Walk) (s_ok : Walk_ok) : Prop := mk_walk_rel {
  wr_stack_ok : vec_ok (w_stack s);
  wr_stack : v_items (w_stack s) = map Z.of_nat (rev (wk_stack s_ok));
  wr_path_ok : vec_ok (w_path s);
  wr_path : v_items (w_path s) = map Z.of_nat (wk_path s_ok);
  wr_used : w_used s = wk_used s_ok;
  wr_it : w_it s = wk_it s_ok;
  wr_alloc : all_succeed (w_alloc s);
  wr_bound : forall u, nth u (wk_it s_ok) 0 <= length (nth u (evk_incid ev_ok) [])
}.

(** The [v_push] calls of the walk all succeed: the allocation outcomes that
    are left when the walk starts are all successes. *)
Definition walk_allocations_succeed (o : Alloc) (g : Graph) : Prop :=
  match find_euler_setup o g with
  | Some (Some (_, _, o')) => all_succeed o'
  | _ => True
  end.

(** *** Properties *)

Definition euler_conditions (g : Graph) : Prop :=
  has_an_edge g /\
  (forall v, v < n g -> Nat.even (degree g v) = true) /\
  connected_ignoring_isolated g.

(** ** The flow code with its allocations and 32-bit sums ([maxflow.c]) *)

(** The positive entries of row [x] and of column [x] of a matrix. *)
Definition out_of (M : Matrix) (k x : nat) : Z := zsum (fun v => Z.max 0 (mget M x v)) k.

Definition into (M : Matrix) (k x : nat) : Z := zsum (fun u => Z.max 0 (mget M u x)) k.

(** The allocations of [graph_max_flow] itself: the matrix, its rows and
    [parent]. *)
Definition flow_allocations_succeed (o : Alloc) (g : Graph) : Prop :=
  all_succeed (firstn (n g + 2) o).

(** No residual entry can leave the range of [int]: twice a weight is at
    most [INT_MAX]. *)
Definition weights_fit (g : Graph) : Prop :=
  forall u e, In e (head g u) -> (2 * weight e <= INT_MAX)%Z.

(** ** Concrete graphs *)

Definition g_two : Graph := mkGraph 2 [[]; []].

Definition g_two_edge : Graph := snd (graph_add_edge true true g_two 0 1).

Definition g_two_zero : Graph := snd (graph_add_weighted_edge true true g_two 0 1 0).

Definition lf_graph : Graph := process_weighted_request [] g_two [(0, 1, 5)%Z].

Definition g_triangle : Graph :=
  apply_ops (mkGraph 3 [[]; []; []])
    [AddEdge true true 0 1; AddEdge true true 1 2; AddEdge true true 2 0].

Definition g_square : Graph :=
  apply_ops (mkGraph 4 [[]; []; []; []])
    [AddEdge true true 0 1; AddEdge true true 1 2; AddEdge true true 2 3;
     AddEdge true true 3 0].

Definition g_loops : Graph :=
  apply_ops (mkGraph 3 [[]; []; []])
    [AddEdge true true 0 1; AddEdge true true 1 1; AddEdge true true 1 2;
     AddEdge true true 2 0; AddEdge true true 0 0].

Definition g_flow : Graph :=
  apply_ops (mkGraph 4 [[]; []; []; []])
    [AddWeightedEdge true true 0 1 5; AddWeightedEdge true true 1 3 3;
     AddWeightedEdge true true 0 2 4; AddWeightedEdge true true 2 3 6].

(** The edge of weight [-5] between the two vertices. *)
Definition g_neg : Graph := snd (graph_add_weighted_edge true true g_two 0 1 (-5)).

(** A triangle with weights 1, 2 and 3, and one with a negative weight. *)
Definition g_weighted_triangle : Graph :=
  apply_ops (mkGraph 3 [[]; []; []])
    [AddWeightedEdge true true 0 1 1; AddWeightedEdge true true 1 2 2;
     AddWeightedEdge true true 0 2 3].

Definition g_negative_triangle : Graph :=
  apply_ops (mkGraph 3 [[]; []; []])
    [AddWeightedEdge true true 0 1 1; AddWeightedEdge true true 1 2 1;
     AddWeightedEdge true true 0 2 (-5)].

(** A path whose two edges weigh [INT_MAX - 1] each. *)
Definition g_heavy_path : Graph :=
  apply_ops (mkGraph 3 [[]; []; []])
    [AddWeightedEdge true true 0 1 2147483646; AddWeightedEdge true true 1 2 2147483646].

(** The triangle with weights [INT_MAX]. *)
Definition g_int_max_triangle : Graph :=
  apply_ops (mkGraph 3 [[]; []; []])
    [AddWeightedEdge true true 0 1 2147483647; AddWeightedEdge true true 1 2 2147483647;
     AddWeightedEdge true true 0 2 2147483647].

(** Eight vertices, three light edges and six heavy ones. *)
Definition g_wide : Graph :=
  apply_ops (mkGraph 8 [[]; []; []; []; []; []; []; []])
    [AddWeightedEdge true true 0 3 200000000; AddWeightedEdge true true 1 6 200000000;
     AddWeightedEdge true true 2 6 200000000;
     AddWeightedEdge true true 0 4 2000000000; AddWeightedEdge true true 0 7 2000000000;
     AddWeightedEdge true true 1 7 2000000000; AddWeightedEdge true true 2 4 2000000000;
     AddWeightedEdge true true 3 5 2000000000; AddWeightedEdge true true 5 7 2000000000].

(** * Properties *)

(** ** The graph module and the servers *)

(** *** Arrays *)

Lemma upd_length : forall (A : Type) (l : list A) i x, length (upd l i x) = length l.
Proof. induction l as [|a l IH]; intros [|i] x; simpl; auto. Qed.

Lemma nth_upd_same : forall (A : Type) (l : list A) i x d,
  i < length l -> nth i (upd l i x) d = x.
Proof.
  induction l as [|a l IH]; intros [|i] x d H; simpl in *; try lia; auto.
  apply IH; lia.
Qed.

Lemma nth_upd_other : forall (A : Type) (l : list A) i j x d,
  i <> j -> nth j (upd l i x) d = nth j l d.
Proof.
  induction l as [|a l IH]; intros [|i] [|j] x d H; simpl; auto; try lia.
Qed.

Lemma nth_upd : forall (A : Type) (l : list A) i j x d,
  nth j (upd l i x) d = if (i =? j) && (i <? length l) then x else nth j l d.
Proof.
  intros. destruct (Nat.eqb_spec i j) as [->|Hne]; simpl.
  - destruct (Nat.ltb_spec j (length l)).
    + apply nth_upd_same; auto.
    + rewrite !nth_overflow; auto. rewrite upd_length; auto.
  - apply nth_upd_other; auto.
Qed.

(** *** Basic facts on the graph module *)

Lemma head_set_head_same : forall g u l, u < length (adj g) -> head (set_head g u l) u = l.
Proof. intros. unfold head, set_head; simpl. apply nth_upd_same; auto. Qed.

Lemma head_set_head_other : forall g u v l, u <> v -> head (set_head g u l) v = head g v.
Proof. intros. unfold head, set_head; simpl. apply nth_upd_other; auto. Qed.

Lemma head_set_head : forall g u v l,
  head (set_head g u l) v = if (u =? v) && (u <? length (adj g)) then l else head g v.
Proof. intros. unfold head, set_head; simpl. apply nth_upd. Qed.

Lemma in_bounds_true : forall g v,
  in_bounds (Some g) v = true <-> (0 <= v < Z.of_nat (n g))%Z.
Proof. intros; simpl. rewrite andb_true_iff, Z.leb_le, Z.ltb_lt. tauto. Qed.

Lemma in_bounds_nat : forall g v,
  in_bounds (Some g) v = true -> Z.to_nat v < n g /\ Z.of_nat (Z.to_nat v) = v.
Proof. intros g v H. apply in_bounds_true in H. lia. Qed.

Lemma head_out_of_range : forall g u, length (adj g) <= u -> head g u = [].
Proof. intros. unfold head. apply nth_overflow; auto. Qed.

Lemma count_to_pos : forall l v, 0 < count_to l v <-> exists w, In (mkEdgeNode v w) l.
Proof.
  induction l as [|[t x] l IH]; intros v; simpl.
  - split; [lia | intros [w []]].
  - destruct (Nat.eqb_spec t v) as [->|Hne].
    + split; [intros _; exists x; auto | lia].
    + simpl. rewrite IH. split; intros [w H]; exists w; auto.
      destruct H as [H|H]; auto. inversion H; congruence.
Qed.

Lemma count_to_zero : forall l v, count_to l v = 0 <-> forall e, In e l -> to e <> v.
Proof.
  induction l as [|[t x] l IH]; intros v; simpl.
  - split; [intros _ e []|auto].
  - destruct (Nat.eqb_spec t v) as [->|Hne].
    + split; [lia|]. intros H. exfalso. apply (H (mkEdgeNode v x)); auto.
    + simpl. rewrite IH. split; intros H e.
      * intros [<-|Hin]; simpl; auto.
      * intros Hin. apply H; auto.
Qed.

Lemma count_to_app : forall l1 l2 v, count_to (l1 ++ l2) v = count_to l1 v + count_to l2 v.
Proof. induction l1; intros; simpl; auto. rewrite IHl1. lia. Qed.

Lemma first_weight_absent : forall l v, count_to l v = 0 -> first_weight l v = 0%Z.
Proof.
  induction l as [|e l IH]; intros v H; simpl in *; auto.
  destruct (to e =? v); [lia | auto].
Qed.

Lemma first_weight_in : forall l v, 0 < count_to l v ->
  exists e, In e l /\ to e = v /\ weight e = first_weight l v.
Proof.
  induction l as [|e l IH]; intros v H; simpl in *; [lia|].
  destruct (Nat.eqb_spec (to e) v) as [Heq|Hne].
  - exists e; auto.
  - destruct (IH v) as [e' [H1 [H2 H3]]]; [lia|]. exists e'; auto.
Qed.

(** A failed call leaves the graph as it was; a successful one pushes the
    new nodes on the heads. *)
Lemma add_failure_unchanged : forall m1 m2 g u v w,
  fst (graph_add_weighted_edge m1 m2 g u v w) <> RC_OK ->
  snd (graph_add_weighted_edge m1 m2 g u v w) = g.
Proof.
  intros m1 m2 g u v w. unfold graph_add_weighted_edge.
  destruct (negb (in_bounds (Some g) u) || negb (in_bounds (Some g) v)); auto.
  destruct (edge_exists_simple g (Z.to_nat u) (Z.to_nat v)); auto.
  destruct (Z.to_nat u =? Z.to_nat v); destruct (negb m1 || negb m2); simpl; auto;
    intros H; congruence.
Qed.

Lemma add_ok_inv : forall m1 m2 g u v w g',
  graph_add_weighted_edge m1 m2 g u v w = (RC_OK, g') ->
  in_bounds (Some g) u = true /\ in_bounds (Some g) v = true /\
  edge_exists_simple g (Z.to_nat u) (Z.to_nat v) = false /\
  g' = if Z.to_nat u =? Z.to_nat v
       then set_head g (Z.to_nat u)
              (mkEdgeNode (Z.to_nat u) w :: mkEdgeNode (Z.to_nat u) w :: head g (Z.to_nat u))
       else set_head (set_head g (Z.to_nat u) (mkEdgeNode (Z.to_nat v) w :: head g (Z.to_nat u)))
              (Z.to_nat v) (mkEdgeNode (Z.to_nat u) w :: head g (Z.to_nat v)).
Proof.
  intros m1 m2 g u v w g'. unfold graph_add_weighted_edge.
  unfold RC_OK, RC_BOUNDS, RC_DUP, RC_NOMEM.
  destruct (in_bounds (Some g) u); destruct (in_bounds (Some g) v);
    cbn [negb orb]; try discriminate.
  destruct (edge_exists_simple g (Z.to_nat u) (Z.to_nat v)); [discriminate|].
  destruct (Z.to_nat u =? Z.to_nat v); destruct (negb m1 || negb m2);
    try discriminate; intros H; inversion H; auto.
Qed.

Lemma add_result_cases : forall m1 m2 g u v w,
  let r := graph_add_weighted_edge m1 m2 g u v w in
  (fst r = RC_OK \/ fst r = RC_BOUNDS \/ fst r = RC_NOMEM \/ fst r = RC_DUP).
Proof.
  intros m1 m2 g u v w. unfold graph_add_weighted_edge.
  destruct (negb (in_bounds (Some g) u) || negb (in_bounds (Some g) v)); simpl; auto.
  destruct (edge_exists_simple g (Z.to_nat u) (Z.to_nat v)); simpl; auto.
  destruct (Z.to_nat u =? Z.to_nat v); destruct (negb m1 || negb m2); simpl; auto.
Qed.

Lemma set_head_length : forall g u l, length (adj (set_head g u l)) = length (adj g).
Proof. intros. unfold set_head; simpl. apply upd_length. Qed.

Lemma set_head_n : forall g u l, n (set_head g u l) = n g.
Proof. reflexivity. Qed.

(** Heads after a successful insertion of a non-loop edge and of a loop. *)
Lemma head_after_add : forall g a b w x,
  length (adj g) = n g -> a < n g -> b < n g -> a <> b ->
  head (set_head (set_head g a (mkEdgeNode b w :: head g a)) b (mkEdgeNode a w :: head g b)) x
  = (if x =? a then [mkEdgeNode b w] else []) ++
    (if x =? b then [mkEdgeNode a w] else []) ++ head g x.
Proof.
  intros g a b w x Hlen Ha Hb Hab.
  rewrite !head_set_head, set_head_length.
  assert (Ea : (a <? length (adj g)) = true) by (apply Nat.ltb_lt; lia).
  assert (Eb : (b <? length (adj g)) = true) by (apply Nat.ltb_lt; lia).
  rewrite Ea, Eb, !andb_true_r. rewrite (Nat.eqb_sym x a), (Nat.eqb_sym x b).
  destruct (Nat.eqb_spec b x) as [->|Hbx]; destruct (Nat.eqb_spec a x) as [->|Hax];
    try lia; reflexivity.
Qed.

Lemma head_after_loop : forall g a w x,
  length (adj g) = n g -> a < n g ->
  head (set_head g a (mkEdgeNode a w :: mkEdgeNode a w :: head g a)) x
  = (if x =? a then [mkEdgeNode a w; mkEdgeNode a w] else []) ++ head g x.
Proof.
  intros g a w x Hlen Ha. rewrite head_set_head.
  assert (Ea : (a <? length (adj g)) = true) by (apply Nat.ltb_lt; lia).
  rewrite Ea, andb_true_r, (Nat.eqb_sym x a).
  destruct (Nat.eqb_spec a x) as [->|Hax]; reflexivity.
Qed.

(** *** The representation invariant is established and preserved *)

Lemma nth_repeat_nil : forall (A : Type) k u, nth u (repeat (@nil A) k) [] = [].
Proof. induction k; intros [|u]; simpl; auto. Qed.

Lemma graph_create_head : forall n0 g u, graph_create n0 = Some g -> head g u = [].
Proof.
  intros n0 g u. unfold graph_create. destruct (n0 <=? 0)%Z; [discriminate|].
  intros H; inversion H; subst; clear H. unfold head; simpl. apply nth_repeat_nil.
Qed.

Lemma graph_create_wf : forall n0 g, graph_create n0 = Some g -> graph_wf g.
Proof.
  intros n0 g Hc.
  assert (Hh := fun u => graph_create_head n0 g u Hc).
  unfold graph_create in Hc. destruct (Z.leb_spec n0 0) as [Hle|Hgt]; [discriminate|].
  inversion Hc; subst; clear Hc.
  constructor; simpl.
  - lia.
  - apply repeat_length.
  - intros u e. rewrite Hh. intros [].
  - intros u v w _. rewrite !Hh. simpl; tauto.
  - intros u v _. unfold count_neighbor. rewrite Hh. simpl; lia.
  - intros u. unfold count_neighbor. rewrite Hh. auto.
Qed.

Lemma wf_count_sym : forall g u v, graph_wf g -> u <> v ->
  count_neighbor g u v = count_neighbor g v u.
Proof.
  intros g u v Hwf Huv.
  assert (H1 := wf_simple Hwf u v Huv).
  assert (H2 := wf_simple Hwf v u (not_eq_sym Huv)).
  assert (H3 : 0 < count_neighbor g u v <-> 0 < count_neighbor g v u).
  { unfold count_neighbor. rewrite !count_to_pos.
    split; intros [w H]; exists w; apply (wf_sym Hwf); auto. }
  lia.
Qed.

Lemma add_ok_wf : forall m1 m2 g u v w g',
  graph_wf g -> graph_add_weighted_edge m1 m2 g u v w = (RC_OK, g') -> graph_wf g'.
Proof.
  intros m1 m2 g u v w g' Hwf Hadd.
  apply add_ok_inv in Hadd. destruct Hadd as [Hu [Hv [Hex Hg']]].
  apply in_bounds_nat in Hu. apply in_bounds_nat in Hv.
  destruct Hu as [Hu _]. destruct Hv as [Hv _].
  set (a := Z.to_nat u) in *. set (b := Z.to_nat v) in *.
  assert (Hlen := wf_len Hwf).
  unfold edge_exists_simple in Hex.
  destruct (Nat.eqb_spec a b) as [Hab|Hab].
  - (* self-loop *)
    rewrite <- Hab in *. clear Hab b Hv.
    apply Nat.leb_gt in Hex.
    assert (Hc0 : count_neighbor g a a = 0) by (destruct (wf_loop Hwf a); lia).
    assert (Hh := fun x => head_after_loop g a w x Hlen Hu). rewrite <- Hg' in Hh.
    constructor.
    + subst g'. simpl. apply (wf_pos Hwf).
    + subst g'. rewrite set_head_length; auto.
    + intros x e. rewrite Hh. rewrite in_app_iff. intros [Hin|Hin].
      * destruct (x =? a); simpl in Hin; [|tauto].
        replace (n g') with (n g) by (subst g'; reflexivity).
        destruct Hin as [<-|[<-|[]]]; simpl; auto.
      * replace (n g') with (n g) by (subst g'; reflexivity). eapply wf_to; eauto.
    + intros x y z Hxy. rewrite !Hh, !in_app_iff.
      assert (forall p q, p <> q ->
        (In (mkEdgeNode q z) (if p =? a then [mkEdgeNode a w; mkEdgeNode a w] else []) <-> False)).
      { intros p q Hpq. destruct (Nat.eqb_spec p a); simpl; [|tauto].
        split; [|tauto]. intros [H|[H|[]]]; inversion H; lia. }
      rewrite (H x y Hxy), (H y x (not_eq_sym Hxy)). rewrite (wf_sym Hwf x y z Hxy). tauto.
    + intros x y Hxy. unfold count_neighbor. rewrite Hh, count_to_app.
      assert (count_to (if x =? a then [mkEdgeNode a w; mkEdgeNode a w] else []) y = 0).
      { destruct (Nat.eqb_spec x a); simpl; auto.
        destruct (Nat.eqb_spec a y); simpl; auto; lia. }
      generalize (wf_simple Hwf x y Hxy). unfold count_neighbor. lia.
    + intros x. unfold count_neighbor. rewrite Hh, count_to_app.
      destruct (Nat.eqb_spec x a) as [->|Hxa]; simpl.
      * rewrite Nat.eqb_refl. simpl. fold (count_neighbor g a a). lia.
      * apply (wf_loop Hwf).
  - (* two distinct endpoints *)
    apply Nat.leb_gt in Hex.
    assert (Hc0 : count_neighbor g a b = 0) by lia.
    assert (Hc1 : count_neighbor g b a = 0) by (rewrite <- (wf_count_sym g a b Hwf Hab); auto).
    assert (Hh := fun x => head_after_add g a b w x Hlen Hu Hv Hab). rewrite <- Hg' in Hh.
    assert (Hn : n g' = n g) by (subst g'; reflexivity).
    constructor.
    + rewrite Hn. apply (wf_pos Hwf).
    + subst g'. rewrite !set_head_length; auto.
    + intros x e. rewrite Hh, Hn. rewrite !in_app_iff. intros [Hin|[Hin|Hin]].
      * destruct (x =? a); simpl in Hin; [|tauto]. destruct Hin as [<-|[]]; auto.
      * destruct (x =? b); simpl in Hin; [|tauto]. destruct Hin as [<-|[]]; auto.
      * eapply wf_to; eauto.
    + intros x y z Hxy. rewrite !Hh, !in_app_iff.
      assert (forall p q c d,
        (In (mkEdgeNode q z) (if p =? c then [mkEdgeNode d w] else [])
         <-> p = c /\ q = d /\ z = w)).
      { intros p q c d. destruct (Nat.eqb_spec p c); simpl.
        - split; [intros [H|[]]; inversion H; auto | intros [_ [-> ->]]; auto].
        - tauto. }
      rewrite !H. rewrite (wf_sym Hwf x y z Hxy). tauto.
    + intros x y Hxy. unfold count_neighbor. rewrite Hh, !count_to_app.
      fold (count_neighbor g x y).
      generalize (wf_simple Hwf x y Hxy); intros Hs.
      destruct (Nat.eqb_spec x a) as [Hxa|Hxa]; destruct (Nat.eqb_spec x b) as [Hxb|Hxb];
        simpl; try lia; subst x.
      * destruct (Nat.eqb_spec b y) as [<-|]; simpl; lia.
      * destruct (Nat.eqb_spec a y) as [<-|]; simpl; lia.
    + intros x. unfold count_neighbor. rewrite Hh, !count_to_app.
      fold (count_neighbor g x x).
      generalize (wf_loop Hwf x); intros Hs.
      destruct (Nat.eqb_spec x a) as [Hxa|Hxa]; destruct (Nat.eqb_spec x b) as [Hxb|Hxb];
        simpl; try lia; subst x.
      * destruct (Nat.eqb_spec b a); simpl; lia.
      * destruct (Nat.eqb_spec a b); simpl; lia.
Qed.

Lemma add_wf : forall m1 m2 g u v w,
  graph_wf g -> graph_wf (snd (graph_add_weighted_edge m1 m2 g u v w)).
Proof.
  intros m1 m2 g u v w Hwf.
  destruct (graph_add_weighted_edge m1 m2 g u v w) as [rc g'] eqn:E. simpl.
  destruct (Z.eq_dec rc RC_OK) as [->|Hne].
  - eapply add_ok_wf; eauto.
  - assert (H := add_failure_unchanged m1 m2 g u v w). rewrite E in H. simpl in H.
    rewrite H; auto.
Qed.

Lemma apply_ops_wf : forall os g, graph_wf g -> graph_wf (apply_ops g os).
Proof.
  induction os as [|o os IH]; intros g Hwf; simpl; auto.
  apply IH. destruct o; simpl; unfold graph_add_edge; apply add_wf; auto.
Qed.

Lemma add_ok_heads : forall m1 m2 g u v w g',
  graph_wf g -> graph_add_weighted_edge m1 m2 g u v w = (RC_OK, g') ->
  Z.to_nat u < n g /\ Z.to_nat v < n g /\ n g' = n g /\
  forall x, head g' x =
    if Z.to_nat u =? Z.to_nat v
    then (if x =? Z.to_nat u
          then [mkEdgeNode (Z.to_nat u) w; mkEdgeNode (Z.to_nat u) w] else []) ++ head g x
    else (if x =? Z.to_nat u then [mkEdgeNode (Z.to_nat v) w] else []) ++
         (if x =? Z.to_nat v then [mkEdgeNode (Z.to_nat u) w] else []) ++ head g x.
Proof.
  intros m1 m2 g u v w g' Hwf Hadd.
  apply add_ok_inv in Hadd. destruct Hadd as [Hu [Hv [_ Hg']]].
  apply in_bounds_nat in Hu. apply in_bounds_nat in Hv.
  destruct Hu as [Hu _]. destruct Hv as [Hv _].
  assert (Hlen := wf_len Hwf).
  repeat split; auto.
  - subst g'. destruct (Z.to_nat u =? Z.to_nat v); reflexivity.
  - intros x. subst g'. destruct (Nat.eqb_spec (Z.to_nat u) (Z.to_nat v)) as [Hab|Hab].
    + apply head_after_loop; auto.
    + apply head_after_add; auto.
Qed.

Lemma add_entries_weight : forall m1 m2 g u v w x e,
  graph_wf g -> In e (head (snd (graph_add_weighted_edge m1 m2 g u v w)) x) ->
  In e (head g x) \/ weight e = w.
Proof.
  intros m1 m2 g u v w x e Hwf.
  destruct (graph_add_weighted_edge m1 m2 g u v w) as [rc g'] eqn:E. simpl.
  destruct (Z.eq_dec rc RC_OK) as [->|Hne].
  - destruct (add_ok_heads _ _ _ _ _ _ _ Hwf E) as [_ [_ [_ Hh]]]. rewrite Hh.
    destruct (Z.to_nat u =? Z.to_nat v); rewrite !in_app_iff;
      repeat match goal with |- context [if ?c then _ else _] => destruct c end;
      simpl; intuition (subst; auto).
  - assert (H := add_failure_unchanged m1 m2 g u v w). rewrite E in H. simpl in H.
    rewrite H; auto.
Qed.

(** *** Properties of the graph interface *)

(** C10. [graph_get_edge_weight] is total and answers 0 for a nil graph, for
    [u] or [v] outside [0,n), and for an absent edge alike; a nonzero answer
    is the weight of a stored node of an in-range query. *)
Theorem get_edge_weight_zero_on_invalid : forall (g : option Graph) (u v : Z),
  (g = None -> graph_get_edge_weight g u v = 0%Z) /\
  (forall g', g = Some g' ->
     ~ (0 <= u < Z.of_nat (n g'))%Z \/ ~ (0 <= v < Z.of_nat (n g'))%Z ->
     graph_get_edge_weight g u v = 0%Z) /\
  (forall g', g = Some g' ->
     (0 <= u < Z.of_nat (n g'))%Z -> (0 <= v < Z.of_nat (n g'))%Z ->
     count_neighbor g' (Z.to_nat u) (Z.to_nat v) = 0 ->
     graph_get_edge_weight g u v = 0%Z) /\
  (graph_get_edge_weight g u v <> 0%Z ->
     exists g' e, g = Some g' /\
       (0 <= u < Z.of_nat (n g'))%Z /\ (0 <= v < Z.of_nat (n g'))%Z /\
       In e (head g' (Z.to_nat u)) /\ to e = Z.to_nat v /\
       weight e = graph_get_edge_weight g u v).
Proof.
  intros g u v. unfold graph_get_edge_weight.
  repeat split.
  - intros ->. reflexivity.
  - intros g' -> H.
    destruct (in_bounds (Some g') u) eqn:Eu; destruct (in_bounds (Some g') v) eqn:Ev;
      cbn [negb orb]; auto.
    apply in_bounds_true in Eu. apply in_bounds_true in Ev. tauto.
  - intros g' -> Hu Hv Hc.
    destruct (negb (in_bounds (Some g') u) || negb (in_bounds (Some g') v)); auto.
    apply first_weight_absent. exact Hc.
  - destruct g as [g'|]; [|simpl; congruence].
    destruct (in_bounds (Some g') u) eqn:Eu; destruct (in_bounds (Some g') v) eqn:Ev;
      cbn [negb orb]; try congruence.
    intros Hnz. apply in_bounds_true in Eu. apply in_bounds_true in Ev.
    assert (Hpos : 0 < count_to (head g' (Z.to_nat u)) (Z.to_nat v)).
    { destruct (count_to (head g' (Z.to_nat u)) (Z.to_nat v)) eqn:E; [|lia].
      exfalso. apply Hnz. apply first_weight_absent; auto. }
    destruct (first_weight_in _ _ Hpos) as [e [H1 [H2 H3]]].
    exists g', e. repeat split; auto; lia.
Qed.

(** C5. After a successful [graph_add_edge] on two distinct vertices the
    weight is read the same from both ends and is positive, and adding the
    same pair again, in either order, answers duplicate. *)
Theorem add_edge_symmetric_then_duplicate : forall m1 m2 g u v g',
  graph_wf g -> u <> v ->
  graph_add_edge m1 m2 g u v = (RC_OK, g') ->
  graph_get_edge_weight (Some g') u v = graph_get_edge_weight (Some g') v u /\
  (0 < graph_get_edge_weight (Some g') u v)%Z /\
  (forall m3 m4, fst (graph_add_edge m3 m4 g' u v) = RC_DUP /\
                 fst (graph_add_edge m3 m4 g' v u) = RC_DUP).
Proof.
  intros m1 m2 g u v g' Hwf Huv Hadd. unfold graph_add_edge in *.
  destruct (add_ok_heads _ _ _ _ _ _ _ Hwf Hadd) as [Ha [Hb [Hn Hh]]].
  destruct (add_ok_inv _ _ _ _ _ _ _ Hadd) as [Hu [Hv _]].
  assert (Hu' : in_bounds (Some g') u = true) by (simpl in *; rewrite Hn; auto).
  assert (Hv' : in_bounds (Some g') v = true) by (simpl in *; rewrite Hn; auto).
  apply in_bounds_nat in Hu. apply in_bounds_nat in Hv.
  assert (Hab : Z.to_nat u <> Z.to_nat v) by lia.
  set (a := Z.to_nat u) in *. set (b := Z.to_nat v) in *.
  assert (Ea : head g' a = mkEdgeNode b 1 :: head g a).
  { rewrite Hh. destruct (Nat.eqb_spec a b); [lia|]. rewrite Nat.eqb_refl.
    destruct (Nat.eqb_spec a b); [lia|]. reflexivity. }
  assert (Eb : head g' b = mkEdgeNode a 1 :: head g b).
  { rewrite Hh. destruct (Nat.eqb_spec a b); [lia|]. rewrite Nat.eqb_refl.
    destruct (Nat.eqb_spec b a); [lia|]. reflexivity. }
  assert (Wuv : graph_get_edge_weight (Some g') u v = 1%Z).
  { unfold graph_get_edge_weight. rewrite Hu', Hv'. cbn [negb orb]. fold a b.
    rewrite Ea. simpl. rewrite Nat.eqb_refl. reflexivity. }
  assert (Wvu : graph_get_edge_weight (Some g') v u = 1%Z).
  { unfold graph_get_edge_weight. rewrite Hu', Hv'. cbn [negb orb]. fold a b.
    rewrite Eb. simpl. rewrite Nat.eqb_refl. reflexivity. }
  rewrite Wuv, Wvu. repeat split; try lia.
  - unfold graph_add_weighted_edge. rewrite Hu', Hv'. cbn [negb orb]. fold a b.
    unfold edge_exists_simple, count_neighbor. destruct (Nat.eqb_spec a b); [lia|].
    rewrite Ea. simpl. rewrite Nat.eqb_refl. reflexivity.
  - unfold graph_add_weighted_edge. rewrite Hu', Hv'. cbn [negb orb]. fold a b.
    unfold edge_exists_simple, count_neighbor. destruct (Nat.eqb_spec b a); [lia|].
    rewrite Eb. simpl. rewrite Nat.eqb_refl. reflexivity.
Qed.

(** C9. When [graph_add_weighted_edge] answers out of memory the graph is
    the one it was given: both nodes are allocated before a head is written.
    The answer is out of memory exactly when the arguments are accepted and
    one of the two allocations fails. *)
Theorem add_weighted_edge_nomem_unchanged : forall m1 m2 g u v w,
  (fst (graph_add_weighted_edge m1 m2 g u v w) = RC_NOMEM ->
   snd (graph_add_weighted_edge m1 m2 g u v w) = g) /\
  (in_bounds (Some g) u = true -> in_bounds (Some g) v = true ->
   edge_exists_simple g (Z.to_nat u) (Z.to_nat v) = false ->
   m1 && m2 = false ->
   graph_add_weighted_edge m1 m2 g u v w = (RC_NOMEM, g)).
Proof.
  intros m1 m2 g u v w. split.
  - intros H. apply add_failure_unchanged. rewrite H. discriminate.
  - intros Hu Hv Hex Hm. unfold graph_add_weighted_edge.
    rewrite Hu, Hv, Hex. cbn [negb orb].
    assert (E : negb m1 || negb m2 = true) by (destruct m1, m2; simpl in *; congruence).
    rewrite E. destruct (Z.to_nat u =? Z.to_nat v); reflexivity.
Qed.

Lemma edge_has_weight_get : forall g u v w,
  in_bounds (Some g) u = true -> in_bounds (Some g) v = true ->
  edge_has_weight g (Z.to_nat u) (Z.to_nat v) w ->
  graph_get_edge_weight (Some g) u v = w.
Proof.
  intros g u v w Hu Hv [Hc He]. unfold graph_get_edge_weight. rewrite Hu, Hv.
  cbn [negb orb]. destruct (first_weight_in _ _ Hc) as [e [H1 [H2 H3]]].
  rewrite <- H3. apply He; assumption.
Qed.

(** A successful insertion leaves the edge with the weight given, at both
    ends. *)
Lemma add_ok_edge_has_weight : forall m1 m2 g u v w g',
  graph_wf g -> graph_add_weighted_edge m1 m2 g u v w = (RC_OK, g') ->
  edge_has_weight g' (Z.to_nat u) (Z.to_nat v) w /\
  edge_has_weight g' (Z.to_nat v) (Z.to_nat u) w.
Proof.
  intros m1 m2 g u v w g' Hwf Hadd.
  destruct (add_ok_heads _ _ _ _ _ _ _ Hwf Hadd) as [Hu [Hv [Hn Hh]]].
  destruct (add_ok_inv _ _ _ _ _ _ _ Hadd) as [_ [_ [Hex _]]].
  set (a := Z.to_nat u) in *. set (b := Z.to_nat v) in *.
  unfold edge_exists_simple in Hex.
  assert (Hold : forall x y, (x = a /\ y = b) \/ (x = b /\ y = a) ->
            forall e, In e (head g x) -> to e <> y).
  { intros x y Hxy. apply count_to_zero. fold (count_neighbor g x y).
    destruct (Nat.eqb_spec a b) as [E|E].
    - apply Nat.leb_gt in Hex.
      assert (x = a /\ y = a) as [-> ->] by (destruct Hxy as [[-> ->]|[-> ->]]; auto).
      destruct (wf_loop Hwf a); lia.
    - apply Nat.leb_gt in Hex. destruct Hxy as [[-> ->]|[-> ->]]; [lia|].
      rewrite <- (wf_count_sym g a b Hwf E). lia. }
  unfold edge_has_weight, count_neighbor. rewrite !Hh.
  destruct (Nat.eqb_spec a b) as [E|E].
  - rewrite <- E. rewrite Nat.eqb_refl.
    assert (G : 0 < count_to ([mkEdgeNode a w; mkEdgeNode a w] ++ head g a) a /\
                forall e, In e ([mkEdgeNode a w; mkEdgeNode a w] ++ head g a) ->
                          to e = a -> weight e = w).
    { split.
      - cbn [app count_to to]. rewrite Nat.eqb_refl. lia.
      - intros e [<-|[<-|Hin]] He; try reflexivity.
        exfalso. apply (Hold a a (or_introl (conj eq_refl E)) e Hin He). }
    split; exact G.
  - rewrite !Nat.eqb_refl.
    destruct (Nat.eqb_spec a b) as [E'|_]; [contradiction|].
    destruct (Nat.eqb_spec b a) as [E'|_]; [congruence|].
    cbn [app]. split; split.
    + cbn [count_to to]. rewrite Nat.eqb_refl. lia.
    + intros e [<-|Hin] He; [reflexivity|].
      exfalso. apply (Hold a b (or_introl (conj eq_refl eq_refl)) e Hin He).
    + cbn [count_to to]. rewrite Nat.eqb_refl. lia.
    + intros e [<-|Hin] He; [reflexivity|].
      exfalso. apply (Hold b a (or_intror (conj eq_refl eq_refl)) e Hin He).
Qed.

(** No later call changes an edge that is present: an insertion of the same
    pair is refused, and any other insertion pushes nodes for other pairs. *)
Lemma edge_has_weight_add : forall m1 m2 g u v w0 a b w,
  graph_wf g -> edge_has_weight g a b w ->
  edge_has_weight (snd (graph_add_weighted_edge m1 m2 g u v w0)) a b w.
Proof.
  intros m1 m2 g u v w0 a b w Hwf [Hc He].
  destruct (graph_add_weighted_edge m1 m2 g u v w0) as [rc g'] eqn:Hadd. cbn [snd].
  destruct (Z.eq_dec rc RC_OK) as [->|Hne].
  2:{ assert (H := add_failure_unchanged m1 m2 g u v w0). rewrite Hadd in H.
      cbn [fst snd] in H. rewrite (H Hne). split; assumption. }
  destruct (add_ok_heads _ _ _ _ _ _ _ Hwf Hadd) as [Hu [Hv [Hn Hh]]].
  destruct (add_ok_inv _ _ _ _ _ _ _ Hadd) as [_ [_ [Hex _]]].
  set (p := Z.to_nat u) in *. set (q := Z.to_nat v) in *.
  unfold edge_exists_simple in Hex.
  assert (Hnew : head g' a = head g a \/
                 exists l, head g' a = l ++ head g a /\ forall e, In e l -> to e <> b).
  { rewrite Hh. destruct (Nat.eqb_spec p q) as [E|E].
    - destruct (Nat.eqb_spec a p) as [Ea|Ea]; [|left; reflexivity].
      right. eexists. split; [reflexivity|].
      intros e [<-|[<-|[]]]; cbn [to]; intros Eb; subst a b;
        apply Nat.leb_gt in Hex; destruct (wf_loop Hwf p); lia.
    - apply Nat.leb_gt in Hex. right. eexists. split; [rewrite app_assoc; reflexivity|].
      intros e Hin. apply in_app_or in Hin.
      destruct (Nat.eqb_spec a p) as [Ea|Ea]; destruct (Nat.eqb_spec a q) as [Eq|Eq];
        destruct Hin as [Hin|Hin]; cbn [In] in Hin; try tauto;
        destruct Hin as [<-|[]]; cbn [to]; intros Eb; subst.
      + lia.
      + lia.
      + lia.
      + rewrite (wf_count_sym g q p Hwf (not_eq_sym E)) in Hc. lia. }
  destruct Hnew as [E|[l [E Hl]]]; unfold edge_has_weight, count_neighbor; rewrite E.
  - split; assumption.
  - split.
    + rewrite count_to_app. unfold count_neighbor in Hc. lia.
    + intros e Hin Hto. apply in_app_or in Hin. destruct Hin as [Hin|Hin].
      * exfalso. apply (Hl e Hin Hto).
      * apply He; assumption.
Qed.

Lemma edge_has_weight_ops : forall os g a b w,
  graph_wf g -> edge_has_weight g a b w -> edge_has_weight (apply_ops g os) a b w.
Proof.
  induction os as [|o os IH]; intros g a b w Hwf H; [exact H|].
  cbn [apply_ops fold_left]. apply IH.
  - destruct o; cbn [apply_op]; unfold graph_add_edge; apply add_wf; exact Hwf.
  - destruct o; cbn [apply_op]; unfold graph_add_edge; apply edge_has_weight_add; assumption.
Qed.

Lemma apply_ops_n : forall os g, n (apply_ops g os) = n g.
Proof.
  induction os as [|o os IH]; intros g; [reflexivity|].
  cbn [apply_ops fold_left]. fold (apply_ops (apply_op g o) os). rewrite IH.
  assert (H : forall m1 m2 u v w, n (snd (graph_add_weighted_edge m1 m2 g u v w)) = n g).
  { intros. unfold graph_add_weighted_edge.
    repeat match goal with |- context [if ?c then _ else _] => destruct c end; reflexivity. }
  destruct o; cbn [apply_op]; unfold graph_add_edge; apply H.
Qed.

Lemma apply_ops_weights_ge_1 : forall os g,
  graph_wf g -> Forall op_weight_positive os -> weights_ge_1 g ->
  weights_ge_1 (apply_ops g os).
Proof.
  induction os as [|o os IH]; intros g Hwf Hpos Hg; simpl; auto.
  inversion Hpos; subst. apply IH; auto.
  - destruct o; simpl; unfold graph_add_edge; apply add_wf; auto.
  - intros x e Hin. destruct o; simpl in *; unfold graph_add_edge in *;
      apply add_entries_weight in Hin; auto; destruct Hin as [Hin| ->]; eauto; lia.
Qed.

(** C7 (as amended).  On a graph built by [graph_create] and any sequence
    of [graph_add_edge] and [graph_add_weighted_edge] calls, successful or
    not, in which every weighted insertion is given a weight of at least 1:
    every node of the graph has a weight of at least 1; an edge that a
    successful [graph_add_edge] inserts, at any place of the sequence, is
    read with the weight 1 from both ends in the graph built, and its nodes
    have the weight 1; and one more call, given a weight of at least 1 if it
    is weighted, keeps every weight at least 1. *)
Theorem weights_positive_when_given_positive : forall n0 g os,
  graph_create n0 = Some g ->
  Forall op_weight_positive os ->
  weights_ge_1 (apply_ops g os) /\
  (forall os1 m1 m2 u v os2,
     os = os1 ++ AddEdge m1 m2 u v :: os2 ->
     fst (graph_add_edge m1 m2 (apply_ops g os1) u v) = RC_OK ->
     graph_get_edge_weight (Some (apply_ops g os)) u v = 1%Z /\
     graph_get_edge_weight (Some (apply_ops g os)) v u = 1%Z /\
     edge_has_weight (apply_ops g os) (Z.to_nat u) (Z.to_nat v) 1 /\
     edge_has_weight (apply_ops g os) (Z.to_nat v) (Z.to_nat u) 1) /\
  (forall o, op_weight_positive o -> weights_ge_1 (apply_op (apply_ops g os) o)).
Proof.
  intros n0 g os Hc Hpos.
  assert (Hwf : graph_wf g) by (eapply graph_create_wf; eauto).
  assert (Hempty : weights_ge_1 g).
  { intros u e. rewrite (graph_create_head n0 g u Hc). intros []. }
  split; [|split].
  - apply apply_ops_weights_ge_1; assumption.
  - intros os1 m1 m2 u v os2 -> Hok.
    unfold apply_ops at 1 2 3 4. rewrite fold_left_app. cbn [fold_left apply_op].
    fold (apply_ops g os1).
    assert (Hwf1 : graph_wf (apply_ops g os1)) by (apply apply_ops_wf; exact Hwf).
    destruct (graph_add_edge m1 m2 (apply_ops g os1) u v) as [rc g1] eqn:Hadd.
    cbn [fst snd] in *. subst rc.
    fold (apply_ops g1 os2).
    assert (Hwf2 : graph_wf g1) by (eapply add_ok_wf; [exact Hwf1|exact Hadd]).
    destruct (add_ok_edge_has_weight _ _ _ _ _ _ _ Hwf1 Hadd) as [E1 E2].
    destruct (add_ok_inv _ _ _ _ _ _ _ Hadd) as [Bu [Bv _]].
    destruct (add_ok_heads _ _ _ _ _ _ _ Hwf1 Hadd) as [_ [_ [Hn1 _]]].
    assert (Bu' : in_bounds (Some (apply_ops g1 os2)) u = true).
    { cbn [in_bounds] in *. rewrite apply_ops_n, Hn1. exact Bu. }
    assert (Bv' : in_bounds (Some (apply_ops g1 os2)) v = true).
    { cbn [in_bounds] in *. rewrite apply_ops_n, Hn1. exact Bv. }
    assert (F1 := edge_has_weight_ops os2 g1 _ _ _ Hwf2 E1).
    assert (F2 := edge_has_weight_ops os2 g1 _ _ _ Hwf2 E2).
    split; [|split; [|split]].
    + apply edge_has_weight_get; assumption.
    + apply edge_has_weight_get; assumption.
    + exact F1.
    + exact F2.
  - intros o Ho.
    change (apply_op (apply_ops g os) o) with (apply_ops (apply_ops g os) [o]).
    apply apply_ops_weights_ge_1.
    + apply apply_ops_wf. exact Hwf.
    + constructor; [exact Ho|constructor].
    + apply apply_ops_weights_ge_1; assumption.
Qed.

(** *** Witnesses and counterexamples *)

Lemma g_two_wf : graph_wf g_two.
Proof. apply (graph_create_wf 2). reflexivity. Qed.

Lemma get_edge_weight_zero_on_invalid_witness :
  graph_get_edge_weight None 0 1 = 0%Z /\
  graph_get_edge_weight (Some g_two_edge) (-1) 1 = 0%Z /\
  graph_get_edge_weight (Some g_two_edge) 0 2 = 0%Z /\
  graph_get_edge_weight (Some g_two) 0 1 = 0%Z.
Proof.
  split; [|split; [|split]].
  - apply (proj1 (get_edge_weight_zero_on_invalid None 0 1)). reflexivity.
  - apply (proj1 (proj2 (get_edge_weight_zero_on_invalid (Some g_two_edge) (-1) 1)) g_two_edge).
    + reflexivity.
    + left. simpl. lia.
  - apply (proj1 (proj2 (get_edge_weight_zero_on_invalid (Some g_two_edge) 0 2)) g_two_edge).
    + reflexivity.
    + right. simpl. lia.
  - apply (proj1 (proj2 (proj2 (get_edge_weight_zero_on_invalid (Some g_two) 0 1))) g_two).
    + reflexivity.
    + simpl. lia.
    + simpl. lia.
    + reflexivity.
Defined.

Lemma add_edge_symmetric_then_duplicate_witness :
  graph_get_edge_weight (Some g_two_edge) 0 1 = graph_get_edge_weight (Some g_two_edge) 1 0 /\
  (0 < graph_get_edge_weight (Some g_two_edge) 0 1)%Z /\
  (forall m3 m4, fst (graph_add_edge m3 m4 g_two_edge 0 1) = RC_DUP /\
                 fst (graph_add_edge m3 m4 g_two_edge 1 0) = RC_DUP).
Proof.
  apply (add_edge_symmetric_then_duplicate true true g_two 0 1 g_two_edge).
  - apply (graph_create_wf 2). reflexivity.
  - lia.
  - reflexivity.
Defined.

Lemma add_weighted_edge_nomem_unchanged_witness :
  snd (graph_add_weighted_edge true false g_two 0 1 4) = g_two /\
  graph_add_weighted_edge false true g_two 1 1 4 = (RC_NOMEM, g_two).
Proof.
  split.
  - apply (proj1 (add_weighted_edge_nomem_unchanged true false g_two 0 1 4)). reflexivity.
  - apply (proj2 (add_weighted_edge_nomem_unchanged false true g_two 1 1 4)); reflexivity.
Defined.

Lemma weights_positive_when_given_positive_witness :
  weights_ge_1
    (apply_ops g_two [AddWeightedEdge true true 0 0 7; AddEdge true true 0 1;
                      AddWeightedEdge true true 1 1 3]) /\
  graph_get_edge_weight
    (Some (apply_ops g_two [AddWeightedEdge true true 0 0 7; AddEdge true true 0 1;
                            AddWeightedEdge true true 1 1 3])) 0 1 = 1%Z /\
  graph_get_edge_weight
    (Some (apply_ops g_two [AddWeightedEdge true true 0 0 7; AddEdge true true 0 1;
                            AddWeightedEdge true true 1 1 3])) 1 0 = 1%Z.
Proof.
  assert (H := weights_positive_when_given_positive 2 g_two
                 [AddWeightedEdge true true 0 0 7; AddEdge true true 0 1;
                  AddWeightedEdge true true 1 1 3]).
  destruct H as [H1 [H2 _]].
  - reflexivity.
  - repeat constructor; simpl; lia.
  - split; [exact H1|].
    destruct (H2 [AddWeightedEdge true true 0 0 7] true true 0%Z 1%Z
                 [AddWeightedEdge true true 1 1 3] eq_refl eq_refl) as [G1 [G2 _]].
    split; assumption.
Defined.

(** C7 as stated fails: a successful [graph_add_weighted_edge] with weight 0
    leaves nodes of weight 0 in the graph. *)
Lemma weights_positive_counterexample :
  graph_create 2 = Some g_two /\
  graph_add_weighted_edge true true g_two 0 1 0 = (RC_OK, g_two_zero) /\
  In (mkEdgeNode 1 0) (head g_two_zero 0) /\
  ~ weights_ge_1 g_two_zero.
Proof.
  repeat split.
  - simpl. auto.
  - intros H. specialize (H 0 (mkEdgeNode 1 0)). simpl in H.
    assert (1 <= 0)%Z by (apply H; auto). lia.
Qed.

(** *** Duplicate triplets in the servers *)

(** The scan only touches the [weight] field. *)
Lemma set_weights_to : forall l v w, map to (set_weights l v w) = map to l.
Proof.
  intros l v w. unfold set_weights. rewrite map_map. apply map_ext.
  intros e. destruct (to e =? v); reflexivity.
Qed.

(** What a run without allocation failure does. *)
Lemma alloc_succeed : forall o,
  all_succeed o -> fst (alloc o) = true /\ all_succeed (snd (alloc o)).
Proof.
  intros [|m o] H; cbn [alloc fst snd]; [split; [reflexivity|constructor]|].
  inversion H; subst. split; [reflexivity|assumption].
Qed.

Lemma graph_add_edge_call_succeed : forall o g u v,
  all_succeed o ->
  fst (graph_add_edge_call o g u v) = graph_add_edge true true g u v /\
  all_succeed (snd (graph_add_edge_call o g u v)).
Proof.
  intros o g u v H. unfold graph_add_edge_call.
  destruct (negb (in_bounds (Some g) u) || negb (in_bounds (Some g) v)
            || edge_exists_simple g (Z.to_nat u) (Z.to_nat v)); [split; [reflexivity|exact H]|].
  destruct (alloc_succeed o H) as [E1 H1]. destruct (alloc o) as [m1 o1].
  cbn [fst snd] in *. subst m1.
  destruct (alloc_succeed o1 H1) as [E2 H2]. destruct (alloc o1) as [m2 o2].
  cbn [fst snd] in *. subst m2. split; [reflexivity|exact H2].
Qed.

Lemma process_triplet_succeed : forall o g t,
  all_succeed o ->
  fst (process_triplet (g, o) t) = process_triplet_ok g t /\
  all_succeed (snd (process_triplet (g, o) t)).
Proof.
  intros o g [[src dest] w] H. unfold process_triplet, process_triplet_ok.
  destruct (triplet_ok g src dest w); [|split; [reflexivity|exact H]].
  destruct (graph_add_edge_call_succeed o g src dest H) as [E1 H1].
  destruct (graph_add_edge_call o g src dest) as [[rc g1] o1]. cbn [fst snd] in *.
  rewrite <- E1. split; [reflexivity|exact H1].
Qed.

Lemma process_weighted_request_succeed : forall ts o g,
  all_succeed o -> process_weighted_request o g ts = process_weighted_request_ok g ts.
Proof.
  unfold process_weighted_request, process_weighted_request_ok.
  induction ts as [|t ts IH]; intros o g H; [reflexivity|].
  cbn [fold_left]. destruct (process_triplet_succeed o g t H) as [E1 H1].
  destruct (process_triplet (g, o) t) as [g1 o1]. cbn [fst snd] in *. subst g1.
  apply IH. exact H1.
Qed.

Lemma mst_add_triplet_succeed : forall o g we t,
  all_succeed o ->
  fst (mst_add_triplet (g, we, o) t) = mst_add_triplet_ok (g, we) t /\
  all_succeed (snd (mst_add_triplet (g, we, o) t)).
Proof.
  intros o g we [[src dest] w] H. unfold mst_add_triplet, mst_add_triplet_ok.
  destruct ((src <? 0)%Z || (src >=? Z.of_nat (n g))%Z ||
            (dest <? 0)%Z || (dest >=? Z.of_nat (n g))%Z); [split; [reflexivity|exact H]|].
  destruct (w <=? 0)%Z; [split; [reflexivity|exact H]|].
  destruct (graph_add_edge_call_succeed o g src dest H) as [E1 H1].
  destruct (graph_add_edge_call o g src dest) as [[rc g1] o1]. cbn [fst snd] in *.
  rewrite <- E1. destruct (rc =? 0)%Z; split; try reflexivity; exact H1.
Qed.

Lemma mst_add_triplets_succeed : forall ts o g we,
  all_succeed o ->
  fst (fold_left mst_add_triplet ts (g, we, o)) = fold_left mst_add_triplet_ok ts (g, we).
Proof.
  induction ts as [|t ts IH]; intros o g we H; [reflexivity|].
  cbn [fold_left]. destruct (mst_add_triplet_succeed o g we t H) as [E1 H1].
  destruct (mst_add_triplet (g, we, o) t) as [[g1 we1] o1]. cbn [fst snd] in *.
  rewrite <- E1. apply IH. exact H1.
Qed.

(** [process_mst_weighted_request] checks the return value: a triplet whose
    [graph_add_edge] answers duplicate changes neither the graph nor the
    list of weights to write. *)
Lemma mst_duplicate_ignored : forall o g weighted_edges src dest w,
  graph_wf g ->
  fst (graph_add_edge true true g src dest) = RC_DUP ->
  mst_add_triplet (g, weighted_edges, o) (src, dest, w) = (g, weighted_edges, o).
Proof.
  intros o g we src dest w Hwf Hdup. unfold mst_add_triplet.
  destruct ((src <? 0)%Z || (src >=? Z.of_nat (n g))%Z ||
            (dest <? 0)%Z || (dest >=? Z.of_nat (n g))%Z); auto.
  destruct (w <=? 0)%Z; auto.
  assert (Hcall : graph_add_edge_call o g src dest = (graph_add_edge true true g src dest, o)).
  { unfold graph_add_edge_call, graph_add_edge, graph_add_weighted_edge in *.
    destruct (negb (in_bounds (Some g) src) || negb (in_bounds (Some g) dest)); [reflexivity|].
    cbn [orb]. destruct (edge_exists_simple g (Z.to_nat src) (Z.to_nat dest)); [reflexivity|].
    exfalso. cbn [negb orb] in Hdup.
    destruct (Z.to_nat src =? Z.to_nat dest); cbn [fst] in Hdup; discriminate. }
  rewrite Hcall.
  assert (H := add_failure_unchanged true true g src dest 1).
  unfold graph_add_edge in *.
  destruct (graph_add_weighted_edge true true g src dest 1) as [rc g1]. simpl in *.
  subst rc. rewrite H by discriminate. reflexivity.
Qed.

(** [process_weighted_request_ok] of the leader/follower server drops the
    return value, and the scans then find the nodes of the edge that is
    already there. *)
Lemma rewrite_weights_existing_edge : forall g src dest w,
  graph_wf g -> src < n g -> dest < n g ->
  0 < count_neighbor g src dest ->
  first_weight (head (rewrite_weights g src dest w) src) dest = w.
Proof.
  intros g src dest w Hwf Hs Hd Hc.
  assert (Hlen := wf_len Hwf).
  assert (Hfw : forall l, 0 < count_to l dest -> first_weight (set_weights l dest w) dest = w).
  { induction l as [|e l IH]; simpl; [lia|].
    destruct (Nat.eqb_spec (to e) dest) as [He|He]; simpl.
    - rewrite He, Nat.eqb_refl. reflexivity.
    - destruct (Nat.eqb_spec (to e) dest); [lia|]. intros H; apply IH; lia. }
  unfold rewrite_weights.
  destruct (Nat.eqb_spec src dest) as [Hsd|Hsd].
  - rewrite head_set_head_same by lia. apply Hfw. exact Hc.
  - rewrite head_set_head_other by auto. rewrite head_set_head_same by lia.
    apply Hfw. exact Hc.
Qed.

(** C6 on the code.  The request [n = 2], triplets [(0,1,5)] then [(0,1,9)]:
    the second [graph_add_edge] answers duplicate, and the scans that follow
    it change the weight of the edge from 5 to 9 at both endpoints, whatever
    the allocations of the rest of the run do.  The server of part 7 keeps
    the weight 5 on the same request. *)
Lemma duplicate_triplet_rewrites_weight :
  fst (graph_add_edge true true lf_graph 0 1) = RC_DUP /\
  graph_get_edge_weight (Some lf_graph) 0 1 = 5%Z /\
  graph_get_edge_weight (Some lf_graph) 1 0 = 5%Z /\
  (forall o,
     graph_get_edge_weight (Some (fst (process_triplet (lf_graph, o) (0, 1, 9)%Z))) 0 1 = 9%Z /\
     graph_get_edge_weight (Some (fst (process_triplet (lf_graph, o) (0, 1, 9)%Z))) 1 0 = 9%Z) /\
  option_map (fun g => graph_get_edge_weight (Some g) 0 1)
    (process_mst_weighted_request [] 2 2 [(0, 1, 5); (0, 1, 9)]%Z) = Some 5%Z.
Proof.
  split; [reflexivity|]. split; [reflexivity|]. split; [reflexivity|].
  split; [intros o; split; reflexivity|reflexivity].
Qed.

(** ** Cliques ([maxclique.c], [cliquecount.c]) *)

(** *** The cliques both searches enumerate *)

Lemma max_length_app : forall l1 l2,
  max_length (l1 ++ l2) = Nat.max (max_length l1) (max_length l2).
Proof. induction l1; intros; simpl; auto. rewrite IHl1. lia. Qed.

Lemma count_length_app : forall l1 l2 k,
  count_length (l1 ++ l2) k = count_length l1 k + count_length l2 k.
Proof. intros. unfold count_length. rewrite filter_app, length_app. reflexivity. Qed.

Lemma max_length_ge : forall l c, In c l -> length c <= max_length l.
Proof.
  induction l as [|a l IH]; intros c []; simpl.
  - subst. lia.
  - specialize (IH c H). lia.
Qed.

Lemma max_length_attained : forall l, l <> [] -> exists c, In c l /\ length c = max_length l.
Proof.
  induction l as [|a l IH]; intros Hne; [congruence|]. simpl.
  destruct l as [|b l'].
  - exists a. simpl. split; auto; lia.
  - destruct IH as [c [Hin Hc]]; [discriminate|].
    destruct (Nat.max_spec (length a) (max_length (b :: l'))) as [[_ E]|[_ E]]; rewrite E.
    + exists c. split; [right; auto | auto].
    + exists a. split; auto.
Qed.

Lemma count_length_pos : forall l c k, In c l -> Z.of_nat (length c) = k -> 0 < count_length l k.
Proof.
  intros l c k Hin Hk. unfold count_length.
  assert (H : In c (filter (fun c => (Z.of_nat (length c) =? k)%Z) l)).
  { apply filter_In. split; auto. apply Z.eqb_eq; auto. }
  destruct (filter _ l); [destruct H | simpl; lia].
Qed.

Lemma count_length_zero : forall l k,
  (forall c, In c l -> Z.of_nat (length c) <> k) -> count_length l k = 0.
Proof.
  intros l k H. unfold count_length.
  destruct (filter _ l) as [|c r] eqn:E; auto.
  assert (Hin : In c (filter (fun c => (Z.of_nat (length c) =? k)%Z) l)) by (rewrite E; left; auto).
  apply filter_In in Hin. destruct Hin as [Hin Hk]. apply Z.eqb_eq in Hk.
  exfalso. eapply H; eauto.
Qed.

Lemma extensions_length : forall adj_matrix cands cur c,
  In c (extensions adj_matrix cands cur) ->
  length cur < length c <= length cur + length cands.
Proof.
  induction cands as [|v rest IH]; intros cur c Hin; simpl in *; [tauto|].
  apply in_app_or in Hin. destruct Hin as [Hin|Hin].
  - destruct (is_connected_to_all adj_matrix v cur); [|destruct Hin].
    destruct Hin as [<-|Hin].
    + rewrite length_app. simpl. lia.
    + apply IH in Hin. rewrite length_app in Hin. simpl in Hin. lia.
  - apply IH in Hin. lia.
Qed.

Lemma improve_size : forall cur best, snd (improve cur best) = Nat.max (snd best) (length cur).
Proof.
  intros cur best. unfold improve.
  destruct (Nat.ltb_spec (snd best) (length cur)); simpl; lia.
Qed.

Lemma max_clique_loop_size : forall adj_matrix cands cur best,
  snd (max_clique_loop adj_matrix cands cur best)
  = Nat.max (snd best) (max_length (extensions adj_matrix cands cur)).
Proof.
  induction cands as [|v rest IH]; intros cur best; simpl; [lia|].
  rewrite IH, max_length_app.
  destruct (is_connected_to_all adj_matrix v cur); simpl.
  - rewrite IH, improve_size. lia.
  - lia.
Qed.

Lemma count_length_cons : forall c l k,
  count_length (c :: l) k
  = (if (Z.of_nat (length c) =? k)%Z then 1 else 0) + count_length l k.
Proof.
  intros. unfold count_length. simpl.
  destruct (Z.of_nat (length c) =? k)%Z; reflexivity.
Qed.

Lemma count_size_loop_spec : forall adj_matrix target cands cur count,
  (Z.of_nat (length cur) < target)%Z ->
  count_size_loop adj_matrix cands cur target count
  = (count + Z.of_nat (count_length (extensions adj_matrix cands cur) target))%Z.
Proof.
  induction cands as [|v rest IH]; intros cur count Hlt; simpl.
  - unfold count_length; simpl. lia.
  - rewrite IH by auto. rewrite count_length_app.
    destruct (is_connected_to_all adj_matrix v cur); [|simpl; lia].
    assert (Hl : length (cur ++ [v]) = S (length cur)) by (rewrite length_app; simpl; lia).
    assert (Hdeep : forall c, In c (extensions adj_matrix rest (cur ++ [v])) ->
              length (cur ++ [v]) < length c <= length (cur ++ [v]) + length rest)
      by (intros; eapply extensions_length; eauto).
    rewrite count_length_cons.
    destruct (Z.eqb_spec (Z.of_nat (length (cur ++ [v]))) target) as [He|Hn].
    + rewrite (count_length_zero (extensions adj_matrix rest (cur ++ [v])) target).
      * lia.
      * intros c Hc. apply Hdeep in Hc. lia.
    + destruct (Z.ltb_spec (Z.of_nat (length (cur ++ [v])) + Z.of_nat (length rest)) target).
      * rewrite (count_length_zero (extensions adj_matrix rest (cur ++ [v])) target).
        -- lia.
        -- intros c Hc. apply Hdeep in Hc. lia.
      * rewrite IH by lia. lia.
Qed.

(** The top-level loop of [graph_max_clique] starts one search per vertex. *)
Lemma max_length_cons : forall c l,
  max_length (c :: l) = Nat.max (length c) (max_length l).
Proof. reflexivity. Qed.

Lemma max_clique_starts_size : forall adj_matrix n0 k a best,
  a + k = n0 ->
  snd (fold_left (fun best start =>
                    max_clique_backtrack adj_matrix n0 (start + 1) [start] best)
                 (seq a k) best)
  = Nat.max (snd best) (max_length (extensions adj_matrix (seq a k) [])).
Proof.
  induction k as [|k IH]; intros a best Hn; [simpl; lia|].
  cbn [seq fold_left extensions is_connected_to_all app].
  rewrite IH by lia. rewrite max_length_cons, max_length_app.
  unfold max_clique_backtrack. rewrite max_clique_loop_size, improve_size.
  replace (a + 1) with (S a) by lia. replace (n0 - S a) with k by lia.
  cbn [length]. lia.
Qed.

Lemma graph_max_clique_size : forall g, 0 < n g ->
  mc_size (graph_max_clique g)
  = Z.of_nat (max_length (extensions (build_adjacency_matrix g) (seq 0 (n g)) [])).
Proof.
  intros g Hn. unfold graph_max_clique.
  destruct (Nat.eqb_spec (n g) 0) as [H0|H0]; [lia|].
  destruct (Nat.eqb_spec (n g) 1) as [H1|H1].
  - rewrite H1. reflexivity.
  - set (A := build_adjacency_matrix g).
    assert (Hs := max_clique_starts_size A (n g) (n g) 0 ([], 0) eq_refl).
    cbn [snd] in Hs. rewrite Nat.max_0_l in Hs. rewrite Hs.
    assert (Hpos : 0 < max_length (extensions A (seq 0 (n g)) [])).
    { destruct (n g) as [|k]; [lia|].
      cbn [seq extensions is_connected_to_all app]. rewrite max_length_cons.
      cbn [length]. lia. }
    destruct (Nat.ltb_spec 0 (max_length (extensions A (seq 0 (n g)) []))); [|lia].
    reflexivity.
Qed.

Lemma graph_count_cliques_of_size_spec : forall g k,
  (1 <= k)%Z ->
  graph_count_cliques_of_size g k
  = Some (Z.of_nat (count_length (extensions (build_adjacency_matrix g) (seq 0 (n g)) []) k)).
Proof.
  intros g k Hk. unfold graph_count_cliques_of_size.
  destruct (Z.ltb_spec k 1); [lia|].
  set (A := build_adjacency_matrix g).
  assert (Hlen : forall c, In c (extensions A (seq 0 (n g)) []) -> length c <= n g).
  { intros c Hc. apply extensions_length in Hc. rewrite length_seq in Hc. simpl in Hc. lia. }
  destruct (Z.ltb_spec (Z.of_nat (n g)) k).
  - rewrite count_length_zero; auto. intros c Hc. apply Hlen in Hc. lia.
  - unfold count_cliques_of_size_recursive. cbn [length].
    destruct (Z.eqb_spec (Z.of_nat 0) k) as [He|He]; [lia|].
    destruct (Z.ltb_spec (Z.of_nat 0 + (Z.of_nat (n g) - Z.of_nat 0)) k) as [Hp|Hp]; [lia|].
    rewrite Nat.sub_0_r. rewrite count_size_loop_spec by (simpl; lia).
    f_equal.
Qed.

(** C8. The size reported by [graph_max_clique] has a positive count in
    [graph_count_cliques_of_size], and every larger size has count 0. *)
Theorem max_clique_size_is_largest_counted : forall g,
  0 < n g ->
  (exists c, graph_count_cliques_of_size g (mc_size (graph_max_clique g)) = Some c /\
             (0 < c)%Z) /\
  (forall k, (mc_size (graph_max_clique g) < k)%Z ->
             graph_count_cliques_of_size g k = Some 0%Z).
Proof.
  intros g Hn. rewrite graph_max_clique_size by auto.
  set (E := extensions (build_adjacency_matrix g) (seq 0 (n g)) []).
  assert (Hne : E <> []).
  { unfold E. destruct (n g) as [|k]; [lia|].
    cbn [seq extensions is_connected_to_all app]. discriminate. }
  destruct (max_length_attained E Hne) as [c [Hin Hc]].
  assert (Hc1 : 1 <= length c).
  { unfold E in Hin. apply extensions_length in Hin. simpl in Hin. lia. }
  split.
  - exists (Z.of_nat (count_length E (Z.of_nat (max_length E)))). split.
    + apply graph_count_cliques_of_size_spec. lia.
    + assert (0 < count_length E (Z.of_nat (max_length E))); [|lia].
      apply (count_length_pos E c); auto; lia.
  - intros k Hk. rewrite graph_count_cliques_of_size_spec by lia.
    fold E. rewrite count_length_zero; auto.
    intros c' Hc'. apply max_length_ge in Hc'. lia.
Qed.

Lemma max_clique_size_is_largest_counted_witness :
  (exists c, graph_count_cliques_of_size g_triangle (mc_size (graph_max_clique g_triangle))
             = Some c /\ (0 < c)%Z) /\
  (forall k, (mc_size (graph_max_clique g_triangle) < k)%Z ->
             graph_count_cliques_of_size g_triangle k = Some 0%Z).
Proof. apply (max_clique_size_is_largest_counted g_triangle). simpl. lia. Defined.

(** Scenario S3 of the specification: the triangle. *)
Example triangle_cliques :
  mc_size (graph_max_clique g_triangle) = 3%Z /\
  graph_count_cliques_of_size g_triangle 1 = Some 3%Z /\
  graph_count_cliques_of_size g_triangle 2 = Some 3%Z /\
  graph_count_cliques_of_size g_triangle 3 = Some 1%Z.
Proof. vm_compute. repeat split. Qed.

(** ** Euler circuits ([graph.c]) *)

(** *** Adjacency, reachability, degrees *)

Lemma adjacent_count : forall g u v, adjacent g u v <-> 0 < count_neighbor g u v.
Proof.
  intros g u v. unfold adjacent, count_neighbor. rewrite count_to_pos, in_map_iff.
  split.
  - intros [[t w] [Ht Hin]]. simpl in Ht. subst t. exists w; auto.
  - intros [w Hin]. exists (mkEdgeNode v w). auto.
Qed.

Lemma adjacentb_true : forall g u v, adjacentb g u v = true <-> adjacent g u v.
Proof. intros. unfold adjacentb. rewrite Nat.ltb_lt. symmetry. apply adjacent_count. Qed.

Lemma adjacent_sym : forall g u v, graph_wf g -> adjacent g u v -> adjacent g v u.
Proof.
  intros g u v Hwf H. destruct (Nat.eq_dec u v) as [->|Hne]; auto.
  apply adjacent_count. rewrite <- (wf_count_sym g u v Hwf Hne). apply adjacent_count; auto.
Qed.

Lemma adjacent_range : forall g u v, graph_wf g -> adjacent g u v -> u < n g /\ v < n g.
Proof.
  intros g u v Hwf H. unfold adjacent in H. apply in_map_iff in H.
  destruct H as [e [He Hin]]. split.
  - destruct (Nat.lt_ge_cases u (n g)) as [Hlt|Hge]; auto.
    rewrite head_out_of_range in Hin by (rewrite (wf_len Hwf); auto). destruct Hin.
  - subst v. eapply wf_to; eauto.
Qed.

Lemma reach_trans : forall g u v w, reach g u v -> reach g v w -> reach g u w.
Proof. intros g u v w H1 H2. induction H2; auto. eapply reach_step; eauto. Qed.

Lemma reach_sym : forall g u v, graph_wf g -> reach g u v -> reach g v u.
Proof.
  intros g u v Hwf H. induction H.
  - constructor.
  - eapply reach_trans; [|exact IHreach].
    eapply reach_step; [constructor|]. apply adjacent_sym; auto.
Qed.

Lemma sum_n_ext : forall f h k, (forall i, i < k -> f i = h i) -> sum_n f k = sum_n h k.
Proof.
  induction k; intros H; simpl; auto. rewrite IHk, H; auto.
Qed.

Lemma sum_n_add : forall f h k, sum_n (fun i => f i + h i) k = sum_n f k + sum_n h k.
Proof. induction k; simpl; auto. rewrite IHk. lia. Qed.

Lemma sum_n_zero : forall k, sum_n (fun _ => 0) k = 0.
Proof. induction k; simpl; auto. rewrite IHk; auto. Qed.

Lemma sum_n_indicator : forall k t,
  sum_n (fun u => if t =? u then 1 else 0) k = if t <? k then 1 else 0.
Proof.
  induction k; intros t; simpl; auto. rewrite IHk.
  destruct (Nat.ltb_spec t k); destruct (Nat.eqb_spec t k); destruct (Nat.ltb_spec t (S k)); lia.
Qed.

(** The length of an adjacency list is the sum of its neighbour counts. *)
Lemma length_sum_count : forall l k,
  (forall e, In e l -> to e < k) -> length l = sum_n (count_to l) k.
Proof.
  induction l as [|e l IH]; intros k H.
  - change (sum_n (count_to []) k) with (sum_n (fun _ => 0) k).
    rewrite sum_n_zero. reflexivity.
  - change (sum_n (count_to (e :: l)) k)
      with (sum_n (fun u => (if to e =? u then 1 else 0) + count_to l u) k).
    cbn [length].
    rewrite sum_n_add, sum_n_indicator, <- IH by (intros; apply H; right; auto).
    destruct (Nat.ltb_spec (to e) k) as [Hlt|Hge]; auto.
    specialize (H e (or_introl eq_refl)). lia.
Qed.

(** In a well-formed graph the list length that [degree_vertex_adj] returns
    is the degree, a self-loop counting 2. *)
Lemma degree_vertex_adj_degree : forall g v, graph_wf g -> degree_vertex_adj g v = degree g v.
Proof.
  intros g v Hwf. unfold degree_vertex_adj, degree.
  rewrite (length_sum_count (head g v) (n g)) by (intros; eapply wf_to; eauto).
  apply sum_n_ext. intros u Hu. unfold adjacentb. fold (count_neighbor g v u).
  destruct (Nat.eqb_spec u v) as [->|Hne].
  - destruct (wf_loop Hwf v) as [E|E]; rewrite E; reflexivity.
  - assert (H := wf_simple Hwf v u (not_eq_sym Hne)).
    destruct (count_neighbor g v u) as [|[|c]]; simpl; auto. lia.
Qed.

(** *** The stack loop of [is_connected_ignore_isolated_ok] *)

Lemma unvisited_upd : forall vis v,
  v < length vis -> nth v vis false = false ->
  unvisited (upd vis v true) + 1 = unvisited vis.
Proof.
  unfold unvisited.
  induction vis as [|b vis IH]; intros [|v] Hlt Hv; simpl in *; try lia.
  - subst b. simpl. lia.
  - destruct b; simpl; rewrite <- (IH v) by (auto; lia); lia.
Qed.

Lemma visit_neighbors_spec : forall l st vis,
  (forall e, In e l -> to e < length vis) ->
  length (snd (visit_neighbors_ok l st vis)) = length vis /\
  (forall x, nth x (snd (visit_neighbors_ok l st vis)) false = true <->
             nth x vis false = true \/ In x (map to l)) /\
  (forall x, In x (fst (visit_neighbors_ok l st vis)) <->
             In x st \/ (nth x (snd (visit_neighbors_ok l st vis)) false = true /\
                         nth x vis false = false)) /\
  2 * unvisited (snd (visit_neighbors_ok l st vis)) + length (fst (visit_neighbors_ok l st vis))
    <= 2 * unvisited vis + length st.
Proof.
  unfold visit_neighbors_ok.
  induction l as [|e l IH]; intros st vis Hr; cbn [fold_left fst snd map].
  - split; [|split; [|split]]; auto.
    + intros x. cbn [In]. tauto.
    + intros x. split; auto. intros [H|[H1 H2]]; auto. congruence.
  - assert (He : to e < length vis) by (apply Hr; left; auto).
    assert (Hr' : forall e', In e' l -> to e' < length vis) by (intros; apply Hr; right; auto).
    destruct (nth (to e) vis false) eqn:Ev.
    + destruct (IH st vis Hr') as [H1 [H2 [H3 H4]]].
      split; [|split; [|split]]; auto.
      intros x. rewrite H2. cbn [In]. split.
      * intros [H|H]; auto.
      * intros [H|[H|H]]; auto. rewrite <- H; auto.
    + assert (Hr1 : forall e', In e' l -> to e' < length (upd vis (to e) true))
        by (intros; rewrite upd_length; auto).
      destruct (IH (to e :: st) (upd vis (to e) true) Hr1) as [H1 [H2 [H3 H4]]].
      rewrite upd_length in H1.
      assert (Hu : forall x, nth x (upd vis (to e) true) false = true <->
                             nth x vis false = true \/ x = to e).
      { intros x. rewrite nth_upd.
        destruct (Nat.eqb_spec (to e) x) as [Hx|Hx];
          destruct (Nat.ltb_spec (to e) (length vis)); simpl; try lia; intuition. }
      split; [|split; [|split]]; auto.
      * intros x. rewrite H2, Hu. cbn [In]. intuition.
      * intros x. rewrite H3. cbn [In]. split.
        -- intros [[Hx|Hx]|[Hx1 Hx2]]; auto.
           ++ subst x. right. split; auto. apply H2. left. apply Hu. auto.
           ++ right. split; auto.
              destruct (nth x vis false) eqn:Ex; auto.
              assert (nth x (upd vis (to e) true) false = true) by (apply Hu; auto).
              congruence.
        -- intros [Hx|[Hx1 Hx2]]; auto.
           destruct (Nat.eq_dec x (to e)) as [->|Hne]; auto.
           right. split; auto.
           destruct (nth x (upd vis (to e) true) false) eqn:Ex; auto.
           apply Hu in Ex. destruct Ex; congruence.
      * assert (Hm := unvisited_upd vis (to e) He Ev). simpl in H4. simpl. lia.
Qed.

Section Dfs.

Variable g : Graph.

Variable start : nat.

Hypothesis Hwf : graph_wf g.

Record dfs_inv (st : list nat) (vis : list bool) : Prop := mk_dfs_inv {
  di_len : length vis = n g;
  di_start : nth start vis false = true;
  di_stack : forall u, In u st -> nth u vis false = true;
  di_sound : forall v, nth v vis false = true -> reach g start v;
  di_closed : forall u, nth u vis false = true ->
                In u st \/ forall v, adjacent g u v -> nth v vis false = true
}.

Lemma dfs_inv_step : forall u st vis,
  dfs_inv (u :: st) vis ->
  dfs_inv (fst (visit_neighbors_ok (head g u) st vis)) (snd (visit_neighbors_ok (head g u) st vis)).
Proof.
  intros u st vis [Hlen Hst Hstack Hsound Hclosed].
  assert (Hr : forall e, In e (head g u) -> to e < length vis).
  { intros e He. rewrite Hlen. eapply wf_to; eauto. }
  destruct (visit_neighbors_spec (head g u) st vis Hr) as [H1 [H2 [H3 H4]]].
  constructor.
  - congruence.
  - apply H2. auto.
  - intros x Hx. apply H3 in Hx. destruct Hx as [Hx|[Hx _]]; auto.
    apply H2. left. apply Hstack. right; auto.
  - intros v Hv. apply H2 in Hv. destruct Hv as [Hv|Hv]; auto.
    eapply reach_step; [|exact Hv]. apply Hsound. apply Hstack. left; auto.
  - intros x Hx. apply H2 in Hx.
    destruct (nth x vis false) eqn:Ex.
    + destruct (Hclosed x Ex) as [[Hxu|Hxs]|Hc].
      * subst x. right. intros v Hv. apply H2. right. exact Hv.
      * left. apply H3. auto.
      * right. intros v Hv. apply H2. left. auto.
    + left. apply H3. right. split; auto. apply H2. destruct Hx; auto. congruence.
Qed.

Lemma dfs_loop_total : forall fuel st vis,
  dfs_inv st vis ->
  2 * unvisited vis + length st < fuel ->
  exists vis', dfs_loop_ok fuel g st vis = Some vis' /\ dfs_inv [] vis'.
Proof.
  induction fuel as [|fuel IH]; intros st vis Hinv Hm; [lia|].
  destruct st as [|u st]; simpl.
  - exists vis. auto.
  - apply IH.
    + apply dfs_inv_step; auto.
    + assert (Hr : forall e, In e (head g u) -> to e < length vis).
      { intros e He. rewrite (di_len _ _ Hinv). eapply wf_to; eauto. }
      destruct (visit_neighbors_spec (head g u) st vis Hr) as [_ [_ [_ H4]]].
      simpl in Hm. lia.
Qed.

Lemma dfs_inv_final : forall vis,
  dfs_inv [] vis -> forall v, nth v vis false = true <-> reach g start v.
Proof.
  intros vis [Hlen Hst Hstack Hsound Hclosed] v. split; auto.
  intros H. induction H; auto.
  destruct (Hclosed v IHreach) as [[]|Hc]. auto.
Qed.

Lemma dfs_inv_init : start < n g -> dfs_inv [start] (upd (repeat false (n g)) start true).
Proof.
  intros Hs.
  assert (Hn : forall x, nth x (upd (repeat false (n g)) start true) false = true <-> x = start).
  { intros x. rewrite nth_upd, repeat_length.
    destruct (Nat.eqb_spec start x) as [Hx|Hx];
      destruct (Nat.ltb_spec start (n g)) as [Hl|Hl]; simpl; try lia;
      try rewrite nth_repeat; intuition congruence. }
  constructor.
  - rewrite upd_length, repeat_length. reflexivity.
  - apply Hn; auto.
  - intros u [<-|[]]. apply Hn; auto.
  - intros v Hv. apply Hn in Hv. subst. constructor.
  - intros u Hu. apply Hn in Hu. subst. left. left. reflexivity.
Qed.

Lemma unvisited_le : forall vis, unvisited vis <= length vis.
Proof. intros. unfold unvisited. apply filter_length_le. Qed.

Lemma dfs_from_start : start < n g ->
  exists vis, dfs_loop_ok (2 * n g) g [start] (upd (repeat false (n g)) start true) = Some vis /\
              length vis = n g /\
              forall v, nth v vis false = true <-> reach g start v.
Proof.
  intros Hs.
  assert (Hinit := dfs_inv_init Hs).
  destruct (dfs_loop_total (2 * n g) [start] (upd (repeat false (n g)) start true) Hinit)
    as [vis [Hrun Hfin]].
  - assert (Hu : unvisited (upd (repeat false (n g)) start true) + 1
                 = unvisited (repeat false (n g))).
    { apply unvisited_upd.
      - rewrite repeat_length; auto.
      - apply nth_repeat. }
    assert (Hle := unvisited_le (repeat false (n g))). rewrite repeat_length in Hle.
    simpl. lia.
  - exists vis. repeat split; auto.
    + apply (di_len _ _ Hfin).
    + apply dfs_inv_final; auto.
    + apply dfs_inv_final; auto.
Qed.

End Dfs.

(** *** [graph_has_euler_circuit_ok] characterised *)

Lemma mod2_even : forall d, (d mod 2 =? 0) = Nat.even d.
Proof.
  intros d. rewrite <- Nat.negb_odd. rewrite (Nat.div2_odd d) at 1.
  rewrite Nat.add_comm, Nat.mul_comm, Nat.Div0.mod_add.
  destruct (Nat.odd d); reflexivity.
Qed.

Lemma non_isolated_degree : forall g u,
  non_isolated g u <-> 0 < degree_vertex_adj g u.
Proof.
  intros g u. unfold non_isolated, adjacent, degree_vertex_adj.
  destruct (head g u) as [|e l]; simpl.
  - split; [intros [v []] | lia].
  - split; [lia|]. intros _. exists (to e). auto.
Qed.

Lemma non_isolated_range : forall g u, graph_wf g -> non_isolated g u -> u < n g.
Proof. intros g u Hwf [v Hv]. apply (adjacent_range g u v Hwf Hv). Qed.

Lemma first_with_degree_none : forall g,
  first_with_degree g = None -> forall u, u < n g -> degree_vertex_adj g u = 0.
Proof.
  intros g H u Hu. unfold first_with_degree in H.
  assert (Hf := find_none _ _ H u). rewrite in_seq in Hf.
  specialize (Hf ltac:(lia)). apply Nat.ltb_ge in Hf. lia.
Qed.

Lemma first_with_degree_some : forall g s,
  first_with_degree g = Some s -> s < n g /\ 0 < degree_vertex_adj g s.
Proof.
  intros g s H. unfold first_with_degree in H. apply find_some in H.
  rewrite in_seq, Nat.ltb_lt in H. lia.
Qed.

Lemma all_with_degree_visited_true : forall g vis,
  all_with_degree_visited g vis = true <->
  forall i, i < n g -> 0 < degree_vertex_adj g i -> nth i vis false = true.
Proof.
  intros g vis. unfold all_with_degree_visited. rewrite forallb_forall. split.
  - intros H i Hi Hd. specialize (H i). rewrite in_seq in H. specialize (H ltac:(lia)).
    apply Nat.ltb_lt in Hd. rewrite Hd in H. simpl in H.
    destruct (nth i vis false); auto.
  - intros H i Hi. rewrite in_seq in Hi.
    destruct (Nat.ltb_spec 0 (degree_vertex_adj g i)) as [Hd|Hd]; simpl; auto.
    rewrite H by lia. reflexivity.
Qed.

Lemma is_connected_ignore_isolated_spec : forall g,
  graph_wf g ->
  exists b, is_connected_ignore_isolated_ok g = Some b /\
            (b = true <-> connected_ignoring_isolated g).
Proof.
  intros g Hwf. unfold is_connected_ignore_isolated_ok.
  destruct (first_with_degree g) as [start|] eqn:Ef.
  - destruct (first_with_degree_some g start Ef) as [Hs Hd].
    destruct (dfs_from_start g start Hwf Hs) as [vis [Hrun [Hlen Hvis]]].
    rewrite Hrun. eexists; split; [reflexivity|].
    rewrite all_with_degree_visited_true. split.
    + intros H u v Hu Hv.
      assert (Ru : reach g start u).
      { apply Hvis, H; [eapply non_isolated_range; eauto | apply non_isolated_degree; auto]. }
      assert (Rv : reach g start v).
      { apply Hvis, H; [eapply non_isolated_range; eauto | apply non_isolated_degree; auto]. }
      eapply reach_trans; [apply reach_sym; eauto | auto].
    + intros H i Hi Hdi. apply Hvis. apply H; apply non_isolated_degree; auto.
  - exists true. split; auto. split; auto. intros _ u v Hu Hv.
    assert (Hlt := non_isolated_range g u Hwf Hu).
    apply non_isolated_degree in Hu.
    rewrite (first_with_degree_none g Ef u Hlt) in Hu. lia.
Qed.

Lemma sum_even_degrees_spec : forall g vs acc,
  sum_even_degrees g vs acc
  = if forallb (fun i => Nat.even (degree_vertex_adj g i)) vs
    then Some (acc + list_sum (map (degree_vertex_adj g) vs)) else None.
Proof.
  induction vs as [|i vs IH]; intros acc.
  - simpl. f_equal. lia.
  - cbn [sum_even_degrees forallb map]. rewrite mod2_even.
    destruct (Nat.even (degree_vertex_adj g i)); cbn [negb andb]; auto.
    rewrite IH. destruct (forallb _ vs); auto. f_equal. simpl. lia.
Qed.

Lemma list_sum_zero : forall l, list_sum l = 0 <-> forall x, In x l -> x = 0.
Proof.
  induction l as [|a l IH]; simpl.
  - split; auto. intros _ x [].
  - split.
    + intros H x [<-|Hx]; [lia|]. apply IH; auto. lia.
    + intros H. assert (a = 0) by auto.
      assert (list_sum l = 0) by (apply IH; auto). lia.
Qed.

Lemma list_sum_pos : forall l, 0 < list_sum l -> exists x, In x l /\ 0 < x.
Proof.
  induction l as [|a l IH]; simpl; [lia|]. intros H.
  destruct a as [|a].
  - destruct IH as [x [Hx Hp]]; [simpl in H; lia|]. exists x; auto.
  - exists (S a). split; auto. lia.
Qed.

Lemma graph_has_euler_circuit_spec : forall g,
  graph_wf g ->
  exists b, graph_has_euler_circuit_ok (Some g) = Some b /\
    (b = true <->
     has_an_edge g /\
     (forall v, v < n g -> Nat.even (degree g v) = true) /\
     connected_ignoring_isolated g).
Proof.
  intros g Hwf. unfold graph_has_euler_circuit_ok.
  destruct (is_connected_ignore_isolated_spec g Hwf) as [c [Hc Hconn]].
  rewrite Hc. rewrite sum_even_degrees_spec.
  assert (Heven : forallb (fun i => Nat.even (degree_vertex_adj g i)) (seq 0 (n g)) = true <->
                  forall v, v < n g -> Nat.even (degree g v) = true).
  { rewrite forallb_forall. split.
    - intros H v Hv. rewrite <- degree_vertex_adj_degree by auto. apply H. apply in_seq. lia.
    - intros H v Hv. apply in_seq in Hv. rewrite degree_vertex_adj_degree by auto.
      apply H. lia. }
  assert (Hedge : list_sum (map (degree_vertex_adj g) (seq 0 (n g))) = 0 <-> ~ has_an_edge g).
  { rewrite list_sum_zero. split.
    - intros H [u [v Huv]].
      assert (Hu : u < n g) by (apply (adjacent_range g u v Hwf Huv)).
      assert (Hd : 0 < degree_vertex_adj g u) by (apply non_isolated_degree; exists v; auto).
      assert (degree_vertex_adj g u = 0); [|lia].
      apply H. apply in_map_iff. exists u. split; auto. apply in_seq. lia.
    - intros H x Hx. apply in_map_iff in Hx. destruct Hx as [u [<- Hu]].
      destruct (degree_vertex_adj g u) eqn:E; auto.
      exfalso. apply H.
      assert (Hn : non_isolated g u) by (apply non_isolated_degree; lia).
      destruct Hn as [v Hv]. exists u, v. exact Hv. }
  destruct c.
  - destruct (forallb (fun i => Nat.even (degree_vertex_adj g i)) (seq 0 (n g))) eqn:Ee.
    + eexists; split; [reflexivity|]. simpl.
      destruct (Nat.eqb_spec (list_sum (map (degree_vertex_adj g) (seq 0 (n g)))) 0)
        as [Hz|Hz]; simpl.
      * split; [discriminate|]. intros [He _]. apply Hedge in Hz. tauto.
      * split; auto. intros _. split; [|split].
        -- destruct (list_sum_pos (map (degree_vertex_adj g) (seq 0 (n g)))) as [x [Hx Hp]];
             [lia|].
           apply in_map_iff in Hx. destruct Hx as [u [<- Hu]].
           assert (Hn : non_isolated g u) by (apply non_isolated_degree; lia).
           destruct Hn as [v Hv]. exists u, v. exact Hv.
        -- apply Heven; auto.
        -- apply Hconn; auto.
    + exists false. split; auto. split; [discriminate|].
      intros [_ [He _]]. apply Heven in He. congruence.
  - exists false. split; auto. split; [discriminate|].
    intros [_ [_ H]]. apply Hconn in H. discriminate.
Qed.

Lemma g_square_wf : graph_wf g_square.
Proof. apply apply_ops_wf. apply (graph_create_wf 4). reflexivity. Qed.

(** ** The edge view and the Hierholzer walk *)

(** *** Sums over an index range *)

Lemma sum_n_all_zero : forall f k, (forall i, i < k -> f i = 0) -> sum_n f k = 0.
Proof. intros f k H. rewrite (sum_n_ext f (fun _ => 0) k H). apply sum_n_zero. Qed.

Lemma sum_n_zero_inv : forall f k, sum_n f k = 0 -> forall i, i < k -> f i = 0.
Proof.
  induction k as [|k IH]; intros H i Hi; [lia|]. simpl in H.
  destruct (Nat.eq_dec i k) as [->|Hne]; [lia|]. apply IH; lia.
Qed.

Lemma sum_n_le : forall f h k, (forall i, i < k -> f i <= h i) -> sum_n f k <= sum_n h k.
Proof.
  induction k as [|k IH]; intros H; simpl; auto.
  assert (f k <= h k) by (apply H; lia).
  assert (sum_n f k <= sum_n h k) by (apply IH; intros; apply H; lia). lia.
Qed.

(** Changing one term of a sum. *)
Lemma sum_n_change : forall f h k j,
  j < k -> (forall i, i <> j -> f i = h i) -> sum_n f k + h j = sum_n h k + f j.
Proof.
  induction k as [|k IH]; intros j Hj H; [lia|]. simpl.
  destruct (Nat.eq_dec j k) as [->|Hne].
  - rewrite (sum_n_ext f h k) by (intros; apply H; lia). lia.
  - assert (IH' := IH j ltac:(lia) H). rewrite (H k) by lia. lia.
Qed.

Lemma sum_n_single : forall c j k,
  sum_n (fun u => if j =? u then c else 0) k = if j <? k then c else 0.
Proof.
  induction k as [|k IH]; simpl; auto. rewrite IH.
  destruct (Nat.ltb_spec j k); destruct (Nat.eqb_spec j k); destruct (Nat.ltb_spec j (S k)); lia.
Qed.

Lemma sum_n_nth : forall (A : Type) (f : A -> nat) (l : list A) d,
  sum_n (fun i => f (nth i l d)) (length l) = list_sum (map f l).
Proof.
  intros A f l d. induction l as [|a l IH] using rev_ind; simpl; auto.
  rewrite length_app, map_app, list_sum_app. simpl. rewrite Nat.add_1_r. simpl.
  rewrite nth_middle.
  rewrite (sum_n_ext _ (fun i => f (nth i l d))) by (intros; rewrite app_nth1; auto).
  rewrite IH. lia.
Qed.

Lemma flat_map_ext_on : forall (A B : Type) (f h : A -> list B) (l : list A),
  (forall a, In a l -> f a = h a) -> flat_map f l = flat_map h l.
Proof.
  induction l as [|a l IH]; intros H; simpl; auto.
  rewrite H, IH; auto. - intros; apply H; right; auto. - left; auto.
Qed.

Lemma length_flat_map_seq : forall (A : Type) (f : nat -> list A) k,
  length (flat_map f (seq 0 k)) = sum_n (fun i => length (f i)) k.
Proof.
  induction k as [|k IH]; [reflexivity|].
  rewrite seq_S, flat_map_app, length_app, IH. simpl. rewrite app_nil_r. reflexivity.
Qed.

(** *** Incidence lists as a function of the edge array *)

Lemma incid_of_snoc : forall es p x,
  incid_of (es ++ [p]) x = incid_of es x ++ repeat (length es) (ends_at p x).
Proof.
  intros es p x. unfold incid_of. rewrite length_app. simpl.
  rewrite Nat.add_1_r, seq_S, flat_map_app. simpl. rewrite app_nil_r.
  f_equal.
  - apply flat_map_ext_on. intros e He. apply in_seq in He.
    unfold occ. rewrite app_nth1 by lia. reflexivity.
  - unfold occ. rewrite nth_middle. reflexivity.
Qed.

Lemma in_incid_of : forall es x e,
  In e (incid_of es x) <-> e < length es /\ 0 < occ es e x.
Proof.
  intros es x e. unfold incid_of. rewrite in_flat_map. split.
  - intros [i [Hi Hin]]. apply in_seq in Hi. apply repeat_spec in Hin as Heq. subst e.
    split; [lia|]. destruct (occ es i x); [destruct Hin | lia].
  - intros [He Ho]. exists e. split; [apply in_seq; lia|].
    destruct (occ es e x); [lia | left; auto].
Qed.

Lemma length_incid_of : forall es x,
  length (incid_of es x) = sum_n (fun e => occ es e x) (length es).
Proof.
  intros. unfold incid_of. rewrite length_flat_map_seq.
  apply sum_n_ext. intros. apply repeat_length.
Qed.

(** *** The invariant of the loops of [build_edge_view_ok] *)

Lemma nth_incid_push : forall incid u m x,
  u < length incid ->
  nth x (incid_push_ok incid u m) [] = nth x incid [] ++ (if u =? x then [m] else []).
Proof.
  intros incid u m x Hu. unfold incid_push_ok. rewrite nth_upd.
  destruct (Nat.eqb_spec u x) as [->|Hne]; simpl.
  - destruct (Nat.ltb_spec x (length incid)); [reflexivity | lia].
  - rewrite app_nil_r. reflexivity.
Qed.

Lemma incid_push_length : forall incid u m, length (incid_push_ok incid u m) = length incid.
Proof. intros. unfold incid_push_ok. apply upd_length. Qed.

Lemma view_ok_add : forall nv ev a b,
  view_ok nv ev -> a <= b -> b < nv ->
  view_ok nv (mkEdgeView_ok (evk_edges ev ++ [(a, b)])
                (incid_push_ok (incid_push_ok (evk_incid ev) a (evk_m ev)) b (evk_m ev))).
Proof.
  intros nv ev a b [Hlen Hinc Hr] Hab Hb. constructor; simpl.
  - rewrite !incid_push_length. exact Hlen.
  - intros x Hx. rewrite !nth_incid_push by (rewrite ?incid_push_length; lia).
    rewrite incid_of_snoc, Hinc by auto. rewrite <- app_assoc. f_equal.
    unfold ends_at, evk_m. simpl.
    destruct (a =? x); destruct (b =? x); reflexivity.
  - intros a' b' Hin. apply in_app_or in Hin. destruct Hin as [Hin|[Hin|[]]]; auto.
    inversion Hin; subst. auto.
Qed.

Lemma view_step_eq : forall u ev loop_half e,
  view_step_ok u (ev, loop_half) e =
  if u =? to e then
    if Nat.even (nth u loop_half 0 + 1) then
      (mkEdgeView_ok (evk_edges ev ++ [(u, u)])
         (incid_push_ok (incid_push_ok (evk_incid ev) u (evk_m ev)) u (evk_m ev)),
       upd loop_half u (nth u loop_half 0 + 1))
    else (ev, upd loop_half u (nth u loop_half 0 + 1))
  else if u <? to e then
    (mkEdgeView_ok (evk_edges ev ++ [(u, to e)])
       (incid_push_ok (incid_push_ok (evk_incid ev) u (evk_m ev)) (to e) (evk_m ev)),
     loop_half)
  else (ev, loop_half).
Proof. reflexivity. Qed.

Lemma view_scan : forall nv u l ev loop_half,
  view_ok nv ev -> u < nv -> u < length loop_half ->
  (forall e, In e l -> to e < nv) ->
  view_ok nv (fst (fold_left (view_step_ok u) l (ev, loop_half))) /\
  evk_edges (fst (fold_left (view_step_ok u) l (ev, loop_half)))
    = evk_edges ev ++ scan_edges u l (nth u loop_half 0) /\
  length (snd (fold_left (view_step_ok u) l (ev, loop_half))) = length loop_half /\
  (forall x, x <> u ->
     nth x (snd (fold_left (view_step_ok u) l (ev, loop_half))) 0 = nth x loop_half 0).
Proof.
  intros nv u. induction l as [|e l IH]; intros ev lh Hok Hu Hlh Hr; cbn [fold_left scan_edges].
  - simpl. rewrite app_nil_r. auto.
  - assert (He : to e < nv) by (apply Hr; left; auto).
    assert (Hr' : forall e', In e' l -> to e' < nv) by (intros; apply Hr; right; auto).
    rewrite view_step_eq.
    destruct (u =? to e) eqn:Eeq.
    + assert (Hh : nth u (upd lh u (nth u lh 0 + 1)) 0 = nth u lh 0 + 1)
        by (apply nth_upd_same; auto).
      apply Nat.eqb_eq in Eeq.
      destruct (Nat.even (nth u lh 0 + 1)) eqn:Ee.
      * destruct (IH (mkEdgeView_ok (evk_edges ev ++ [(u, u)])
                       (incid_push_ok (incid_push_ok (evk_incid ev) u (evk_m ev)) u (evk_m ev)))
                     (upd lh u (nth u lh 0 + 1))) as [H1 [H2 [H3 H4]]]; auto.
        -- apply view_ok_add; auto.
        -- rewrite upd_length; auto.
        -- split; [|split; [|split]]; auto.
           ++ rewrite H2, Hh. simpl. rewrite <- app_assoc. reflexivity.
           ++ rewrite H3, upd_length. reflexivity.
           ++ intros x Hx. rewrite H4 by auto. apply nth_upd_other. auto.
      * destruct (IH ev (upd lh u (nth u lh 0 + 1))) as [H1 [H2 [H3 H4]]]; auto.
        -- rewrite upd_length; auto.
        -- split; [|split; [|split]]; auto.
           ++ rewrite H2, Hh. reflexivity.
           ++ rewrite H3, upd_length. reflexivity.
           ++ intros x Hx. rewrite H4 by auto. apply nth_upd_other. auto.
    + destruct (Nat.ltb_spec u (to e)) as [Hlt|Hge].
      * destruct (IH (mkEdgeView_ok (evk_edges ev ++ [(u, to e)])
                       (incid_push_ok (incid_push_ok (evk_incid ev) u (evk_m ev)) (to e) (evk_m ev)))
                     lh) as [H1 [H2 [H3 H4]]]; auto.
        -- apply view_ok_add; auto. lia.
        -- split; [|split; [|split]]; auto.
           rewrite H2. simpl. rewrite <- app_assoc. reflexivity.
      * apply IH; auto.
Qed.

Lemma build_edge_view_scan : forall g,
  graph_wf g ->
  view_ok (n g) (build_edge_view_ok g) /\
  evk_edges (build_edge_view_ok g) = flat_map (fun u => scan_edges u (head g u) 0) (seq 0 (n g)).
Proof.
  intros g Hwf. unfold build_edge_view_ok.
  assert (H : forall k, k <= n g ->
    let s := fold_left (fun s u => fold_left (view_step_ok u) (head g u) s) (seq 0 k)
               (mkEdgeView_ok [] (repeat [] (n g)), repeat 0 (n g)) in
    view_ok (n g) (fst s) /\
    evk_edges (fst s) = flat_map (fun u => scan_edges u (head g u) 0) (seq 0 k) /\
    length (snd s) = n g /\
    (forall x, k <= x -> nth x (snd s) 0 = 0)).
  { induction k as [|k IH]; intros Hk.
    - simpl. split; [|split; [|split]]; auto.
      + constructor; simpl.
        * apply repeat_length.
        * intros x Hx. rewrite nth_repeat_nil. reflexivity.
        * intros a b [].
      + apply repeat_length.
      + intros x _. apply nth_repeat.
    - destruct (IH ltac:(lia)) as [H1 [H2 [H3 H4]]]. clear IH.
      cbv zeta. rewrite seq_S, fold_left_app, flat_map_app. simpl fold_left.
      set (s := fold_left (fun s u => fold_left (view_step_ok u) (head g u) s) (seq 0 k)
                  (mkEdgeView_ok [] (repeat [] (n g)), repeat 0 (n g))) in *.
      destruct s as [ev lh]. cbn [fst snd] in *.
      destruct (view_scan (n g) k (head g k) ev lh) as [G1 [G2 [G3 G4]]]; auto; try lia.
      { intros e He. eapply wf_to; eauto. }
      split; [|split; [|split]]; auto.
      + rewrite G2, H2, (H4 k) by lia. simpl. rewrite app_nil_r. reflexivity.
      + congruence.
      + intros x Hx. rewrite G4 by lia. apply H4. lia. }
  destruct (H (n g) (le_n _)) as [H1 [H2 _]]. auto.
Qed.

(** *** Counting the pairs of the edge array *)

Lemma div2_step : forall h,
  Nat.div2 (h + 1) = Nat.div2 h + (if Nat.even (h + 1) then 1 else 0).
Proof.
  intros h. rewrite Nat.add_1_r.
  assert (A := Nat.div2_odd h). assert (B := Nat.div2_odd (S h)).
  rewrite Nat.odd_succ in B. rewrite Nat.even_succ.
  rewrite <- (Nat.negb_odd h) in B.
  destruct (Nat.odd h); simpl in *; lia.
Qed.

Lemma div2_mono : forall a b, a <= b -> Nat.div2 a <= Nat.div2 b.
Proof.
  intros a b H. assert (A := Nat.div2_odd a). assert (B := Nat.div2_odd b).
  destruct (Nat.odd a); destruct (Nat.odd b); simpl in *; lia.
Qed.

Lemma scan_edges_count : forall u l h a b,
  count_pair (scan_edges u l h) a b =
  if a =? u then
    if b =? u then Nat.div2 (h + count_to l u) - Nat.div2 h
    else if u <? b then count_to l b else 0
  else 0.
Proof.
  intros u. unfold count_pair.
  induction l as [|e l IH]; intros h a b; cbn [scan_edges count_to].
  - simpl. rewrite Nat.add_0_r, Nat.sub_diag.
    destruct (a =? u); destruct (b =? u); destruct (u <? b); reflexivity.
  - destruct (Nat.eqb_spec u (to e)) as [Heq|Hne].
    + rewrite count_occ_app, IH. rewrite <- Heq.
      destruct (Nat.eqb_spec a u) as [->|Hau].
      * destruct (Nat.eqb_spec b u) as [->|Hbu].
        -- rewrite Nat.eqb_refl.
           assert (S1 := div2_step h).
           assert (S2 := div2_mono (h + 1) (h + 1 + count_to l u) ltac:(lia)).
           replace (h + (1 + count_to l u)) with (h + 1 + count_to l u) by lia.
           destruct (Nat.even (h + 1)); cbn [count_occ].
           ++ destruct (pair_dec (u, u) (u, u)) as [_|Hx]; [|congruence]. lia.
           ++ lia.
        -- destruct (Nat.eqb_spec u b) as [E|E]; [congruence|].
           destruct (Nat.ltb_spec u b) as [Hub|Hub];
             destruct (Nat.even (h + 1)); cbn [count_occ app]; auto;
             destruct (pair_dec (u, u) (u, b)) as [Hx|_]; try congruence; reflexivity.
      * destruct (Nat.even (h + 1)); cbn [count_occ app]; auto.
        destruct (pair_dec (u, u) (a, b)) as [Hx|_]; [congruence|]. reflexivity.
    + destruct (Nat.ltb_spec u (to e)) as [Hlt|Hge].
      * cbn [count_occ]. destruct (pair_dec (u, to e) (a, b)) as [Hx|Hx].
        -- injection Hx as Ha Hb. subst a b. rewrite IH, Nat.eqb_refl.
           destruct (Nat.eqb_spec (to e) u); [lia|].
           destruct (Nat.ltb_spec u (to e)); [|lia]. rewrite Nat.eqb_refl. lia.
        -- rewrite IH.
           destruct (Nat.eqb_spec a u) as [->|Hau]; auto.
           destruct (Nat.eqb_spec b u) as [->|Hbu].
           ++ destruct (Nat.eqb_spec (to e) u); [lia|]. reflexivity.
           ++ destruct (Nat.ltb_spec u b); auto.
              destruct (Nat.eqb_spec (to e) b) as [Heb|Heb]; [|reflexivity].
              exfalso. apply Hx. congruence.
      * rewrite IH.
        destruct (Nat.eqb_spec a u) as [->|Hau]; auto.
        destruct (Nat.eqb_spec b u) as [->|Hbu].
        -- destruct (Nat.eqb_spec (to e) u); [lia|]. reflexivity.
        -- destruct (Nat.ltb_spec u b); auto.
           destruct (Nat.eqb_spec (to e) b); [lia|]. reflexivity.
Qed.

Lemma count_pair_flat_map : forall (f : nat -> list (nat * nat)) k a b,
  count_pair (flat_map f (seq 0 k)) a b = sum_n (fun u => count_pair (f u) a b) k.
Proof.
  intros f k a b. unfold count_pair. induction k as [|k IH]; [reflexivity|].
  rewrite seq_S, flat_map_app, count_occ_app, IH. simpl. rewrite app_nil_r. reflexivity.
Qed.

Lemma build_edge_view_count : forall g a b,
  graph_wf g -> a < n g ->
  count_pair (evk_edges (build_edge_view_ok g)) a b = edge_multiplicity g a b.
Proof.
  intros g a b Hwf Ha. destruct (build_edge_view_scan g Hwf) as [_ ->].
  rewrite count_pair_flat_map.
  rewrite (sum_n_ext _ (fun u => if a =? u then edge_multiplicity g a b else 0)).
  - rewrite sum_n_single. destruct (Nat.ltb_spec a (n g)); [reflexivity | lia].
  - intros u Hu. rewrite scan_edges_count. unfold edge_multiplicity, count_neighbor.
    destruct (Nat.eqb_spec a u) as [->|Hau]; auto.
    rewrite (Nat.eqb_sym b u). destruct (Nat.eqb_spec u b) as [->|Hub]; auto.
    simpl. rewrite Nat.sub_0_r. reflexivity.
Qed.

Lemma edge_multiplicity_le_1 : forall g a b, graph_wf g -> edge_multiplicity g a b <= 1.
Proof.
  intros g a b Hwf. unfold edge_multiplicity.
  destruct (Nat.eqb_spec a b) as [->|Hab].
  - destruct (wf_loop Hwf b) as [E|E]; rewrite E; simpl; lia.
  - destruct (Nat.ltb_spec a b); [|lia]. apply (wf_simple Hwf); auto.
Qed.

Lemma edge_multiplicity_pos : forall g a b,
  graph_wf g -> (0 < edge_multiplicity g a b <-> a <= b /\ adjacent g a b).
Proof.
  intros g a b Hwf. unfold edge_multiplicity. rewrite adjacent_count.
  destruct (Nat.eqb_spec a b) as [->|Hab].
  - destruct (wf_loop Hwf b) as [E|E]; rewrite E; simpl; lia.
  - destruct (Nat.ltb_spec a b); lia.
Qed.

Lemma edge_multiplicity_sym : forall g x u,
  graph_wf g -> edge_multiplicity g x u + edge_multiplicity g u x = count_neighbor g x u.
Proof.
  intros g x u Hwf. unfold edge_multiplicity. rewrite (Nat.eqb_sym u x).
  destruct (Nat.eqb_spec x u) as [->|Hne].
  - destruct (wf_loop Hwf u) as [E|E]; rewrite E; simpl; lia.
  - rewrite (wf_count_sym g u x Hwf) by auto.
    destruct (Nat.ltb_spec x u); destruct (Nat.ltb_spec u x); lia.
Qed.

Section EdgeViewOfGraph.

Variable g : Graph.

Hypothesis Hwf : graph_wf g.

Let es := evk_edges (build_edge_view_ok g).

Lemma view_edges_range : forall a b, In (a, b) es -> a <= b /\ b < n g.
Proof. intros a b. apply (vo_range _ _ (proj1 (build_edge_view_scan g Hwf))). Qed.

Lemma view_edges_in : forall a b, In (a, b) es <-> a <= b /\ adjacent g a b.
Proof.
  intros a b. split.
  - intros Hin. assert (Hr := view_edges_range a b Hin).
    apply (edge_multiplicity_pos g a b Hwf).
    rewrite <- build_edge_view_count by (auto; lia).
    apply (count_occ_In pair_dec). exact Hin.
  - intros [Hab Hadj].
    assert (Ha : a < n g) by (apply (adjacent_range g a b Hwf Hadj)).
    apply (count_occ_In pair_dec). fold (count_pair es a b). unfold es.
    rewrite build_edge_view_count by auto.
    apply edge_multiplicity_pos; auto.
Qed.

Lemma view_edges_nodup : NoDup es.
Proof.
  apply (NoDup_count_occ pair_dec). intros [a b].
  destruct (Nat.lt_ge_cases a (n g)) as [Ha|Ha].
  - fold (count_pair es a b). unfold es. rewrite build_edge_view_count by auto.
    apply edge_multiplicity_le_1; auto.
  - assert (count_occ pair_dec es (a, b) = 0); [|lia].
    apply count_occ_not_In. intros Hin. apply view_edges_range in Hin. lia.
Qed.

Lemma sum_fst_count : forall (l : list (nat * nat)) x k,
  (forall a b, In (a, b) l -> b < k) ->
  list_sum (map (fun p => if fst p =? x then 1 else 0) l)
  = sum_n (fun b => count_pair l x b) k.
Proof.
  unfold count_pair.
  induction l as [|[a b] l IH]; intros x k Hr.
  - simpl. rewrite sum_n_all_zero; auto.
  - change (list_sum (map (fun p => if fst p =? x then 1 else 0) ((a, b) :: l)))
      with ((if a =? x then 1 else 0)
            + list_sum (map (fun p => if fst p =? x then 1 else 0) l)).
    cbn [count_occ].
    rewrite (IH x k) by (intros; eapply Hr; right; eauto).
    assert (Hb : b < k) by (apply (Hr a b); left; auto).
    rewrite (sum_n_ext (fun b0 => if pair_dec (a, b) (x, b0) then _ else _)
               (fun b0 => (if b =? b0 then (if a =? x then 1 else 0) else 0)
                          + count_occ pair_dec l (x, b0))).
    + rewrite sum_n_add, sum_n_single.
      destruct (Nat.ltb_spec b k); [reflexivity | lia].
    + intros b0 _. destruct (pair_dec (a, b) (x, b0)) as [E|E].
      * injection E as -> ->. rewrite !Nat.eqb_refl. reflexivity.
      * destruct (Nat.eqb_spec b b0) as [->|]; auto.
        destruct (Nat.eqb_spec a x) as [->|]; auto. congruence.
Qed.

Lemma sum_snd_count : forall (l : list (nat * nat)) x k,
  (forall a b, In (a, b) l -> a < k) ->
  list_sum (map (fun p => if snd p =? x then 1 else 0) l)
  = sum_n (fun a => count_pair l a x) k.
Proof.
  unfold count_pair.
  induction l as [|[a b] l IH]; intros x k Hr.
  - simpl. rewrite sum_n_all_zero; auto.
  - change (list_sum (map (fun p => if snd p =? x then 1 else 0) ((a, b) :: l)))
      with ((if b =? x then 1 else 0)
            + list_sum (map (fun p => if snd p =? x then 1 else 0) l)).
    cbn [count_occ].
    rewrite (IH x k) by (intros; eapply Hr; right; eauto).
    assert (Ha : a < k) by (apply (Hr a b); left; auto).
    rewrite (sum_n_ext (fun a0 => if pair_dec (a, b) (a0, x) then _ else _)
               (fun a0 => (if a =? a0 then (if b =? x then 1 else 0) else 0)
                          + count_occ pair_dec l (a0, x))).
    + rewrite sum_n_add, sum_n_single.
      destruct (Nat.ltb_spec a k); [reflexivity | lia].
    + intros a0 _. destruct (pair_dec (a, b) (a0, x)) as [E|E].
      * injection E as -> ->. rewrite !Nat.eqb_refl. reflexivity.
      * destruct (Nat.eqb_spec a a0) as [->|]; auto.
        destruct (Nat.eqb_spec b x) as [->|]; auto. congruence.
Qed.

Lemma list_sum_map_add : forall (A : Type) (f h : A -> nat) l,
  list_sum (map (fun p => f p + h p) l) = list_sum (map f l) + list_sum (map h l).
Proof. induction l as [|a l IH]; simpl; auto. rewrite IH. lia. Qed.

(** Every vertex has as many incidences in the view as nodes in its list. *)
Lemma view_incid_length : forall x, x < n g ->
  length (nth x (evk_incid (build_edge_view_ok g)) []) = degree_vertex_adj g x.
Proof.
  intros x Hx.
  rewrite (vo_incid _ _ (proj1 (build_edge_view_scan g Hwf))) by auto.
  fold es. rewrite length_incid_of. unfold occ.
  rewrite (sum_n_nth _ (fun p => ends_at p x) es (0, 0)).
  unfold ends_at. rewrite list_sum_map_add.
  rewrite (sum_fst_count es x (n g)) by (intros a b H; apply (view_edges_range a b H)).
  rewrite (sum_snd_count es x (n g))
    by (intros a b H; generalize (view_edges_range a b H); lia).
  rewrite <- sum_n_add. unfold degree_vertex_adj.
  rewrite (length_sum_count (head g x) (n g)) by (intros; eapply wf_to; eauto).
  apply sum_n_ext. intros u Hu. unfold es.
  rewrite !build_edge_view_count by auto.
  apply edge_multiplicity_sym; auto.
Qed.

End EdgeViewOfGraph.

(** *** The walk of [graph_find_euler_circuit_ok] *)

Lemma skipn_nth_cons : forall (A : Type) (l : list A) i d,
  i < length l -> skipn i l = nth i l d :: skipn (S i) l.
Proof.
  induction l as [|a l IH]; intros [|i] d H; simpl in *; try lia; auto.
  apply IH. lia.
Qed.

Lemma skip_used_spec : forall used l k i,
  length l - i = k -> i <= length l ->
  i <= skip_used_ok used (skipn i l) i <= length l /\
  (forall j, i <= j < skip_used_ok used (skipn i l) i -> nth (nth j l 0) used false = true) /\
  (skip_used_ok used (skipn i l) i < length l ->
   nth (nth (skip_used_ok used (skipn i l) i) l 0) used false = false).
Proof.
  intros used l. induction k as [|k IH]; intros i Hk Hi.
  - assert (i = length l) by lia. subst i. rewrite skipn_all. simpl.
    split; [lia|]. split; intros; lia.
  - rewrite (skipn_nth_cons _ l i 0) by lia. cbn [skip_used_ok].
    destruct (nth (nth i l 0) used false) eqn:E.
    + destruct (IH (S i)) as [H1 [H2 H3]]; try lia.
      split; [lia|]. split; auto.
      intros j Hj. destruct (Nat.eq_dec j i) as [->|Hne]; auto. apply H2. lia.
    + split; [lia|]. split; auto. intros; lia.
Qed.

Section Hierholzer.

Variable ev : EdgeView_ok.

Variable nv : nat.

Variable start : nat.

Hypothesis Hok : view_ok nv ev.

Hypothesis Hstart : start < nv.

Let es := evk_edges ev.
Let m := length (evk_edges ev).
Let inc (x : nat) : list nat := nth x (evk_incid ev) [].

(** Edge number [e] joins [x] and [y]. *)
Definition linked (e x y : nat) : Prop :=
  e < m /\ (nth e es (0, 0) = (x, y) \/ nth e es (0, 0) = (y, x)).

(** A walk given by its vertices and the edge numbers between them. *)
Inductive trail : list nat -> list nat -> Prop :=
| trail_one : forall v, trail [v] []
| trail_cons : forall x y vs e el,
    linked e x y -> trail (y :: vs) el -> trail (x :: y :: vs) (e :: el).

(** The number of incidences of [x] whose edge is not used yet. *)
Definition unused_degree (used : list bool) (x : nat) : nat :=
  sum_n (fun e => if nth e used false then 0 else occ es e x) m.

Lemma linked_sym : forall e x y, linked e x y -> linked e y x.
Proof. intros e x y [H1 H2]. split; tauto. Qed.

Lemma inc_incid_of : forall x, x < nv -> inc x = incid_of es x.
Proof. intros x Hx. apply (vo_incid _ _ Hok); auto. Qed.

Lemma edge_endpoints_range : forall e a b,
  e < m -> nth e es (0, 0) = (a, b) -> a < nv /\ b < nv.
Proof.
  intros e a b He Hn.
  assert (Hin : In (a, b) es) by (rewrite <- Hn; apply nth_In; auto).
  apply (vo_range _ _ Hok) in Hin. lia.
Qed.

Lemma linked_range : forall e x y, linked e x y -> x < nv /\ y < nv.
Proof.
  intros e x y [He [H|H]]; apply edge_endpoints_range in H; auto; lia.
Qed.

Lemma occ_pair : forall e a b x,
  nth e es (0, 0) = (a, b) ->
  occ es e x = (if a =? x then 1 else 0) + (if b =? x then 1 else 0).
Proof. intros e a b x H. unfold occ, ends_at. rewrite H. reflexivity. Qed.

Lemma in_inc : forall x e, x < nv ->
  (In e (inc x) <-> e < m /\ 0 < occ es e x).
Proof. intros x e Hx. rewrite inc_incid_of by auto. apply in_incid_of. Qed.

Lemma in_inc_linked : forall x e, x < nv -> In e (inc x) ->
  exists y, linked e x y /\
            (nth e es (0, 0) = (x, y) \/ (nth e es (0, 0) = (y, x) /\ x <> y)).
Proof.
  intros x e Hx Hin. apply in_inc in Hin; auto. destruct Hin as [He Ho].
  destruct (nth e es (0, 0)) as [a b] eqn:E.
  rewrite (occ_pair e a b x E) in Ho.
  destruct (Nat.eqb_spec a x) as [Hax|Hax].
  - subst a. exists b. split; [split; auto|]. auto.
  - destruct (Nat.eqb_spec b x) as [Hbx|Hbx]; [|simpl in Ho; lia].
    subst b. exists a. split; [split; auto|]. auto.
Qed.

Lemma linked_in_inc : forall e x y, linked e x y -> In e (inc x).
Proof.
  intros e x y H. assert (Hr := linked_range e x y H). destruct H as [He Hn].
  apply in_inc; [lia|]. split; auto.
  destruct Hn as [Hn|Hn]; rewrite (occ_pair e _ _ x Hn); rewrite Nat.eqb_refl; lia.
Qed.

Lemma unused_degree_mark : forall used e x,
  e < m -> nth e used false = false -> length used = m ->
  unused_degree used x = unused_degree (upd used e true) x + occ es e x.
Proof.
  intros used e x He Hu Hlen. unfold unused_degree.
  assert (H := sum_n_change
                 (fun i => if nth i used false then 0 else occ es i x)
                 (fun i => if nth i (upd used e true) false then 0 else occ es i x)
                 m e He).
  cbv beta in H. rewrite Hu in H. rewrite nth_upd_same in H by lia.
  rewrite <- H; [lia|]. intros i Hi. rewrite nth_upd_other by auto. reflexivity.
Qed.

Lemma unused_degree_zero : forall used x, x < nv ->
  (unused_degree used x = 0 <-> forall e, In e (inc x) -> nth e used false = true).
Proof.
  intros used x Hx. unfold unused_degree. split.
  - intros H e Hin. apply in_inc in Hin; auto. destruct Hin as [He Ho].
    assert (H0 := sum_n_zero_inv _ _ H e He). cbv beta in H0.
    destruct (nth e used false); auto. lia.
  - intros H. apply sum_n_all_zero. intros e He.
    destruct (nth e used false) eqn:E; auto.
    destruct (occ es e x) eqn:Eo; auto.
    assert (Hin : In e (inc x)) by (apply in_inc; auto; lia).
    apply H in Hin. congruence.
Qed.

Lemma unused_degree_init : forall x,
  unused_degree (repeat false m) x = length (incid_of es x).
Proof.
  intros x. unfold unused_degree. rewrite length_incid_of. fold m.
  apply sum_n_ext. intros e _. rewrite nth_repeat. reflexivity.
Qed.

Lemma trail_length : forall vs el, trail vs el -> length vs = S (length el).
Proof. intros vs el H. induction H; simpl; auto. Qed.

Lemma trail_edge_vertices : forall vs el, trail vs el ->
  forall e x y, In e el -> linked e x y -> In x vs /\ In y vs.
Proof.
  intros vs el H. induction H as [v|x0 y0 vs e0 el Hl Ht IH]; intros e x y Hin Hxy.
  - destruct Hin.
  - destruct Hin as [<-|Hin].
    + destruct Hl as [_ Hl]. destruct Hxy as [_ Hxy].
      assert (Hc : (x = x0 /\ y = y0) \/ (x = y0 /\ y = x0)).
      { destruct Hl as [Hl|Hl]; destruct Hxy as [Hxy|Hxy]; rewrite Hl in Hxy;
          injection Hxy as <- <-; auto. }
      destruct Hc as [[-> ->]|[-> ->]]; simpl; auto.
    + destruct (IH e x y Hin Hxy) as [H1 H2]. split; right; auto.
Qed.

Lemma trail_edges_lt : forall vs el, trail vs el -> forall e, In e el -> e < m.
Proof.
  intros vs el H. induction H; intros e' Hin.
  - destruct Hin.
  - destruct Hin as [<-|Hin]; auto. destruct H; auto.
Qed.

Lemma trail_inv_cons : forall x y vs el,
  trail (x :: y :: vs) el ->
  exists e el', el = e :: el' /\ linked e x y /\ trail (y :: vs) el'.
Proof. intros x y vs el H. inversion H; subst. eauto. Qed.

Lemma trail_inv_one : forall x el, trail [x] el -> el = [].
Proof. intros x el H. inversion H; subst. reflexivity. Qed.

Lemma rev_last_cons : forall (l : list nat),
  l <> [] -> rev l = last l 0 :: rev (removelast l).
Proof.
  intros l H. rewrite (app_removelast_last 0 H) at 1.
  rewrite rev_app_distr. reflexivity.
Qed.

(** Work left for the cursors [it]. *)
Definition remaining (it : list nat) : nat :=
  sum_n (fun x => length (inc x) - nth x it 0) nv.

Definition walk_measure (s : Walk_ok) : nat :=
  2 * remaining (wk_it s) + length (wk_stack s).

Lemma remaining_upd : forall it u j,
  u < nv -> length it = nv -> nth u it 0 <= j -> j <= length (inc u) ->
  remaining (upd it u j) + (j - nth u it 0) = remaining it.
Proof.
  intros it u j Hu Hlen H1 H2. unfold remaining.
  assert (H := sum_n_change
                 (fun x => length (inc x) - nth x it 0)
                 (fun x => length (inc x) - nth x (upd it u j) 0) nv u Hu).
  cbv beta in H. rewrite nth_upd_same in H by lia.
  assert (sum_n (fun x => length (inc x) - nth x it 0) nv + (length (inc u) - j) =
          sum_n (fun x => length (inc x) - nth x (upd it u j) 0) nv
          + (length (inc u) - nth u it 0)).
  { apply H. intros i Hi. rewrite nth_upd_other by auto. reflexivity. }
  lia.
Qed.

(** The invariant of the loop.  [SE] are the edges of the walk held by the
    stack, [PE] those of the part of the circuit already written to [path],
    [PD] the edge, if any, by which the last vertex written to [path] was
    entered; [A] is the vertex at which the walk above the pending edge has
    to close. *)
Record hinv (s : Walk_ok) (A : nat) (SE PD PE : list nat) : Prop := mk_hinv {
  hi_used_len : length (wk_used s) = m;
  hi_it_len : length (wk_it s) = nv;
  hi_cursor : forall x j, x < nv -> j < nth x (wk_it s) 0 ->
      j < length (inc x) /\ nth (nth j (inc x) 0) (wk_used s) false = true;
  hi_range : forall x, In x (wk_stack s) -> x < nv;
  hi_stack : wk_stack s <> [] -> trail (wk_stack s) SE;
  hi_stack_nil : wk_stack s = [] ->
      SE = [] /\ PD = [] /\ wk_path s <> [] /\ last (wk_path s) 0 = start;
  hi_path : wk_path s <> [] -> trail (rev (wk_path s)) PE /\ hd 0 (wk_path s) = start;
  hi_path_nil : wk_path s = [] -> PE = [] /\ PD = [] /\ A = start;
  hi_pending : wk_stack s <> [] -> wk_path s <> [] ->
      exists e, PD = [e] /\ linked e A (last (wk_path s) 0);
  hi_nodup : NoDup (SE ++ PD ++ PE);
  hi_used : forall e, nth e (wk_used s) false = true <-> In e (SE ++ PD ++ PE);
  hi_parity : forall top rest, wk_stack s = top :: rest ->
      forall x, Nat.odd (unused_degree (wk_used s) x) = xorb (x =? top) (x =? A);
  hi_exhausted : forall x, In x (wk_path s) -> unused_degree (wk_used s) x = 0;
  hi_bottom : wk_stack s <> [] -> last (wk_stack s) 0 = start
}.

Lemma cursor_le : forall s A SE PD PE x,
  hinv s A SE PD PE -> x < nv -> nth x (wk_it s) 0 <= length (inc x).
Proof.
  intros s A SE PD PE x H Hx.
  destruct (Nat.le_gt_cases (nth x (wk_it s) 0) (length (inc x))) as [Hle|Hgt]; auto.
  destruct (hi_cursor _ _ _ _ _ H x (length (inc x)) Hx Hgt). lia.
Qed.

Lemma occ_linked_odd : forall e u y x,
  linked e u y -> Nat.odd (occ es e x) = xorb (u =? x) (y =? x).
Proof.
  intros e u y x [_ [H|H]]; rewrite (occ_pair e _ _ x H);
    destruct (u =? x); destruct (y =? x); reflexivity.
Qed.

Lemma walk_pop_inv : forall s u rest A SE PD PE i',
  hinv s A SE PD PE -> wk_stack s = u :: rest ->
  i' = length (inc u) ->
  (forall j, j < i' -> nth (nth j (inc u) 0) (wk_used s) false = true) ->
  exists A' SE' PD' PE',
    hinv (mkWalk_ok rest (wk_path s ++ [u]) (wk_used s) (upd (wk_it s) u i')) A' SE' PD' PE'.
Proof.
  intros s u rest A SE PD PE i' H Hst Hi' Hall.
  assert (Hu : u < nv) by (apply (hi_range _ _ _ _ _ H); rewrite Hst; left; auto).
  assert (Hne : wk_stack s <> []) by (rewrite Hst; discriminate).
  assert (Hzero : unused_degree (wk_used s) u = 0).
  { apply unused_degree_zero; auto. intros e Hin.
    destruct (In_nth _ _ 0 Hin) as [j [Hj <-]]. apply Hall. lia. }
  assert (HA : A = u).
  { assert (Hp := hi_parity _ _ _ _ _ H u rest Hst u). rewrite Hzero in Hp.
    rewrite Nat.eqb_refl in Hp. simpl in Hp.
    destruct (Nat.eqb_spec u A); auto. discriminate. }
  subst A.
  assert (Htr := hi_stack _ _ _ _ _ H Hne). rewrite Hst in Htr.
  assert (Hpath' : trail (rev (wk_path s ++ [u])) (PD ++ PE) /\ hd 0 (wk_path s ++ [u]) = start).
  { rewrite rev_app_distr. simpl.
    destruct (wk_path s) as [|p ps] eqn:Ep.
    - destruct (hi_path_nil _ _ _ _ _ H Ep) as [-> [-> <-]]. simpl. split; constructor.
    - assert (Hpne : wk_path s <> []) by (rewrite Ep; discriminate).
      destruct (hi_path _ _ _ _ _ H Hpne) as [Ht Hh].
      destruct (hi_pending _ _ _ _ _ H Hne Hpne) as [e [-> Hl]].
      rewrite Ep in *. split; [|exact Hh].
      rewrite (rev_last_cons (p :: ps)) in * by discriminate.
      simpl app. constructor; auto. }
  assert (Hcur : forall x j, x < nv -> j < nth x (upd (wk_it s) u i') 0 ->
            j < length (inc x) /\ nth (nth j (inc x) 0) (wk_used s) false = true).
  { intros x j Hx Hj. destruct (Nat.eq_dec x u) as [->|Hxu].
    - rewrite nth_upd_same in Hj by (rewrite (hi_it_len _ _ _ _ _ H); auto).
      split; [lia|]. apply Hall; auto.
    - rewrite nth_upd_other in Hj by auto. apply (hi_cursor _ _ _ _ _ H); auto. }
  assert (Hexh : forall x, In x (wk_path s ++ [u]) -> unused_degree (wk_used s) x = 0).
  { intros x Hx. apply in_app_or in Hx. destruct Hx as [Hx|[<-|[]]]; auto.
    apply (hi_exhausted _ _ _ _ _ H); auto. }
  destruct rest as [|t r].
  - apply trail_inv_one in Htr. subst SE.
    exists u, [], [], (PD ++ PE).
    constructor; simpl; auto.
    + apply (hi_used_len _ _ _ _ _ H).
    + rewrite upd_length. apply (hi_it_len _ _ _ _ _ H).
    + intros x [].
    + congruence.
    + intros _. repeat split; auto.
      * destruct (wk_path s); discriminate.
      * rewrite last_last.
        assert (Hb := hi_bottom _ _ _ _ _ H Hne). rewrite Hst in Hb. exact Hb.
    + intros Hp. destruct (wk_path s); discriminate.
    + congruence.
    + apply (hi_nodup _ _ _ _ _ H).
    + apply (hi_used _ _ _ _ _ H).
    + discriminate.
    + congruence.
  - destruct (trail_inv_cons _ _ _ _ Htr) as [ek [SE' [-> [Hl Htr']]]].
    exists t, SE', [ek], (PD ++ PE).
    assert (Hperm : Permutation ((ek :: SE') ++ PD ++ PE) (SE' ++ [ek] ++ PD ++ PE)).
    { simpl. apply Permutation_middle. }
    constructor; simpl; auto.
    + apply (hi_used_len _ _ _ _ _ H).
    + rewrite upd_length. apply (hi_it_len _ _ _ _ _ H).
    + intros x Hx. apply (hi_range _ _ _ _ _ H). rewrite Hst. right; auto.
    + discriminate.
    + intros Hp. destruct (wk_path s); discriminate.
    + intros _ _. exists ek. split; auto. rewrite last_last. apply linked_sym; auto.
    + eapply Permutation_NoDup; [exact Hperm|]. apply (hi_nodup _ _ _ _ _ H).
    + intros e. rewrite (hi_used _ _ _ _ _ H e). split; intros Hin.
      * eapply Permutation_in; [exact Hperm|auto].
      * eapply Permutation_in; [apply Permutation_sym; exact Hperm|auto].
    + intros top rest' Heq x. injection Heq as <- <-.
      assert (Hp := hi_parity _ _ _ _ _ H u (t :: r) Hst x). rewrite Hp.
      destruct (x =? u); destruct (x =? t); reflexivity.
    + intros _. assert (Hb := hi_bottom _ _ _ _ _ H Hne). rewrite Hst in Hb. exact Hb.
Qed.

Lemma walk_push_inv : forall s u rest A SE PD PE i' y,
  hinv s A SE PD PE -> wk_stack s = u :: rest ->
  i' < length (inc u) ->
  (forall j, j < i' -> nth (nth j (inc u) 0) (wk_used s) false = true) ->
  nth (nth i' (inc u) 0) (wk_used s) false = false ->
  linked (nth i' (inc u) 0) u y ->
  hinv (mkWalk_ok (y :: u :: rest) (wk_path s)
          (upd (wk_used s) (nth i' (inc u) 0) true) (upd (wk_it s) u (i' + 1)))
       A (nth i' (inc u) 0 :: SE) PD PE.
Proof.
  intros s u rest A SE PD PE i' y H Hst Hi' Hall Hfree Hl.
  remember (nth i' (inc u) 0) as ei eqn:Eei.
  assert (Hu : u < nv) by (apply (hi_range _ _ _ _ _ H); rewrite Hst; left; auto).
  assert (Hne : wk_stack s <> []) by (rewrite Hst; discriminate).
  assert (Hei : ei < m) by (destruct Hl; auto).
  assert (Hlen := hi_used_len _ _ _ _ _ H).
  assert (Hmono : forall e, nth e (wk_used s) false = true ->
                            nth e (upd (wk_used s) ei true) false = true).
  { intros e He. rewrite nth_upd. destruct ((ei =? e) && (ei <? length (wk_used s))); auto. }
  assert (Hnew : forall e, nth e (upd (wk_used s) ei true) false = true <->
                           e = ei \/ nth e (wk_used s) false = true).
  { intros e. rewrite nth_upd. rewrite Hlen.
    destruct (Nat.eqb_spec ei e) as [Hx|Hx]; destruct (Nat.ltb_spec ei m); simpl;
      try lia; intuition. }
  assert (Hud : forall x, unused_degree (wk_used s) x
                          = unused_degree (upd (wk_used s) ei true) x + occ es ei x).
  { intros x. apply unused_degree_mark; auto. }
  constructor; simpl.
  - rewrite upd_length. exact Hlen.
  - rewrite upd_length. apply (hi_it_len _ _ _ _ _ H).
  - intros x j Hx Hj. destruct (Nat.eq_dec x u) as [->|Hxu].
    + rewrite nth_upd_same in Hj by (rewrite (hi_it_len _ _ _ _ _ H); auto).
      split; [lia|]. destruct (Nat.eq_dec j i') as [->|Hji].
      * apply Hnew. left. auto.
      * apply Hmono. apply Hall. lia.
    + rewrite nth_upd_other in Hj by auto.
      destruct (hi_cursor _ _ _ _ _ H x j Hx Hj) as [H1 H2]. split; auto.
  - intros x [<-|Hx].
    + apply (linked_range _ _ _ Hl).
    + apply (hi_range _ _ _ _ _ H). rewrite Hst. exact Hx.
  - intros _. constructor.
    + apply linked_sym; auto.
    + rewrite <- Hst. apply (hi_stack _ _ _ _ _ H Hne).
  - discriminate.
  - apply (hi_path _ _ _ _ _ H).
  - apply (hi_path_nil _ _ _ _ _ H).
  - intros _ Hp. apply (hi_pending _ _ _ _ _ H Hne Hp).
  - constructor; [|apply (hi_nodup _ _ _ _ _ H)].
    intros Hin. apply (hi_used _ _ _ _ _ H) in Hin. congruence.
  - intros e. rewrite Hnew, (hi_used _ _ _ _ _ H e). intuition.
  - intros top rest' Heq x. injection Heq as <- <-.
    assert (Hp := hi_parity _ _ _ _ _ H u rest Hst x).
    rewrite (Hud x), Nat.odd_add, (occ_linked_odd ei u y x Hl) in Hp.
    rewrite (Nat.eqb_sym u x), (Nat.eqb_sym y x) in Hp.
    destruct (Nat.odd (unused_degree (upd (wk_used s) ei true) x));
      destruct (x =? u); destruct (x =? y); destruct (x =? A); simpl in *; congruence.
  - intros x Hx. assert (Hz := hi_exhausted _ _ _ _ _ H x Hx). rewrite (Hud x) in Hz. lia.
  - intros _. assert (Hb := hi_bottom _ _ _ _ _ H Hne). rewrite Hst in Hb. exact Hb.
Qed.

Lemma walk_step_inv : forall s u rest A SE PD PE,
  hinv s A SE PD PE -> wk_stack s = u :: rest ->
  (exists A' SE' PD' PE', hinv (walk_step_ok ev u rest s) A' SE' PD' PE') /\
  walk_measure (walk_step_ok ev u rest s) < walk_measure s.
Proof.
  intros s u rest A SE PD PE H Hst.
  assert (Hu : u < nv) by (apply (hi_range _ _ _ _ _ H); rewrite Hst; left; auto).
  assert (Hle := cursor_le _ _ _ _ _ u H Hu).
  unfold walk_step_ok. fold (inc u).
  set (i0 := nth u (wk_it s) 0) in *.
  destruct (skip_used_spec (wk_used s) (inc u) (length (inc u) - i0) i0 eq_refl Hle)
    as [S1 [S2 S3]].
  set (i' := skip_used_ok (wk_used s) (skipn i0 (inc u)) i0) in *.
  assert (Hall : forall j, j < i' -> nth (nth j (inc u) 0) (wk_used s) false = true).
  { intros j Hj. destruct (Nat.lt_ge_cases j i0) as [Hlt|Hge].
    - apply (hi_cursor _ _ _ _ _ H u j Hu Hlt).
    - apply S2. lia. }
  assert (Hitlen := hi_it_len _ _ _ _ _ H).
  destruct (Nat.eqb_spec i' (length (inc u))) as [Heq|Hneq].
  - split.
    + eapply walk_pop_inv; eauto.
    + unfold walk_measure. simpl. rewrite Hst. simpl.
      assert (Hr := remaining_upd (wk_it s) u i' Hu Hitlen ltac:(fold i0; lia) ltac:(lia)).
      lia.
  - assert (Hlt : i' < length (inc u)) by lia.
    assert (Hfree := S3 Hlt). rewrite Hfree. simpl negb. cbv iota.
    assert (Hin : In (nth i' (inc u) 0) (inc u)) by (apply nth_In; auto).
    destruct (in_inc_linked u _ Hu Hin) as [y [Hl Hcase]].
    assert (Hv : (let '(a, b) := nth (nth i' (inc u) 0) (evk_edges ev) (0, 0) in
                  if u =? a then b else a) = y).
    { fold es. destruct Hcase as [E|[E Huy]]; rewrite E.
      - rewrite Nat.eqb_refl. reflexivity.
      - destruct (Nat.eqb_spec u y); [contradiction|reflexivity]. }
    assert (Hstep : (let '(a, b) := nth (nth i' (inc u) 0) (evk_edges ev) (0, 0) in
              mkWalk_ok ((if u =? a then b else a) :: u :: rest) (wk_path s)
                (upd (wk_used s) (nth i' (inc u) 0) true) (upd (wk_it s) u (i' + 1)))
            = mkWalk_ok (y :: u :: rest) (wk_path s)
                (upd (wk_used s) (nth i' (inc u) 0) true) (upd (wk_it s) u (i' + 1))).
    { rewrite <- Hv. destruct (nth (nth i' (inc u) 0) (evk_edges ev) (0, 0)). reflexivity. }
    rewrite Hstep. split.
    + exists A, (nth i' (inc u) 0 :: SE), PD, PE. eapply walk_push_inv; eauto.
    + unfold walk_measure. simpl. rewrite Hst. simpl.
      assert (Hr := remaining_upd (wk_it s) u (i' + 1) Hu Hitlen ltac:(fold i0; lia) ltac:(lia)).
      fold i0 in Hr. lia.
Qed.

Lemma walk_loop_inv : forall fuel s A SE PD PE,
  hinv s A SE PD PE -> walk_measure s < fuel ->
  exists s' A' SE' PD' PE',
    walk_loop_ok fuel ev s = Some s' /\ hinv s' A' SE' PD' PE' /\ wk_stack s' = [].
Proof.
  induction fuel as [|fuel IH]; intros s A SE PD PE H Hm; [lia|].
  simpl. destruct (wk_stack s) as [|u rest] eqn:Hst.
  - exists s, A, SE, PD, PE. auto.
  - destruct (walk_step_inv s u rest A SE PD PE H Hst) as [[A' [SE' [PD' [PE' H']]]] Hdec].
    apply (IH _ A' SE' PD' PE' H'). lia.
Qed.

Hypothesis Heven : forall x, Nat.even (length (incid_of es x)) = true.

Definition walk_init : Walk_ok :=
  mkWalk_ok [start] [] (repeat false m) (repeat 0 (length (evk_incid ev))).

Lemma walk_init_inv : hinv walk_init start [] [] [].
Proof.
  assert (Hlen := vo_len _ _ Hok).
  constructor; unfold walk_init; simpl; try rewrite Hlen.
  - apply repeat_length.
  - apply repeat_length.
  - intros x j Hx Hj. rewrite nth_repeat in Hj. lia.
  - intros x [<-|[]]. exact Hstart.
  - intros _. constructor.
  - discriminate.
  - intros Hp. congruence.
  - auto.
  - intros _ Hp. congruence.
  - constructor.
  - intros e. rewrite nth_repeat. split; [discriminate | intros []].
  - intros top rest Heq x. injection Heq as <- <-.
    rewrite unused_degree_init, <- Nat.negb_even, Heven.
    destruct (x =? start); reflexivity.
  - intros x [].
  - auto.
Qed.

Lemma walk_init_measure :
  walk_measure walk_init < 2 * length (concat (evk_incid ev)) + 2.
Proof.
  unfold walk_measure, walk_init, remaining. simpl.
  assert (Hlen := vo_len _ _ Hok).
  assert (E : sum_n (fun x => length (inc x) - nth x (repeat 0 (length (evk_incid ev))) 0) nv
              = length (concat (evk_incid ev))).
  { rewrite length_concat. rewrite <- (sum_n_nth _ (@length nat) (evk_incid ev) []).
    rewrite Hlen. apply sum_n_ext. intros x _. rewrite nth_repeat. unfold inc. lia. }
  rewrite E. lia.
Qed.

Lemma hd_rev_last : forall l : list nat, hd 0 (rev l) = last l 0.
Proof.
  intros l. destruct l as [|a l]; [reflexivity|].
  rewrite rev_last_cons by discriminate. reflexivity.
Qed.

Lemma last_rev_hd : forall l : list nat, last (rev l) 0 = hd 0 l.
Proof. intros [|a l]; [reflexivity|]. simpl. apply last_last. Qed.

(** What the loop delivers: a closed walk from [start] over distinct edges,
    which has used every edge at every vertex it visits. *)
Lemma walk_result :
  exists s PE,
    walk_loop_ok (2 * length (concat (evk_incid ev)) + 2) ev walk_init = Some s /\
    wk_path s <> [] /\
    trail (rev (wk_path s)) PE /\
    NoDup PE /\
    hd 0 (rev (wk_path s)) = start /\
    last (rev (wk_path s)) 0 = start /\
    (forall x e y, In x (rev (wk_path s)) -> linked e x y -> In e PE).
Proof.
  destruct (walk_loop_inv _ _ _ _ _ _ walk_init_inv walk_init_measure)
    as [s [A [SE [PD [PE [Hrun [H Hst]]]]]]].
  destruct (hi_stack_nil _ _ _ _ _ H Hst) as [-> [-> [Hp Hlast]]].
  destruct (hi_path _ _ _ _ _ H Hp) as [Htr Hhd].
  exists s, PE. split; [exact Hrun|]. split; [exact Hp|]. split; [exact Htr|].
  split; [apply (hi_nodup _ _ _ _ _ H)|].
  split; [rewrite hd_rev_last; exact Hlast|].
  split; [rewrite last_rev_hd; exact Hhd|].
  intros x e y Hx Hl. apply in_rev in Hx.
  assert (Hz := hi_exhausted _ _ _ _ _ H x Hx).
  assert (Hxr : x < nv) by (apply (linked_range _ _ _ Hl)).
  apply (hi_used _ _ _ _ _ H e).
  apply (proj1 (unused_degree_zero (wk_used s) x Hxr) Hz).
  eapply linked_in_inc; eauto.
Qed.

End Hierholzer.

(** *** The circuit returned by [graph_find_euler_circuit_ok] *)

Lemma in_undirected_edges : forall g a b,
  In (a, b) (undirected_edges g) <-> a <= b /\ b < n g /\ adjacent g a b.
Proof.
  intros g a b. unfold undirected_edges. rewrite in_flat_map. split.
  - intros [u [Hu Hin]]. apply in_map_iff in Hin. destruct Hin as [v [Hp Hv]].
    injection Hp as -> ->. apply filter_In in Hv. destruct Hv as [Hv Had].
    apply in_seq in Hu. apply in_seq in Hv. apply adjacentb_true in Had.
    repeat split; auto; lia.
  - intros [Hab [Hb Had]]. exists a. split; [apply in_seq; lia|].
    apply in_map. apply filter_In. split; [apply in_seq; lia|].
    apply adjacentb_true; auto.
Qed.

Lemma NoDup_flat_map_pair : forall (f : nat -> list nat) l,
  NoDup l -> (forall u, NoDup (f u)) ->
  NoDup (flat_map (fun u => map (pair u) (f u)) l).
Proof.
  intros f l Hl Hf. induction Hl as [|a l Ha Hl IH]; simpl; [constructor|].
  apply NoDup_app; auto.
  - apply NoDup_map_NoDup_ForallPairs; auto. intros x y _ _ E. congruence.
  - intros [x y] H1 H2. apply in_map_iff in H1. destruct H1 as [v [E _]].
    injection E as <- <-. apply in_flat_map in H2. destruct H2 as [u [Hu Hin]].
    apply in_map_iff in Hin. destruct Hin as [w [E _]]. injection E as -> _. contradiction.
Qed.

Lemma undirected_edges_nodup : forall g, NoDup (undirected_edges g).
Proof.
  intros g. unfold undirected_edges. apply NoDup_flat_map_pair.
  - apply seq_NoDup.
  - intros u. apply NoDup_filter. apply seq_NoDup.
Qed.

Lemma view_edges_permutation : forall g, graph_wf g ->
  Permutation (evk_edges (build_edge_view_ok g)) (undirected_edges g).
Proof.
  intros g Hwf. apply NoDup_Permutation.
  - apply view_edges_nodup; auto.
  - apply undirected_edges_nodup.
  - intros [a b]. rewrite view_edges_in, in_undirected_edges by auto.
    split; [|tauto]. intros [Hab Had]. repeat split; auto.
    apply (adjacent_range g a b Hwf Had).
Qed.

Lemma map_nth_seq_id : forall (A : Type) (l : list A) d,
  map (fun i => nth i l d) (seq 0 (length l)) = l.
Proof.
  intros A l d. induction l as [|a l IH] using rev_ind; [reflexivity|].
  rewrite length_app. simpl. rewrite Nat.add_1_r, seq_S, map_app. simpl.
  rewrite nth_middle. f_equal.
  rewrite <- IH at 2. apply map_ext_in. intros i Hi. apply in_seq in Hi.
  apply app_nth1. lia.
Qed.

Lemma trail_steps : forall ev nv vs el,
  view_ok nv ev -> trail ev vs el ->
  map undirected (steps vs) = map (fun e => nth e (evk_edges ev) (0, 0)) el.
Proof.
  intros ev nv vs el Hok H. induction H as [v|x y vs e el Hl Ht IH]; [reflexivity|].
  cbn [steps map]. rewrite <- IH. f_equal.
  destruct Hl as [He Hn].
  assert (Hin : In (nth e (evk_edges ev) (0, 0)) (evk_edges ev)) by (apply nth_In; auto).
  unfold undirected. simpl.
  destruct Hn as [Hn|Hn]; rewrite Hn in *; apply (vo_range _ _ Hok) in Hin;
    f_equal; lia.
Qed.

Lemma incid_of_out_of_range : forall ev nv x,
  view_ok nv ev -> nv <= x -> incid_of (evk_edges ev) x = [].
Proof.
  intros ev nv x Hok Hx.
  destruct (incid_of (evk_edges ev) x) as [|e l] eqn:E; auto.
  assert (Hin : In e (incid_of (evk_edges ev) x)) by (rewrite E; left; auto).
  apply in_incid_of in Hin. destruct Hin as [He Ho].
  assert (Hp : In (nth e (evk_edges ev) (0, 0)) (evk_edges ev)) by (apply nth_In; auto).
  unfold occ, ends_at in Ho.
  destruct (nth e (evk_edges ev) (0, 0)) as [a b]. apply (vo_range _ _ Hok) in Hp.
  simpl in Ho.
  destruct (Nat.eqb_spec a x); destruct (Nat.eqb_spec b x); simpl in Ho; lia.
Qed.

Lemma first_incident_some : forall ev s,
  first_incident_ok ev = Some s ->
  s < length (evk_incid ev) /\ 0 < length (nth s (evk_incid ev) []).
Proof.
  intros ev s H. unfold first_incident_ok in H. apply find_some in H.
  rewrite in_seq, Nat.ltb_lt in H. lia.
Qed.

Lemma first_incident_none : forall ev x,
  first_incident_ok ev = None -> x < length (evk_incid ev) ->
  length (nth x (evk_incid ev) []) = 0.
Proof.
  intros ev x H Hx. unfold first_incident_ok in H.
  assert (Hf := find_none _ _ H x). rewrite in_seq in Hf.
  specialize (Hf ltac:(lia)). apply Nat.ltb_ge in Hf. lia.
Qed.

(** The walk part of [graph_find_euler_circuit_ok], on a graph that passed
    [graph_has_euler_circuit_ok]. *)
Lemma euler_walk_correct : forall g,
  graph_wf g ->
  has_an_edge g ->
  (forall v, v < n g -> Nat.even (degree g v) = true) ->
  connected_ignoring_isolated g ->
  exists start s,
    first_incident_ok (build_edge_view_ok g) = Some start /\
    walk_loop_ok (2 * length (concat (evk_incid (build_edge_view_ok g))) + 2)
      (build_edge_view_ok g)
      (mkWalk_ok [start] [] (repeat false (evk_m (build_edge_view_ok g)))
         (repeat 0 (length (evk_incid (build_edge_view_ok g))))) = Some s /\
    Permutation (map undirected (steps (rev (wk_path s)))) (undirected_edges g) /\
    length (rev (wk_path s)) = length (undirected_edges g) + 1 /\
    hd 0 (rev (wk_path s)) = last (rev (wk_path s)) 0.
Proof.
  intros g Hwf Hedge Heven Hconn.
  set (ev := build_edge_view_ok g).
  assert (Hok : view_ok (n g) ev) by (apply build_edge_view_scan; auto).
  assert (Hlen := vo_len _ _ Hok).
  assert (Hdeg : forall x, x < n g ->
            length (nth x (evk_incid ev) []) = degree_vertex_adj g x)
    by (intros; apply view_incid_length; auto).
  (* the start vertex *)
  destruct (first_incident_ok ev) as [start|] eqn:Efi.
  2:{ exfalso. destruct Hedge as [u [v Huv]].
      assert (Hu : u < n g) by (apply (adjacent_range g u v Hwf Huv)).
      assert (Hd : 0 < degree_vertex_adj g u) by (apply non_isolated_degree; exists v; auto).
      rewrite <- Hdeg in Hd by auto.
      rewrite (first_incident_none ev u Efi) in Hd by lia. lia. }
  destruct (first_incident_some ev start Efi) as [Hs Hsd]. rewrite Hlen in Hs.
  assert (Hstart_ni : non_isolated g start).
  { apply non_isolated_degree. rewrite <- Hdeg by auto. exact Hsd. }
  (* parity of the incidence lists *)
  assert (Hev : forall x, Nat.even (length (incid_of (evk_edges ev) x)) = true).
  { intros x. destruct (Nat.lt_ge_cases x (n g)) as [Hx|Hx].
    - rewrite <- (vo_incid _ _ Hok x Hx), Hdeg, degree_vertex_adj_degree by auto.
      apply Heven; auto.
    - rewrite (incid_of_out_of_range ev (n g) x Hok Hx). reflexivity. }
  destruct (walk_result ev (n g) start Hok Hs Hev)
    as [s [PE [Hrun [Hp [Htr [Hnd [Hhd [Hlast Hclosed]]]]]]]].
  exists start, s. split; [reflexivity|]. split; [exact Hrun|].
  (* every vertex reachable from [start] is on the walk *)
  assert (Hlink : forall x w, adjacent g x w -> exists e, linked ev e x w).
  { intros x w Hxw. destruct (Nat.le_gt_cases x w) as [Hle|Hgt].
    - assert (Hin : In (x, w) (evk_edges ev)) by (apply view_edges_in; auto).
      destruct (In_nth _ _ (0, 0) Hin) as [e [He Hn]].
      exists e. split; auto.
    - assert (Hin : In (w, x) (evk_edges ev)).
      { apply view_edges_in; auto. split; [lia|]. apply adjacent_sym; auto. }
      destruct (In_nth _ _ (0, 0) Hin) as [e [He Hn]].
      exists e. split; auto. }
  assert (Hstart_in : In start (rev (wk_path s))).
  { rewrite <- Hhd. destruct (rev (wk_path s)) as [|a l] eqn:E.
    - exfalso. apply Hp. apply (f_equal (@rev nat)) in E. rewrite rev_involutive in E.
      exact E.
    - left. reflexivity. }
  assert (Hreach : forall x, reach g start x -> In x (rev (wk_path s))).
  { intros x Hx. induction Hx as [|v w Hv IH Hvw]; auto.
    destruct (Hlink v w Hvw) as [e Hl].
    assert (HinPE := Hclosed v e w IH Hl).
    apply (trail_edge_vertices ev _ _ Htr e v w HinPE Hl). }
  (* hence every edge is on it *)
  assert (Hall : forall e, e < evk_m ev -> In e PE).
  { intros e He. unfold evk_m in He.
    destruct (nth e (evk_edges ev) (0, 0)) as [a b] eqn:En.
    assert (Hin : In (a, b) (evk_edges ev)) by (rewrite <- En; apply nth_In; auto).
    apply view_edges_in in Hin; auto. destruct Hin as [Hab Had].
    assert (Hl : linked ev e a b) by (split; auto).
    apply (Hclosed a e b); auto. apply Hreach. apply Hconn; auto. exists b; auto. }
  assert (Hperm : Permutation PE (seq 0 (evk_m ev))).
  { apply NoDup_Permutation; auto.
    - apply seq_NoDup.
    - intros e. rewrite in_seq. split.
      + intros Hin. assert (H := trail_edges_lt ev _ _ Htr e Hin). unfold evk_m. lia.
      + intros He. apply Hall. lia. }
  assert (Hm : length PE = length (undirected_edges g)).
  { rewrite (Permutation_length Hperm), length_seq. unfold evk_m.
    apply Permutation_length. apply view_edges_permutation; auto. }
  split; [|split].
  - rewrite (trail_steps ev (n g) _ _ Hok Htr).
    eapply Permutation_trans; [apply Permutation_map; exact Hperm|].
    unfold evk_m. rewrite map_nth_seq_id. apply view_edges_permutation; auto.
  - rewrite (trail_length ev _ _ Htr). lia.
  - congruence.
Qed.

Lemma nth_last_length : forall (l : list nat) d, nth (length l - 1) l d = last l d.
Proof.
  induction l as [|a l IH]; intros d; [reflexivity|].
  destruct l as [|b l]; [reflexivity|].
  replace (length (a :: b :: l) - 1) with (S (length (b :: l) - 1)) by (simpl; lia).
  change (nth (S (length (b :: l) - 1)) (a :: b :: l) d)
    with (nth (length (b :: l) - 1) (b :: l) d).
  rewrite IH. reflexivity.
Qed.

(** [graph_find_euler_circuit_ok] always returns on a well-formed graph; it
    returns 1 exactly when [graph_has_euler_circuit_ok] does, and then with a
    circuit over all the edges. *)
Lemma graph_find_euler_circuit_spec : forall g,
  graph_wf g ->
  exists b r,
    graph_has_euler_circuit_ok (Some g) = Some b /\
    graph_find_euler_circuit_ok g = Some r /\
    (b = false -> r = None) /\
    (b = true ->
     exists cycle, r = Some cycle /\
       Permutation (map undirected (steps cycle)) (undirected_edges g) /\
       length cycle = length (undirected_edges g) + 1 /\
       nth 0 cycle 0 = nth (length (undirected_edges g)) cycle 0).
Proof.
  intros g Hwf.
  destruct (graph_has_euler_circuit_spec g Hwf) as [b [Hb Hiff]].
  unfold graph_find_euler_circuit_ok. rewrite Hb.
  destruct b.
  - destruct (proj1 Hiff eq_refl) as [Hedge [Heven Hconn]].
    destruct (euler_walk_correct g Hwf Hedge Heven Hconn)
      as [start [s [Hfi [Hrun [Hperm [Hlen Hclosed]]]]]].
    rewrite Hfi, Hrun.
    destruct (Nat.ltb_spec (length (rev (wk_path s))) 1) as [Hlt|Hge]; [lia|].
    exists true, (Some (rev (wk_path s))). repeat split; auto; try discriminate.
    intros _. exists (rev (wk_path s)). repeat split; auto.
    rewrite <- (nth_last_length (rev (wk_path s)) 0) in Hclosed.
    rewrite Hlen in Hclosed. rewrite Nat.add_sub in Hclosed.
    destruct (rev (wk_path s)); simpl in *; auto.
  - exists false, None. repeat split; auto. discriminate.
Qed.


(** Scenarios S1, S2 and S3 of the specification, and a graph with loops. *)
Example euler_square : graph_find_euler_circuit_ok g_square = Some (Some [0; 3; 2; 1; 0]).
Proof. reflexivity. Qed.

Example euler_loops : graph_find_euler_circuit_ok g_loops = Some (Some [0; 0; 2; 1; 1; 0]).
Proof. reflexivity. Qed.

Example euler_path_none :
  graph_find_euler_circuit_ok
    (apply_ops (mkGraph 4 [[]; []; []; []])
       [AddEdge true true 0 1; AddEdge true true 1 2; AddEdge true true 2 3])
  = Some None.
Proof. reflexivity. Qed.

(** ** Maximum flow ([maxflow.c]) *)

(** *** The run in exact arithmetic without allocation failure *)

(** Scenario S5 of the specification. *)
Example max_flow_s5 : graph_max_flow [] g_flow 0 3 = Some (Some 7%Z).
Proof. reflexivity. Qed.

Example max_flow_square : graph_max_flow [] g_square 0 2 = Some (Some 2%Z).
Proof. reflexivity. Qed.

(** *** 32-bit arithmetic *)

Lemma wrap32_id : forall x, (INT_MIN <= x <= INT_MAX)%Z -> wrap32 x = x.
Proof.
  intros x H. unfold wrap32, INT_MIN, INT_MAX in *. rewrite Z.mod_small; lia.
Qed.

Lemma wrap32_range : forall x, (INT_MIN <= wrap32 x <= INT_MAX)%Z.
Proof.
  intros x. unfold wrap32, INT_MIN, INT_MAX.
  assert (H := Z.mod_pos_bound (x + 2147483648) 4294967296 ltac:(lia)). lia.
Qed.

Lemma wrap32_idem : forall x, wrap32 (wrap32 x) = wrap32 x.
Proof. intros x. apply wrap32_id. apply wrap32_range. Qed.

Lemma wrap32_add_l : forall a b, wrap32 (wrap32 a + b) = wrap32 (a + b).
Proof.
  intros a b. unfold wrap32. f_equal.
  replace ((a + 2147483648) mod 4294967296 - 2147483648 + b + 2147483648)%Z
    with ((a + 2147483648) mod 4294967296 + b)%Z by ring.
  rewrite Z.add_mod_idemp_l by lia. f_equal. ring.
Qed.

(** A sum that has wrapped is below the exact sum. *)
Lemma wrap32_le : forall x, (INT_MIN <= x)%Z -> (wrap32 x <= x)%Z.
Proof.
  intros x H. unfold wrap32, INT_MIN in *.
  assert (H1 := Z.mod_le (x + 2147483648) 4294967296 ltac:(lia) ltac:(lia)). lia.
Qed.

(** *** Sums of integers and matrices *)

Local Open Scope Z_scope.

Lemma zsum_ext : forall f h k, (forall i, (i < k)%nat -> f i = h i) -> zsum f k = zsum h k.
Proof. induction k; intros H; simpl; auto. rewrite IHk, H; auto. Qed.

Lemma zsum_zero : forall k, zsum (fun _ => 0) k = 0.
Proof. induction k; simpl; auto. rewrite IHk; auto. Qed.

Lemma zsum_add : forall f h k, zsum (fun i => f i + h i) k = zsum f k + zsum h k.
Proof. induction k; simpl; auto. rewrite IHk. lia. Qed.

Lemma zsum_sub : forall f h k, zsum (fun i => f i - h i) k = zsum f k - zsum h k.
Proof. induction k; simpl; auto. rewrite IHk. lia. Qed.

Lemma zsum_opp : forall f k, zsum (fun i => - f i) k = - zsum f k.
Proof. induction k; simpl; auto. rewrite IHk. lia. Qed.

Lemma zsum_le : forall f h k, (forall i, (i < k)%nat -> f i <= h i) -> zsum f k <= zsum h k.
Proof.
  induction k; intros H; simpl; [lia|].
  assert (f k <= h k) by (apply H; lia).
  assert (zsum f k <= zsum h k) by (apply IHk; intros; apply H; lia). lia.
Qed.

Lemma zsum_nonneg : forall f k, (forall i, (i < k)%nat -> 0 <= f i) -> 0 <= zsum f k.
Proof. intros f k H. rewrite <- (zsum_zero k). apply zsum_le. auto. Qed.

Lemma zsum_all_zero : forall f k, (forall i, (i < k)%nat -> f i = 0) -> zsum f k = 0.
Proof. intros f k H. rewrite (zsum_ext f (fun _ => 0) k H). apply zsum_zero. Qed.

Lemma zsum_change : forall f h k j,
  (j < k)%nat -> (forall i, i <> j -> f i = h i) -> zsum f k - f j = zsum h k - h j.
Proof.
  induction k as [|k IH]; intros j Hj H; [lia|]. simpl.
  destruct (Nat.eq_dec j k) as [->|Hne].
  - rewrite (zsum_ext f h k) by (intros; apply H; lia). lia.
  - assert (IH' := IH j ltac:(lia) H). rewrite (H k) by lia. lia.
Qed.

Lemma zsum_single : forall c j k,
  zsum (fun u => if (j =? u)%nat then c else 0) k = if (j <? k)%nat then c else 0.
Proof.
  induction k as [|k IH]; simpl; auto. rewrite IH.
  destruct (Nat.ltb_spec j k); destruct (Nat.eqb_spec j k); destruct (Nat.ltb_spec j (S k)); lia.
Qed.

Lemma zsum_swap : forall (f : nat -> nat -> Z) k1 k2,
  zsum (fun u => zsum (fun v => f u v) k2) k1 = zsum (fun v => zsum (fun u => f u v) k1) k2.
Proof.
  induction k1 as [|k1 IH]; intros k2; simpl.
  - rewrite zsum_zero. reflexivity.
  - rewrite IH. rewrite <- zsum_add. reflexivity.
Qed.

Lemma mget_mset : forall k m i j x a b,
  mdim k m -> (i < k)%nat -> (j < k)%nat ->
  mget (mset m i j x) a b = if (i =? a)%nat && (j =? b)%nat then x else mget m a b.
Proof.
  intros k m i j x a b [Hl Hr] Hi Hj. unfold mget, mset.
  rewrite nth_upd. rewrite Hl.
  destruct (Nat.eqb_spec i a) as [->|Hia]; simpl; auto.
  destruct (Nat.ltb_spec a k); [|lia]. rewrite nth_upd, Hr by auto.
  destruct (Nat.eqb_spec j b) as [->|Hjb]; simpl; auto.
  destruct (Nat.ltb_spec b k); [reflexivity|lia].
Qed.

Lemma mset_mdim : forall k m i j x, mdim k m -> mdim k (mset m i j x).
Proof.
  intros k m i j x [Hl Hr]. unfold mset. split.
  - rewrite upd_length; auto.
  - intros a Ha. rewrite nth_upd, Hl.
    destruct ((i =? a)%nat && (i <? k)%nat) eqn:E; auto.
    apply andb_true_iff in E. destruct E as [E _]. apply Nat.eqb_eq in E. subst a.
    rewrite upd_length. auto.
Qed.

Lemma zero_matrix_mdim : forall k, mdim k (zero_matrix k).
Proof.
  intros k. unfold zero_matrix. split.
  - apply repeat_length.
  - intros i Hi. rewrite (nth_indep _ [] (repeat 0 k)) by (rewrite repeat_length; auto).
    rewrite nth_repeat. apply repeat_length.
Qed.

Lemma mget_zero_matrix : forall k a b, mget (zero_matrix k) a b = 0.
Proof.
  intros k a b. unfold mget, zero_matrix.
  destruct (Nat.lt_ge_cases a k) as [Ha|Ha].
  - rewrite (nth_indep _ [] (repeat 0 k)) by (rewrite repeat_length; auto).
    rewrite nth_repeat. apply nth_repeat.
  - rewrite (nth_overflow (repeat (repeat 0 k) k)) by (rewrite repeat_length; auto).
    destruct b; reflexivity.
Qed.

Lemma mget_push_flow : forall k m u v d a b,
  mdim k m -> (u < k)%nat -> (v < k)%nat -> u <> v ->
  mget (push_flow_ok m u v d) a b =
  mget m a b + (if (u =? a)%nat && (v =? b)%nat then - d else 0)
             + (if (v =? a)%nat && (u =? b)%nat then d else 0).
Proof.
  intros k m u v d a b Hd Hu Hv Huv. unfold push_flow_ok.
  rewrite (mget_mset k) by (auto using mset_mdim).
  rewrite !(mget_mset k) by auto.
  destruct (Nat.eqb_spec v a) as [Hva|Hva]; destruct (Nat.eqb_spec u b) as [Hub|Hub];
    destruct (Nat.eqb_spec u a) as [Hua|Hua]; destruct (Nat.eqb_spec v b) as [Hvb|Hvb];
    destruct (Nat.eqb_spec u v) as [Huv'|Huv']; destruct (Nat.eqb_spec v u) as [Hvu|Hvu];
    simpl; try lia; subst; lia.
Qed.

Lemma push_flow_mdim : forall k m u v d, mdim k m -> mdim k (push_flow_ok m u v d).
Proof. intros. unfold push_flow_ok. auto using mset_mdim. Qed.

Lemma fill_row : forall k u l m,
  mdim k m -> (u < k)%nat -> (forall e, In e l -> (to e < k)%nat) ->
  let m' := fold_left (fun m edge => let v := to edge in
                         if negb (u =? v)%nat then mset m u v (weight edge) else m) l m in
  mdim k m' /\
  forall a b, mget m' a b =
    if (a =? u)%nat && negb (u =? b)%nat then last_weight l b (mget m a b) else mget m a b.
Proof.
  intros k u. induction l as [|e l IH]; intros m Hd Hu Hr; cbn [fold_left last_weight].
  - split; auto. intros a b. destruct ((a =? u)%nat && negb (u =? b)%nat); reflexivity.
  - assert (He : (to e < k)%nat) by (apply Hr; left; auto).
    assert (Hr' : forall e', In e' l -> (to e' < k)%nat) by (intros; apply Hr; right; auto).
    cbv zeta. destruct (Nat.eqb_spec u (to e)) as [Heq|Hne]; cbn [negb].
    + destruct (IH m Hd Hu Hr') as [H1 H2]. split; auto.
      intros a b. rewrite H2.
      destruct (Nat.eqb_spec a u) as [->|]; simpl; auto.
      destruct (Nat.eqb_spec u b) as [Hub|Hub]; simpl; auto.
      destruct (Nat.eqb_spec (to e) b); [lia|]. reflexivity.
    + destruct (IH (mset m u (to e) (weight e)) (mset_mdim _ _ _ _ _ Hd) Hu Hr') as [H1 H2].
      split; auto. intros a b. rewrite H2. rewrite (mget_mset k) by auto.
      destruct (Nat.eqb_spec a u) as [->|Hau]; simpl.
      * rewrite Nat.eqb_refl. simpl.
        destruct (Nat.eqb_spec u b) as [Hub|Hub]; simpl.
        -- destruct (Nat.eqb_spec (to e) b); [lia|]. reflexivity.
        -- reflexivity.
      * destruct (Nat.eqb_spec u a); [lia|]. reflexivity.
Qed.

Lemma last_weight_unique : forall l v d,
  (count_to l v <= 1)%nat ->
  last_weight l v d = if (count_to l v =? 0)%nat then d else first_weight l v.
Proof.
  induction l as [|e l IH]; intros v d Hc; cbn [last_weight count_to first_weight] in *.
  - reflexivity.
  - destruct (Nat.eqb_spec (to e) v) as [Heq|Hne].
    + assert (Hz : count_to l v = 0%nat) by lia.
      rewrite IH by lia. rewrite Hz. reflexivity.
    + rewrite IH by lia. reflexivity.
Qed.

Lemma build_capacity_matrix_spec : forall g,
  graph_wf g ->
  mdim (n g) (build_capacity_matrix g) /\
  forall u v, (u < n g)%nat -> (v < n g)%nat ->
    mget (build_capacity_matrix g) u v =
    if (u =? v)%nat then 0 else first_weight (head g u) v.
Proof.
  intros g Hwf. unfold build_capacity_matrix.
  assert (H : forall k, (k <= n g)%nat ->
    let m := fold_left
      (fun m u => fold_left (fun m edge => let v := to edge in
                    if negb (u =? v)%nat then mset m u v (weight edge) else m)
                  (head g u) m) (seq 0 k) (zero_matrix (n g)) in
    mdim (n g) m /\
    forall u v, mget m u v =
      if (u <? k)%nat && negb (u =? v)%nat then last_weight (head g u) v 0 else 0).
  { induction k as [|k IH]; intros Hk.
    - simpl. split; [apply zero_matrix_mdim|]. intros. apply mget_zero_matrix.
    - destruct (IH ltac:(lia)) as [H1 H2]. clear IH. cbv zeta.
      rewrite seq_S, fold_left_app. simpl fold_left.
      destruct (fill_row (n g) k (head g k) _ H1 ltac:(lia)) as [G1 G2].
      { intros e He. eapply wf_to; eauto. }
      split; [exact G1|]. intros u v. rewrite G2, H2.
      destruct (Nat.eqb_spec u k) as [->|Huk]; simpl.
      + destruct (Nat.ltb_spec k k); [lia|]. simpl.
        destruct (Nat.ltb_spec k (S k)); [|lia]. simpl.
        destruct (Nat.eqb_spec k v); reflexivity.
      + destruct (Nat.ltb_spec u k); destruct (Nat.ltb_spec u (S k)); try lia; reflexivity. }
  destruct (H (n g) (le_n _)) as [H1 H2]. split; [exact H1|].
  intros u v Hu Hv. rewrite H2.
  destruct (Nat.ltb_spec u (n g)); [|lia]. simpl.
  destruct (Nat.eqb_spec u v) as [Huv|Huv]; simpl; auto.
  rewrite last_weight_unique by (apply (wf_simple Hwf); auto).
  destruct (Nat.eqb_spec (count_to (head g u) v) 0) as [Hz|Hz]; auto.
  symmetry. apply first_weight_absent; auto.
Qed.

Local Close Scope Z_scope.

(** *** The breadth-first search of [bfs_find_path_ok] *)

Section BfsProof.

Variable R : Matrix.

Variable nv : nat.

Variable s t : nat.

Hypothesis Hdim : mdim nv R.

Hypothesis Hs : s < nv.

Hypothesis Ht : t < nv.

Hypothesis Hst : s <> t.

(** A chain of [parent] links from its first vertex back to the source. *)
Inductive pchain (P : list Z) : list nat -> Prop :=
| pc_src : pchain P [s]
| pc_step : forall v u rest,
    v <> s -> v < nv -> u < nv -> nth v P 0%Z = Z.of_nat u ->
    pchain P (u :: rest) -> pchain P (v :: u :: rest).

(** The edges [(parent[v], v)] along a chain. *)
Fixpoint chain_edges (l : list nat) : list (nat * nat) :=
  match l with
  | v :: ((u :: _) as rest) => (u, v) :: chain_edges rest
  | _ => []
  end.

Definition chain_positive (M : Matrix) (l : list nat) : Prop :=
  forall a b, In (a, b) (chain_edges l) -> (0 < mget M a b)%Z.

Lemma pchain_upd : forall P l v z,
  ~ In v l -> pchain P l -> pchain (upd P v z) l.
Proof.
  intros P l v z Hv H. induction H as [|x u rest Hx1 Hx2 Hu Hp Hc IH].
  - constructor.
  - constructor; auto.
    + rewrite nth_upd_other; auto. intros ->. apply Hv. left; auto.
    + apply IH. intros Hin. apply Hv. right; auto.
Qed.

Lemma pchain_range : forall P l, pchain P l -> forall x, In x l -> x < nv.
Proof.
  intros P l H. induction H as [|v u rest Hv1 Hv2 Hu Hp Hc IH]; intros x Hx.
  - destruct Hx as [<-|[]]; auto.
  - destruct Hx as [<-|Hx]; auto.
Qed.

Record binv (st : Bfs) (open : list nat) : Prop := mk_binv {
  bi_vis_len : length (b_visited st) = nv;
  bi_par_len : length (b_parent st) = nv;
  bi_source : nth s (b_visited st) false = true;
  bi_queue : forall q, In q (b_queue st) -> q < nv /\ nth q (b_visited st) false = true;
  bi_chain : forall x, nth x (b_visited st) false = true ->
      exists p, pchain (b_parent st) (x :: p) /\ chain_positive R (x :: p) /\
                NoDup (x :: p) /\
                forall y, In y (x :: p) -> nth y (b_visited st) false = true;
  bi_closed : b_found st = false ->
      forall u v, nth u (b_visited st) false = true -> ~ In u open -> v < nv ->
                  (0 < mget R u v)%Z -> nth v (b_visited st) false = true;
  bi_sink : nth t (b_visited st) false = b_found st;
  bi_room : unvisited (b_visited st) + length (b_queue st) <= nv
}.

Lemma visited_lt : forall st op x, binv st op -> nth x (b_visited st) false = true -> x < nv.
Proof.
  intros st op x H Hx. destruct (Nat.lt_ge_cases x nv) as [Hlt|Hge]; auto.
  rewrite nth_overflow in Hx by (rewrite (bi_vis_len _ _ H); auto). discriminate.
Qed.

Lemma unvisited_pos : forall vis v, v < length vis -> nth v vis false = false -> 0 < unvisited vis.
Proof. intros vis v Hv Hn. assert (H := unvisited_upd vis v Hv Hn). lia. Qed.

(** Visiting one new vertex [v] from [u]. *)
Lemma binv_visit : forall st op u v,
  binv st op -> b_found st = false ->
  nth u (b_visited st) false = true -> v < nv ->
  nth v (b_visited st) false = false -> (0 < mget R u v)%Z ->
  binv (mkBfs (upd (b_visited st) v true) (upd (b_parent st) v (Z.of_nat u))
          (queue_enqueue nv (b_queue st) v) (v =? t))
       (op ++ [v]) /\
  unvisited (upd (b_visited st) v true) + length (queue_enqueue nv (b_queue st) v)
    = unvisited (b_visited st) + length (b_queue st).
Proof.
  intros st op u v H Hnf Hu Hv Hnv Hpos.
  assert (Hvl := bi_vis_len _ _ H). assert (Hpl := bi_par_len _ _ H).
  assert (Hun := unvisited_upd (b_visited st) v ltac:(lia) Hnv).
  assert (Hroom := bi_room _ _ H).
  assert (Hq : queue_enqueue nv (b_queue st) v = b_queue st ++ [v]).
  { unfold queue_enqueue. destruct (Nat.leb_spec nv (length (b_queue st))); [lia|reflexivity]. }
  assert (Hvis : forall x, nth x (upd (b_visited st) v true) false = true <->
                           x = v \/ nth x (b_visited st) false = true).
  { intros x. rewrite nth_upd, Hvl.
    destruct (Nat.eqb_spec v x) as [Hx|Hx]; destruct (Nat.ltb_spec v nv); simpl;
      try lia; intuition. }
  split.
  2:{ rewrite Hq, length_app. simpl. lia. }
  constructor; simpl.
  - rewrite upd_length; auto.
  - rewrite upd_length; auto.
  - apply Hvis. right. apply (bi_source _ _ H).
  - intros q Hin. rewrite Hq in Hin. apply in_app_or in Hin.
    destruct Hin as [Hin|[<-|[]]].
    + destruct (bi_queue _ _ H q Hin). split; auto. apply Hvis; auto.
    + split; auto. apply Hvis; auto.
  - intros x Hx. apply Hvis in Hx.
    assert (Hold : forall y, nth y (b_visited st) false = true ->
              exists p, pchain (upd (b_parent st) v (Z.of_nat u)) (y :: p) /\
                        chain_positive R (y :: p) /\ NoDup (y :: p) /\
                        forall z, In z (y :: p) -> nth z (upd (b_visited st) v true) false = true).
    { intros y Hy. destruct (bi_chain _ _ H y Hy) as [p [P1 [P2 [P3 P4]]]].
      exists p. repeat split; auto.
      - apply pchain_upd; auto. intros Hin. apply P4 in Hin. congruence.
      - intros z Hz. apply Hvis. right. auto. }
    destruct (Nat.eq_dec x v) as [->|Hxv].
    + destruct (bi_chain _ _ H u Hu) as [p [P1 [P2 [P3 P4]]]].
      assert (Hnot : ~ In v (u :: p)) by (intros Hin; apply P4 in Hin; congruence).
      exists (u :: p). repeat split.
      * constructor; auto.
        -- intros ->. rewrite (bi_source _ _ H) in Hnv. discriminate.
        -- eapply visited_lt; eauto.
        -- apply nth_upd_same. lia.
        -- apply pchain_upd; auto.
      * intros a b Hin. simpl in Hin. destruct Hin as [Hin|Hin].
        -- injection Hin as <- <-. exact Hpos.
        -- apply P2. exact Hin.
      * constructor; auto.
      * intros z [<-|Hz]; apply Hvis; auto.
    + destruct Hx as [Hx|Hx]; [contradiction|]. apply Hold; auto.
  - intros Hf u' v' Hu' Hopen Hv' Hp'. apply Hvis.
    apply Hvis in Hu'. destruct Hu' as [->|Hu'].
    + exfalso. apply Hopen. apply in_or_app. right. left. reflexivity.
    + right. apply (bi_closed _ _ H Hnf u' v'); auto.
      intros Hin. apply Hopen. apply in_or_app. left. exact Hin.
  - rewrite nth_upd, Hvl. assert (Hsink := bi_sink _ _ H). rewrite Hnf in Hsink.
    destruct (Nat.eqb_spec v t) as [Hvt|Hvt].
    + subst v. destruct (Nat.ltb_spec t nv); [reflexivity|lia].
    + simpl. exact Hsink.
  - rewrite Hq, length_app. simpl. lia.
Qed.

Lemma bfs_scan_inv : forall u vs st,
  binv st (u :: b_queue st) -> b_found st = false ->
  nth u (b_visited st) false = true ->
  (forall v, In v vs -> v < nv) ->
  binv (bfs_scan R nv u t vs st) (u :: b_queue (bfs_scan R nv u t vs st)) /\
  (b_found (bfs_scan R nv u t vs st) = false ->
   forall v, In v vs -> (0 < mget R u v)%Z ->
             nth v (b_visited (bfs_scan R nv u t vs st)) false = true) /\
  (forall x, nth x (b_visited st) false = true ->
             nth x (b_visited (bfs_scan R nv u t vs st)) false = true) /\
  unvisited (b_visited (bfs_scan R nv u t vs st)) + length (b_queue (bfs_scan R nv u t vs st))
    = unvisited (b_visited st) + length (b_queue st).
Proof.
  intros u. induction vs as [|v rest IH]; intros st H Hnf Hu Hr; cbn [bfs_scan].
  - split; [|split; [|split]]; auto; intros _ v [].
  - assert (Hv : v < nv) by (apply Hr; left; auto).
    assert (Hr' : forall v', In v' rest -> v' < nv) by (intros; apply Hr; right; auto).
    destruct (nth v (b_visited st) false) eqn:Ev; cbn [negb andb].
    + destruct (IH st H Hnf Hu Hr') as [I1 [I2 [I3 I4]]].
      split; [|split; [|split]]; auto.
      intros Hf v' [<-|Hin] Hp; auto.
    + destruct (Z.ltb_spec 0 (mget R u v)) as [Hpos|Hnpos].
      * destruct (binv_visit st (u :: b_queue st) u v H Hnf Hu Hv Ev Hpos) as [B1 B2].
        assert (Hq : queue_enqueue nv (b_queue st) v = b_queue st ++ [v]).
        { unfold queue_enqueue. assert (Hroom := bi_room _ _ H).
          assert (Hun := unvisited_pos (b_visited st) v
                           ltac:(rewrite (bi_vis_len _ _ H); auto) Ev).
          destruct (Nat.leb_spec nv (length (b_queue st))); [lia|reflexivity]. }
        assert (Hmono : forall x, nth x (b_visited st) false = true ->
                                  nth x (upd (b_visited st) v true) false = true).
        { intros x Hx. rewrite nth_upd.
          destruct ((v =? x) && (v <? length (b_visited st))); auto. }
        assert (Hvv : nth v (upd (b_visited st) v true) false = true).
        { apply nth_upd_same. rewrite (bi_vis_len _ _ H); auto. }
        destruct (v =? t) eqn:Evt.
        -- cbn [b_queue b_visited b_found]. split; [|split; [|split]]; auto.
           ++ rewrite Hq in *. exact B1.
           ++ discriminate.
        -- rewrite <- Hnf in B1.
           assert (B1' : binv (mkBfs (upd (b_visited st) v true)
                                 (upd (b_parent st) v (Z.of_nat u))
                                 (queue_enqueue nv (b_queue st) v) (b_found st))
                              (u :: queue_enqueue nv (b_queue st) v)).
           { rewrite Hq in *. exact B1. }
           destruct (IH _ B1' Hnf (Hmono u Hu) Hr') as [I1 [I2 [I3 I4]]].
           split; [|split; [|split]]; auto.
           ++ intros Hf v' [<-|Hin] Hp; auto.
           ++ cbn [b_visited b_queue] in I4. lia.
      * destruct (IH st H Hnf Hu Hr') as [I1 [I2 [I3 I4]]].
        split; [|split; [|split]]; auto.
        intros Hf v' [<-|Hin] Hp; auto. lia.
Qed.

Lemma bfs_loop_inv : forall fuel st,
  binv st (b_queue st) ->
  unvisited (b_visited st) + length (b_queue st) < fuel ->
  exists st', bfs_loop fuel R nv t st = Some st' /\
              binv st' (b_queue st') /\
              (b_found st' = false -> b_queue st' = []).
Proof.
  induction fuel as [|fuel IH]; intros st H Hm; [lia|].
  cbn [bfs_loop]. destruct (b_queue st) as [|u q'] eqn:Eq.
  - exists st. rewrite ?Eq in *. auto.
  - destruct (b_found st) eqn:Ef.
    + exists st. rewrite ?Eq in *. split; [reflexivity|]. split; [exact H|intros Hf; congruence].
    + set (st1 := mkBfs (b_visited st) (b_parent st) q' (b_found st)).
      assert (H1 : binv st1 (u :: b_queue st1)).
      { destruct H as [h1 h2 h3 h4 h5 h6 h7 h8]. constructor; simpl; auto.
        - intros q Hq. apply h4. rewrite Eq. right; auto.
        - rewrite Eq in h8. simpl in h8. lia. }
      assert (Hu : nth u (b_visited st1) false = true).
      { apply (bi_queue _ _ H). rewrite Eq. left; auto. }
      destruct (bfs_scan_inv u (seq 0 nv) st1 H1 Ef Hu) as [I1 [I2 [I3 I4]]].
      { intros v Hv. apply in_seq in Hv. lia. }
      replace (mkBfs (b_visited st) (b_parent st) q' false) with st1
        by (unfold st1; rewrite Ef; reflexivity).
      set (st2 := bfs_scan R nv u t (seq 0 nv) st1) in *.
      apply IH.
      * destruct I1 as [h1 h2 h3 h4 h5 h6 h7 h8]. constructor; auto.
        intros Hf a b Ha Hopen Hb Hp.
        destruct (Nat.eq_dec a u) as [->|Hau].
        -- apply I2; auto. apply in_seq. lia.
        -- apply (h6 Hf a b); auto. intros [E|Hin]; [congruence|contradiction].
      * simpl in I4. simpl in Hm. lia.
Qed.

Lemma binv_start : forall parent,
  length parent = nv -> binv (bfs_start nv s parent) [s].
Proof.
  intros parent Hp.
  assert (Hvis : forall x, nth x (upd (repeat false nv) s true) false = true <-> x = s).
  { intros x. rewrite nth_upd, repeat_length.
    destruct (Nat.eqb_spec s x) as [Hx|Hx]; destruct (Nat.ltb_spec s nv) as [Hl|Hl];
      simpl; try lia; try rewrite nth_repeat; intuition congruence. }
  constructor; unfold bfs_start; simpl.
  - rewrite upd_length, repeat_length. reflexivity.
  - rewrite upd_length. exact Hp.
  - apply Hvis. reflexivity.
  - intros q [<-|[]]. split; auto. apply Hvis. reflexivity.
  - intros x Hx. apply Hvis in Hx. subst x. exists []. repeat split.
    + constructor.
    + intros a b [].
    + constructor; [intros []|constructor].
    + intros y [<-|[]]. apply Hvis. reflexivity.
  - intros _ u v Hu Hopen. apply Hvis in Hu. subst u. exfalso. apply Hopen. left; auto.
  - destruct (nth t (upd (repeat false nv) s true) false) eqn:E; auto.
    apply Hvis in E. congruence.
  - assert (Hu := unvisited_upd (repeat false nv) s ltac:(rewrite repeat_length; auto)
                    (nth_repeat false nv s)).
    assert (Hle := unvisited_le (repeat false nv)). rewrite repeat_length in Hle. lia.
Qed.

(** What [bfs_find_path_ok] returns: a simple chain of positive residual edges
    from the sink back to the source, or a set of vertices that contains the
    source, not the sink, and that no positive residual edge leaves. *)
Lemma bfs_find_path_spec : forall parent,
  length parent = nv ->
  exists found parent',
    bfs_find_path_ok R nv s t parent = Some (found, parent') /\
    length parent' = nv /\
    (found = true ->
     exists p, pchain parent' (t :: p) /\ chain_positive R (t :: p) /\ NoDup (t :: p)) /\
    (found = false ->
     exists S : nat -> bool,
       S s = true /\ S t = false /\
       forall u v, u < nv -> v < nv -> S u = true -> S v = false -> (mget R u v <= 0)%Z).
Proof.
  intros parent Hp. unfold bfs_find_path_ok.
  assert (Hinit := binv_start parent Hp).
  destruct (bfs_loop_inv (nv + 1) (bfs_start nv s parent) Hinit) as [st [Hrun [H Hq]]].
  { assert (Hr := bi_room _ _ Hinit). lia. }
  rewrite Hrun. exists (b_found st), (b_parent st).
  split; [reflexivity|]. split; [apply (bi_par_len _ _ H)|]. split.
  - intros Hf. assert (Hsink := bi_sink _ _ H). rewrite Hf in Hsink.
    destruct (bi_chain _ _ H t Hsink) as [p [P1 [P2 [P3 P4]]]]. exists p. auto.
  - intros Hf. exists (fun x => nth x (b_visited st) false).
    split; [apply (bi_source _ _ H)|].
    split; [rewrite (bi_sink _ _ H); exact Hf|].
    intros u v Hu Hv Su Sv.
    destruct (Z.leb_spec (mget R u v) 0) as [Hle|Hgt]; auto.
    assert (nth v (b_visited st) false = true); [|congruence].
    apply (bi_closed _ _ H Hf u v); auto. rewrite (Hq Hf). intros [].
Qed.

End BfsProof.

(** *** Augmenting along a chain *)

Local Open Scope Z_scope.

Lemma rsum_push_flow : forall k M u v d x,
  mdim k M -> (u < k)%nat -> (v < k)%nat -> u <> v ->
  rsum k (push_flow_ok M u v d) x =
  rsum k M x - (if (x =? u)%nat then d else 0) + (if (x =? v)%nat then d else 0).
Proof.
  intros k M u v d x Hd Hu Hv Huv. unfold rsum.
  rewrite (zsum_ext _ (fun b => mget M x b
                                + ((if (v =? b)%nat then (if (u =? x)%nat then - d else 0) else 0)
                                   + (if (u =? b)%nat then (if (v =? x)%nat then d else 0) else 0)))).
  - rewrite !zsum_add, !zsum_single.
    destruct (Nat.ltb_spec v k); [|lia]. destruct (Nat.ltb_spec u k); [|lia].
    rewrite (Nat.eqb_sym x u), (Nat.eqb_sym x v).
    destruct (u =? x)%nat; destruct (v =? x)%nat; lia.
  - intros b _. rewrite (mget_push_flow k) by auto.
    destruct (u =? x)%nat; destruct (v =? b)%nat; destruct (v =? x)%nat;
      destruct (u =? b)%nat; simpl; lia.
Qed.

Lemma NoDup_bounded_length : forall (l : list nat) k,
  NoDup l -> (forall x, In x l -> (x < k)%nat) -> (length l <= k)%nat.
Proof.
  intros l k Hn Hr.
  assert (H : (length l <= length (seq 0%nat k))%nat).
  { apply NoDup_incl_length; auto.
    intros x Hx. apply in_seq. specialize (Hr x Hx). lia. }
  rewrite length_seq in H. exact H.
Qed.

Section Augment.

Variable nv : nat.

Variable s : nat.

Hypothesis Hs : (s < nv)%nat.

Lemma chain_edges_in : forall l a b,
  In (a, b) (chain_edges l) -> In a l /\ In b l.
Proof.
  induction l as [|v l IH]; intros a b Hin; [destruct Hin|].
  destruct l as [|u rest]; [destruct Hin|].
  cbn [chain_edges] in Hin. destruct Hin as [Hin|Hin].
  - injection Hin as <- <-. split; [right; left|left]; reflexivity.
  - destruct (IH a b Hin). split; right; auto.
Qed.

Lemma find_path_flow_from_spec : forall P M l,
  pchain nv s P l ->
  forall v p fuel pf, l = v :: p ->
    (length l <= fuel)%nat -> chain_positive M l -> 0 < pf ->
    exists d, find_path_flow_from fuel M s v P pf = Some d /\
              0 < d <= pf /\
              forall a b, In (a, b) (chain_edges l) -> d <= mget M a b.
Proof.
  intros P M l H. induction H as [|v0 u rest Hv1 Hv2 Hu Hp Hc IH];
    intros v p fuel pf El Hf Hpos Hpf; injection El as <- <-.
  - destruct fuel as [|fuel]; [simpl in Hf; lia|]. simpl. rewrite Nat.eqb_refl.
    exists pf. repeat split; try lia; intros a b [].
  - destruct fuel as [|fuel]; [simpl in Hf; lia|]. cbn [find_path_flow_from].
    destruct (Nat.eqb_spec v0 s); [contradiction|].
    rewrite Hp, Nat2Z.id.
    assert (Hpos' : chain_positive M (u :: rest)).
    { intros a b Hin. apply Hpos. right. exact Hin. }
    assert (Huv : 0 < mget M u v0) by (apply Hpos; left; reflexivity).
    destruct (IH u rest fuel
                (if mget M u v0 <? pf then mget M u v0 else pf) eq_refl) as [d [Hd [Hr He]]]; auto.
    + simpl in Hf. simpl. lia.
    + destruct (Z.ltb_spec (mget M u v0) pf); lia.
    + exists d. split; [exact Hd|]. split.
      * destruct (Z.ltb_spec (mget M u v0) pf); lia.
      * intros a b [Hin|Hin].
        -- injection Hin as <- <-. destruct (Z.ltb_spec (mget M u v0) pf); lia.
        -- apply He. exact Hin.
Qed.

Lemma update_residual_from_spec : forall P l,
  pchain nv s P l ->
  forall v p fuel M d, l = v :: p ->
    NoDup l -> (length l <= fuel)%nat -> mdim nv M ->
    exists M', update_residual_from_ok fuel M s v P d = Some M' /\
      mdim nv M' /\
      (forall a b, mget M' a b
                   = mget M a b - d * Z.of_nat (count_pair (chain_edges l) a b)
                     + d * Z.of_nat (count_pair (chain_edges l) b a)) /\
      (forall x, rsum nv M' x
                 = rsum nv M x - (if (x =? s)%nat then d else 0)
                   + (if (x =? v)%nat then d else 0)).
Proof.
  intros P l H. induction H as [|v0 u rest Hv1 Hv2 Hu Hp Hc IH];
    intros v p fuel M d El Hnd Hf Hd; injection El as <- <-.
  - destruct fuel as [|fuel]; [simpl in Hf; lia|]. simpl. rewrite Nat.eqb_refl.
    exists M. split; [reflexivity|]. split; [exact Hd|]. split.
    + intros a b. unfold count_pair. simpl. lia.
    + intros x. destruct (x =? s)%nat; lia.
  - destruct fuel as [|fuel]; [simpl in Hf; lia|]. cbn [update_residual_from_ok].
    destruct (Nat.eqb_spec v0 s); [contradiction|].
    rewrite Hp, Nat2Z.id.
    assert (Huv : u <> v0).
    { intros ->. inversion Hnd as [|? ? Hn _]; subst. apply Hn. left; auto. }
    inversion Hnd as [|? ? Hn Hnd']; subst.
    destruct (IH u rest fuel (push_flow_ok M u v0 d) d eq_refl Hnd') as [M' [E [D' [F1 F2]]]].
    + simpl in Hf. simpl. lia.
    + apply push_flow_mdim; auto.
    + exists M'. split; [exact E|]. split; [exact D'|]. split.
      * intros a b. rewrite F1, (mget_push_flow nv) by auto.
        unfold count_pair. cbn [chain_edges count_occ].
        destruct (pair_dec (u, v0) (a, b)) as [E1|E1];
          destruct (pair_dec (u, v0) (b, a)) as [E2|E2];
          destruct (Nat.eqb_spec u a); destruct (Nat.eqb_spec v0 b);
          destruct (Nat.eqb_spec v0 a); destruct (Nat.eqb_spec u b);
          simpl; try congruence; lia.
      * intros x. rewrite F2, (rsum_push_flow nv) by auto.
        destruct (x =? s)%nat; destruct (x =? u)%nat; destruct (x =? v0)%nat; lia.
Qed.

Lemma chain_edges_count : forall P l,
  pchain nv s P l -> NoDup l ->
  forall a b, (count_pair (chain_edges l) a b + count_pair (chain_edges l) b a <= 1)%nat.
Proof.
  intros P l H. induction H as [|v0 u rest Hv1 Hv2 Hu Hp Hc IH]; intros Hnd a b.
  - unfold count_pair. simpl. lia.
  - inversion Hnd as [|? ? Hn Hnd']; subst. specialize (IH Hnd' a b).
    unfold count_pair in *.
    change (chain_edges (v0 :: u :: rest)) with ((u, v0) :: chain_edges (u :: rest)).
    cbn [count_occ].
    assert (Hz : forall x y, (x = v0 \/ y = v0) ->
                   count_occ pair_dec (chain_edges (u :: rest)) (x, y) = 0%nat).
    { intros x y Hxy. apply count_occ_not_In. intros Hin.
      apply chain_edges_in in Hin. destruct Hin as [H1 H2].
      destruct Hxy as [->| ->]; contradiction. }
    destruct (pair_dec (u, v0) (a, b)) as [E1|E1];
      destruct (pair_dec (u, v0) (b, a)) as [E2|E2].
    + injection E1 as <- <-. injection E2 as E2 _. exfalso. apply Hn. left; auto.
    + injection E1 as <- <-. rewrite (Hz u v0), (Hz v0 u) by auto. lia.
    + injection E2 as <- <-. rewrite (Hz u v0), (Hz v0 u) by auto. lia.
    + lia.
Qed.

End Augment.

Local Close Scope Z_scope.

(** *** Flows and cuts *)

Local Open Scope Z_scope.

Lemma zsum2_ext : forall (f h : nat -> nat -> Z) k,
  (forall a b, (a < k)%nat -> (b < k)%nat -> f a b = h a b) ->
  zsum (fun a => zsum (fun b => f a b) k) k = zsum (fun a => zsum (fun b => h a b) k) k.
Proof. intros f h k H. apply zsum_ext. intros a Ha. apply zsum_ext. intros b Hb. auto. Qed.

Lemma skew_double_sum_zero : forall (f : nat -> nat -> Z) k,
  (forall a b, (a < k)%nat -> (b < k)%nat -> f a b + f b a = 0) ->
  zsum (fun a => zsum (fun b => f a b) k) k = 0.
Proof.
  intros f k H.
  assert (E : zsum (fun a => zsum (fun b => f a b) k) k
              = - zsum (fun a => zsum (fun b => f a b) k) k).
  { rewrite (zsum_swap f k k) at 1. rewrite <- zsum_opp.
    apply zsum_ext. intros a Ha. rewrite <- zsum_opp.
    apply zsum_ext. intros b Hb. specialize (H a b Ha Hb). lia. }
  lia.
Qed.

(** What leaves the source of a skew-symmetric, conserved [f] crosses every
    cut. *)
Lemma skew_cut_sum : forall (f : nat -> nat -> Z) nv s t S,
  (s < nv)%nat ->
  (forall a b, (a < nv)%nat -> (b < nv)%nat -> f a b + f b a = 0) ->
  (forall x, (x < nv)%nat -> x <> s -> x <> t -> zsum (f x) nv = 0) ->
  is_cut s t S ->
  zsum (f s) nv
  = zsum (fun a => zsum (fun b => if S a && negb (S b) then f a b else 0) nv) nv.
Proof.
  intros f nv s t S Hs Hskew Hcons [Ss St].
  assert (A1 : zsum (fun a => if S a then zsum (f a) nv else 0) nv = zsum (f s) nv).
  { rewrite (zsum_ext _ (fun a => if (s =? a)%nat then zsum (f s) nv else 0)).
    - rewrite zsum_single. destruct (Nat.ltb_spec s nv); [reflexivity|lia].
    - intros a Ha. destruct (Nat.eqb_spec s a) as [Hsa|Hsa].
      + subst a. rewrite Ss. reflexivity.
      + destruct (S a) eqn:Sa; auto. apply Hcons; auto; congruence. }
  assert (A2 : zsum (fun a => if S a then zsum (f a) nv else 0) nv
               = zsum (fun a => zsum (fun b => if S a && S b then f a b else 0) nv) nv
                 + zsum (fun a => zsum (fun b => if S a && negb (S b) then f a b else 0) nv) nv).
  { rewrite <- zsum_add. apply zsum_ext. intros a Ha. rewrite <- zsum_add.
    destruct (S a); simpl.
    - apply zsum_ext. intros b Hb. destruct (S b); simpl; lia.
    - rewrite zsum_all_zero; auto. }
  rewrite <- A1, A2.
  rewrite (skew_double_sum_zero (fun a b => if S a && S b then f a b else 0)); [lia|].
  intros a b Ha Hb. assert (Hp := Hskew a b Ha Hb).
  rewrite (andb_comm (S b) (S a)). destruct (S a && S b); lia.
Qed.

Lemma rsum_diff : forall k M1 M2 a,
  zsum (fun b => mget M1 a b - mget M2 a b) k = rsum k M1 a - rsum k M2 a.
Proof. intros. unfold rsum. apply zsum_sub. Qed.

Section FlowProof.

Variable C : Matrix.

Variable nv : nat.

Variable s t : nat.

Hypothesis HdimC : mdim nv C.

Hypothesis Hs : (s < nv)%nat.

Hypothesis Ht : (t < nv)%nat.

Hypothesis Hst : s <> t.

Hypothesis Cnonneg : forall a b, (a < nv)%nat -> (b < nv)%nat -> 0 <= mget C a b.

(** The residual matrix [R] of a flow of value [total]. *)
Record flow_inv (R : Matrix) (total : Z) : Prop := mk_flow_inv {
  fi_dim : mdim nv R;
  fi_nonneg : forall a b, (a < nv)%nat -> (b < nv)%nat -> 0 <= mget R a b;
  fi_pair : forall a b, (a < nv)%nat -> (b < nv)%nat ->
      mget R a b + mget R b a = mget C a b + mget C b a;
  fi_cons : forall x, (x < nv)%nat -> x <> s -> x <> t -> rsum nv R x = rsum nv C x;
  fi_total : total = rsum nv C s - rsum nv R s
}.

Lemma flow_inv_init : flow_inv C 0.
Proof. constructor; auto. lia. Qed.

(** The value of the flow is what crosses any cut. *)
Lemma flow_across_cut : forall R total S,
  flow_inv R total -> is_cut s t S ->
  total = cut_capacity C nv S - cut_capacity R nv S.
Proof.
  intros R total S H HS.
  assert (A := skew_cut_sum (fun a b => mget C a b - mget R a b) nv s t S Hs).
  cbv beta in A. rewrite rsum_diff in A. rewrite (fi_total _ _ H), A; auto.
  - unfold cut_capacity. rewrite <- zsum_sub. apply zsum_ext. intros a Ha.
    rewrite <- zsum_sub. apply zsum_ext. intros b Hb.
    destruct (S a && negb (S b)); lia.
  - intros a b Ha Hb. assert (Hp := fi_pair _ _ H a b Ha Hb). lia.
  - intros x Hx Hxs Hxt. rewrite rsum_diff. rewrite (fi_cons _ _ H x); auto. lia.
Qed.

Lemma flow_le_cut : forall R total S,
  flow_inv R total -> is_cut s t S -> total <= cut_capacity C nv S.
Proof.
  intros R total S H HS. rewrite (flow_across_cut R total S H HS).
  assert (0 <= cut_capacity R nv S); [|lia].
  unfold cut_capacity. apply zsum_nonneg. intros a Ha. apply zsum_nonneg. intros b Hb.
  destruct (S a && negb (S b)); [|lia]. apply (fi_nonneg _ _ H); auto.
Qed.

Lemma flow_bound : forall R total,
  flow_inv R total -> total <= zsum (fun v => Z.max 0 (mget C s v)) nv.
Proof.
  intros R total H.
  assert (Hc : is_cut s t (fun x => (x =? s)%nat)).
  { split; [apply Nat.eqb_refl|]. destruct (Nat.eqb_spec t s); congruence. }
  eapply Z.le_trans; [apply (flow_le_cut R total _ H Hc)|].
  unfold cut_capacity.
  rewrite (zsum_ext _ (fun a => if (s =? a)%nat
                                then zsum (fun b => if negb (b =? s)%nat then mget C s b else 0) nv
                                else 0)).
  - rewrite zsum_single. destruct (Nat.ltb_spec s nv); [|lia].
    apply zsum_le. intros b Hb. destruct (negb (b =? s)%nat); lia.
  - intros a Ha. rewrite (Nat.eqb_sym a s). destruct (Nat.eqb_spec s a) as [<-|Hsa]; simpl.
    + reflexivity.
    + apply zsum_all_zero. auto.
Qed.

(** One augmentation keeps the invariant and adds the path flow. *)
Lemma flow_inv_augment : forall R total P l p d R',
  flow_inv R total ->
  pchain nv s P l -> l = t :: p -> NoDup l ->
  0 < d -> (forall a b, In (a, b) (chain_edges l) -> d <= mget R a b) ->
  mdim nv R' ->
  (forall a b, mget R' a b
               = mget R a b - d * Z.of_nat (count_pair (chain_edges l) a b)
                 + d * Z.of_nat (count_pair (chain_edges l) b a)) ->
  (forall x, rsum nv R' x
             = rsum nv R x - (if (x =? s)%nat then d else 0)
               + (if (x =? t)%nat then d else 0)) ->
  flow_inv R' (total + d).
Proof.
  intros R total P l p d R' H Hc El Hnd Hd Hle Hdim' Hent Hrow.
  constructor; auto.
  - intros a b Ha Hb. rewrite Hent.
    assert (Hn := fi_nonneg _ _ H a b Ha Hb).
    assert (Hcnt := chain_edges_count nv s Hs P l Hc Hnd a b).
    destruct (count_pair (chain_edges l) a b) as [|[|c]] eqn:E1; [| |lia].
    + assert (0 <= d * Z.of_nat (count_pair (chain_edges l) b a)).
      { apply Z.mul_nonneg_nonneg; lia. }
      change (Z.of_nat 0) with 0. lia.
    + assert (Hin : In (a, b) (chain_edges l)).
      { apply (count_occ_In pair_dec). unfold count_pair in E1. lia. }
      specialize (Hle a b Hin).
      assert (E2 : count_pair (chain_edges l) b a = 0%nat) by lia. rewrite E2. lia.
  - intros a b Ha Hb. rewrite !Hent. assert (Hp := fi_pair _ _ H a b Ha Hb). lia.
  - intros x Hx Hxs Hxt. rewrite Hrow.
    destruct (Nat.eqb_spec x s); [contradiction|]. destruct (Nat.eqb_spec x t); [contradiction|].
    rewrite (fi_cons _ _ H x) by auto. lia.
  - rewrite Hrow. rewrite Nat.eqb_refl. destruct (Nat.eqb_spec s t); [contradiction|].
    rewrite (fi_total _ _ H). lia.
Qed.

(** The loop of [graph_max_flow_ok]. *)
Lemma max_flow_loop_spec : forall fuel R total parent,
  flow_inv R total -> length parent = nv ->
  (Z.to_nat (zsum (fun v => Z.max 0 (mget C s v)) nv - total) < fuel)%nat ->
  exists value R' S,
    max_flow_loop_ok fuel R nv s t parent total = Some value /\
    total <= value /\
    flow_inv R' value /\ is_cut s t S /\
    (forall a b, (a < nv)%nat -> (b < nv)%nat -> S a = true -> S b = false -> mget R' a b <= 0).
Proof.
  induction fuel as [|fuel IH]; intros R total parent H Hp Hm; [lia|].
  cbn [max_flow_loop_ok].
  destruct (bfs_find_path_spec R nv s t Hs Ht Hst parent Hp)
    as [found [parent' [Hb [Hp' [Hfound Hnot]]]]].
  rewrite Hb. destruct found.
  - destruct (Hfound eq_refl) as [p [Hc [Hpos Hnd]]].
    assert (Hlen : (length (t :: p) <= nv + 1)%nat).
    { assert (Hl := NoDup_bounded_length (t :: p) nv Hnd (pchain_range nv s Hs _ _ Hc)). lia. }
    destruct (find_path_flow_from_spec nv s Hs parent' R (t :: p) Hc t p (nv + 1) INT_MAX
                eq_refl Hlen Hpos) as [d [Hd [Hdr Hde]]]; [unfold INT_MAX; lia|].
    unfold find_path_flow. rewrite Hd.
    destruct (update_residual_from_spec nv s Hs parent' (t :: p) Hc t p (nv + 1) R d
                eq_refl Hnd Hlen (fi_dim _ _ H)) as [R' [Hu [Hdim' [Hent Hrow]]]].
    unfold update_residual_graph_ok. rewrite Hu.
    assert (H' : flow_inv R' (total + d)).
    { eapply flow_inv_augment; eauto. lia. }
    assert (Hbd := flow_bound R' (total + d) H').
    destruct (IH R' (total + d) parent' H' Hp') as [value [R'' [S [Hrun [Hge Hrest]]]]].
    + lia.
    + exists value, R'', S. split; [exact Hrun|]. split; [lia|]. exact Hrest.
  - destruct (Hnot eq_refl) as [S [Ss [St Hcross]]].
    exists total, R, S. split; [reflexivity|]. split; [lia|].
    split; [exact H|]. split; [split; auto|]. exact Hcross.
Qed.

(** Max-flow = min-cut for the value computed by the loop. *)
Lemma max_flow_loop_min_cut : forall parent,
  length parent = nv ->
  exists value R',
    max_flow_loop_ok (max_flow_fuel C nv s) C nv s t parent 0 = Some value /\
    0 <= value /\
    flow_inv R' value /\
    (exists S, is_cut s t S /\ cut_capacity C nv S = value /\
               forall a b, (a < nv)%nat -> (b < nv)%nat -> S a = true -> S b = false ->
                           mget R' a b = 0) /\
    (forall S, is_cut s t S -> value <= cut_capacity C nv S).
Proof.
  intros parent Hp.
  destruct (max_flow_loop_spec (max_flow_fuel C nv s) C 0 parent flow_inv_init Hp)
    as [value [R' [S [Hrun [Hge [H' [HS Hcross]]]]]]].
  { unfold max_flow_fuel. rewrite Z.sub_0_r. lia. }
  exists value, R'. split; [exact Hrun|]. split; [exact Hge|]. split; [exact H'|].
  assert (Hzero : forall a b, (a < nv)%nat -> (b < nv)%nat -> S a = true -> S b = false ->
                              mget R' a b = 0).
  { intros a b Ha Hb Sa Sb. assert (H1 := Hcross a b Ha Hb Sa Sb).
    assert (H2 := fi_nonneg _ _ H' a b Ha Hb). lia. }
  split.
  - exists S. split; [exact HS|]. split; [|exact Hzero].
    rewrite (flow_across_cut R' value S H' HS).
    assert (cut_capacity R' nv S = 0); [|lia].
    unfold cut_capacity. apply zsum_all_zero. intros a Ha. apply zsum_all_zero. intros b Hb.
    destruct (S a) eqn:Sa; destruct (S b) eqn:Sb; simpl; auto.
  - intros S' HS'. apply (flow_le_cut R' value S' H' HS').
Qed.

End FlowProof.

Local Close Scope Z_scope.

(** *** Edge-disjoint paths *)

Lemma nth_map_seq : forall (A : Type) (h : nat -> A) k a d,
  a < k -> nth a (map h (seq 0 k)) d = h a.
Proof.
  intros A h k a d Ha.
  rewrite (nth_indep _ d (h 0)) by (rewrite length_map, length_seq; auto).
  rewrite (map_nth h (seq 0 k) 0 a). rewrite seq_nth; auto.
Qed.

Lemma mk_matrix_row : forall k f a,
  a < k -> nth a (mk_matrix k f) [] = map (f a) (seq 0 k).
Proof.
  intros k f a Ha. unfold mk_matrix.
  apply (nth_map_seq _ (fun a => map (f a) (seq 0 k))). exact Ha.
Qed.

Lemma mk_matrix_mdim : forall k f, mdim k (mk_matrix k f).
Proof.
  intros k f. split.
  - unfold mk_matrix. rewrite length_map, length_seq. reflexivity.
  - intros i Hi. rewrite mk_matrix_row by auto. rewrite length_map, length_seq. reflexivity.
Qed.

Lemma mget_mk_matrix : forall k f a b,
  a < k -> b < k -> mget (mk_matrix k f) a b = f a b.
Proof.
  intros k f a b Ha Hb. unfold mget. rewrite mk_matrix_row by auto.
  apply nth_map_seq. exact Hb.
Qed.

Lemma mget_out_of_range : forall k M a b,
  mdim k M -> ~ (a < k /\ b < k) -> mget M a b = 0%Z.
Proof.
  intros k M a b [Hl Hr] H. unfold mget.
  destruct (Nat.lt_ge_cases a k) as [Ha|Ha].
  - apply nth_overflow. rewrite Hr by auto. lia.
  - rewrite (nth_overflow M) by lia. destruct b; reflexivity.
Qed.

Lemma NoDup_app_disjoint : forall (A : Type) (l1 l2 : list A),
  NoDup (l1 ++ l2) -> forall a, In a l1 -> ~ In a l2.
Proof.
  induction l1 as [|x l1 IH]; intros l2 H a Ha Hin; [destruct Ha|].
  simpl in H. inversion H as [|? ? Hx Hrest]; subst.
  destruct Ha as [->|Ha].
  - apply Hx. apply in_or_app. auto.
  - apply (IH l2 Hrest a Ha Hin).
Qed.

Lemma last_default : forall (l : list nat) d d', l <> [] -> last l d = last l d'.
Proof.
  induction l as [|a l IH]; intros d d' H; [congruence|].
  destruct l as [|b l]; [reflexivity|].
  change (last (b :: l) d = last (b :: l) d'). apply IH. discriminate.
Qed.

Lemma steps_snoc : forall l u v, steps (l ++ [u; v]) = steps (l ++ [u]) ++ [(u, v)].
Proof.
  induction l as [|x l IH]; intros u v; [reflexivity|].
  destruct l as [|y l].
  - reflexivity.
  - change (steps ((x :: y :: l) ++ [u; v])) with ((x, y) :: steps ((y :: l) ++ [u; v])).
    change (steps ((x :: y :: l) ++ [u])) with ((x, y) :: steps ((y :: l) ++ [u])).
    rewrite IH. reflexivity.
Qed.

(** Read backwards, a parent chain is a walk along its edges. *)
Lemma steps_rev_chain : forall l, steps (rev l) = rev (chain_edges l).
Proof.
  induction l as [|v l IH]; [reflexivity|].
  destruct l as [|u rest]; [reflexivity|].
  change (chain_edges (v :: u :: rest)) with ((u, v) :: chain_edges (u :: rest)).
  change (rev (v :: u :: rest)) with ((rev rest ++ [u]) ++ [v]).
  rewrite <- app_assoc. change ([u] ++ [v]) with [u; v].
  rewrite steps_snoc. change (rev rest ++ [u]) with (rev (u :: rest)).
  rewrite IH. reflexivity.
Qed.

Lemma pchain_rev_source : forall nv s P l,
  pchain nv s P l -> exists l', rev l = s :: l'.
Proof.
  intros nv s P l H. induction H as [|v u rest Hv1 Hv2 Hu Hp Hc [l' IH]].
  - exists []. reflexivity.
  - exists (l' ++ [v]). change (rev (v :: u :: rest)) with (rev (u :: rest) ++ [v]).
    rewrite IH. reflexivity.
Qed.

(** A walk that starts inside [S] and ends outside takes a step out. *)
Lemma path_crosses : forall (S : nat -> bool) p a0,
  hd_error p = Some a0 -> S a0 = true -> S (last p a0) = false ->
  exists a b, In (a, b) (steps p) /\ S a = true /\ S b = false.
Proof.
  induction p as [|x q IH]; intros a0 Hh Ha Hl; [discriminate|].
  injection Hh as ->. destruct q as [|y q'].
  - simpl in Hl. congruence.
  - destruct (S y) eqn:Sy.
    + destruct (IH y eq_refl Sy) as [a [b [Hin Hab]]].
      * rewrite (last_default (y :: q') y a0) by discriminate. exact Hl.
      * exists a, b. split; [right; exact Hin|exact Hab].
    + exists a0, y. split; [left; reflexivity|auto].
Qed.

(** Disjoint paths leave [S] over different edges. *)
Lemma disjoint_crossings : forall (S : nat -> bool) s t ps,
  is_cut s t S ->
  (forall p, In p ps -> hd_error p = Some s /\ last p s = t) ->
  NoDup (flat_map (fun p => map undirected (steps p)) ps) ->
  exists L, length L = length ps /\ NoDup L /\
    forall a b, In (a, b) L ->
      S a = true /\ S b = false /\ exists p, In p ps /\ In (a, b) (steps p).
Proof.
  intros S s t ps [Ss St]. induction ps as [|p ps IH]; intros Hp Hnd.
  - exists []. split; [reflexivity|]. split; [constructor|]. intros a b [].
  - cbn [flat_map] in Hnd.
    destruct IH as [L [Hlen [HL Hin]]].
    { intros q Hq. apply Hp. right; exact Hq. }
    { apply (NoDup_app_remove_l _ _ Hnd). }
    destruct (Hp p (or_introl eq_refl)) as [Hh Hl].
    destruct (path_crosses S p s Hh Ss) as [a [b [Hab [Sa Sb]]]]; [rewrite Hl; exact St|].
    exists ((a, b) :: L). split; [simpl; congruence|]. split.
    + constructor; [|exact HL]. intros Hc.
      destruct (Hin a b Hc) as [_ [_ [q [Hq Hs]]]].
      apply (NoDup_app_disjoint _ _ _ Hnd (undirected (a, b))).
      * apply in_map. exact Hab.
      * apply in_flat_map. exists q. split; [exact Hq|]. apply in_map. exact Hs.
    + intros a' b' [He|Hi].
      * injection He as <- <-. split; [exact Sa|]. split; [exact Sb|].
        exists p. split; [left; reflexivity|exact Hab].
      * destruct (Hin a' b' Hi) as [H1 [H2 [q [Hq Hs]]]].
        split; [exact H1|]. split; [exact H2|]. exists q. split; [right; exact Hq|exact Hs].
Qed.

Local Open Scope Z_scope.

Lemma length_double_sum : forall (L : list (nat * nat)) k,
  (forall a b, In (a, b) L -> (a < k)%nat /\ (b < k)%nat) ->
  Z.of_nat (length L)
  = zsum (fun a => zsum (fun b => Z.of_nat (count_pair L a b)) k) k.
Proof.
  induction L as [|[x y] L IH]; intros k H.
  - symmetry. apply zsum_all_zero. intros a Ha. apply zsum_all_zero. intros b Hb. reflexivity.
  - destruct (H x y (or_introl eq_refl)) as [Hx Hy].
    rewrite (zsum2_ext _ (fun a b => (if (x =? a)%nat then if (y =? b)%nat then 1 else 0 else 0)
                                     + Z.of_nat (count_pair L a b)) k).
    + rewrite (zsum_ext _ (fun a => (if (x =? a)%nat then 1 else 0)
                                    + zsum (fun b => Z.of_nat (count_pair L a b)) k)).
      * rewrite zsum_add, zsum_single. rewrite <- IH by (intros a b Hin; apply H; right; exact Hin).
        destruct (Nat.ltb_spec x k); [|lia]. cbn [length]. lia.
      * intros a Ha. rewrite zsum_add. f_equal.
        destruct (x =? a)%nat.
        -- rewrite zsum_single. destruct (Nat.ltb_spec y k); [reflexivity|lia].
        -- apply zsum_all_zero. auto.
    + intros a b Ha Hb. unfold count_pair.
      destruct (Nat.eqb_spec x a) as [Hxa|Hxa]; [destruct (Nat.eqb_spec y b) as [Hyb|Hyb]|].
      * subst. rewrite count_occ_cons_eq by reflexivity. lia.
      * rewrite count_occ_cons_neq by congruence. lia.
      * rewrite count_occ_cons_neq by congruence. lia.
Qed.

(** Distinct pairs, each worth at least one, are worth at least their number. *)
Lemma length_le_double_sum : forall (L : list (nat * nat)) k (f : nat -> nat -> Z),
  NoDup L ->
  (forall a b, In (a, b) L -> (a < k)%nat /\ (b < k)%nat /\ 1 <= f a b) ->
  (forall a b, (a < k)%nat -> (b < k)%nat -> 0 <= f a b) ->
  Z.of_nat (length L) <= zsum (fun a => zsum (fun b => f a b) k) k.
Proof.
  intros L k f Hnd Hin Hf.
  rewrite (length_double_sum L k) by (intros a b H; destruct (Hin a b H) as [? [? ?]]; auto).
  apply zsum_le. intros a Ha. apply zsum_le. intros b Hb.
  assert (Hc := proj1 (NoDup_count_occ pair_dec L) Hnd (a, b)).
  fold (count_pair L a b) in Hc.
  destruct (count_pair L a b) as [|c] eqn:E.
  - apply Hf; auto.
  - assert (Hi : In (a, b) L).
    { apply (count_occ_In pair_dec). unfold count_pair in E. lia. }
    destruct (Hin a b Hi) as [_ [_ H1]]. lia.
Qed.

Local Close Scope Z_scope.

Lemma undirected_eq : forall a b c d,
  undirected (a, b) = undirected (c, d) -> (a, b) = (c, d) \/ (a, b) = (d, c).
Proof.
  intros a b c d H. unfold undirected in H. cbn [fst snd] in H. injection H as H1 H2.
  assert (E : a = c /\ b = d \/ a = d /\ b = c) by lia.
  destruct E as [[-> ->]|[-> ->]]; auto.
Qed.

Lemma count_pair_in : forall L a b, In (a, b) L <-> 1 <= count_pair L a b.
Proof. intros L a b. unfold count_pair. apply (count_occ_In pair_dec). Qed.

Lemma zsum_nonpos : forall f k, (forall i, i < k -> (f i <= 0)%Z) -> (zsum f k <= 0)%Z.
Proof.
  intros f k H. rewrite <- (zsum_zero k). apply zsum_le. exact H.
Qed.

(** *** Decomposition of a unit flow into edge-disjoint paths *)

Section Decompose.

Variable nv : nat.

Variable s t : nat.

Hypothesis Hs : s < nv.

Hypothesis Ht : t < nv.

Hypothesis Hst : s <> t.

Local Open Scope Z_scope.

(** A walk from [s] to [t] along entries of [F] that carry flow. *)
Definition flow_path (F : Matrix) (p : list nat) : Prop :=
  hd_error p = Some s /\ last p s = t /\
  forall a b, In (a, b) (steps p) -> 0 < mget F a b.

Lemma flow_decompose : forall k F,
  mdim nv F ->
  (forall a b, (a < nv)%nat -> (b < nv)%nat -> mget F a b + mget F b a = 0) ->
  (forall a b, (a < nv)%nat -> (b < nv)%nat -> mget F a b <= 1) ->
  (forall x, (x < nv)%nat -> x <> s -> x <> t -> rsum nv F x = 0) ->
  rsum nv F s = Z.of_nat k ->
  exists ps, length ps = k /\ Forall (flow_path F) ps /\
             NoDup (flat_map (fun p => map undirected (steps p)) ps).
Proof.
  induction k as [|k IH]; intros F Hdim Hskew Hle Hcons Hout.
  { exists []. split; [reflexivity|]. split; constructor. }
  destruct (bfs_find_path_spec F nv s t Hs Ht Hst (repeat 0 nv) (repeat_length 0 nv))
    as [found [parent' [Hbfs [Hp' [Hfound Hnot]]]]].
  destruct found.
  - destruct (Hfound eq_refl) as [p0 [Hc [Hpos Hnd]]].
    set (l := t :: p0) in *.
    destruct (update_residual_from_spec nv s Hs parent' l Hc t p0 (length l) F 1
                eq_refl Hnd (le_n _) Hdim) as [F' [_ [Hdim' [Hent Hrow]]]].
    assert (Hcnt := chain_edges_count nv s Hs parent' l Hc Hnd).
    assert (Hrange : forall a b, In (a, b) (chain_edges l) -> (a < nv)%nat /\ (b < nv)%nat).
    { intros a b Hin. destruct (chain_edges_in l a b Hin) as [H1 H2].
      split; apply (pchain_range nv s Hs parent' l Hc); auto. }
    assert (Hback : forall a b, (1 <= count_pair (chain_edges l) b a)%nat ->
                                mget F a b <= -1 /\ (a < nv)%nat /\ (b < nv)%nat).
    { intros a b Hc1. apply count_pair_in in Hc1.
      destruct (Hrange b a Hc1) as [Hb1 Ha1].
      assert (H1 := Hpos b a Hc1). assert (H2 := Hskew a b Ha1 Hb1). split; [lia|auto]. }
    assert (G : forall a b, 0 < mget F' a b ->
                0 < mget F a b /\ count_pair (chain_edges l) a b = 0%nat
                /\ count_pair (chain_edges l) b a = 0%nat).
    { intros a b Hab. rewrite Hent in Hab. assert (Hc1 := Hcnt a b).
      destruct (count_pair (chain_edges l) b a) as [|c] eqn:E2.
      - destruct (count_pair (chain_edges l) a b) as [|c] eqn:E1.
        + split; [lia|auto].
        + assert (Hin : In (a, b) (chain_edges l)) by (apply count_pair_in; lia).
          destruct (Hrange a b Hin) as [Ha1 Hb1].
          assert (H1 := Hle a b Ha1 Hb1). lia.
      - destruct (Hback a b) as [H1 _]; [lia|]. lia. }
    destruct (IH F' Hdim') as [ps [Hlen [Hfp Hnd']]].
    + intros a b Ha Hb. rewrite !Hent. specialize (Hskew a b Ha Hb). lia.
    + intros a b Ha Hb. rewrite Hent. assert (Hc1 := Hcnt a b).
      destruct (count_pair (chain_edges l) b a) as [|c] eqn:E2.
      * specialize (Hle a b Ha Hb). lia.
      * destruct (Hback a b) as [H1 _]; [lia|]. lia.
    + intros x Hx Hxs Hxt. rewrite Hrow.
      destruct (Nat.eqb_spec x s); [contradiction|]. destruct (Nat.eqb_spec x t); [contradiction|].
      rewrite (Hcons x) by auto. lia.
    + rewrite Hrow, Nat.eqb_refl. destruct (Nat.eqb_spec s t); [contradiction|]. lia.
    + exists (rev l :: ps). split; [simpl; congruence|]. split.
      * constructor.
        -- split; [|split].
           ++ destruct (pchain_rev_source nv s parent' l Hc) as [l' El]. rewrite El. reflexivity.
           ++ unfold l. change (rev (t :: p0)) with (rev p0 ++ [t]). apply last_last.
           ++ intros a b Hin. rewrite steps_rev_chain in Hin. apply in_rev in Hin.
              apply Hpos. exact Hin.
        -- apply (Forall_impl (flow_path F)) with (2 := Hfp).
           intros p [H1 [H2 H3]]. split; [exact H1|]. split; [exact H2|].
           intros a b Hin. apply (G a b). apply H3. exact Hin.
      * cbn [flat_map]. apply NoDup_app.
        -- rewrite steps_rev_chain, map_rev. apply NoDup_rev.
           apply Finite.Injective_map_NoDup_in.
           ++ intros [a b] [a' b'] H1 H2 He.
              destruct (undirected_eq a b a' b' He) as [E|E]; [exact E|].
              injection E as -> ->. apply count_pair_in in H1, H2.
              assert (Hc1 := Hcnt a' b'). lia.
           ++ apply (NoDup_count_occ pair_dec). intros [a b].
              fold (count_pair (chain_edges l) a b). assert (Hc1 := Hcnt a b). lia.
        -- exact Hnd'.
        -- intros x Hx Hx'. apply in_map_iff in Hx. destruct Hx as [[a b] [Ex Hin]].
           rewrite steps_rev_chain in Hin. apply in_rev in Hin. apply count_pair_in in Hin.
           apply in_flat_map in Hx'. destruct Hx' as [q [Hq Hx']].
           apply in_map_iff in Hx'. destruct Hx' as [[a' b'] [Ex' Hin']].
           rewrite Forall_forall in Hfp. destruct (Hfp q Hq) as [_ [_ H3]].
           destruct (G a' b' (H3 a' b' Hin')) as [_ [G1 G2]].
           rewrite <- Ex' in Ex.
           destruct (undirected_eq a b a' b' Ex) as [E|E]; injection E as -> ->; lia.
  - exfalso. destruct (Hnot eq_refl) as [S [Ss [St Hcross]]].
    assert (A := skew_cut_sum (mget F) nv s t S Hs Hskew Hcons (conj Ss St)).
    change (zsum (mget F s) nv) with (rsum nv F s) in A. rewrite Hout in A.
    assert (B : zsum (fun a => zsum (fun b => if S a && negb (S b) then mget F a b else 0) nv) nv
                <= 0).
    { apply zsum_nonpos. intros a Ha. apply zsum_nonpos. intros b Hb.
      destruct (S a) eqn:Sa; destruct (S b) eqn:Sb; simpl; try lia.
      apply Hcross; auto. }
    lia.
Qed.

End Decompose.

(** *** [graph_max_flow_ok] on a graph *)

Section MaxFlowOnGraph.

Variable g : Graph.

Hypothesis Hwf : graph_wf g.

Local Open Scope Z_scope.

Lemma capacity_entry : forall u v, (u < n g)%nat -> (v < n g)%nat ->
  mget (build_capacity_matrix g) u v
  = if (u =? v)%nat then 0
    else graph_get_edge_weight (Some g) (Z.of_nat u) (Z.of_nat v).
Proof.
  intros u v Hu Hv. rewrite (proj2 (build_capacity_matrix_spec g Hwf) u v Hu Hv).
  destruct (u =? v)%nat; [reflexivity|].
  unfold graph_get_edge_weight.
  assert (Bu : in_bounds (Some g) (Z.of_nat u) = true) by (apply in_bounds_true; lia).
  assert (Bv : in_bounds (Some g) (Z.of_nat v) = true) by (apply in_bounds_true; lia).
  rewrite Bu, Bv. cbn [negb orb]. rewrite !Nat2Z.id. reflexivity.
Qed.

Lemma capacity_nonneg : weights_nonneg g ->
  forall a b, (a < n g)%nat -> (b < n g)%nat -> 0 <= mget (build_capacity_matrix g) a b.
Proof.
  intros Hw a b Ha Hb. rewrite (proj2 (build_capacity_matrix_spec g Hwf) a b Ha Hb).
  destruct (a =? b)%nat; [lia|].
  destruct (count_to (head g a) b) as [|c] eqn:E.
  - rewrite first_weight_absent by exact E. lia.
  - destruct (first_weight_in (head g a) b) as [e [Hin [_ He]]]; [lia|].
    rewrite <- He. apply (Hw a e Hin).
Qed.

Lemma capacity_adjacent : forall a b, (a < n g)%nat -> (b < n g)%nat ->
  0 < mget (build_capacity_matrix g) a b -> adjacent g a b.
Proof.
  intros a b Ha Hb H. rewrite (proj2 (build_capacity_matrix_spec g Hwf) a b Ha Hb) in H.
  destruct (a =? b)%nat; [lia|].
  apply adjacent_count. unfold count_neighbor.
  destruct (count_to (head g a) b) as [|c] eqn:E; [|lia].
  rewrite first_weight_absent in H by exact E. lia.
Qed.

Lemma capacity_unit : unit_weights g ->
  forall a b, a <> b -> adjacent g a b -> mget (build_capacity_matrix g) a b = 1.
Proof.
  intros Hw a b Hab Hadj. destruct (adjacent_range g a b Hwf Hadj) as [Ha Hb].
  rewrite (proj2 (build_capacity_matrix_spec g Hwf) a b Ha Hb).
  destruct (Nat.eqb_spec a b) as [E|_]; [contradiction|].
  apply adjacent_count in Hadj. unfold count_neighbor in Hadj.
  destruct (first_weight_in (head g a) b Hadj) as [e [Hin [_ He]]].
  rewrite <- He. apply (Hw a e Hin).
Qed.

Lemma capacity_le_1 : unit_weights g ->
  forall a b, (a < n g)%nat -> (b < n g)%nat -> mget (build_capacity_matrix g) a b <= 1.
Proof.
  intros Hw a b Ha Hb. rewrite (proj2 (build_capacity_matrix_spec g Hwf) a b Ha Hb).
  destruct (a =? b)%nat; [lia|].
  destruct (count_to (head g a) b) as [|c] eqn:E.
  - rewrite first_weight_absent by exact E. lia.
  - destruct (first_weight_in (head g a) b) as [e [Hin [_ He]]]; [lia|].
    rewrite <- He. rewrite (Hw a e Hin). lia.
Qed.

Lemma unit_weights_nonneg : unit_weights g -> weights_nonneg g.
Proof. intros Hw u e Hin. rewrite (Hw u e Hin). lia. Qed.

Variable s t : nat.

Hypothesis Hs : (s < n g)%nat.

Hypothesis Ht : (t < n g)%nat.

Hypothesis Hst : s <> t.

Lemma graph_max_flow_run :
  graph_max_flow_ok g (Z.of_nat s) (Z.of_nat t)
  = match max_flow_loop_ok (max_flow_fuel (build_capacity_matrix g) (n g) s)
            (build_capacity_matrix g) (n g) s t (repeat 0 (n g)) 0 with
    | None => None
    | Some v => Some (Some v)
    end.
Proof.
  unfold graph_max_flow_ok.
  assert (E : (Z.of_nat s <? 0) || (Z.of_nat t <? 0) || (Z.of_nat s >=? Z.of_nat (n g))
              || (Z.of_nat t >=? Z.of_nat (n g)) || (Z.of_nat s =? Z.of_nat t) = false).
  { rewrite !orb_false_iff. repeat split.
    - apply Z.ltb_ge. lia.
    - apply Z.ltb_ge. lia.
    - rewrite Z.geb_leb. apply Z.leb_gt. lia.
    - rewrite Z.geb_leb. apply Z.leb_gt. lia.
    - apply Z.eqb_neq. lia. }
  rewrite E, !Nat2Z.id. reflexivity.
Qed.

(** A flow of unit capacities splits into as many edge-disjoint paths. *)
Lemma unit_flow_paths : forall R value,
  unit_weights g ->
  flow_inv (build_capacity_matrix g) (n g) s t R value -> 0 <= value ->
  exists ps, Z.of_nat (length ps) = value /\ edge_disjoint_paths g s t ps.
Proof.
  intros R value Hw H Hge.
  set (C := build_capacity_matrix g) in *.
  set (F := mk_matrix (n g) (fun a b => mget C a b - mget R a b)).
  assert (HF : forall a b, (a < n g)%nat -> (b < n g)%nat ->
                           mget F a b = mget C a b - mget R a b).
  { intros a b Ha Hb. unfold F. rewrite mget_mk_matrix by auto. reflexivity. }
  assert (Hrs : forall x, (x < n g)%nat -> rsum (n g) F x = rsum (n g) C x - rsum (n g) R x).
  { intros x Hx. rewrite <- rsum_diff. unfold rsum. apply zsum_ext. intros b Hb.
    apply HF; auto. }
  destruct (flow_decompose (n g) s t Hs Ht Hst (Z.to_nat value) F) as [ps [Hlen [Hfp Hnd]]].
  - apply mk_matrix_mdim.
  - intros a b Ha Hb. rewrite !HF by auto.
    assert (Hp := fi_pair _ _ _ _ _ _ H a b Ha Hb). lia.
  - intros a b Ha Hb. rewrite HF by auto.
    assert (H1 := fi_nonneg _ _ _ _ _ _ H a b Ha Hb).
    assert (H2 := capacity_le_1 Hw a b Ha Hb). fold C in H2. lia.
  - intros x Hx Hxs Hxt. rewrite Hrs by auto.
    rewrite (fi_cons _ _ _ _ _ _ H x) by auto. lia.
  - rewrite Hrs by auto. rewrite <- (fi_total _ _ _ _ _ _ H). lia.
  - exists ps. split; [lia|]. split; [|exact Hnd].
    apply (Forall_impl _) with (2 := Hfp).
    intros p [H1 [H2 H3]]. split; [exact H1|]. split; [exact H2|].
    intros a b Hin. assert (Hpos := H3 a b Hin).
    assert (Hab : (a < n g)%nat /\ (b < n g)%nat).
    { destruct (Nat.lt_ge_cases a (n g)) as [Ha|Ha];
        [destruct (Nat.lt_ge_cases b (n g)) as [Hb|Hb]; [auto|]|];
        rewrite (mget_out_of_range (n g) F a b (mk_matrix_mdim _ _)) in Hpos by lia; lia. }
    destruct Hab as [Ha Hb]. rewrite HF in Hpos by auto.
    assert (H4 := fi_nonneg _ _ _ _ _ _ H a b Ha Hb).
    apply capacity_adjacent; auto. fold C. lia.
Qed.

(** Edge-disjoint paths are no more than the capacity of any cut. *)
Lemma disjoint_paths_le_cut : forall S ps,
  unit_weights g -> is_cut s t S -> edge_disjoint_paths g s t ps ->
  Z.of_nat (length ps) <= cut_capacity (build_capacity_matrix g) (n g) S.
Proof.
  intros S ps Hw HS [Hp Hnd]. rewrite Forall_forall in Hp.
  destruct (disjoint_crossings S s t ps HS) as [L [Hlen [HL Hin]]]; [|exact Hnd|].
  { intros p Hin. destruct (Hp p Hin) as [H1 [H2 _]]. auto. }
  rewrite <- Hlen. unfold cut_capacity. apply length_le_double_sum; [exact HL| |].
  - intros a b Hab. destruct (Hin a b Hab) as [Sa [Sb [p [Hpin Hst']]]].
    destruct (Hp p Hpin) as [_ [_ Hadj]]. specialize (Hadj a b Hst').
    destruct (adjacent_range g a b Hwf Hadj) as [Ha Hb].
    split; [exact Ha|]. split; [exact Hb|]. rewrite Sa, Sb. cbn [negb andb].
    rewrite (capacity_unit Hw a b); [lia| |exact Hadj]. intros ->. congruence.
  - intros a b Ha Hb. destruct (S a && negb (S b)); [|lia].
    apply capacity_nonneg; auto. apply unit_weights_nonneg. exact Hw.
Qed.

End MaxFlowOnGraph.

(** In exact arithmetic and without allocation failure: on a graph whose
    weights are all nonnegative the value is nonnegative and is the minimum
    capacity of the cuts between [s] and [t] in the capacity matrix; when
    every weight is 1 it is the largest number of edge-disjoint paths. *)
Lemma max_flow_ok_is_min_cut : forall g (s t : Z),
  graph_wf g -> weights_nonneg g ->
  (0 <= s < Z.of_nat (n g))%Z -> (0 <= t < Z.of_nat (n g))%Z -> s <> t ->
  exists value,
    graph_max_flow_ok g s t = Some (Some value) /\
    (0 <= value)%Z /\
    (forall u v, u < n g -> v < n g ->
       mget (build_capacity_matrix g) u v
       = if u =? v then 0%Z
         else graph_get_edge_weight (Some g) (Z.of_nat u) (Z.of_nat v)) /\
    (exists S, is_cut (Z.to_nat s) (Z.to_nat t) S /\
               cut_capacity (build_capacity_matrix g) (n g) S = value) /\
    (forall S, is_cut (Z.to_nat s) (Z.to_nat t) S ->
               (value <= cut_capacity (build_capacity_matrix g) (n g) S)%Z) /\
    (unit_weights g ->
       (exists ps, Z.of_nat (length ps) = value /\
                   edge_disjoint_paths g (Z.to_nat s) (Z.to_nat t) ps) /\
       (forall ps, edge_disjoint_paths g (Z.to_nat s) (Z.to_nat t) ps ->
                   (Z.of_nat (length ps) <= value)%Z)).
Proof.
  intros g s t Hwf Hw Hs Ht Hst.
  assert (Hs' : Z.to_nat s < n g) by lia.
  assert (Ht' : Z.to_nat t < n g) by lia.
  assert (Hst' : Z.to_nat s <> Z.to_nat t) by lia.
  destruct (max_flow_loop_min_cut (build_capacity_matrix g) (n g) (Z.to_nat s) (Z.to_nat t)
              (proj1 (build_capacity_matrix_spec g Hwf)) Hs' Ht' Hst'
              (capacity_nonneg g Hwf Hw) (repeat 0%Z (n g)) (repeat_length _ _))
    as [value [R' [Hrun [Hge [Hinv [[S [HS [Hcap Hzero]]] Hmin]]]]]].
  exists value. split.
  { rewrite <- (Z2Nat.id s), <- (Z2Nat.id t) by lia.
    rewrite (graph_max_flow_run g (Z.to_nat s) (Z.to_nat t) Hs' Ht' Hst').
    rewrite Hrun. reflexivity. }
  split; [exact Hge|]. split; [apply (capacity_entry g Hwf)|].
  split; [exists S; auto|]. split; [exact Hmin|].
  intros Hu. split.
  - apply (unit_flow_paths g Hwf (Z.to_nat s) (Z.to_nat t) Hs' Ht' Hst' R' value Hu Hinv Hge).
  - intros ps Hps. rewrite <- Hcap.
    apply (disjoint_paths_le_cut g Hwf (Z.to_nat s) (Z.to_nat t) Hs' Ht' Hst' S ps Hu HS Hps).
Qed.

Lemma g_square_unit_weights : unit_weights g_square.
Proof.
  intros u e H. unfold head in H.
  do 4 (destruct u as [|u]; [cbv in H; intuition (subst; reflexivity)|]).
  cbv in H. destruct u; destruct H.
Qed.

Example max_flow_neg_cut :
  cut_capacity (build_capacity_matrix g_neg) (n g_neg) (fun x => x =? 0) = (-5)%Z.
Proof. reflexivity. Qed.

Example square_disjoint_paths : edge_disjoint_paths g_square 0 2 [[0; 1; 2]; [0; 3; 2]].
Proof.
  split.
  - repeat constructor; intros a b H; cbv in H;
      intuition (match goal with E : (_, _) = (_, _) |- _ => injection E as <- <- end;
                 cbv; auto).
  - cbv. repeat constructor; cbv; intuition discriminate.
Qed.

(** ** Minimum spanning tree ([OS_project/part7/mst.c]) *)

(** *** Prim's algorithm *)

Example mst_weighted_triangle :
  graph_mst_prim (Some g_weighted_triangle)
  = Some (Some (mkMSTResult [mkMSTEdge 0 1 1; mkMSTEdge 1 2 2] 2 3 true)).
Proof. reflexivity. Qed.

Example mst_flow_graph : graph_mst_weight (Some g_flow) = Some (Some 12%Z).
Proof. reflexivity. Qed.

Example mst_negative_triangle :
  graph_mst_prim (Some g_negative_triangle)
  = Some (Some (mkMSTResult [mkMSTEdge 0 1 1; mkMSTEdge 1 2 1] 2 2 true)).
Proof. reflexivity. Qed.

Example mst_disconnected :
  graph_mst_prim (Some g_two) = Some (Some (mkMSTResult [] 0 0 false)).
Proof. reflexivity. Qed.

(** *** The heap *)

Lemma heap_parent_child : forall i, 0 < i ->
  2 * ((i - 1) / 2) + 1 = i \/ 2 * ((i - 1) / 2) + 2 = i.
Proof.
  intros i Hi. assert (H1 := Nat.div_mod_eq (i - 1) 2).
  assert (H2 := Nat.mod_upper_bound (i - 1) 2). lia.
Qed.

Lemma heap_child_parent : forall i c, c = 2 * i + 1 \/ c = 2 * i + 2 -> (c - 1) / 2 = i.
Proof.
  intros i c H. assert (Hc : 0 < c) by lia.
  destruct (heap_parent_child c Hc); lia.
Qed.

Lemma pq_get_swap : forall data i j k,
  i < length data -> j < length data ->
  pq_get (pq_swap data i j) k
  = if k =? j then pq_get data i else if k =? i then pq_get data j else pq_get data k.
Proof.
  intros data i j k Hi Hj. unfold pq_swap, pq_get. rewrite !nth_upd, upd_length.
  destruct (Nat.eqb_spec j k) as [E1|E1]; destruct (Nat.eqb_spec k j) as [E2|E2];
    try congruence; cbn [andb].
  - destruct (Nat.ltb_spec j (length data)); [reflexivity|lia].
  - destruct (Nat.eqb_spec i k) as [E3|E3]; destruct (Nat.eqb_spec k i) as [E4|E4];
      try congruence; cbn [andb]; [|reflexivity].
    destruct (Nat.ltb_spec i (length data)); [reflexivity|lia].
Qed.

Lemma pq_swap_length : forall data i j, length (pq_swap data i j) = length data.
Proof. intros. unfold pq_swap. rewrite !upd_length. reflexivity. Qed.

Lemma pq_live_swap : forall data size i j e,
  size <= length data -> i < size -> j < size ->
  (pq_live (pq_swap data i j) size e <-> pq_live data size e).
Proof.
  intros data size i j e Hs Hi Hj.
  assert (Hg := fun k => pq_get_swap data i j k (Nat.lt_le_trans _ _ _ Hi Hs)
                           (Nat.lt_le_trans _ _ _ Hj Hs)).
  split; intros [k [Hk He]].
  - rewrite Hg in He. destruct (Nat.eqb_spec k j) as [E1|E1].
    + exists i. auto.
    + destruct (Nat.eqb_spec k i) as [E2|E2]; [exists j|exists k]; auto.
  - destruct (Nat.eq_dec k i) as [E1|E1]; [|destruct (Nat.eq_dec k j) as [E2|E2]].
    + subst k. exists j. split; [exact Hj|]. rewrite Hg, Nat.eqb_refl. exact He.
    + subst k. exists i. split; [exact Hi|]. rewrite Hg.
      destruct (Nat.eqb_spec i j) as [E3|E3]; [congruence|].
      rewrite Nat.eqb_refl. exact He.
    + exists k. split; [exact Hk|]. rewrite Hg.
      destruct (Nat.eqb_spec k j); [contradiction|].
      destruct (Nat.eqb_spec k i); [contradiction|]. exact He.
Qed.

(** The root of a heap is a lightest entry. *)
Lemma heap_root_min : forall data size, heap_ok data size ->
  forall i, i < size -> (pq_weight (pq_get data 0) <= pq_weight (pq_get data i))%Z.
Proof.
  intros data size H i. induction i as [i IH] using lt_wf_ind. intros Hi.
  destruct (Nat.eq_dec i 0) as [->|Hne]; [lia|].
  assert (Hp := heap_parent_child i ltac:(lia)).
  assert (H1 := H i ltac:(lia)).
  assert (H2 := IH ((i - 1) / 2) ltac:(lia) ltac:(lia)). lia.
Qed.

Lemma pq_heapify_up_spec : forall fuel data index size,
  index < size -> size <= length data -> index < fuel ->
  (forall i, 0 < i < size -> i <> index ->
     (pq_weight (pq_get data ((i - 1) / 2)) <= pq_weight (pq_get data i))%Z) ->
  (forall c, 0 < index -> 0 < c < size -> (c - 1) / 2 = index ->
     (pq_weight (pq_get data ((index - 1) / 2)) <= pq_weight (pq_get data c))%Z) ->
  exists data', pq_heapify_up fuel data index = Some data' /\
    length data' = length data /\ heap_ok data' size /\
    forall e, pq_live data' size e <-> pq_live data size e.
Proof.
  induction fuel as [|fuel IH]; intros data index size Hi Hs Hf H1 H2; [lia|].
  cbn [pq_heapify_up]. destruct (Nat.ltb_spec 0 index) as [Hpos|Hz].
  - assert (Hp := heap_parent_child index Hpos).
    set (p := (index - 1) / 2) in *.
    destruct (Z.geb_spec (pq_weight (pq_get data index)) (pq_weight (pq_get data p)))
      as [Hge|Hlt].
    + exists data. split; [reflexivity|]. split; [reflexivity|]. split; [|tauto].
      intros i Hr. destruct (Nat.eq_dec i index) as [->|Hne]; [fold p; lia|].
      apply H1; auto.
    + assert (Hg := fun k => pq_get_swap data index p k ltac:(lia) ltac:(lia)).
      destruct (IH (pq_swap data index p) p size) as [d' [Hrun [Hlen [Hok Hlive]]]];
        try lia.
      * rewrite pq_swap_length. exact Hs.
      * intros i Hr Hip. assert (Hpi := heap_parent_child i ltac:(lia)).
        rewrite !Hg. destruct (Nat.eqb_spec i p) as [E|_]; [contradiction|].
        destruct (Nat.eqb_spec i index) as [->|Hne].
        -- fold p. rewrite Nat.eqb_refl. lia.
        -- destruct (Nat.eqb_spec ((i - 1) / 2) p) as [E1|E1].
           ++ assert (H3 := H1 i Hr Hne). rewrite E1 in H3. lia.
           ++ destruct (Nat.eqb_spec ((i - 1) / 2) index) as [E2|E2].
              ** apply (H2 i Hpos Hr E2).
              ** apply H1; auto.
      * intros c Hp0 Hc Hcp. assert (Hpp := heap_parent_child p Hp0).
        assert (Hpc := heap_parent_child c ltac:(lia)).
        rewrite !Hg.
        destruct (Nat.eqb_spec ((p - 1) / 2) p) as [E|_]; [lia|].
        destruct (Nat.eqb_spec ((p - 1) / 2) index) as [E|_]; [lia|].
        destruct (Nat.eqb_spec c p) as [E|_]; [lia|].
        assert (H3 := H1 p ltac:(lia) ltac:(lia)).
        destruct (Nat.eqb_spec c index) as [->|Hne]; [exact H3|].
        assert (H4 := H1 c Hc Hne). rewrite Hcp in H4. lia.
      * exists d'. split; [exact Hrun|]. split; [rewrite Hlen; apply pq_swap_length|].
        split; [exact Hok|]. intros e. rewrite Hlive. apply pq_live_swap; lia.
  - exists data. split; [reflexivity|]. split; [reflexivity|]. split; [|tauto].
    intros i Hr. apply H1; lia.
Qed.

Lemma pq_heapify_down_spec : forall fuel data index size,
  index < size -> size <= length data -> size - index <= fuel ->
  (forall i, 0 < i < size -> (i - 1) / 2 <> index ->
     (pq_weight (pq_get data ((i - 1) / 2)) <= pq_weight (pq_get data i))%Z) ->
  (forall c, 0 < index -> 0 < c < size -> (c - 1) / 2 = index ->
     (pq_weight (pq_get data ((index - 1) / 2)) <= pq_weight (pq_get data c))%Z) ->
  exists data', pq_heapify_down fuel data size index = Some data' /\
    length data' = length data /\ heap_ok data' size /\
    forall e, pq_live data' size e <-> pq_live data size e.
Proof.
  induction fuel as [|fuel IH]; intros data index size Hi Hs Hf H1 H2; [lia|].
  cbn [pq_heapify_down].
  set (l := 2 * index + 1). set (r := 2 * index + 2).
  set (s1 := if (l <? size)
                && (pq_weight (pq_get data l) <? pq_weight (pq_get data index))%Z
             then l else index).
  set (s2 := if (r <? size)
                && (pq_weight (pq_get data r) <? pq_weight (pq_get data s1))%Z
             then r else s1).
  assert (Hs2 : (s2 = index \/ (s2 = l /\ l < size) \/ (s2 = r /\ r < size)) /\
                (pq_weight (pq_get data s2) <= pq_weight (pq_get data index))%Z /\
                (l < size -> (pq_weight (pq_get data s2) <= pq_weight (pq_get data l))%Z) /\
                (r < size -> (pq_weight (pq_get data s2) <= pq_weight (pq_get data r))%Z) /\
                (s2 <> index ->
                 (pq_weight (pq_get data s2) < pq_weight (pq_get data index))%Z)).
  { unfold s2, s1.
    destruct (Nat.ltb_spec l size) as [Hl|Hl]; cbn [andb];
      [destruct (Z.ltb_spec (pq_weight (pq_get data l)) (pq_weight (pq_get data index)))|];
      (destruct (Nat.ltb_spec r size) as [Hr|Hr]; cbn [andb];
       [match goal with
        | |- context [Z.ltb ?a ?b] => destruct (Z.ltb_spec a b)
        end|]);
      unfold l, r in *; (split; [lia|]); repeat split; lia. }
  destruct Hs2 as [Hcase [Hle0 [Hlel [Hler Hlt]]]].
  assert (Hch : forall c, 0 < c -> ((c - 1) / 2 = index <-> c = l \/ c = r)).
  { intros c Hc. assert (Hp := heap_parent_child c Hc). unfold l, r.
    split; [lia|]. intros H. apply heap_child_parent. exact H. }
  destruct (Nat.eqb_spec s2 index) as [Heq|Hne].
  - exists data. split; [reflexivity|]. split; [reflexivity|]. split; [|tauto].
    intros i Hr. destruct (Nat.eq_dec ((i - 1) / 2) index) as [E|E].
    + rewrite E. apply Hch in E; [|lia]. rewrite Heq in *.
      destruct E as [-> | ->]; [apply Hlel|apply Hler]; lia.
    + apply H1; auto.
  - assert (Hs2r : index < s2 /\ s2 < size /\ (s2 - 1) / 2 = index).
    { destruct Hcase as [E|[[E Hl]|[E Hr]]]; [contradiction| |];
        (split; [unfold l, r in *; lia|]); (split; [lia|]);
        apply heap_child_parent; unfold l, r in *; lia. }
    destruct Hs2r as [Hgt [Hlt2 Hpar]]. specialize (Hlt Hne).
    assert (Hg := fun k => pq_get_swap data index s2 k ltac:(lia) ltac:(lia)).
    destruct (IH (pq_swap data index s2) s2 size) as [d' [Hrun [Hlen [Hok Hlive]]]];
      try lia.
    + rewrite pq_swap_length. exact Hs.
    + intros i Hr Hip. assert (Hpi := heap_parent_child i ltac:(lia)).
      rewrite !Hg.
      destruct (Nat.eqb_spec ((i - 1) / 2) s2) as [E|_]; [contradiction|].
      destruct (Nat.eqb_spec ((i - 1) / 2) index) as [E1|E1].
      * destruct (Nat.eqb_spec i s2) as [E2|E2]; [lia|].
        destruct (Nat.eqb_spec i index) as [E3|E3]; [lia|].
        apply Hch in E1; [|lia]. destruct E1 as [-> | ->]; [apply Hlel|apply Hler]; lia.
      * destruct (Nat.eqb_spec i s2) as [E2|E2]; [subst i; contradiction|].
        destruct (Nat.eqb_spec i index) as [E3|E3].
        -- subst i. apply (H2 s2 ltac:(lia) ltac:(lia) Hpar).
        -- apply H1; auto.
    + intros c Hp0 Hc Hcp. assert (Hpc := heap_parent_child c ltac:(lia)).
      rewrite !Hg. rewrite Hpar.
      destruct (Nat.eqb_spec index s2) as [E|_]; [lia|]. rewrite Nat.eqb_refl.
      destruct (Nat.eqb_spec c s2) as [E|_]; [lia|].
      destruct (Nat.eqb_spec c index) as [E|_]; [lia|].
      assert (H3 := H1 c Hc ltac:(lia)). rewrite Hcp in H3. exact H3.
    + exists d'. split; [exact Hrun|]. split; [rewrite Hlen; apply pq_swap_length|].
      split; [exact Hok|]. intros e. rewrite Hlive. apply pq_live_swap; lia.
Qed.

Lemma pq_create_wf : forall capacity, pq_wf (pq_create capacity).
Proof.
  intros c. constructor; simpl.
  - intros i Hi. lia.
  - lia.
  - apply repeat_length.
Qed.

Lemma pq_create_empty : forall capacity e, ~ pq_in (pq_create capacity) e.
Proof. intros c e [i [Hi _]]. simpl in Hi. lia. Qed.

Lemma pq_push_spec : forall pq weight vertex,
  pq_wf pq -> pq_size pq < pq_capacity pq ->
  exists r pq', pq_push pq weight vertex = Some (r, pq') /\
    pq_wf pq' /\ pq_size pq' = pq_size pq + 1 /\ pq_capacity pq' = pq_capacity pq /\
    forall e, pq_in pq' e <-> pq_in pq e \/ e = mkPQNode weight vertex.
Proof.
  intros pq w v [Hh Hs Hl] Hlt. unfold pq_push.
  destruct (Nat.leb_spec (pq_capacity pq) (pq_size pq)) as [Hle|_]; [lia|].
  set (d1 := upd (pq_data pq) (pq_size pq) (mkPQNode w v)).
  assert (Hg : forall k, pq_get d1 k
                 = if k =? pq_size pq then mkPQNode w v else pq_get (pq_data pq) k).
  { intros k. unfold d1, pq_get. rewrite nth_upd. rewrite (Nat.eqb_sym k).
    destruct (Nat.eqb_spec (pq_size pq) k); cbn [andb]; [|reflexivity].
    destruct (Nat.ltb_spec (pq_size pq) (length (pq_data pq))); [reflexivity|lia]. }
  destruct (pq_heapify_up_spec (pq_size pq + 1) d1 (pq_size pq) (pq_size pq + 1))
    as [d' [Hrun [Hlen [Hok Hlive]]]]; try lia.
  - unfold d1. rewrite upd_length. lia.
  - intros i Hi Hne. assert (Hp := heap_parent_child i ltac:(lia)). rewrite !Hg.
    destruct (Nat.eqb_spec i (pq_size pq)); [contradiction|].
    destruct (Nat.eqb_spec ((i - 1) / 2) (pq_size pq)); [lia|].
    apply Hh. lia.
  - intros c Hpos Hc Hcp. assert (Hp := heap_parent_child c ltac:(lia)). lia.
  - rewrite Hrun. eexists. eexists. split; [reflexivity|]. cbn [pq_size pq_capacity pq_data].
    split; [|split; [reflexivity|split; [reflexivity|]]].
    + constructor; cbn [pq_size pq_capacity pq_data]; [exact Hok|lia|].
      rewrite Hlen. unfold d1. rewrite upd_length. exact Hl.
    + intros e. unfold pq_in. cbn [pq_size pq_data]. rewrite Hlive. split.
      * intros [i [Hi He]]. rewrite Hg in He.
        destruct (Nat.eqb_spec i (pq_size pq)) as [E|E]; [right; auto|].
        left. exists i. split; [lia|exact He].
      * intros [[i [Hi He]]|He].
        -- exists i. split; [lia|]. rewrite Hg.
           destruct (Nat.eqb_spec i (pq_size pq)); [lia|exact He].
        -- exists (pq_size pq). split; [lia|]. rewrite Hg, Nat.eqb_refl. auto.
Qed.

Lemma pq_pop_spec : forall pq,
  pq_wf pq -> 0 < pq_size pq ->
  exists e pq', pq_pop pq = Some (e, pq') /\
    pq_wf pq' /\ pq_size pq' = pq_size pq - 1 /\ pq_capacity pq' = pq_capacity pq /\
    pq_in pq e /\
    (forall e', pq_in pq e' -> (pq_weight e <= pq_weight e')%Z) /\
    (forall e', pq_in pq e' <-> e' = e \/ pq_in pq' e').
Proof.
  intros pq [Hh Hs Hl] Hpos. unfold pq_pop.
  assert (Hmin : forall e', pq_in pq e' ->
                   (pq_weight (pq_get (pq_data pq) 0) <= pq_weight e')%Z).
  { intros e' [i [Hi <-]]. apply (heap_root_min _ _ Hh i Hi). }
  assert (Hroot : pq_in pq (pq_get (pq_data pq) 0)) by (exists 0; auto).
  destruct (Nat.ltb_spec 0 (pq_size pq - 1)) as [Hgt|Hle].
  - set (sz := pq_size pq - 1) in *.
    set (d1 := upd (pq_data pq) 0 (pq_get (pq_data pq) sz)).
    assert (Hg : forall k, pq_get d1 k
                   = if k =? 0 then pq_get (pq_data pq) sz else pq_get (pq_data pq) k).
    { intros k. unfold d1. unfold pq_get at 1. rewrite nth_upd. rewrite (Nat.eqb_sym k).
      destruct (Nat.eqb_spec 0 k); cbn [andb]; [|reflexivity].
      destruct (Nat.ltb_spec 0 (length (pq_data pq))); [reflexivity|lia]. }
    destruct (pq_heapify_down_spec sz d1 0 sz) as [d' [Hrun [Hlen [Hok Hlive]]]]; try lia.
    + unfold d1. rewrite upd_length. lia.
    + intros i Hi Hne. assert (Hp := heap_parent_child i ltac:(lia)). rewrite !Hg.
      destruct (Nat.eqb_spec i 0); [lia|].
      destruct (Nat.eqb_spec ((i - 1) / 2) 0); [contradiction|].
      apply Hh. lia.
    + rewrite Hrun. eexists. eexists. split; [reflexivity|].
      cbn [pq_size pq_capacity pq_data].
      split; [|split; [reflexivity|split; [reflexivity|split; [exact Hroot|split; [exact Hmin|]]]]].
      * constructor; cbn [pq_size pq_capacity pq_data]; [exact Hok|lia|].
        rewrite Hlen. unfold d1. rewrite upd_length. exact Hl.
      * intros e'. unfold pq_in at 2. cbn [pq_size pq_data]. rewrite Hlive. split.
        -- intros [i [Hi He]]. destruct (Nat.eq_dec i 0) as [->|Hne]; [left; auto|].
           right. destruct (Nat.eq_dec i sz) as [->|Hne2].
           ++ exists 0. split; [lia|]. rewrite Hg. exact He.
           ++ exists i. split; [lia|]. rewrite Hg.
              destruct (Nat.eqb_spec i 0); [contradiction|exact He].
        -- intros [->|[i [Hi He]]]; [exact Hroot|]. rewrite Hg in He.
           destruct (Nat.eqb_spec i 0).
           ++ exists sz. split; [lia|exact He].
           ++ exists i. split; [lia|exact He].
  - eexists. eexists. split; [reflexivity|]. cbn [pq_size pq_capacity pq_data].
    split; [|split; [reflexivity|split; [reflexivity|split; [exact Hroot|split; [exact Hmin|]]]]].
    + constructor; cbn [pq_size pq_capacity pq_data]; [|lia|exact Hl].
      intros i Hi. lia.
    + intros e'. split.
      * intros [i [Hi He]]. left. replace i with 0 in He by lia. auto.
      * intros [->|[i [Hi _]]]; [exact Hroot|]. cbn [pq_size] in Hi. lia.
Qed.

(** *** Trees grown by lightest crossing edges *)

Lemma tree_step_sym : forall T a b, tree_step T a b -> tree_step T b a.
Proof. intros T a b [H|H]; [right|left]; exact H. Qed.

Lemma joined_trans : forall T x y z, joined T x y -> joined T y z -> joined T x z.
Proof.
  intros T x y z Hxy Hyz. induction Hyz as [|y' z' _ IH Hs]; [exact Hxy|].
  apply (joined_step T x y' z' IH Hs).
Qed.

Lemma joined_one : forall T a b, tree_step T a b -> joined T a b.
Proof. intros T a b H. apply (joined_step T a a b (joined_refl T a) H). Qed.

Lemma joined_sym : forall T x y, joined T x y -> joined T y x.
Proof.
  intros T x y H. induction H as [|y z _ IH Hs]; [constructor|].
  apply (joined_trans T z y x); [|exact IH]. apply joined_one. apply tree_step_sym. exact Hs.
Qed.

Lemma joined_replace : forall T T' x y,
  (forall a b, tree_step T a b -> joined T' a b) -> joined T x y -> joined T' x y.
Proof.
  intros T T' x y Hs H. induction H as [|y z _ IH Hyz]; [constructor|].
  apply (joined_trans T' x y z IH). apply Hs. exact Hyz.
Qed.

Lemma joined_out_replace : forall T S T' x y,
  (forall a b, S a = false -> S b = false -> tree_step T a b -> joined T' a b) ->
  joined_out T S x y -> joined T' x y.
Proof.
  intros T S T' x y Hs H. induction H as [|y z _ IH Hy Hz Hyz]; [constructor|].
  apply (joined_trans T' x y z IH). apply Hs; auto.
Qed.

(** A walk that leaves [S] has a last edge out of [S]. *)
Lemma last_crossing : forall T (S : nat -> bool) x y,
  joined T x y -> S x = true -> S y = false ->
  exists a b, S a = true /\ S b = false /\ tree_step T a b /\ joined_out T S b y.
Proof.
  intros T S x y H Sx. induction H as [|y z Hxy IH Hyz]; intros Sy; [congruence|].
  destruct (S y) eqn:Ey.
  - exists y, z. repeat split; auto. constructor.
  - destruct (IH eq_refl) as [a [b [Sa [Sb [Hab Hout]]]]].
    exists a, b. repeat split; auto. apply (jo_step T S b y z Hout Ey Sy Hyz).
Qed.

Lemma in_tree_cons : forall p v tr x,
  in_tree ((p, v) :: tr) x = (v =? x) || in_tree tr x.
Proof.
  intros p v tr x. unfold in_tree. cbn [existsb snd].
  destruct (x =? 0); destruct (v =? x); reflexivity.
Qed.

Lemma in_tree_true : forall tr x,
  in_tree tr x = true <-> x = 0 \/ exists p, In (p, x) tr.
Proof.
  intros tr x. unfold in_tree. rewrite orb_true_iff, existsb_exists, Nat.eqb_eq.
  split; (intros [H|H]; [left; exact H|right]).
  - destruct H as [[p v] [Hin He]]. apply Nat.eqb_eq in He. simpl in He. subst v.
    exists p. exact Hin.
  - destruct H as [p Hin]. exists (p, x). split; [exact Hin|apply Nat.eqb_refl].
Qed.

Lemma undirected_swap : forall a b, undirected (b, a) = undirected (a, b).
Proof. intros a b. unfold undirected. cbn [fst snd]. f_equal; lia. Qed.

Lemma zsum_list_app : forall (A : Type) (f : A -> Z) l1 l2,
  zsum_list f (l1 ++ l2) = (zsum_list f l1 + zsum_list f l2)%Z.
Proof.
  intros A f l1 l2. induction l1 as [|x l1 IH]; simpl; [reflexivity|].
  unfold zsum_list in *. simpl. rewrite IH. lia.
Qed.

Lemma zsum_list_nonneg : forall (A : Type) (f : A -> Z) l,
  (forall x, In x l -> (0 <= f x)%Z) -> (0 <= zsum_list f l)%Z.
Proof.
  intros A f l H. induction l as [|x l IH]; simpl; [lia|].
  assert (0 <= f x)%Z by (apply H; left; auto).
  assert (0 <= zsum_list f l)%Z by (apply IH; intros; apply H; right; auto).
  unfold zsum_list in *. simpl. lia.
Qed.

(** Distinct elements of a list weigh no more than the list. *)
Lemma sum_incl_le : forall (A : Type) (f : A -> Z) (l l' : list A),
  NoDup l -> incl l l' -> (forall x, In x l' -> (0 <= f x)%Z) ->
  (zsum_list f l <= zsum_list f l')%Z.
Proof.
  intros A f. induction l as [|x l IH]; intros l' Hnd Hincl Hpos.
  - apply zsum_list_nonneg. exact Hpos.
  - inversion Hnd as [|? ? Hx Hl]; subst.
    destruct (in_split x l' (Hincl x (or_introl eq_refl))) as [l1 [l2 El]]. subst l'.
    assert (H : (zsum_list f l <= zsum_list f (l1 ++ l2))%Z).
    { apply IH; [exact Hl| |].
      - intros y Hy. assert (Hy' := Hincl y (or_intror Hy)).
        apply in_app_or in Hy'. apply in_or_app.
        destruct Hy' as [Hy'|[Hy'|Hy']]; auto. subst y. contradiction.
      - intros y Hy. apply Hpos. apply in_app_or in Hy. apply in_or_app.
        destruct Hy; [left|right; right]; auto. }
    rewrite zsum_list_app in *.
    change (zsum_list f (x :: l)) with (f x + zsum_list f l)%Z.
    change (zsum_list f (x :: l2)) with (f x + zsum_list f l2)%Z. lia.
Qed.

Section Exchange.

Variable w : nat -> nat -> Z.

Variable nv : nat.

Hypothesis Hnv : 0 < nv.

Hypothesis Hsym : forall a b, w a b = w b a.

Local Open Scope Z_scope.

Definition pair_weight (e : nat * nat) : Z := w (fst e) (snd e).

Lemma pair_weight_undirected : forall e, pair_weight (undirected e) = pair_weight e.
Proof.
  intros [a b]. unfold pair_weight, undirected. cbn [fst snd].
  destruct (Nat.le_ge_cases a b) as [H|H].
  - rewrite Nat.min_l, Nat.max_r by exact H. reflexivity.
  - rewrite Nat.min_r, Nat.max_l by exact H. apply Hsym.
Qed.

Lemma edges_weight_undirected : forall T,
  edges_weight w (map undirected T) = edges_weight w T.
Proof.
  induction T as [|e T IH]; [reflexivity|]. cbn [map edges_weight fold_right].
  unfold edges_weight in IH. rewrite IH.
  change (w (fst (undirected e)) (snd (undirected e))) with (pair_weight (undirected e)).
  rewrite pair_weight_undirected. reflexivity.
Qed.

(** The edges of [T] are edges of positive weight between vertices. *)
Definition edges_ok (T : list (nat * nat)) : Prop :=
  forall a b, In (a, b) T -> (a < nv)%nat /\ (b < nv)%nat /\ 0 < w a b.

Definition spans (T : list (nat * nat)) : Prop :=
  forall x, (x < nv)%nat -> joined T 0 x.

Lemma prim_trace_in : forall tr, prim_trace w nv tr ->
  forall p v, In (p, v) tr -> in_tree tr p = true /\ in_tree tr v = true.
Proof.
  intros tr H. induction H as [|p v tr Ht IH Hp Hv Hlt Hw Hmin]; intros p' v' Hin.
  - destruct Hin.
  - rewrite !in_tree_cons. destruct Hin as [E|Hin].
    + injection E as <- <-. rewrite Hp, Nat.eqb_refl, orb_true_r. auto.
    + destruct (IH p' v' Hin) as [H1 H2]. rewrite H1, H2, !orb_true_r. auto.
Qed.

Lemma prim_trace_range : forall tr, prim_trace w nv tr ->
  forall x, in_tree tr x = true -> (x < nv)%nat.
Proof.
  intros tr H. induction H as [|p v tr Ht IH Hp Hv Hlt Hw Hmin]; intros x Hx.
  - unfold in_tree in Hx. cbn [existsb] in Hx. rewrite orb_false_r in Hx.
    apply Nat.eqb_eq in Hx. lia.
  - rewrite in_tree_cons in Hx. apply orb_true_iff in Hx.
    destruct Hx as [Hx|Hx]; [apply Nat.eqb_eq in Hx; lia|auto].
Qed.

Lemma prim_trace_edges_ok : forall tr, prim_trace w nv tr -> edges_ok tr.
Proof.
  intros tr H. induction H as [|p v tr Ht IH Hp Hv Hlt Hw Hmin]; intros a b Hin.
  - destruct Hin.
  - destruct Hin as [E|Hin]; [|apply IH; exact Hin].
    injection E as <- <-. split; [|split; auto].
    apply (prim_trace_range tr Ht p Hp).
Qed.

(** The tree is joined to vertex 0 by its own edges. *)
Lemma prim_trace_joined : forall tr, prim_trace w nv tr ->
  forall x, in_tree tr x = true -> joined tr 0%nat x.
Proof.
  intros tr H. induction H as [|p v tr Ht IH Hp Hv Hlt Hw Hmin]; intros x Hx.
  - unfold in_tree in Hx. cbn [existsb] in Hx. rewrite orb_false_r in Hx.
    apply Nat.eqb_eq in Hx. subst x. constructor.
  - assert (Hmono : forall y, joined tr 0%nat y -> joined ((p, v) :: tr) 0%nat y).
    { intros y Hy. apply (joined_replace tr); [|exact Hy].
      intros a b [Hab|Hab]; apply joined_one; [left|right]; right; exact Hab. }
    rewrite in_tree_cons in Hx. apply orb_true_iff in Hx. destruct Hx as [Hx|Hx].
    + apply Nat.eqb_eq in Hx. subst x.
      apply (joined_step _ _ p v); [apply Hmono, IH, Hp|]. left. left. reflexivity.
    + apply Hmono, IH, Hx.
Qed.

Lemma prim_trace_nodup : forall tr, prim_trace w nv tr -> NoDup (map undirected tr).
Proof.
  intros tr H. induction H as [|p v tr Ht IH Hp Hv Hlt Hw Hmin]; [constructor|].
  cbn [map]. constructor; [|exact IH].
  intros Hin. apply in_map_iff in Hin. destruct Hin as [[p' v'] [He Hin]].
  destruct (prim_trace_in tr Ht p' v' Hin) as [H1 H2].
  destruct (undirected_eq p' v' p v He) as [E|E]; injection E as -> ->; congruence.
Qed.

(** Dropping the copies of one edge. *)
Definition drop_edge (f : nat * nat) (T : list (nat * nat)) : list (nat * nat) :=
  filter (fun x => if pair_dec (undirected x) (undirected f) then false else true) T.

Lemma in_drop_edge : forall f T x,
  In x (drop_edge f T) <-> In x T /\ undirected x <> undirected f.
Proof.
  intros f T x. unfold drop_edge. rewrite filter_In.
  destruct (pair_dec (undirected x) (undirected f)) as [E|E]; split; intros [H1 H2];
    try (split; auto); congruence.
Qed.

Lemma edges_weight_cons : forall e T,
  edges_weight w (e :: T) = pair_weight e + edges_weight w T.
Proof. reflexivity. Qed.

Lemma drop_edge_cons : forall f y T,
  drop_edge f (y :: T)
  = if pair_dec (undirected y) (undirected f) then drop_edge f T else y :: drop_edge f T.
Proof.
  intros f y T. unfold drop_edge. cbn [filter].
  destruct (pair_dec (undirected y) (undirected f)); reflexivity.
Qed.

Lemma drop_edge_le : forall f T,
  (forall x, In x T -> 0 <= pair_weight x) ->
  edges_weight w (drop_edge f T) <= edges_weight w T.
Proof.
  intros f. induction T as [|y T IH]; intros Hp; [simpl; lia|].
  assert (H0 : 0 <= pair_weight y) by (apply Hp; left; auto).
  assert (H1 : edges_weight w (drop_edge f T) <= edges_weight w T)
    by (apply IH; intros; apply Hp; right; auto).
  rewrite drop_edge_cons.
  destruct (pair_dec (undirected y) (undirected f)); rewrite !edges_weight_cons; lia.
Qed.

Lemma drop_edge_weight : forall f T,
  In f T -> (forall x, In x T -> 0 <= pair_weight x) ->
  edges_weight w (drop_edge f T) + pair_weight f <= edges_weight w T.
Proof.
  intros f. induction T as [|y T IH]; intros Hin Hpos; [destruct Hin|].
  assert (H0 : 0 <= pair_weight y) by (apply Hpos; left; auto).
  assert (Hp' : forall x, In x T -> 0 <= pair_weight x) by (intros; apply Hpos; right; auto).
  rewrite drop_edge_cons. destruct Hin as [E|Hin].
  - subst y. destruct (pair_dec (undirected f) (undirected f)) as [_|Hn]; [|congruence].
    assert (H1 := drop_edge_le f T Hp'). rewrite edges_weight_cons. lia.
  - assert (H1 := IH Hin Hp').
    destruct (pair_dec (undirected y) (undirected f)); rewrite !edges_weight_cons; lia.
Qed.

Lemma tree_step_undirected : forall T a b,
  tree_step T a b <-> In (undirected (a, b)) (map undirected T).
Proof.
  intros T a b. rewrite in_map_iff. split.
  - intros [H|H]; [exists (a, b)|exists (b, a)]; split; auto. apply undirected_swap.
  - intros [[x y] [He Hin]]. destruct (undirected_eq x y a b He) as [E|E];
      injection E as -> ->; [left|right]; exact Hin.
Qed.

(** Every spanning set of edges can be changed, without getting heavier,
    into one that holds the edges of the trace. *)
Lemma exchange_all : forall tr, prim_trace w nv tr ->
  forall T, edges_ok T -> spans T ->
  exists T', edges_ok T' /\ spans T' /\ edges_weight w T' <= edges_weight w T /\
             forall e, In e tr -> In (undirected e) (map undirected T').
Proof.
  intros tr H. induction H as [|p v tr Ht IH Hp Hv Hlt Hw Hmin]; intros T Hok Hsp.
  { exists T. split; [exact Hok|]. split; [exact Hsp|]. split; [lia|]. intros e []. }
  destruct (IH T Hok Hsp) as [T' [Hok' [Hsp' [Hle Hcont]]]].
  destruct (in_dec pair_dec (undirected (p, v)) (map undirected T')) as [Hin|Hnin].
  { exists T'. split; [exact Hok'|]. split; [exact Hsp'|]. split; [exact Hle|].
    intros e [<-|He]; [exact Hin|apply Hcont; exact He]. }
  destruct (last_crossing T' (in_tree tr) 0%nat v (Hsp' v Hlt) eq_refl Hv)
    as [a [b [Sa [Sb [Hab Hout]]]]].
  assert (Hf : exists f, In f T' /\ undirected f = undirected (a, b)).
  { destruct Hab as [Hab|Hab]; [exists (a, b)|exists (b, a)]; split; auto.
    apply undirected_swap. }
  destruct Hf as [f [HfT Hfu]].
  assert (Hwf : pair_weight f = w a b).
  { rewrite <- pair_weight_undirected, Hfu, pair_weight_undirected. reflexivity. }
  assert (Hab_ok : (b < nv)%nat /\ 0 < w a b).
  { destruct Hab as [Hab|Hab]; destruct (Hok' _ _ Hab) as [H1 [H2 H3]]; split; auto.
    rewrite Hsym. exact H3. }
  destruct Hab_ok as [Hb Hwab].
  set (T2 := (p, v) :: drop_edge f T').
  assert (Hkeep : forall y z, tree_step T' y z -> undirected (y, z) <> undirected (a, b) ->
                              tree_step T2 y z).
  { intros y z [Hyz|Hyz] Hne; [left|right]; right; apply in_drop_edge; split; auto.
    - rewrite Hfu. exact Hne.
    - rewrite Hfu, undirected_swap. exact Hne. }
  assert (Hinside : forall y z, in_tree tr y = true -> in_tree tr z = true ->
                                undirected (y, z) <> undirected (a, b)).
  { intros y z Hy Hz He. destruct (undirected_eq y z a b He) as [E|E];
      injection E as -> ->; congruence. }
  assert (Houtside : forall y z, in_tree tr y = false -> in_tree tr z = false ->
                                 undirected (y, z) <> undirected (a, b)).
  { intros y z Hy Hz He. destruct (undirected_eq y z a b He) as [E|E];
      injection E as -> ->; congruence. }
  assert (Htree : forall x, in_tree tr x = true -> joined T2 0%nat x).
  { intros x Hx. apply (joined_replace tr); [|apply (prim_trace_joined tr Ht x Hx)].
    intros y z Hyz. apply joined_one. apply Hkeep.
    - apply tree_step_undirected.
      destruct Hyz as [Hyz|Hyz].
      + apply (Hcont _ Hyz).
      + rewrite <- undirected_swap. apply (Hcont _ Hyz).
    - destruct Hyz as [Hyz|Hyz]; destruct (prim_trace_in tr Ht _ _ Hyz); apply Hinside; auto. }
  assert (Hjab : joined T2 a b).
  { apply (joined_trans T2 a 0%nat b); [apply joined_sym, Htree, Sa|].
    apply (joined_trans T2 0%nat p b); [apply Htree, Hp|].
    apply (joined_trans T2 p v b); [apply joined_one; left; left; reflexivity|].
    apply joined_sym. apply (joined_out_replace T' (in_tree tr)); [|exact Hout].
    intros y z Hy Hz Hyz. apply joined_one. apply Hkeep; [exact Hyz|].
    apply Houtside; auto. }
  exists T2. split; [|split; [|split]].
  - intros x y [E|Hin].
    + injection E as <- <-. split; [apply (prim_trace_range tr Ht p Hp)|]. split; auto.
    + apply in_drop_edge in Hin. apply Hok'. apply Hin.
  - intros x Hx. apply (joined_replace T'); [|apply Hsp'; exact Hx].
    intros y z Hyz. destruct (pair_dec (undirected (y, z)) (undirected (a, b))) as [E|E].
    + destruct (undirected_eq y z a b E) as [E2|E2]; injection E2 as -> ->;
        [exact Hjab|apply joined_sym; exact Hjab].
    + apply joined_one. apply Hkeep; auto.
  - assert (Hd := drop_edge_weight f T' HfT).
    assert (Hm := Hmin a b Sa Sb Hb Hwab).
    unfold T2. rewrite edges_weight_cons. unfold pair_weight at 1. cbn [fst snd].
    rewrite Hwf in Hd.
    assert (edges_weight w (drop_edge f T') + w a b <= edges_weight w T'); [|lia].
    apply Hd. intros [x y] Hxy. destruct (Hok' x y Hxy) as [_ [_ H3]].
    unfold pair_weight. cbn [fst snd]. lia.
  - intros e [<-|He].
    + cbn [map]. left. reflexivity.
    + cbn [map]. right. assert (Hc := Hcont e He).
      apply in_map_iff in Hc. destruct Hc as [x [Hxe HxT]].
      apply in_map_iff. exists x. split; [exact Hxe|].
      apply in_drop_edge. split; [exact HxT|]. rewrite Hxe, Hfu.
      destruct e as [y z]. destruct (prim_trace_in tr Ht y z He). apply Hinside; auto.
Qed.

(** The trace weighs no more than any spanning set of edges. *)
Theorem prim_trace_minimal : forall tr, prim_trace w nv tr ->
  forall T, edges_ok T -> spans T -> edges_weight w tr <= edges_weight w T.
Proof.
  intros tr Ht T Hok Hsp.
  destruct (exchange_all tr Ht T Hok Hsp) as [T' [Hok' [Hsp' [Hle Hcont]]]].
  rewrite <- (edges_weight_undirected tr).
  apply Z.le_trans with (2 := Hle). rewrite <- (edges_weight_undirected T').
  apply (sum_incl_le _ pair_weight).
  - apply prim_trace_nodup. exact Ht.
  - intros e He. apply in_map_iff in He. destruct He as [x [<- Hx]]. apply Hcont. exact Hx.
  - intros e He. apply in_map_iff in He. destruct He as [[x y] [<- Hx]].
    rewrite pair_weight_undirected. destruct (Hok' x y Hx) as [_ [_ H3]].
    unfold pair_weight. cbn [fst snd]. lia.
Qed.

End Exchange.

(** *** The main loop of [graph_mst_prim] *)

Lemma out_count_seq : forall in_mst,
  out_count in_mst (seq 0 (length in_mst)) = unvisited in_mst.
Proof.
  intros l. unfold out_count, unvisited.
  assert (E : forall s, length (filter (fun x => negb (nth x l false)) s)
                        = length (filter negb (map (fun i => nth i l false) s))).
  { induction s as [|x s IH]; [reflexivity|].
    cbn [map filter]. destruct (negb (nth x l false)); cbn [length]; rewrite IH; reflexivity. }
  rewrite E, map_nth_seq_id. reflexivity.
Qed.

Section PrimLoop.

Variable W : Matrix.

Variable nv : nat.

Hypothesis Hnv : 0 < nv.

(** The state of the loop, with the edges [tr] chosen so far.  [covered a b]
    tells for which edges out of the tree the key of [b] is known to be at
    most the weight. *)
Record prim_inv (covered : nat -> nat -> Prop) (st : Prim) (tr : list (nat * nat))
  : Prop := mk_prim_inv {
  pi_pq : pq_wf (pr_pq st);
  pi_cap : pq_capacity (pr_pq st) = nv * nv;
  pi_len_in : length (pr_in_mst st) = nv;
  pi_len_key : length (pr_key st) = nv;
  pi_len_par : length (pr_parent st) = nv;
  pi_in : forall x, x < nv -> nth x (pr_in_mst st) false = in_tree tr x;
  pi_trace : prim_trace (mget W) nv tr;
  pi_par_tree : forall p v, In (p, v) tr -> nth v (pr_parent st) (-1)%Z = Z.of_nat p;
  pi_key_max : forall x, x < nv -> (nth x (pr_key st) 0 <= INT_MAX)%Z;
  pi_key_out : forall x, x < nv -> in_tree tr x = false ->
      nth x (pr_key st) 0%Z = INT_MAX \/
      exists p, in_tree tr p = true /\
                nth x (pr_parent st) (-1)%Z = Z.of_nat p /\
                mget W p x = nth x (pr_key st) 0%Z /\
                (0 < nth x (pr_key st) 0)%Z /\
                pq_in (pr_pq st) (mkPQNode (nth x (pr_key st) 0%Z) x);
  pi_cover : forall a b, in_tree tr a = true -> b < nv -> in_tree tr b = false ->
      (0 < mget W a b)%Z -> covered a b -> (nth b (pr_key st) 0 <= mget W a b)%Z;
  pi_heap : forall e, pq_in (pr_pq st) e ->
      pq_vertex e < nv /\ (pq_weight e < INT_MAX)%Z /\
      (in_tree tr (pq_vertex e) = false ->
       (nth (pq_vertex e) (pr_key st) 0 <= pq_weight e)%Z)
}.

Lemma prim_inv_cover : forall (c1 c2 : nat -> nat -> Prop) st tr,
  prim_inv c1 st tr ->
  (forall a b, in_tree tr a = true -> b < nv -> in_tree tr b = false ->
               (0 < mget W a b)%Z -> c2 a b ->
               c1 a b \/ (nth b (pr_key st) 0 <= mget W a b)%Z) ->
  prim_inv c2 st tr.
Proof.
  intros c1 c2 st tr H Hc. destruct H. constructor; auto.
  intros a b Ha Hb Hb' Hw Hcov.
  destruct (Hc a b Ha Hb Hb' Hw Hcov) as [H1|H1]; auto.
Qed.

(** One turn of the [for] loop over [v]. *)
Lemma prim_update_inv : forall u tr done st v vs B,
  prim_inv (fun a b => a <> u \/ In b done) st tr ->
  in_tree tr u = true -> v < nv ->
  pq_size (pr_pq st) + out_count (pr_in_mst st) (v :: vs) <= B -> B <= nv * nv ->
  exists st', prim_update W u st v = Some st' /\
    prim_inv (fun a b => a <> u \/ In b (v :: done)) st' tr /\
    pr_in_mst st' = pr_in_mst st /\
    pq_size (pr_pq st') + out_count (pr_in_mst st') vs <= B.
Proof.
  intros u tr done st v vs B H Hu Hv HB Hcap. unfold prim_update.
  assert (Hin := pi_in _ _ _ H v Hv).
  unfold out_count in *. cbn [filter] in HB.
  rewrite Hin in *.
  destruct ((0 <? mget W u v)%Z && negb (in_tree tr v)
            && (mget W u v <? nth v (pr_key st) 0)%Z) eqn:Econd.
  - apply andb_true_iff in Econd. destruct Econd as [Econd Elt].
    apply andb_true_iff in Econd. destruct Econd as [Epos Eout].
    apply Z.ltb_lt in Epos, Elt. apply negb_true_iff in Eout.
    rewrite Eout in HB. cbn [negb length] in HB.
    destruct (pq_push_spec (pr_pq st) (mget W u v) v (pi_pq _ _ _ H))
      as [r [pq' [Hpush [Hwf' [Hsz [Hcp Hlive]]]]]].
    { rewrite (pi_cap _ _ _ H). lia. }
    rewrite Hpush. eexists. split; [reflexivity|].
    assert (Hkmax := pi_key_max _ _ _ H v Hv).
    assert (Hlk : v < length (pr_key st)) by (rewrite (pi_len_key _ _ _ H); exact Hv).
    assert (Hlp : v < length (pr_parent st)) by (rewrite (pi_len_par _ _ _ H); exact Hv).
    split; [|split; [reflexivity|cbn [pr_pq pr_in_mst]; lia]].
    constructor; cbn [pr_pq pr_in_mst pr_key pr_parent].
    + exact Hwf'.
    + rewrite Hcp. apply (pi_cap _ _ _ H).
    + apply (pi_len_in _ _ _ H).
    + rewrite upd_length. apply (pi_len_key _ _ _ H).
    + rewrite upd_length. apply (pi_len_par _ _ _ H).
    + apply (pi_in _ _ _ H).
    + apply (pi_trace _ _ _ H).
    + intros p x Hpx. rewrite nth_upd_other; [apply (pi_par_tree _ _ _ H p x Hpx)|].
      intros ->. destruct (prim_trace_in _ _ _ (pi_trace _ _ _ H) p x Hpx). congruence.
    + intros x Hx. destruct (Nat.eq_dec v x) as [<-|Hne].
      * rewrite nth_upd_same by exact Hlk. lia.
      * rewrite nth_upd_other by exact Hne. apply (pi_key_max _ _ _ H x Hx).
    + intros x Hx Hout. destruct (Nat.eq_dec v x) as [<-|Hne].
      * right. exists u. rewrite !nth_upd_same by assumption.
        split; [exact Hu|]. split; [reflexivity|]. split; [reflexivity|].
        split; [exact Epos|]. apply Hlive. right. reflexivity.
      * rewrite !nth_upd_other by exact Hne.
        destruct (pi_key_out _ _ _ H x Hx Hout) as [Hk|[p [H1 [H2 [H3 [H4 H5]]]]]];
          [left; exact Hk|right].
        exists p. repeat split; auto. apply Hlive. left. exact H5.
    + intros a b Ha Hb Hbo Hw Hcov. destruct (Nat.eq_dec v b) as [<-|Hne].
      * rewrite nth_upd_same by exact Hlk.
        destruct (Nat.eq_dec a u) as [->|Hau]; [lia|].
        assert (Hc := pi_cover _ _ _ H a v Ha Hv Hbo Hw (or_introl Hau)). lia.
      * rewrite nth_upd_other by exact Hne.
        apply (pi_cover _ _ _ H a b Ha Hb Hbo Hw).
        destruct Hcov as [Hc|[Hc|Hc]]; [left; exact Hc|contradiction|right; exact Hc].
    + intros e He. apply Hlive in He. destruct He as [He|He].
      * destruct (pi_heap _ _ _ H e He) as [H1 [H2 H3]].
        split; [exact H1|]. split; [exact H2|]. intros Ho.
        destruct (Nat.eq_dec v (pq_vertex e)) as [E|Hne].
        -- rewrite <- E in *. rewrite nth_upd_same by exact Hlk. specialize (H3 Ho). lia.
        -- rewrite nth_upd_other by exact Hne. apply H3. exact Ho.
      * subst e. cbn [pq_vertex pq_weight]. split; [exact Hv|]. split; [lia|].
        intros _. rewrite nth_upd_same by exact Hlk. lia.
  - exists st. split; [reflexivity|]. split; [|split; [reflexivity|]].
    + apply (prim_inv_cover _ _ _ _ H).
      intros a b Ha Hb Hbo Hw [Hc|[Hc|Hc]]; [left; left; exact Hc| |left; right; exact Hc].
      subst b. destruct (Nat.eq_dec a u) as [->|Hau]; [|left; left; exact Hau].
      right. rewrite Hbo in Econd. cbn [negb] in Econd.
      destruct (Z.ltb_spec 0 (mget W u v)); [|lia]. cbn [andb] in Econd.
      apply Z.ltb_ge in Econd. exact Econd.
    + destruct (negb (in_tree tr v)); cbn [length] in HB; lia.
Qed.

(** The whole [for] loop. *)
Lemma prim_scan_inv : forall u tr vs done st B,
  prim_inv (fun a b => a <> u \/ In b done) st tr ->
  in_tree tr u = true -> (forall v, In v vs -> v < nv) ->
  pq_size (pr_pq st) + out_count (pr_in_mst st) vs <= B -> B <= nv * nv ->
  exists st', prim_scan W u vs st = Some st' /\
    prim_inv (fun a b => a <> u \/ In b (rev vs ++ done)) st' tr /\
    pr_in_mst st' = pr_in_mst st /\
    pq_size (pr_pq st') <= B.
Proof.
  intros u tr. induction vs as [|v vs IH]; intros done st B H Hu Hvs HB Hcap.
  - exists st. split; [reflexivity|]. split; [exact H|]. split; [reflexivity|].
    unfold out_count in HB. simpl in HB. lia.
  - cbn [prim_scan].
    destruct (prim_update_inv u tr done st v vs B H Hu (Hvs v (or_introl eq_refl)) HB Hcap)
      as [st1 [Hup [H1 [Hin1 HB1]]]].
    rewrite Hup.
    destruct (IH (v :: done) st1 B H1 Hu (fun x Hx => Hvs x (or_intror Hx)) HB1 Hcap)
      as [st2 [Hsc [H2 [Hin2 HB2]]]].
    exists st2. split; [exact Hsc|]. split; [|split; [congruence|exact HB2]].
    cbn [rev]. rewrite <- app_assoc. exact H2.
Qed.

(** After the [for] loop every edge out of the tree is covered. *)
Lemma prim_visit : forall u tr st B,
  prim_inv (fun a b => a <> u \/ In b []) st tr ->
  in_tree tr u = true ->
  pq_size (pr_pq st) + out_count (pr_in_mst st) (seq 0 nv) <= B -> B <= nv * nv ->
  exists st', prim_scan W u (seq 0 nv) st = Some st' /\
    prim_inv (fun _ _ => True) st' tr /\
    pr_in_mst st' = pr_in_mst st /\
    pq_size (pr_pq st') <= B.
Proof.
  intros u tr st B H Hu HB Hcap.
  destruct (prim_scan_inv u tr (seq 0 nv) [] st B H Hu) as [st' [Hsc [H' [Hin HB']]]];
    auto.
  { intros v Hv. apply in_seq in Hv. lia. }
  exists st'. split; [exact Hsc|]. split; [|split; [exact Hin|exact HB']].
  apply (prim_inv_cover _ _ _ _ H').
  intros a b Ha Hb Hbo Hw _. left. right. apply in_or_app. left.
  apply -> in_rev. apply in_seq. lia.
Qed.

Lemma unvisited_repeat : forall k, unvisited (repeat false k) = k.
Proof. induction k as [|k IH]; [reflexivity|]. unfold unvisited in *. simpl. rewrite IH. reflexivity. Qed.

(** The [while] loop, from a state in which vertex 0 has been handled. *)
Lemma prim_loop_spec : forall fuel st tr,
  prim_inv (fun _ _ => True) st tr ->
  pq_size (pr_pq st) + unvisited (pr_in_mst st) * unvisited (pr_in_mst st) < fuel ->
  pq_size (pr_pq st) + unvisited (pr_in_mst st) * unvisited (pr_in_mst st) <= nv * nv + 1 ->
  exists st' tr', prim_loop fuel W nv st = Some st' /\
    prim_inv (fun _ _ => True) st' tr' /\ pq_size (pr_pq st') = 0.
Proof.
  induction fuel as [|fuel IH]; intros st tr H Hf Hbd; [lia|].
  cbn [prim_loop]. unfold pq_is_empty.
  destruct (Nat.eqb_spec (pq_size (pr_pq st)) 0) as [Hz|Hnz].
  { exists st, tr. auto. }
  destruct (pq_pop_spec (pr_pq st) (pi_pq _ _ _ H)) as [e [pq' [Hpop [Hwf' [Hsz [Hcp [He [Hmin Hlive]]]]]]]];
    [lia|].
  rewrite Hpop.
  destruct (pi_heap _ _ _ H e He) as [Hu [Hwe Hke]].
  rewrite (pi_in _ _ _ H _ Hu).
  destruct (in_tree tr (pq_vertex e)) eqn:Etree.
  - (* a stale entry *)
    apply (IH _ tr).
    + destruct H. constructor; cbn [pr_pq pr_in_mst pr_key pr_parent]; auto.
      * rewrite Hcp. assumption.
      * intros x Hx Hout.
        destruct (pi_key_out0 x Hx Hout) as [Hk|[p [H1 [H2 [H3 [H4 H5]]]]]];
          [left; exact Hk|right].
        exists p. repeat split; auto. apply Hlive in H5. destruct H5 as [H5|H5]; [|exact H5].
        rewrite <- H5 in Etree. cbn [pq_vertex] in Etree. congruence.
      * intros e' He'. apply pi_heap0. apply Hlive. right. exact He'.
    + cbn [pr_pq pr_in_mst]. lia.
    + cbn [pr_pq pr_in_mst]. lia.
  - (* the vertex enters the tree *)
    set (u := pq_vertex e) in *. specialize (Hke eq_refl).
    destruct (pi_key_out _ _ _ H u Hu Etree) as [Hk|[p [Hp [Hpar [Hwp [Hpos Hq]]]]]]; [lia|].
    assert (Htr : prim_trace (mget W) nv ((p, u) :: tr)).
    { constructor; auto; [apply (pi_trace _ _ _ H)|lia|].
      intros a b Ha Hbo Hb Hw. rewrite Hwp.
      assert (Hc := pi_cover _ _ _ H a b Ha Hb Hbo Hw I).
      destruct (pi_key_out _ _ _ H b Hb Hbo) as [Hk|[p' [_ [_ [_ [_ Hq']]]]]]; [lia|].
      assert (Hm := Hmin _ Hq'). cbn [pq_weight] in Hm. lia. }
    set (st3 := mkPrim pq' (upd (pr_in_mst st) u true) (pr_key st) (pr_parent st)).
    assert (Hlu : u < length (pr_in_mst st)) by (rewrite (pi_len_in _ _ _ H); exact Hu).
    assert (Hnu : nth u (pr_in_mst st) false = false)
      by (rewrite (pi_in _ _ _ H u Hu); exact Etree).
    assert (H3 : prim_inv (fun a b => a <> u \/ In b []) st3 ((p, u) :: tr)).
    { constructor; unfold st3; cbn [pr_pq pr_in_mst pr_key pr_parent].
      - exact Hwf'.
      - rewrite Hcp. apply (pi_cap _ _ _ H).
      - rewrite upd_length. apply (pi_len_in _ _ _ H).
      - apply (pi_len_key _ _ _ H).
      - apply (pi_len_par _ _ _ H).
      - intros x Hx. rewrite in_tree_cons. destruct (Nat.eqb_spec u x) as [E|E].
        + subst x. rewrite nth_upd_same by exact Hlu. reflexivity.
        + rewrite nth_upd_other by exact E. apply (pi_in _ _ _ H x Hx).
      - exact Htr.
      - intros p' x [E|Hin]; [injection E as <- <-; exact Hpar|].
        apply (pi_par_tree _ _ _ H p' x Hin).
      - apply (pi_key_max _ _ _ H).
      - intros x Hx Hout. rewrite in_tree_cons in Hout. apply orb_false_iff in Hout.
        destruct Hout as [Hxu Hout]. apply Nat.eqb_neq in Hxu.
        destruct (pi_key_out _ _ _ H x Hx Hout) as [Hk|[p' [H1 [H2 [H4 [H5 H6]]]]]];
          [left; exact Hk|right].
        exists p'. rewrite in_tree_cons, H1, orb_true_r. repeat split; auto.
        apply Hlive in H6. destruct H6 as [H6|H6]; [|exact H6].
        exfalso. apply Hxu. unfold u. rewrite <- H6. reflexivity.
      - intros a b Ha Hb Hbo Hw [Hc|[]]. rewrite in_tree_cons in Ha, Hbo.
        apply orb_false_iff in Hbo. destruct Hbo as [_ Hbo].
        apply orb_true_iff in Ha. destruct Ha as [Ha|Ha];
          [apply Nat.eqb_eq in Ha; congruence|].
        apply (pi_cover _ _ _ H a b Ha Hb Hbo Hw I).
      - intros e' He'. assert (He2 : pq_in (pr_pq st) e') by (apply Hlive; right; exact He').
        destruct (pi_heap _ _ _ H e' He2) as [H1 [H2 H4]].
        split; [exact H1|]. split; [exact H2|]. intros Ho. apply H4.
        rewrite in_tree_cons in Ho. apply orb_false_iff in Ho. apply Ho. }
    assert (HU : unvisited (upd (pr_in_mst st) u true) + 1 = unvisited (pr_in_mst st))
      by (apply unvisited_upd; assumption).
    assert (Hoc : out_count (pr_in_mst st3) (seq 0 nv) = unvisited (upd (pr_in_mst st) u true)).
    { unfold st3; cbn [pr_in_mst]. rewrite <- out_count_seq. rewrite upd_length.
      rewrite (pi_len_in _ _ _ H). reflexivity. }
    destruct (prim_visit u ((p, u) :: tr) st3
                (pq_size pq' + unvisited (upd (pr_in_mst st) u true)) H3)
      as [st' [Hsc [H' [Hin' HB']]]].
    + rewrite in_tree_cons, Nat.eqb_refl. reflexivity.
    + rewrite Hoc. unfold st3; cbn [pr_pq]. lia.
    + nia.
    + fold st3. rewrite Hsc. apply (IH st' ((p, u) :: tr) H').
      * rewrite Hin'. unfold st3; cbn [pr_in_mst]. nia.
      * rewrite Hin'. unfold st3; cbn [pr_in_mst]. nia.
Qed.

(** The loop from the initial state. *)
Lemma prim_loop_start :
  exists r pq0, pq_push (pq_create (nv * nv)) 0 0 = Some (r, pq0) /\
    exists st' tr',
      prim_loop (nv * nv + 2) W nv
        (mkPrim pq0 (repeat false nv) (upd (repeat INT_MAX nv) 0 0%Z) (repeat (-1)%Z nv))
      = Some st' /\
      prim_inv (fun _ _ => True) st' tr' /\ pq_size (pr_pq st') = 0.
Proof.
  destruct (pq_push_spec (pq_create (nv * nv)) 0 0 (pq_create_wf _))
    as [r [pq0 [Hpush [Hwf0 [Hsz0 [Hcp0 Hlive0]]]]]].
  { simpl. nia. }
  exists r, pq0. split; [exact Hpush|].
  replace (nv * nv + 2) with (S (nv * nv + 1)) by lia.
  cbn [prim_loop pr_pq pr_in_mst pr_key pr_parent]. unfold pq_is_empty.
  cbn [pq_create pq_size pq_capacity] in Hsz0, Hcp0.
  destruct (Nat.eqb_spec (pq_size pq0) 0) as [Hz|_]; [lia|].
  destruct (pq_pop_spec pq0 Hwf0) as [e [pq' [Hpop [Hwf' [Hsz [Hcp [He [Hmin Hlive]]]]]]]];
    [lia|].
  rewrite Hpop.
  assert (Ee : e = mkPQNode 0 0).
  { apply Hlive0 in He. destruct He as [He|He]; [|exact He].
    exfalso. apply (pq_create_empty _ _ He). }
  subst e. cbn [pq_vertex].
  rewrite (nth_repeat_lt false false Hnv).
  set (st3 := mkPrim pq' (upd (repeat false nv) 0 true) (upd (repeat INT_MAX nv) 0 0%Z)
                (repeat (-1)%Z nv)).
  assert (Hempty : forall e', ~ pq_in pq' e').
  { intros e' [i [Hi _]]. lia. }
  assert (Hkey : forall x, x < nv ->
            nth x (upd (repeat INT_MAX nv) 0 0%Z) 0%Z = if x =? 0 then 0%Z else INT_MAX).
  { intros x Hx. rewrite nth_upd, repeat_length. rewrite (Nat.eqb_sym x).
    destruct (Nat.eqb_spec 0 x); cbn [andb].
    - destruct (Nat.ltb_spec 0 nv); [reflexivity|lia].
    - apply nth_repeat_lt. exact Hx. }
  assert (Htree0 : forall x, in_tree [] x = (x =? 0)).
  { intros x. unfold in_tree. cbn [existsb]. apply orb_false_r. }
  assert (H3 : prim_inv (fun a b => a <> 0 \/ In b []) st3 []).
  { constructor; unfold st3; cbn [pr_pq pr_in_mst pr_key pr_parent].
    - exact Hwf'.
    - rewrite Hcp. exact Hcp0.
    - rewrite upd_length. apply repeat_length.
    - rewrite upd_length. apply repeat_length.
    - apply repeat_length.
    - intros x Hx. rewrite Htree0, nth_upd, repeat_length, (Nat.eqb_sym x).
      destruct (Nat.eqb_spec 0 x); cbn [andb].
      + destruct (Nat.ltb_spec 0 nv); [reflexivity|lia].
      + apply nth_repeat_lt. exact Hx.
    - constructor.
    - intros p v [].
    - intros x Hx. rewrite Hkey by exact Hx. destruct (x =? 0); unfold INT_MAX; lia.
    - intros x Hx Hout. left. rewrite Hkey by exact Hx. rewrite Htree0 in Hout.
      rewrite Hout. reflexivity.
    - intros a b Ha Hb Hbo Hw [Hc|[]]. rewrite Htree0 in Ha. apply Nat.eqb_eq in Ha.
      contradiction.
    - intros e' He'. exfalso. apply (Hempty e' He'). }
  assert (HU : unvisited (upd (repeat false nv) 0 true) + 1 = nv).
  { rewrite unvisited_upd; [apply unvisited_repeat|rewrite repeat_length; exact Hnv|].
    apply nth_repeat_lt. exact Hnv. }
  assert (Hoc : out_count (pr_in_mst st3) (seq 0 nv) = unvisited (upd (repeat false nv) 0 true)).
  { unfold st3; cbn [pr_in_mst]. rewrite <- out_count_seq. rewrite upd_length, repeat_length.
    reflexivity. }
  destruct (prim_visit 0 [] st3 (unvisited (upd (repeat false nv) 0 true)) H3)
    as [st' [Hsc [H' [Hin' HB']]]].
  - reflexivity.
  - rewrite Hoc. unfold st3; cbn [pr_pq]. lia.
  - nia.
  - fold st3. rewrite Hsc. apply (prim_loop_spec _ st' [] H').
    + rewrite Hin'. unfold st3; cbn [pr_in_mst]. nia.
    + rewrite Hin'. unfold st3; cbn [pr_in_mst]. nia.
Qed.

End PrimLoop.

(** *** [graph_mst_prim] on a graph *)

Lemma zsum_list_ext : forall (A : Type) (f h : A -> Z) l,
  (forall x, In x l -> f x = h x) -> zsum_list f l = zsum_list h l.
Proof.
  intros A f h l H. induction l as [|x l IH]; [reflexivity|].
  unfold zsum_list in *. cbn [fold_right]. rewrite IH by (intros; apply H; right; auto).
  rewrite (H x) by (left; auto). reflexivity.
Qed.

Lemma zsum_list_map : forall (A B : Type) (f : B -> Z) (h : A -> B) l,
  zsum_list f (map h l) = zsum_list (fun x => f (h x)) l.
Proof.
  intros A B f h l. induction l as [|x l IH]; [reflexivity|].
  unfold zsum_list in *. cbn [map fold_right]. rewrite IH. reflexivity.
Qed.

Lemma zsum_list_perm : forall (A : Type) (f : A -> Z) l l',
  Permutation l l' -> zsum_list f l = zsum_list f l'.
Proof.
  intros A f l l' H. induction H; unfold zsum_list in *; cbn [fold_right]; lia.
Qed.

Lemma filter_all : forall (A : Type) (f : A -> bool) l,
  (forall x, In x l -> f x = true) -> filter f l = l.
Proof.
  intros A f l H. induction l as [|x l IH]; [reflexivity|].
  cbn [filter]. rewrite (H x) by (left; auto). rewrite IH by (intros; apply H; right; auto).
  reflexivity.
Qed.

Lemma filter_full_length : forall (A : Type) (f : A -> bool) l,
  length (filter f l) = length l -> forall x, In x l -> f x = true.
Proof.
  intros A f l. induction l as [|y l IH]; intros H x Hx; [destruct Hx|].
  cbn [filter] in H. assert (Hle := filter_length_le f l).
  destruct (f y) eqn:E; cbn [length] in H; [|lia].
  destruct Hx as [<-|Hx]; [exact E|]. apply IH; [lia|exact Hx].
Qed.

Lemma vertices_in_mst_all : forall in_mst n0,
  vertices_in_mst in_mst n0 = n0 <-> forall x, x < n0 -> nth x in_mst false = true.
Proof.
  intros in_mst n0. unfold vertices_in_mst. split.
  - intros H x Hx.
    apply (filter_full_length _ (fun i => nth i in_mst false) (seq 0 n0)).
    + rewrite H, length_seq. reflexivity.
    + apply in_seq. lia.
  - intros H. rewrite filter_all; [apply length_seq|].
    intros x Hx. apply in_seq in Hx. apply H. lia.
Qed.

(** What the loop over [v] leaves in [result]. *)
Lemma emit_edges_fold : forall W parent vs es cnt tot,
  wrap32 tot = tot ->
  fold_left (emit_edge W parent) vs (es, cnt, tot)
  = (es ++ map (fun v => mkMSTEdge (Z.to_nat (nth v parent (-1)%Z)) v
                           (mget W (Z.to_nat (nth v parent (-1)%Z)) v))
               (filter (fun v => negb (nth v parent (-1) =? -1)%Z) vs),
     (cnt + Z.of_nat (length (filter (fun v => negb (nth v parent (-1) =? -1)%Z) vs)))%Z,
     wrap32 (tot + zsum_list (fun v => mget W (Z.to_nat (nth v parent (-1)%Z)) v)
                     (filter (fun v => negb (nth v parent (-1) =? -1)%Z) vs))).
Proof.
  intros W parent. induction vs as [|v vs IH]; intros es cnt tot Htot.
  - cbn [fold_left filter map length]. rewrite app_nil_r.
    change (zsum_list _ []) with 0%Z. change (Z.of_nat 0) with 0%Z.
    rewrite !Z.add_0_r, Htot. reflexivity.
  - cbn [fold_left filter]. unfold emit_edge at 2.
    destruct (negb (nth v parent (-1) =? -1)%Z).
    + rewrite IH by apply wrap32_idem. cbn [map length]. rewrite <- app_assoc. cbn [app].
      rewrite Nat2Z.inj_succ.
      match goal with
      | |- context [zsum_list ?f (v :: ?l)] =>
          change (zsum_list f (v :: l)) with (f v + zsum_list f l)%Z
      end.
      rewrite wrap32_add_l.
      f_equal; [f_equal|]; [unfold Z.succ; ring|f_equal; ring].
    + apply IH. exact Htot.
Qed.

Lemma first_weight_unique : forall l e,
  count_to l (to e) <= 1 -> In e l -> first_weight l (to e) = weight e.
Proof.
  induction l as [|x l IH]; intros e Hc Hin; [destruct Hin|].
  cbn [first_weight count_to] in *. destruct (Nat.eqb_spec (to x) (to e)) as [E|E].
  - destruct Hin as [->|Hin]; [reflexivity|].
    assert (H0 : 0 < count_to l (to e)).
    { apply count_to_pos. exists (weight e). destruct e; exact Hin. }
    lia.
  - destruct Hin as [->|Hin]; [congruence|]. apply IH; auto.
Qed.

Lemma prim_trace_nonroot : forall w nv tr, prim_trace w nv tr ->
  forall p v, In (p, v) tr -> v <> 0.
Proof.
  intros w nv tr H. induction H as [|p v tr Ht IH Hp Hv Hlt Hw Hmin]; intros p' v' Hin.
  - destruct Hin.
  - destruct Hin as [E|Hin]; [|apply (IH p' v' Hin)].
    injection E as <- <-. intros ->. unfold in_tree in Hv. cbn [Nat.eqb orb] in Hv.
    discriminate.
Qed.

Section MstOnGraph.

Variable g : Graph.

Hypothesis Hwf : graph_wf g.

Lemma build_weight_matrix_spec :
  mdim (n g) (build_weight_matrix g) /\
  forall u v, u < n g -> v < n g ->
    mget (build_weight_matrix g) u v =
    if u =? v then 0%Z else first_weight (head g u) v.
Proof. exact (build_capacity_matrix_spec g Hwf). Qed.

Lemma first_weight_sym : forall a b, a <> b ->
  first_weight (head g a) b = first_weight (head g b) a.
Proof.
  intros a b Hab. assert (Hc := wf_count_sym g a b Hwf Hab). unfold count_neighbor in Hc.
  destruct (count_to (head g a) b) as [|c] eqn:E.
  - rewrite (first_weight_absent _ _ E). symmetry. apply first_weight_absent. lia.
  - destruct (first_weight_in (head g a) b) as [e [Hin [Hto He]]]; [lia|].
    rewrite <- He. destruct e as [t x]. cbn [to weight] in *. subst t.
    apply (wf_sym Hwf a b x Hab) in Hin.
    assert (Hs := wf_simple Hwf b a (not_eq_sym Hab)). unfold count_neighbor in Hs.
    symmetry. apply (first_weight_unique (head g b) (mkEdgeNode a x) Hs Hin).
Qed.

Lemma weight_matrix_sym : forall a b,
  mget (build_weight_matrix g) a b = mget (build_weight_matrix g) b a.
Proof.
  intros a b. destruct build_weight_matrix_spec as [Hdim Hent].
  destruct (Nat.lt_ge_cases a (n g)) as [Ha|Ha];
    [destruct (Nat.lt_ge_cases b (n g)) as [Hb|Hb]|].
  - rewrite (Hent a b Ha Hb), (Hent b a Hb Ha). rewrite (Nat.eqb_sym b a).
    destruct (Nat.eqb_spec a b) as [E|E]; [reflexivity|]. apply first_weight_sym. exact E.
  - rewrite !(mget_out_of_range (n g)) by (auto; lia). reflexivity.
  - rewrite !(mget_out_of_range (n g)) by (auto; lia). reflexivity.
Qed.

Lemma weight_matrix_edge : forall a b,
  (0 < mget (build_weight_matrix g) a b)%Z ->
  a < n g /\ b < n g /\ a <> b /\ adjacent g a b.
Proof.
  intros a b H. destruct build_weight_matrix_spec as [Hdim Hent].
  assert (Hr : a < n g /\ b < n g).
  { destruct (Nat.lt_ge_cases a (n g)) as [Ha|Ha];
      [destruct (Nat.lt_ge_cases b (n g)) as [Hb|Hb]; [auto|]|];
      rewrite (mget_out_of_range (n g)) in H by (auto; lia); lia. }
  destruct Hr as [Ha Hb]. split; [exact Ha|]. split; [exact Hb|]. split.
  - intros ->. rewrite (Hent b b Hb Hb), Nat.eqb_refl in H. lia.
  - apply (capacity_adjacent g Hwf a b Ha Hb). exact H.
Qed.

Lemma weight_matrix_get : forall a b, a < n g -> b < n g -> a <> b ->
  mget (build_weight_matrix g) a b
  = graph_get_edge_weight (Some g) (Z.of_nat a) (Z.of_nat b).
Proof.
  intros a b Ha Hb Hab.
  change (build_weight_matrix g) with (build_capacity_matrix g).
  rewrite (capacity_entry g Hwf a b Ha Hb).
  destruct (Nat.eqb_spec a b); [contradiction|reflexivity].
Qed.

Lemma weight_matrix_pos : weights_ge_1 g -> forall a b,
  a <> b -> adjacent g a b -> (0 < mget (build_weight_matrix g) a b)%Z.
Proof.
  intros Hw a b Hab Hadj. destruct (adjacent_range g a b Hwf Hadj) as [Ha Hb].
  rewrite (proj2 build_weight_matrix_spec a b Ha Hb).
  destruct (Nat.eqb_spec a b); [contradiction|].
  apply adjacent_count in Hadj. unfold count_neighbor in Hadj.
  destruct (first_weight_in (head g a) b Hadj) as [e [Hin [_ He]]].
  rewrite <- He. assert (H1 := Hw a e Hin). lia.
Qed.

(** The edges emitted when every vertex is in the tree. *)
Lemma emitted_edges : forall st tr,
  prim_inv (build_weight_matrix g) (n g) (fun _ _ => True) st tr ->
  (forall x, x < n g -> nth x (pr_in_mst st) false = true) ->
  filter (fun v => negb (nth v (pr_parent st) (-1) =? -1)%Z) (seq 1 (n g - 1))
  = seq 1 (n g - 1) /\
  Permutation (map (fun v => (Z.to_nat (nth v (pr_parent st) (-1)%Z), v)) (seq 1 (n g - 1)))
              tr.
Proof.
  intros st tr Hinv Hall.
  assert (Hpar : forall v, In v (seq 1 (n g - 1)) ->
            exists p, In (p, v) tr /\ nth v (pr_parent st) (-1)%Z = Z.of_nat p).
  { intros v Hv. apply in_seq in Hv.
    assert (Ht : in_tree tr v = true).
    { rewrite <- (pi_in _ _ _ _ _ Hinv v) by lia. apply Hall. lia. }
    apply in_tree_true in Ht. destruct Ht as [Ht|[p Hp]]; [lia|].
    exists p. split; [exact Hp|]. apply (pi_par_tree _ _ _ _ _ Hinv p v Hp). }
  split.
  - apply filter_all. intros v Hv. destruct (Hpar v Hv) as [p [_ Hp]]. rewrite Hp.
    apply negb_true_iff. apply Z.eqb_neq. lia.
  - assert (Ht := pi_trace _ _ _ _ _ Hinv).
    apply NoDup_Permutation.
    + apply Finite.Injective_map_NoDup_in; [|apply seq_NoDup].
      intros x y _ _ E. injection E as _ E. exact E.
    + apply (NoDup_map_inv undirected). apply (prim_trace_nodup _ _ tr Ht).
    + intros [p v]. rewrite in_map_iff. split.
      * intros [x [E Hx]]. destruct (Hpar x Hx) as [p' [Hin Hp']].
        injection E as <- <-. rewrite Hp', Nat2Z.id. exact Hin.
      * intros Hin. exists v.
        rewrite (pi_par_tree _ _ _ _ _ Hinv p v Hin), Nat2Z.id. split; [reflexivity|].
        apply in_seq. assert (H0 := prim_trace_nonroot _ _ _ Ht p v Hin).
        destruct (prim_trace_edges_ok _ _ (wf_pos Hwf) tr Ht p v Hin) as [_ [Hv _]]. lia.
Qed.

End MstOnGraph.

(** The result when every vertex was reached. *)
Lemma mst_connected_result : forall g st tr,
  graph_wf g ->
  prim_inv (build_weight_matrix g) (n g) (fun _ _ => True) st tr ->
  (forall x, x < n g -> nth x (pr_in_mst st) false = true) ->
  let W := build_weight_matrix g in
  let pairs := map (fun v => (Z.to_nat (nth v (pr_parent st) (-1)%Z), v)) (seq 1 (n g - 1)) in
  spanning_tree g pairs /\
  (forall a b, In (a, b) pairs ->
     mget W a b = graph_get_edge_weight (Some g) (Z.of_nat a) (Z.of_nat b)) /\
  (weights_ge_1 g -> forall T, spanning_tree g T ->
     (edges_weight (mget W) pairs <= tree_weight g T)%Z).
Proof.
  intros g st tr Hwf Hinv Hall W pairs.
  destruct (emitted_edges g Hwf st tr Hinv Hall) as [_ Hperm]. fold pairs in Hperm.
  assert (Hpos := wf_pos Hwf).
  assert (Ht := pi_trace _ _ _ _ _ Hinv).
  assert (Hedge : forall a b, In (a, b) pairs ->
            a < n g /\ b < n g /\ a <> b /\ adjacent g a b).
  { intros a b Hin. apply (Permutation_in _ Hperm) in Hin.
    destruct (prim_trace_edges_ok _ _ Hpos tr Ht a b Hin) as [_ [_ Hw]].
    apply (weight_matrix_edge g Hwf a b Hw). }
  split; [|split].
  - split; [|split].
    + intros a b Hin. destruct (Hedge a b Hin) as [_ [_ [H1 H2]]]. auto.
    + unfold pairs. rewrite length_map, length_seq. reflexivity.
    + intros x Hx. apply (joined_replace tr).
      * intros a b [Hab|Hab]; apply joined_one; [left|right];
          apply (Permutation_in _ (Permutation_sym Hperm)); exact Hab.
      * apply (prim_trace_joined _ _ tr Ht).
        rewrite <- (pi_in _ _ _ _ _ Hinv x Hx). apply Hall. exact Hx.
  - intros a b Hin. destruct (Hedge a b Hin) as [Ha [Hb [Hab _]]].
    apply (weight_matrix_get g Hwf a b Ha Hb Hab).
  - intros Hw T [HT1 [_ HT3]].
    unfold edges_weight. fold (zsum_list (fun e => mget W (fst e) (snd e)) pairs).
    rewrite (zsum_list_perm _ _ _ _ Hperm).
    apply Z.le_trans with (edges_weight (mget W) T).
    + apply (prim_trace_minimal (mget W) (n g) Hpos (weight_matrix_sym g Hwf) tr Ht).
      * intros a b Hin. destruct (HT1 a b Hin) as [Hab Hadj].
        destruct (adjacent_range g a b Hwf Hadj) as [Ha Hb].
        split; [exact Ha|]. split; [exact Hb|].
        apply (weight_matrix_pos g Hwf Hw a b Hab Hadj).
      * exact HT3.
    + unfold tree_weight, edges_weight.
      fold (zsum_list (fun e => mget W (fst e) (snd e)) T).
      rewrite (zsum_list_ext _ (fun e => mget W (fst e) (snd e))
                 (fun e => graph_get_edge_weight (Some g) (Z.of_nat (fst e))
                             (Z.of_nat (snd e))) T); [lia|].
      intros [a b] Hin. cbn [fst snd]. destruct (HT1 a b Hin) as [Hab Hadj].
      destruct (adjacent_range g a b Hwf Hadj) as [Ha Hb].
      apply (weight_matrix_get g Hwf a b Ha Hb Hab).
Qed.

(** C3 (as amended).  On every graph [graph_mst_prim] returns a result.
    Its total weight is the sum of the weights of the emitted edges as a
    32-bit [int] sum leaves it: the sum itself when the sum is at most
    [INT_MAX] (every emitted weight is positive).  The number of emitted
    edges is [n - 1] exactly when [is_connected] is set, and then the
    emitted edges form a spanning tree of the graph, each with the weight of
    its edge.  When every weight of the graph is positive, the sum of the
    emitted weights, and with it the total weight, is at most the weight of
    every spanning tree of the graph. *)
Theorem mst_prim_correct : forall g, graph_wf g ->
  exists r, graph_mst_prim (Some g) = Some (Some r) /\
    total_weight r = wrap32 (zsum_list mst_weight (mst_edges r)) /\
    (forall e, In e (mst_edges r) -> (0 < mst_weight e)%Z) /\
    ((zsum_list mst_weight (mst_edges r) <= INT_MAX)%Z ->
     total_weight r = zsum_list mst_weight (mst_edges r)) /\
    num_edges r = Z.of_nat (length (mst_edges r)) /\
    (length (mst_edges r) = n g - 1 <-> is_connected r = true) /\
    (is_connected r = true ->
       spanning_tree g (mst_pairs r) /\
       (forall e, In e (mst_edges r) ->
          mst_weight e
          = graph_get_edge_weight (Some g) (Z.of_nat (mst_u e)) (Z.of_nat (mst_v e))) /\
       (weights_ge_1 g -> forall T, spanning_tree g T ->
          (zsum_list mst_weight (mst_edges r) <= tree_weight g T)%Z /\
          (total_weight r <= tree_weight g T)%Z)).
Proof.
  intros g Hwf. assert (Hpos := wf_pos Hwf).
  unfold graph_mst_prim.
  destruct (Nat.ltb_spec (n g) 1) as [H1|H1]; [lia|].
  destruct (Nat.eqb_spec (n g) 1) as [E1|E1].
  - exists (mkMSTResult [] 0 0 true).
    cbn [mst_edges total_weight num_edges is_connected length].
    split; [reflexivity|]. split; [reflexivity|]. split; [intros e []|].
    split; [reflexivity|]. split; [reflexivity|].
    split; [rewrite E1; split; reflexivity|]. intros _. split; [|split].
    + split; [intros a b []|]. split; [simpl; lia|].
      intros x Hx. replace x with 0 by lia. constructor.
    + intros e [].
    + intros _ T [_ [HT _]]. destruct T as [|e T]; [|simpl in HT; lia].
      unfold tree_weight, zsum_list. simpl. lia.
  - destruct (prim_loop_start (build_weight_matrix g) (n g) Hpos)
      as [r0 [pq0 [Hpush [st [tr [Hloop [Hinv _]]]]]]].
    rewrite Hpush, Hloop.
    destruct (Nat.eqb_spec (vertices_in_mst (pr_in_mst st) (n g)) (n g)) as [Eall|Enot];
      cbn [negb].
    + assert (Eall' := proj1 (vertices_in_mst_all _ _) Eall). clear Eall.
      rename Eall' into Eall.
      destruct (emitted_edges g Hwf st tr Hinv Eall) as [Hfilter Hperm].
      destruct (mst_connected_result g st tr Hwf Hinv Eall) as [Hsp [Hwt Hmin]].
      assert (Ht := pi_trace _ _ _ _ _ Hinv).
      unfold emit_edges. rewrite emit_edges_fold by reflexivity. rewrite Hfilter. cbn [app].
      eexists. split; [reflexivity|].
      cbn [mst_edges total_weight num_edges is_connected]. unfold mst_pairs.
      cbn [mst_edges]. rewrite map_map. cbn [mst_u mst_v].
      rewrite zsum_list_map. cbn [mst_weight]. rewrite !length_map, length_seq.
      set (S := zsum_list (fun v => mget (build_weight_matrix g)
                                      (Z.to_nat (nth v (pr_parent st) (-1)%Z)) v)
                  (seq 1 (n g - 1))).
      assert (Hp : forall v, In v (seq 1 (n g - 1)) ->
                (0 < mget (build_weight_matrix g)
                       (Z.to_nat (nth v (pr_parent st) (-1)%Z)) v)%Z).
      { intros v Hv.
        assert (Hin : In (Z.to_nat (nth v (pr_parent st) (-1)%Z), v)
                        (map (fun v => (Z.to_nat (nth v (pr_parent st) (-1)%Z), v))
                           (seq 1 (n g - 1)))).
        { apply in_map_iff. exists v. split; [reflexivity|exact Hv]. }
        apply (Permutation_in _ Hperm) in Hin.
        destruct (prim_trace_edges_ok _ _ Hpos tr Ht _ _ Hin) as [_ [_ Hw]]. exact Hw. }
      assert (HS0 : (0 <= S)%Z).
      { apply zsum_list_nonneg. intros v Hv. specialize (Hp v Hv). lia. }
      split; [reflexivity|]. split.
      { intros e He. apply in_map_iff in He. destruct He as [v [<- Hv]].
        cbn [mst_weight]. apply Hp. exact Hv. }
      split.
      { intros Hle. change (0 + S)%Z with S. apply wrap32_id. unfold INT_MIN. lia. }
      split; [reflexivity|]. split; [split; reflexivity|].
      intros _. split; [exact Hsp|]. split.
      * intros e He. apply in_map_iff in He. destruct He as [v [<- Hv]].
        cbn [mst_weight mst_u mst_v]. apply Hwt.
        apply in_map_iff. exists v. split; [reflexivity|exact Hv].
      * intros Hw T HT. specialize (Hmin Hw T HT).
        unfold edges_weight in Hmin.
        fold (zsum_list (fun e => mget (build_weight_matrix g) (fst e) (snd e))
                (map (fun v => (Z.to_nat (nth v (pr_parent st) (-1)%Z), v))
                   (seq 1 (n g - 1)))) in Hmin.
        rewrite zsum_list_map in Hmin. cbn [fst snd] in Hmin. fold S in Hmin.
        split; [exact Hmin|].
        change (0 + S)%Z with S.
        assert (Hle := wrap32_le S). unfold INT_MIN in Hle. lia.
    + exists (mkMSTResult [] 0 0 false).
      cbn [mst_edges total_weight num_edges is_connected length].
      split; [reflexivity|]. split; [reflexivity|]. split; [intros e []|].
      split; [reflexivity|]. split; [reflexivity|].
      split; [split; [lia|discriminate]|]. discriminate.
Qed.

Lemma g_weighted_triangle_wf : graph_wf g_weighted_triangle.
Proof. apply apply_ops_wf. apply (graph_create_wf 3). reflexivity. Qed.

Lemma g_weighted_triangle_weights : weights_ge_1 g_weighted_triangle.
Proof.
  intros u e H. unfold head in H.
  do 3 (destruct u as [|u]; [cbv in H; intuition (subst; simpl; lia)|]).
  cbv in H. destruct u; destruct H.
Qed.

Lemma mst_prim_correct_witness :
  exists r, graph_mst_prim (Some g_weighted_triangle) = Some (Some r) /\
    total_weight r = wrap32 (zsum_list mst_weight (mst_edges r)) /\
    (forall e, In e (mst_edges r) -> (0 < mst_weight e)%Z) /\
    ((zsum_list mst_weight (mst_edges r) <= INT_MAX)%Z ->
     total_weight r = zsum_list mst_weight (mst_edges r)) /\
    num_edges r = Z.of_nat (length (mst_edges r)) /\
    (length (mst_edges r) = n g_weighted_triangle - 1 <-> is_connected r = true) /\
    (is_connected r = true ->
       spanning_tree g_weighted_triangle (mst_pairs r) /\
       (forall e, In e (mst_edges r) ->
          mst_weight e
          = graph_get_edge_weight (Some g_weighted_triangle)
              (Z.of_nat (mst_u e)) (Z.of_nat (mst_v e))) /\
       (weights_ge_1 g_weighted_triangle ->
        forall T, spanning_tree g_weighted_triangle T ->
          (zsum_list mst_weight (mst_edges r) <= tree_weight g_weighted_triangle T)%Z /\
          (total_weight r <= tree_weight g_weighted_triangle T)%Z)).
Proof. apply (mst_prim_correct g_weighted_triangle). exact g_weighted_triangle_wf. Defined.

(** C3 as stated fails in two ways.  With a negative weight the emitted
    tree is heavier than another spanning tree: the edge of weight -5 is
    never taken.  And on the path whose two edges weigh [INT_MAX - 1] the
    [int] sum wraps around: [total_weight] is -4, not the sum 4294967292 of
    the weights of the two emitted edges. *)
Lemma mst_prim_counterexample :
  (exists r T,
     graph_mst_prim (Some g_negative_triangle) = Some (Some r) /\
     is_connected r = true /\
     spanning_tree g_negative_triangle T /\
     (tree_weight g_negative_triangle T < total_weight r)%Z) /\
  (exists r,
     graph_mst_prim (Some g_heavy_path) = Some (Some r) /\
     is_connected r = true /\
     total_weight r = (-4)%Z /\
     zsum_list mst_weight (mst_edges r) = 4294967292%Z /\
     total_weight r <> zsum_list mst_weight (mst_edges r)).
Proof.
  split.
  - exists (mkMSTResult [mkMSTEdge 0 1 1; mkMSTEdge 1 2 1] 2 2 true), [(0, 2); (0, 1)].
    split; [reflexivity|]. split; [reflexivity|]. split; [|reflexivity].
    split; [|split].
    + intros a b [E|[E|[]]]; injection E as <- <-; (split; [discriminate|]); cbv; auto.
    + reflexivity.
    + intros x Hx. simpl in Hx.
      destruct x as [|[|[|x]]]; [constructor| | |lia].
      * apply joined_one. left. right. left. reflexivity.
      * apply joined_one. left. left. reflexivity.
  - exists (mkMSTResult [mkMSTEdge 0 1 2147483646; mkMSTEdge 1 2 2147483646] 2 (-4) true).
    split; [vm_compute; reflexivity|]. split; [reflexivity|]. split; [reflexivity|].
    split; [reflexivity|]. cbn. discriminate.
Qed.

Example mst_negative_triangle_light_tree :
  tree_weight g_negative_triangle [(0, 2); (0, 1)] = (-4)%Z.
Proof. reflexivity. Qed.

(** ** More of the graph module ([graph.c]) *)

(** *** Inserting an edge and reading it back *)

Lemma first_weight_app : forall l1 l2 v,
  first_weight (l1 ++ l2) v
  = if 0 <? count_to l1 v then first_weight l1 v else first_weight l2 v.
Proof.
  induction l1 as [|e l1 IH]; intros l2 v; [reflexivity|].
  cbn [app first_weight count_to]. destruct (to e =? v); [reflexivity|]. apply IH.
Qed.

(** X1.  After a successful [graph_add_weighted_edge] the weight [w] is read
    back from both ends (from the vertex itself for a self-loop), and every
    other pair of vertices reads what it read before. *)
Theorem add_weighted_edge_then_weight : forall m1 m2 g u v w g',
  graph_wf g ->
  graph_add_weighted_edge m1 m2 g u v w = (RC_OK, g') ->
  graph_get_edge_weight (Some g') u v = w /\
  graph_get_edge_weight (Some g') v u = w /\
  (forall a b, ~ (a = u /\ b = v) -> ~ (a = v /\ b = u) ->
     graph_get_edge_weight (Some g') a b = graph_get_edge_weight (Some g) a b).
Proof.
  intros m1 m2 g u v w g' Hwf Hadd.
  destruct (add_ok_heads _ _ _ _ _ _ _ Hwf Hadd) as [Hu [Hv [Hn Hh]]].
  destruct (add_ok_inv _ _ _ _ _ _ _ Hadd) as [Bu [Bv _]].
  assert (Bg : forall x, in_bounds (Some g') x = in_bounds (Some g) x).
  { intros x. cbn [in_bounds]. rewrite Hn. reflexivity. }
  destruct (in_bounds_nat _ _ Bu) as [_ Eu]. destruct (in_bounds_nat _ _ Bv) as [_ Ev].
  assert (Hget : forall a b, in_bounds (Some g) a = true -> in_bounds (Some g) b = true ->
            graph_get_edge_weight (Some g') a b
            = first_weight (head g' (Z.to_nat a)) (Z.to_nat b)).
  { intros a b Ba Bb. unfold graph_get_edge_weight. rewrite !Bg, Ba, Bb. reflexivity. }
  split; [|split].
  - rewrite Hget by assumption. rewrite Hh.
    destruct (Nat.eqb_spec (Z.to_nat u) (Z.to_nat v)) as [E|E].
    + rewrite Nat.eqb_refl. cbn [app first_weight to weight]. rewrite E, Nat.eqb_refl.
      reflexivity.
    + rewrite Nat.eqb_refl. cbn [app first_weight to weight]. rewrite Nat.eqb_refl.
      reflexivity.
  - rewrite Hget by assumption. rewrite Hh.
    destruct (Nat.eqb_spec (Z.to_nat u) (Z.to_nat v)) as [E|E].
    + rewrite <- E, Nat.eqb_refl. cbn [app first_weight to weight]. rewrite Nat.eqb_refl.
      reflexivity.
    + rewrite Nat.eqb_refl. destruct (Nat.eqb_spec (Z.to_nat v) (Z.to_nat u)) as [E'|_];
        [congruence|].
      cbn [app first_weight to weight]. rewrite Nat.eqb_refl. reflexivity.
  - intros a b H1 H2. unfold graph_get_edge_weight. rewrite !Bg.
    destruct (in_bounds (Some g) a) eqn:Ba; [|reflexivity].
    destruct (in_bounds (Some g) b) eqn:Bb; [|reflexivity]. cbn [negb orb].
    destruct (in_bounds_nat _ _ Ba) as [_ Ea]. destruct (in_bounds_nat _ _ Bb) as [_ Eb].
    rewrite Hh.
    assert (Hne1 : ~ (Z.to_nat a = Z.to_nat u /\ Z.to_nat b = Z.to_nat v)).
    { intros [E1 E2]. apply H1. split; congruence. }
    assert (Hne2 : ~ (Z.to_nat a = Z.to_nat v /\ Z.to_nat b = Z.to_nat u)).
    { intros [E1 E2]. apply H2. split; congruence. }
    destruct (Nat.eqb_spec (Z.to_nat u) (Z.to_nat v)) as [E|E].
    + destruct (Nat.eqb_spec (Z.to_nat a) (Z.to_nat u)) as [E1|E1]; [|reflexivity].
      cbn [app first_weight to weight].
      destruct (Nat.eqb_spec (Z.to_nat u) (Z.to_nat b)) as [E2|E2]; [|reflexivity].
      exfalso. apply Hne1. split; congruence.
    + destruct (Nat.eqb_spec (Z.to_nat a) (Z.to_nat u)) as [E1|E1];
        destruct (Nat.eqb_spec (Z.to_nat a) (Z.to_nat v)) as [E2|E2];
        cbn [app first_weight to weight]; try congruence; try reflexivity.
      * destruct (Nat.eqb_spec (Z.to_nat v) (Z.to_nat b)) as [E3|E3]; [|reflexivity].
        exfalso. apply Hne1. split; congruence.
      * destruct (Nat.eqb_spec (Z.to_nat u) (Z.to_nat b)) as [E3|E3]; [|reflexivity].
        exfalso. apply Hne2. split; congruence.
Qed.

Lemma add_weighted_edge_then_weight_witness :
  graph_get_edge_weight (Some (snd (graph_add_weighted_edge true true g_two 0 1 7))) 0 1 = 7%Z /\
  graph_get_edge_weight (Some (snd (graph_add_weighted_edge true true g_two 0 1 7))) 1 0 = 7%Z /\
  (forall a b, ~ (a = 0%Z /\ b = 1%Z) -> ~ (a = 1%Z /\ b = 0%Z) ->
     graph_get_edge_weight (Some (snd (graph_add_weighted_edge true true g_two 0 1 7))) a b
     = graph_get_edge_weight (Some g_two) a b).
Proof.
  apply (add_weighted_edge_then_weight true true g_two 0 1 7).
  - exact g_two_wf.
  - reflexivity.
Defined.

Lemma edge_exists_simple_adjacent : forall g a b,
  graph_wf g -> (edge_exists_simple g a b = true <-> adjacent g a b).
Proof.
  intros g a b Hwf. rewrite adjacent_count. unfold edge_exists_simple.
  destruct (Nat.eqb_spec a b) as [E|E].
  - subst b. rewrite Nat.leb_le. destruct (wf_loop Hwf a) as [H|H]; rewrite H; lia.
  - rewrite Nat.leb_le. lia.
Qed.

(** X2.  The answer of [graph_add_weighted_edge] on a well-formed graph: out
    of bounds exactly when [u] or [v] is not a vertex, whatever else holds;
    duplicate exactly when both are vertices and the edge is there already,
    in either direction and whatever the weights; success exactly when both
    are vertices, the edge is new and both allocations succeed.  Every answer
    but success leaves the graph as it was. *)
Theorem add_weighted_edge_return_code : forall m1 m2 g u v w,
  graph_wf g ->
  let r := graph_add_weighted_edge m1 m2 g u v w in
  let vertices := ((0 <= u < Z.of_nat (n g))%Z /\ (0 <= v < Z.of_nat (n g))%Z) in
  (fst r = RC_BOUNDS <-> ~ vertices) /\
  (fst r = RC_DUP <->
   vertices /\ (adjacent g (Z.to_nat u) (Z.to_nat v) \/ adjacent g (Z.to_nat v) (Z.to_nat u))) /\
  (fst r = RC_OK <->
   vertices /\ ~ adjacent g (Z.to_nat u) (Z.to_nat v) /\ m1 = true /\ m2 = true) /\
  (fst r <> RC_OK -> snd r = g).
Proof.
  intros m1 m2 g u v w Hwf r vertices.
  assert (Hunch := add_failure_unchanged m1 m2 g u v w). fold r in Hunch.
  assert (Hadj := edge_exists_simple_adjacent g (Z.to_nat u) (Z.to_nat v) Hwf).
  assert (Hsym : adjacent g (Z.to_nat v) (Z.to_nat u) -> adjacent g (Z.to_nat u) (Z.to_nat v))
    by (apply adjacent_sym; exact Hwf).
  assert (Hb : in_bounds (Some g) u = true /\ in_bounds (Some g) v = true <-> vertices).
  { unfold vertices. rewrite !in_bounds_true. tauto. }
  unfold r in *. clear r. unfold graph_add_weighted_edge in *.
  unfold RC_OK, RC_BOUNDS, RC_DUP, RC_NOMEM in *.
  destruct (in_bounds (Some g) u) eqn:Bu; [destruct (in_bounds (Some g) v) eqn:Bv|];
    cbn [negb orb fst snd] in *.
  - assert (V : vertices) by (apply Hb; auto).
    destruct (edge_exists_simple g (Z.to_nat u) (Z.to_nat v)) eqn:Ee; cbn [fst snd] in *.
    + assert (Ha : adjacent g (Z.to_nat u) (Z.to_nat v)) by (apply Hadj; reflexivity).
      split; [split; [discriminate|tauto]|].
      split; [split; [tauto|reflexivity]|].
      split; [split; [discriminate|tauto]|]. exact Hunch.
    + assert (Ha : ~ adjacent g (Z.to_nat u) (Z.to_nat v)).
      { intros H. apply Hadj in H. discriminate. }
      destruct (Z.to_nat u =? Z.to_nat v); destruct m1; destruct m2;
        cbn [negb orb fst snd] in *;
        (split; [split; [discriminate|tauto]|]);
        (split; [split; [discriminate|tauto]|]);
        (split; [|exact Hunch]);
        (split; [first [discriminate
                       |intros _; split; [exact V|split; [exact Ha|split; reflexivity]]]
                |first [reflexivity|intros [_ [_ [H1 H2]]]; discriminate]]).
  - assert (NV : ~ vertices) by (intros V; apply Hb in V; destruct V; discriminate).
    split; [split; [auto|reflexivity]|].
    split; [split; [discriminate|tauto]|].
    split; [split; [discriminate|tauto]|]. auto.
  - assert (NV : ~ vertices) by (intros V; apply Hb in V; destruct V; discriminate).
    split; [split; [auto|reflexivity]|].
    split; [split; [discriminate|tauto]|].
    split; [split; [discriminate|tauto]|]. auto.
Qed.

Lemma add_weighted_edge_return_code_witness :
  let r := graph_add_weighted_edge true true g_two_edge 1 0 9 in
  let vertices := ((0 <= 1 < Z.of_nat (n g_two_edge))%Z /\ (0 <= 0 < Z.of_nat (n g_two_edge))%Z) in
  (fst r = RC_BOUNDS <-> ~ vertices) /\
  (fst r = RC_DUP <->
   vertices /\ (adjacent g_two_edge (Z.to_nat 1) (Z.to_nat 0)
                \/ adjacent g_two_edge (Z.to_nat 0) (Z.to_nat 1))) /\
  (fst r = RC_OK <->
   vertices /\ ~ adjacent g_two_edge (Z.to_nat 1) (Z.to_nat 0) /\ true = true /\ true = true) /\
  (fst r <> RC_OK -> snd r = g_two_edge).
Proof.
  apply (add_weighted_edge_return_code true true g_two_edge 1 0 9).
  apply add_wf. exact g_two_wf.
Defined.

(** *** Weights read from either end *)

(** X3.  On a graph made by [graph_create] and any sequence of
    [graph_add_edge] and [graph_add_weighted_edge] calls, whatever their
    arguments and results, [graph_get_edge_weight] answers the same for
    [(u, v)] and for [(v, u)]. *)
Theorem built_graph_weight_symmetric : forall n0 g os u v,
  graph_create n0 = Some g ->
  graph_get_edge_weight (Some (apply_ops g os)) u v
  = graph_get_edge_weight (Some (apply_ops g os)) v u.
Proof.
  intros n0 g os u v Hc.
  assert (Hwf : graph_wf (apply_ops g os)).
  { apply apply_ops_wf. exact (graph_create_wf _ _ Hc). }
  unfold graph_get_edge_weight.
  destruct (in_bounds (Some (apply_ops g os)) u) eqn:Bu;
    destruct (in_bounds (Some (apply_ops g os)) v) eqn:Bv; cbn [negb orb]; try reflexivity.
  destruct (Nat.eq_dec (Z.to_nat u) (Z.to_nat v)) as [E|E].
  - rewrite E. reflexivity.
  - apply first_weight_sym; assumption.
Qed.

Lemma built_graph_weight_symmetric_witness :
  graph_get_edge_weight
    (Some (apply_ops (mkGraph 3 [[]; []; []])
                     [AddWeightedEdge true true 0 2 4; AddEdge true true 2 1])) 2 0
  = graph_get_edge_weight
      (Some (apply_ops (mkGraph 3 [[]; []; []])
                       [AddWeightedEdge true true 0 2 4; AddEdge true true 2 1])) 0 2.
Proof.
  apply (built_graph_weight_symmetric 3). reflexivity.
Defined.

(** *** [has_weights] *)

(** X4.  [has_weights] after a successful [graph_add_weighted_edge]: true
    when it was true before or the new weight is not 1.  So [graph_print]
    shows the weights from the first edge of a weight other than 1 on. *)
Theorem has_weights_after_add : forall m1 m2 g u v w g',
  graph_wf g ->
  graph_add_weighted_edge m1 m2 g u v w = (RC_OK, g') ->
  has_weights (Some g') = has_weights (Some g) || negb (w =? 1)%Z.
Proof.
  intros m1 m2 g u v w g' Hwf Hadd.
  destruct (add_ok_heads _ _ _ _ _ _ _ Hwf Hadd) as [Hu [Hv [Hn Hh]]].
  unfold has_weights. rewrite Hn.
  set (nb := fun e : EdgeNode => negb (weight e =? 1)%Z).
  assert (Hx : forall x, existsb nb (head g' x)
                 = ((x =? Z.to_nat u) || (x =? Z.to_nat v)) && negb (w =? 1)%Z
                   || existsb nb (head g x)).
  { intros x. rewrite Hh.
    destruct (Nat.eqb_spec (Z.to_nat u) (Z.to_nat v)) as [E|E].
    - rewrite <- E. rewrite existsb_app.
      destruct (x =? Z.to_nat u); cbn [existsb orb andb]; unfold nb at 1 2; cbn [weight];
        destruct (negb (w =? 1)%Z); reflexivity.
    - rewrite !existsb_app.
      destruct (x =? Z.to_nat u); destruct (x =? Z.to_nat v); cbn [existsb orb andb];
        unfold nb at 1; cbn [weight]; try (unfold nb at 1; cbn [weight]);
        destruct (negb (w =? 1)%Z); reflexivity. }
  apply Bool.eq_iff_eq_true. rewrite orb_true_iff, !existsb_exists. split.
  - intros [i [Hi He]]. rewrite Hx in He. apply orb_true_iff in He.
    destruct He as [He|He].
    + right. apply andb_true_iff in He. apply He.
    + left. exists i. split; assumption.
  - intros [[i [Hi He]]|Hw].
    + exists i. split; [exact Hi|]. rewrite Hx, He. apply orb_true_r.
    + exists (Z.to_nat u). split; [apply in_seq; lia|].
      rewrite Hx, Nat.eqb_refl, Hw. reflexivity.
Qed.

Lemma has_weights_after_add_witness :
  has_weights (Some (snd (graph_add_weighted_edge true true g_two 0 1 7)))
  = has_weights (Some g_two) || negb (7 =? 1)%Z.
Proof.
  apply (has_weights_after_add true true g_two 0 1 7).
  - exact g_two_wf.
  - reflexivity.
Defined.

(** *** The vector [Vec] *)

Lemma upd_middle : forall (A : Type) (l1 l2 : list A) x y,
  upd (l1 ++ x :: l2) (length l1) y = l1 ++ y :: l2.
Proof.
  induction l1 as [|a l1 IH]; intros l2 x y; cbn [app length upd]; [reflexivity|].
  rewrite IH. reflexivity.
Qed.

Lemma firstn_upd_ge : forall (A : Type) (l : list A) k i x,
  k <= i -> firstn k (upd l i x) = firstn k l.
Proof.
  induction l as [|a l IH]; intros [|k] [|i] x H; cbn [upd firstn]; try reflexivity; try lia.
  rewrite IH by lia. reflexivity.
Qed.

Lemma skipn_upd_lt : forall (A : Type) (l : list A) k i x,
  i < k -> skipn k (upd l i x) = skipn k l.
Proof.
  induction l as [|a l IH]; intros [|k] [|i] x H; cbn [upd skipn]; try reflexivity; try lia.
  apply IH. lia.
Qed.

Lemma firstn_upd_snoc : forall (A : Type) (l : list A) k x,
  k < length l -> firstn (k + 1) (upd l k x) = firstn k l ++ [x].
Proof.
  induction l as [|a l IH]; intros [|k] x H; cbn [length] in H; try lia.
  - reflexivity.
  - cbn [upd Nat.add firstn app]. rewrite IH by lia. reflexivity.
Qed.

Lemma v_reverse_loop_spec : forall fuel mid pre post,
  length mid < 2 * fuel ->
  v_reverse_loop fuel (pre ++ mid ++ post) (length pre) (length pre + length mid - 1)
  = Some (pre ++ rev mid ++ post).
Proof.
  induction fuel as [|fuel IH]; intros mid pre post Hf; [lia|].
  cbn [v_reverse_loop].
  destruct mid as [|x [|z mid0]].
  - cbn [length]. destruct (Nat.ltb_spec (length pre) (length pre + 0 - 1)); [lia|].
    reflexivity.
  - cbn [length]. destruct (Nat.ltb_spec (length pre) (length pre + 1 - 1)); [lia|].
    reflexivity.
  - destruct (@exists_last _ (z :: mid0)) as [m' [y Hy]]; [discriminate|]. rewrite Hy in *.
    clear Hy z mid0.
    cbn [length] in *. rewrite length_app in *. cbn [length] in *.
    destruct (Nat.ltb_spec (length pre) (length pre + S (length m' + 1) - 1)); [|lia].
    assert (Ea : pre ++ (x :: m' ++ [y]) ++ post = (pre ++ x :: m') ++ y :: post).
    { cbn [app]. rewrite <- !app_assoc. reflexivity. }
    assert (Ej : length pre + S (length m' + 1) - 1 = length (pre ++ x :: m')).
    { rewrite length_app. cbn [length]. lia. }
    unfold v_swap.
    replace (nth (length pre + S (length m' + 1) - 1) (pre ++ (x :: m' ++ [y]) ++ post) 0%Z)
      with y by (rewrite Ea, Ej, nth_middle; reflexivity).
    replace (nth (length pre) (pre ++ (x :: m' ++ [y]) ++ post) 0%Z)
      with x by (cbn [app]; rewrite nth_middle; reflexivity).
    replace (upd (pre ++ (x :: m' ++ [y]) ++ post) (length pre) y)
      with ((pre ++ y :: m') ++ y :: post)
      by (cbn [app]; rewrite upd_middle, <- !app_assoc; reflexivity).
    replace (length pre + S (length m' + 1) - 1) with (length (pre ++ y :: m'))
      by (rewrite length_app; cbn [length]; lia).
    rewrite upd_middle.
    replace ((pre ++ y :: m') ++ x :: post) with ((pre ++ [y]) ++ m' ++ x :: post)
      by (rewrite <- !app_assoc; reflexivity).
    replace (length pre + 1) with (length (pre ++ [y]))
      by (rewrite length_app; reflexivity).
    replace (length (pre ++ y :: m') - 1) with (length (pre ++ [y]) + length m' - 1)
      by (rewrite !length_app; cbn [length]; lia).
    rewrite IH by lia.
    cbn [rev]. rewrite rev_app_distr. cbn [rev app]. rewrite <- !app_assoc. reflexivity.
Qed.

Lemma v_reverse_spec : forall v,
  vec_ok v ->
  exists v', v_reverse v = Some v' /\
    v_items v' = rev (v_items v) /\
    v_n v' = v_n v /\ v_cap v' = v_cap v /\
    skipn (v_n v) (v_a v') = skipn (v_n v) (v_a v) /\
    vec_ok v'.
Proof.
  intros v [Hn Hl]. unfold v_reverse.
  assert (Hlen : length (firstn (v_n v) (v_a v)) = v_n v) by (apply firstn_length_le; lia).
  assert (Hs := v_reverse_loop_spec (v_n v + 1) (firstn (v_n v) (v_a v)) []
                  (skipn (v_n v) (v_a v))).
  rewrite Hlen in Hs. cbn [app length Nat.add] in Hs. rewrite firstn_skipn in Hs.
  rewrite Hs by lia.
  eexists. split; [reflexivity|]. unfold v_items, vec_ok. cbn [v_a v_n v_cap].
  assert (Hr : length (rev (firstn (v_n v) (v_a v))) = v_n v) by (rewrite length_rev; exact Hlen).
  split; [|split; [reflexivity|split; [reflexivity|split; [|split; [exact Hn|]]]]].
  - rewrite <- Hr at 1. rewrite firstn_app, firstn_all, Nat.sub_diag, firstn_O, app_nil_r.
    reflexivity.
  - rewrite <- Hr at 1. rewrite skipn_app, skipn_all, Nat.sub_diag. reflexivity.
  - rewrite length_app, Hr, length_skipn. lia.
Qed.

(** X5.  [v_reverse] returns, with the cells in use in the reverse order, and
    it changes neither the count, the capacity nor a cell beyond the count. *)
Theorem v_reverse_reverses : forall v,
  vec_ok v ->
  exists v', v_reverse v = Some v' /\
    v_items v' = rev (v_items v) /\
    v_n v' = v_n v /\ v_cap v' = v_cap v /\
    skipn (v_n v) (v_a v') = skipn (v_n v) (v_a v) /\
    vec_ok v'.
Proof. exact v_reverse_spec. Qed.

Lemma v_reverse_reverses_witness :
  exists v', v_reverse (mkVec [1; 2; 3; 9]%Z 3 4) = Some v' /\
    v_items v' = rev (v_items (mkVec [1; 2; 3; 9]%Z 3 4)) /\
    v_n v' = 3 /\ v_cap v' = 4 /\
    skipn 3 (v_a v') = skipn 3 [1; 2; 3; 9]%Z /\
    vec_ok v'.
Proof.
  apply (v_reverse_reverses (mkVec [1; 2; 3; 9]%Z 3 4)).
  split; cbn; [lia|reflexivity].
Defined.

Lemma v_push_spec : forall m v x,
  vec_ok v ->
  let r := v_push m v x in
  (fst r = 0%Z /\ vec_ok (snd r) /\
   v_items (snd r) = v_items v ++ [x] /\
   v_back (snd r) = x /\
   fst (v_pop (snd r)) = x /\
   v_items (snd (v_pop (snd r))) = v_items v)
  \/ (fst r = (-1)%Z /\ m = false /\ v_n v = v_cap v /\ snd r = v).
Proof.
  intros m v x [Hn Hl] r. unfold r, v_push, v_reserve.
  assert (Hgo : forall a c, length a = c -> v_n v < c -> firstn (v_n v) a = v_items v ->
            let v1 := mkVec (upd a (v_n v) x) (v_n v + 1) c in
            vec_ok v1 /\ v_items v1 = v_items v ++ [x] /\ v_back v1 = x /\
            fst (v_pop v1) = x /\ v_items (snd (v_pop v1)) = v_items v).
  { intros a c Ha Hc Hf v1. unfold v1, vec_ok, v_items, v_back, v_pop.
    cbn [v_a v_n v_cap fst snd]. rewrite Nat.add_sub.
    split; [split; [lia|rewrite upd_length; exact Ha]|].
    split; [rewrite firstn_upd_snoc by lia; rewrite Hf; reflexivity|].
    split; [apply nth_upd_same; lia|].
    split; [apply nth_upd_same; lia|].
    rewrite firstn_upd_ge by lia. exact Hf. }
  destruct (Nat.leb_spec (v_n v + 1) (v_cap v)) as [Hle|Hgt].
  - left. cbn [Z.eqb negb fst snd]. split; [reflexivity|].
    apply Hgo; [exact Hl|lia|reflexivity].
  - destruct m; cbn [negb].
    + left. cbn [Z.eqb negb fst snd v_a v_n v_cap]. split; [reflexivity|].
      set (c0 := if v_cap v =? 0 then 16 else v_cap v * 2).
      set (c := if c0 <? v_n v + 1 then v_n v + 1 else c0).
      assert (Hc : v_n v < c).
      { unfold c, c0. destruct (Nat.eqb_spec (v_cap v) 0);
          match goal with |- context [?a <? ?b] => destruct (Nat.ltb_spec a b) end; lia. }
      apply Hgo.
      * rewrite length_app, repeat_length. lia.
      * exact Hc.
      * unfold v_items. rewrite firstn_app. replace (v_n v - length (v_a v)) with 0 by lia.
        rewrite firstn_O, app_nil_r. reflexivity.
    + right. cbn [Z.eqb negb fst snd]. repeat split. lia.
Qed.

(** X6.  [v_push] on a vector in order either returns 0, and then [x] is the
    new last cell in use, the cells before it are as they were, and [v_back]
    and [v_pop] give [x] back, [v_pop] restoring the cells in use; or it
    returns -1, which happens only when the vector is full and [realloc]
    fails, and then the vector is as it was. *)
Theorem v_push_then_pop : forall m v x,
  vec_ok v ->
  let r := v_push m v x in
  (fst r = 0%Z /\ vec_ok (snd r) /\
   v_items (snd r) = v_items v ++ [x] /\
   v_back (snd r) = x /\
   fst (v_pop (snd r)) = x /\
   v_items (snd (v_pop (snd r))) = v_items v)
  \/ (fst r = (-1)%Z /\ m = false /\ v_n v = v_cap v /\ snd r = v).
Proof. exact v_push_spec. Qed.

Lemma v_push_then_pop_witness :
  let v := mkVec [] 0 0 in
  let r := v_push true v 5%Z in
  (fst r = 0%Z /\ vec_ok (snd r) /\
   v_items (snd r) = v_items v ++ [5%Z] /\
   v_back (snd r) = 5%Z /\
   fst (v_pop (snd r)) = 5%Z /\
   v_items (snd (v_pop (snd r))) = v_items v)
  \/ (fst r = (-1)%Z /\ true = false /\ v_n v = v_cap v /\ snd r = v).
Proof.
  apply (v_push_then_pop true (mkVec [] 0 0) 5%Z).
  split; cbn; [lia|reflexivity].
Defined.

(** *** More on [graph_find_euler_circuit_ok] *)

(** In a run without allocation failure the extraction never fails on a
    graph that passed the test. *)
Lemma find_euler_circuit_ok_iff_has : forall g,
  graph_wf g ->
  ((exists cycle, graph_find_euler_circuit_ok g = Some (Some cycle)) <->
   graph_has_euler_circuit_ok (Some g) = Some true) /\
  (graph_find_euler_circuit_ok g = Some None <->
   graph_has_euler_circuit_ok (Some g) = Some false).
Proof.
  intros g Hwf.
  destruct (graph_find_euler_circuit_spec g Hwf) as [b [r [Hb [Hr [Hf Ht]]]]].
  rewrite Hb, Hr. destruct b.
  - destruct (Ht eq_refl) as [c [-> _]]. split; split.
    + reflexivity.
    + intros _. exists c. reflexivity.
    + discriminate.
    + discriminate.
  - rewrite (Hf eq_refl). split; split.
    + intros [c Hc]. discriminate.
    + discriminate.
    + reflexivity.
    + reflexivity.
Qed.

Lemma find_seq_least : forall (f : nat -> bool) k a s,
  find f (seq a k) = Some s -> forall x, a <= x < s -> f x = false.
Proof.
  induction k as [|k IH]; intros a s H x Hx; [discriminate|].
  cbn [seq find] in H. destruct (f a) eqn:Ea.
  - injection H as <-. lia.
  - destruct (Nat.eq_dec x a) as [->|Hne]; [exact Ea|].
    apply (IH (S a) s H). lia.
Qed.

Lemma steps_in : forall c x y, In (x, y) (steps c) -> In x c /\ In y c.
Proof.
  induction c as [|a [|b c] IH]; intros x y H; try destruct H.
  - injection H as <- <-. split; [left; reflexivity|right; left; reflexivity].
  - destruct (IH x y H) as [H1 H2]. split; right; assumption.
Qed.

Lemma steps_vertex : forall c x,
  2 <= length c -> In x c -> exists y, In (x, y) (steps c) \/ In (y, x) (steps c).
Proof.
  induction c as [|a [|b c] IH]; intros x Hl Hx; cbn [length] in Hl; try lia.
  destruct Hx as [<-|Hx].
  - exists b. left. left. reflexivity.
  - destruct c as [|d c].
    + destruct Hx as [<-|[]]. exists a. right. left. reflexivity.
    + destruct (IH x) as [y Hy]; [cbn [length]; lia|exact Hx|].
      exists y. destruct Hy as [Hy|Hy]; [left|right]; right; exact Hy.
Qed.

Lemma in_undirected_adjacent : forall g x y,
  graph_wf g -> In (undirected (x, y)) (undirected_edges g) <-> adjacent g x y.
Proof.
  intros g x y Hwf. unfold undirected. cbn [fst snd]. rewrite in_undirected_edges.
  destruct (Nat.le_gt_cases x y) as [H|H].
  - rewrite Nat.min_l, Nat.max_r by lia. split.
    + intros [_ [_ Ha]]. exact Ha.
    + intros Ha. split; [exact H|]. split; [apply (adjacent_range g x y Hwf Ha)|exact Ha].
  - rewrite Nat.min_r, Nat.max_l by lia. split.
    + intros [_ [_ Ha]]. apply adjacent_sym; assumption.
    + intros Ha. split; [lia|]. split; [apply (adjacent_range g x y Hwf Ha)|].
      apply adjacent_sym; assumption.
Qed.

(** Where the walk starts: at the first vertex that has an edge. *)
Lemma euler_walk_start : forall g,
  graph_wf g ->
  has_an_edge g ->
  (forall v, v < n g -> Nat.even (degree g v) = true) ->
  exists start s,
    first_incident_ok (build_edge_view_ok g) = Some start /\
    walk_loop_ok (2 * length (concat (evk_incid (build_edge_view_ok g))) + 2)
      (build_edge_view_ok g)
      (mkWalk_ok [start] [] (repeat false (evk_m (build_edge_view_ok g)))
         (repeat 0 (length (evk_incid (build_edge_view_ok g))))) = Some s /\
    hd 0 (rev (wk_path s)) = start /\
    non_isolated g start /\
    (forall x, non_isolated g x -> start <= x).
Proof.
  intros g Hwf Hedge Heven.
  set (ev := build_edge_view_ok g).
  assert (Hok : view_ok (n g) ev) by (apply build_edge_view_scan; auto).
  assert (Hlen := vo_len _ _ Hok).
  assert (Hdeg : forall x, x < n g ->
            length (nth x (evk_incid ev) []) = degree_vertex_adj g x)
    by (intros; apply view_incid_length; auto).
  destruct (first_incident_ok ev) as [start|] eqn:Efi.
  2:{ exfalso. destruct Hedge as [u [v Huv]].
      assert (Hu : u < n g) by (apply (adjacent_range g u v Hwf Huv)).
      assert (Hd : 0 < degree_vertex_adj g u) by (apply non_isolated_degree; exists v; auto).
      rewrite <- Hdeg in Hd by auto.
      rewrite (first_incident_none ev u Efi) in Hd by lia. lia. }
  destruct (first_incident_some ev start Efi) as [Hs Hsd]. rewrite Hlen in Hs.
  assert (Hev : forall x, Nat.even (length (incid_of (evk_edges ev) x)) = true).
  { intros x. destruct (Nat.lt_ge_cases x (n g)) as [Hx|Hx].
    - rewrite <- (vo_incid _ _ Hok x Hx), Hdeg, degree_vertex_adj_degree by auto.
      apply Heven; auto.
    - rewrite (incid_of_out_of_range ev (n g) x Hok Hx). reflexivity. }
  destruct (walk_result ev (n g) start Hok Hs Hev)
    as [s [PE [Hrun [Hp [Htr [Hnd [Hhd [Hlast Hclosed]]]]]]]].
  exists start, s. split; [reflexivity|]. split; [exact Hrun|]. split; [exact Hhd|].
  split.
  - apply non_isolated_degree. rewrite <- Hdeg by auto. exact Hsd.
  - intros x Hx. destruct (Nat.le_gt_cases start x) as [H|H]; [exact H|exfalso].
    assert (Hxn : x < n g) by lia.
    assert (Hd : 0 < degree_vertex_adj g x) by (apply non_isolated_degree; exact Hx).
    rewrite <- Hdeg in Hd by exact Hxn.
    unfold first_incident_ok in Efi.
    assert (Hf := find_seq_least _ _ _ _ Efi x ltac:(lia)). cbn beta in Hf.
    apply Nat.ltb_ge in Hf. lia.
Qed.

(** The circuit of a run without allocation failure starts at the
    lowest-numbered vertex that has an edge, and the vertices on it are the
    vertices that have an edge. *)
Lemma euler_circuit_ok_vertices : forall g cycle,
  graph_wf g ->
  graph_find_euler_circuit_ok g = Some (Some cycle) ->
  non_isolated g (hd 0 cycle) /\
  (forall x, non_isolated g x -> hd 0 cycle <= x) /\
  (forall x, In x cycle <-> non_isolated g x).
Proof.
  intros g cycle Hwf Hc.
  destruct (graph_find_euler_circuit_spec g Hwf) as [b [r [Hb [Hr [Hf Ht]]]]].
  rewrite Hc in Hr. injection Hr as <-.
  destruct b; [|specialize (Hf eq_refl); discriminate].
  destruct (Ht eq_refl) as [c [Ec [Hperm [Hlen _]]]]. injection Ec as <-.
  destruct (graph_has_euler_circuit_spec g Hwf) as [b' [Hb' Hiff]].
  rewrite Hb in Hb'. injection Hb' as <-.
  destruct (proj1 Hiff eq_refl) as [Hedge [Heven Hconn]].
  destruct (euler_walk_start g Hwf Hedge Heven) as [start [s [Hfi [Hrun [Hhd [Hni Hleast]]]]]].
  assert (Ecy : cycle = rev (wk_path s)).
  { unfold graph_find_euler_circuit_ok in Hc. rewrite Hb, Hfi, Hrun in Hc.
    destruct (length (rev (wk_path s)) <? 1); [discriminate|]. congruence. }
  rewrite <- Ecy in Hhd. rewrite Hhd.
  split; [exact Hni|]. split; [exact Hleast|].
  assert (Hm : 1 <= length (undirected_edges g)).
  { destruct Hedge as [u [v Huv]]. apply (in_undirected_adjacent g u v Hwf) in Huv.
    destruct (undirected_edges g); [destruct Huv|cbn; lia]. }
  intros x. split.
  - intros Hx. destruct (steps_vertex cycle x ltac:(lia) Hx) as [y [Hy|Hy]].
    + exists y. apply (in_undirected_adjacent g x y Hwf).
      apply (Permutation_in _ Hperm). apply in_map. exact Hy.
    + exists y. apply adjacent_sym; [exact Hwf|]. apply (in_undirected_adjacent g y x Hwf).
      apply (Permutation_in _ Hperm). apply in_map. exact Hy.
  - intros [y Hxy]. apply (in_undirected_adjacent g x y Hwf) in Hxy.
    apply (Permutation_in _ (Permutation_sym Hperm)) in Hxy.
    apply in_map_iff in Hxy. destruct Hxy as [[a b] [Hu Hin]].
    destruct (steps_in _ _ _ Hin) as [Ha Hb2].
    unfold undirected in Hu. cbn [fst snd] in Hu.
    injection Hu as H1 H2.
    destruct (Nat.eq_dec x a) as [->|Hxa]; [exact Ha|].
    destruct (Nat.eq_dec x b) as [->|Hxb]; [exact Hb2|]. lia.
Qed.

(** ** More of the clique modules ([maxclique.c], [cliquecount.c]) *)

(** *** The adjacency matrix *)

Lemma fill_row_adj : forall k u l m,
  mdim k m -> u < k -> (forall e, In e l -> to e < k) ->
  let m' := fold_left (fun m e => if negb (u =? to e) then mset m u (to e) 1%Z else m) l m in
  mdim k m' /\
  forall a b, mget m' a b =
    if (a =? u) && negb (u =? b) && (0 <? count_to l b) then 1%Z else mget m a b.
Proof.
  intros k u. induction l as [|e l IH]; intros m Hd Hu Hr; cbn [fold_left count_to].
  - split; auto. intros a b. rewrite andb_false_r. reflexivity.
  - assert (He : to e < k) by (apply Hr; left; auto).
    assert (Hr' : forall e', In e' l -> to e' < k) by (intros; apply Hr; right; auto).
    destruct (Nat.eqb_spec u (to e)) as [Heq|Hne]; cbn [negb].
    + destruct (IH m Hd Hu Hr') as [H1 H2]. split; auto.
      intros a b. rewrite H2.
      destruct (Nat.eqb_spec a u) as [->|]; cbn [andb]; auto.
      destruct (Nat.eqb_spec u b) as [Hub|Hub]; cbn [negb andb]; auto.
      destruct (Nat.eqb_spec (to e) b); [lia|]. reflexivity.
    + destruct (IH (mset m u (to e) 1%Z) (mset_mdim _ _ _ _ _ Hd) Hu Hr') as [H1 H2].
      split; auto. intros a b. rewrite H2. rewrite (mget_mset k) by auto.
      destruct (Nat.eqb_spec a u) as [->|Hau]; cbn [andb].
      * rewrite Nat.eqb_refl. cbn [andb].
        destruct (Nat.eqb_spec u b) as [Hub|Hub]; cbn [negb andb].
        -- destruct (Nat.eqb_spec (to e) b); [lia|]. reflexivity.
        -- destruct (Nat.eqb_spec (to e) b); [|reflexivity].
           destruct (0 <? S (count_to l b)); destruct (0 <? count_to l b); reflexivity.
      * destruct (Nat.eqb_spec u a); [lia|]. reflexivity.
Qed.

Lemma build_adjacency_matrix_spec : forall g,
  graph_wf g ->
  mdim (n g) (build_adjacency_matrix g) /\
  forall u v, mget (build_adjacency_matrix g) u v =
    if (u <? n g) && negb (u =? v) && (0 <? count_neighbor g u v) then 1%Z else 0%Z.
Proof.
  intros g Hwf. unfold build_adjacency_matrix.
  assert (H : forall k, k <= n g ->
    let m := fold_left
      (fun m u => fold_left (fun m e => if negb (u =? to e) then mset m u (to e) 1%Z else m)
                  (head g u) m) (seq 0 k) (zero_matrix (n g)) in
    mdim (n g) m /\
    forall u v, mget m u v =
      if (u <? k) && negb (u =? v) && (0 <? count_neighbor g u v) then 1%Z else 0%Z).
  { induction k as [|k IH]; intros Hk.
    - cbn [seq fold_left]. split; [apply zero_matrix_mdim|]. intros. apply mget_zero_matrix.
    - destruct (IH ltac:(lia)) as [H1 H2]. clear IH. cbv zeta.
      rewrite seq_S, fold_left_app. cbn [fold_left Nat.add].
      destruct (fill_row_adj (n g) k (head g k) _ H1 ltac:(lia)) as [G1 G2].
      { intros e He. eapply wf_to; eauto. }
      split; [exact G1|]. intros u v. rewrite G2, H2. unfold count_neighbor.
      destruct (Nat.eqb_spec u k) as [->|Huk]; cbn [andb].
      + destruct (Nat.ltb_spec k k); [lia|]. cbn [andb].
        destruct (Nat.ltb_spec k (S k)); [|lia]. cbn [andb].
        destruct (negb (k =? v) && (0 <? count_to (head g k) v)); reflexivity.
      + destruct (Nat.ltb_spec u k); destruct (Nat.ltb_spec u (S k)); try lia; reflexivity. }
  destruct (H (n g) (le_n _)) as [H1 H2]. split; [exact H1|exact H2].
Qed.

(** An entry of the matrix is not 0 exactly for two different vertices
    joined by an edge. *)
Lemma adjacency_entry : forall g u v,
  graph_wf g ->
  (mget (build_adjacency_matrix g) u v =? 0)%Z = false <-> u <> v /\ adjacent g u v.
Proof.
  intros g u v Hwf. rewrite (proj2 (build_adjacency_matrix_spec g Hwf)).
  rewrite adjacent_count.
  destruct (Nat.ltb_spec u (n g)) as [Hu|Hu]; cbn [andb].
  - destruct (Nat.eqb_spec u v) as [E|E]; cbn [negb andb].
    + split; [discriminate|]. intros [H _]. contradiction.
    + destruct (Nat.ltb_spec 0 (count_neighbor g u v)); cbn.
      * split; auto.
      * split; [discriminate|]. intros [_ H']. lia.
  - cbn. split; [discriminate|]. intros [_ H].
    unfold count_neighbor in H. rewrite head_out_of_range in H by (rewrite (wf_len Hwf); lia).
    cbn in H. lia.
Qed.

Lemma adjacency_entry_sym : forall g u v,
  graph_wf g ->
  mget (build_adjacency_matrix g) u v = mget (build_adjacency_matrix g) v u.
Proof.
  intros g u v Hwf.
  assert (H01 : forall a b, mget (build_adjacency_matrix g) a b
                 = if (mget (build_adjacency_matrix g) a b =? 0)%Z then 0%Z else 1%Z).
  { intros a b. rewrite (proj2 (build_adjacency_matrix_spec g Hwf)).
    destruct ((a <? n g) && negb (a =? b) && (0 <? count_neighbor g a b)); reflexivity. }
  rewrite (H01 u v), (H01 v u).
  destruct (mget (build_adjacency_matrix g) u v =? 0)%Z eqn:E1;
    destruct (mget (build_adjacency_matrix g) v u =? 0)%Z eqn:E2; try reflexivity.
  - apply (adjacency_entry g v u Hwf) in E2. destruct E2 as [Hne Ha].
    assert (E3 : (mget (build_adjacency_matrix g) u v =? 0)%Z = false).
    { apply (adjacency_entry g u v Hwf). split; [congruence|]. apply adjacent_sym; assumption. }
    congruence.
  - apply (adjacency_entry g u v Hwf) in E1. destruct E1 as [Hne Ha].
    assert (E3 : (mget (build_adjacency_matrix g) v u =? 0)%Z = false).
    { apply (adjacency_entry g v u Hwf). split; [congruence|]. apply adjacent_sym; assumption. }
    congruence.
Qed.

Lemma is_connected_to_all_spec : forall A v cur,
  is_connected_to_all A v cur = true <->
  forall c, In c cur -> (mget A v c =? 0)%Z = false.
Proof.
  intros A v. induction cur as [|c cur IH]; cbn [is_connected_to_all].
  - split; [intros _ c []|reflexivity].
  - destruct (mget A v c =? 0)%Z eqn:E.
    + split; [discriminate|]. intros H. rewrite <- E. symmetry. rewrite E.
      specialize (H c (or_introl eq_refl)). congruence.
    + rewrite IH. split.
      * intros H c' [<-|Hc']; auto.
      * intros H c' Hc'. apply H. right. exact Hc'.
Qed.

(** *** What the searches enumerate *)

Lemma subseq_nil_inv : forall s, subseq s [] -> s = [].
Proof. intros s H. inversion H. reflexivity. Qed.

Lemma subseq_in : forall s l, subseq s l -> forall x, In x s -> In x l.
Proof.
  intros s l H. induction H as [l|x s l H IH|x s l H IH]; intros y Hy.
  - destruct Hy.
  - destruct Hy as [<-|Hy]; [left; reflexivity|right; auto].
  - right. auto.
Qed.

Lemma subseq_filter : forall (f : nat -> bool) l, subseq (filter f l) l.
Proof.
  intros f. induction l as [|x l IH]; cbn [filter]; [constructor|].
  destruct (f x); constructor; exact IH.
Qed.

Lemma increasing_from_le : forall c a b, a <= b -> increasing_from b c -> increasing_from a c.
Proof. intros [|x c] a b Hab H; cbn in *; [exact I|]. split; [lia|apply H]. Qed.

Lemma increasing_from_lt : forall c a x, increasing_from a c -> In x c -> a <= x.
Proof.
  induction c as [|y c IH]; intros a x H Hx; [destruct Hx|].
  destruct H as [H1 H2]. destruct Hx as [<-|Hx]; [exact H1|].
  specialize (IH (S y) x H2 Hx). lia.
Qed.

Lemma increasing_from_nodup : forall c a, increasing_from a c -> NoDup c.
Proof.
  induction c as [|y c IH]; intros a H; [constructor|].
  destruct H as [H1 H2]. constructor; [|apply (IH (S y)); exact H2].
  intros Hin. assert (H := increasing_from_lt c (S y) y H2 Hin). lia.
Qed.

Lemma subseq_seq : forall k a s,
  subseq s (seq a k) <-> increasing_from a s /\ forall x, In x s -> x < a + k.
Proof.
  induction k as [|k IH]; intros a s; cbn [seq].
  - split.
    + intros H. apply subseq_nil_inv in H. subst s. split; [exact I|intros x []].
    + intros [H1 H2]. destruct s as [|x s]; [constructor|].
      destruct H1 as [H1 _]. specialize (H2 x (or_introl eq_refl)). lia.
  - split.
    + intros H. inversion H as [l|x s' l H'|x s' l H']; subst.
      * split; [exact I|intros x []].
      * apply IH in H'. destruct H' as [H1 H2]. split; [split; [lia|exact H1]|].
        intros x [<-|Hx]; [lia|]. specialize (H2 x Hx). lia.
      * apply IH in H'. destruct H' as [H1 H2].
        split; [apply (increasing_from_le s a (S a)); [lia|exact H1]|].
        intros x Hx. specialize (H2 x Hx). lia.
    + intros [H1 H2]. destruct s as [|x s]; [constructor|].
      destruct H1 as [H1 H3]. destruct (Nat.eq_dec x a) as [->|Hne].
      * apply subseq_take. apply IH. split; [exact H3|].
        intros y Hy. specialize (H2 y (or_intror Hy)). lia.
      * apply subseq_skip. apply IH. split; [split; [lia|exact H3]|].
        intros y Hy. specialize (H2 y Hy). lia.
Qed.

Lemma extensions_spec : forall A cands cur c,
  In c (extensions A cands cur) <->
  exists ext, ext <> [] /\ c = cur ++ ext /\ subseq ext cands /\ ext_ok A cur ext.
Proof.
  intros A. induction cands as [|v rest IH]; intros cur c; cbn [extensions].
  - split; [intros []|]. intros [ext [Hne [_ [Hs _]]]]. apply subseq_nil_inv in Hs. contradiction.
  - rewrite in_app_iff. split.
    + intros [H|H].
      * destruct (is_connected_to_all A v cur) eqn:Eok; [|destruct H].
        destruct H as [<-|H].
        -- exists [v]. split; [discriminate|]. split; [reflexivity|].
           split; [apply subseq_take; constructor|]. cbn. auto.
        -- apply IH in H. destruct H as [ext [Hne [Hc [Hs Hok]]]].
           exists (v :: ext). split; [discriminate|].
           split; [rewrite Hc, <- app_assoc; reflexivity|].
           split; [apply subseq_take; exact Hs|]. cbn. auto.
      * apply IH in H. destruct H as [ext [Hne [Hc [Hs Hok]]]].
        exists ext. split; [exact Hne|]. split; [exact Hc|].
        split; [apply subseq_skip; exact Hs|exact Hok].
    + intros [ext [Hne [Hc [Hs Hok]]]].
      inversion Hs as [l|x s l Hs'|x s l Hs']; subst.
      * contradiction.
      * left. destruct Hok as [Hok1 Hok2]. rewrite Hok1.
        destruct s as [|y s]; [left; reflexivity|].
        right. apply IH. exists (y :: s). split; [discriminate|].
        split; [rewrite <- app_assoc; reflexivity|]. split; assumption.
      * right. apply IH. exists ext. repeat split; assumption.
Qed.

Lemma extensions_nodup : forall A cands cur,
  NoDup cands -> NoDup (extensions A cands cur).
Proof.
  intros A. induction cands as [|v rest IH]; intros cur Hnd; cbn [extensions]; [constructor|].
  inversion Hnd as [|x l Hv Hnd']; subst.
  assert (Hdis : forall c, In c (extensions A rest (cur ++ [v])) \/ c = cur ++ [v] ->
                 ~ In c (extensions A rest cur)).
  { intros c Hc Hin. apply extensions_spec in Hin.
    destruct Hin as [ext [Hne [Ec [Hs _]]]].
    assert (Hhd : exists t, c = cur ++ v :: t).
    { destruct Hc as [Hc|Hc].
      - apply extensions_spec in Hc. destruct Hc as [ext' [_ [Ec' _]]].
        exists ext'. rewrite Ec', <- app_assoc. reflexivity.
      - exists []. exact Hc. }
    destruct Hhd as [t Et]. rewrite Et in Ec. apply app_inv_head in Ec.
    destruct ext as [|y ext]; [contradiction|]. injection Ec as <- _.
    apply Hv. apply (subseq_in _ _ Hs). left. reflexivity. }
  apply NoDup_app.
  - destruct (is_connected_to_all A v cur); [|constructor].
    constructor; [|apply IH; exact Hnd'].
    intros Hin. apply extensions_length in Hin. lia.
  - apply IH. exact Hnd'.
  - intros c Hc. destruct (is_connected_to_all A v cur); [|destruct Hc].
    apply Hdis. destruct Hc as [<-|Hc]; [right; reflexivity|left; exact Hc].
Qed.

Lemma ext_ok_joined : forall A ext cur,
  ext_ok A cur ext <->
  (forall v c, In v ext -> In c cur -> (mget A v c =? 0)%Z = false) /\
  joined_to_earlier A ext.
Proof.
  intros A. induction ext as [|x r IH]; intros cur; cbn [ext_ok joined_to_earlier].
  - split; [intros _; split; [intros v c []|exact I]|auto].
  - rewrite IH, is_connected_to_all_spec. split.
    + intros [H1 [H2 H3]]. split; [|split].
      * intros v c [<-|Hv] Hc; [apply H1; exact Hc|].
        apply H2; [exact Hv|]. apply in_or_app. left. exact Hc.
      * intros y Hy. apply H2; [exact Hy|]. apply in_or_app. right. left. reflexivity.
      * exact H3.
    + intros [H1 [H2 H3]]. split; [|split].
      * intros c Hc. apply H1; [left; reflexivity|exact Hc].
      * intros v c Hv Hc. apply in_app_or in Hc. destruct Hc as [Hc|[<-|[]]].
        -- apply H1; [right; exact Hv|exact Hc].
        -- apply H2. exact Hv.
      * exact H3.
Qed.

Lemma joined_to_earlier_clique : forall g c a,
  graph_wf g -> increasing_from a c ->
  (joined_to_earlier (build_adjacency_matrix g) c <->
   forall x y, In x c -> In y c -> x <> y -> adjacent g x y).
Proof.
  intros g c a Hwf. revert a. induction c as [|x r IH]; intros a Hinc; cbn [joined_to_earlier].
  - split; [intros _ x y []|auto].
  - destruct Hinc as [Hax Hinc]. rewrite (IH (S x) Hinc). split.
    + intros [H1 H2] p q Hp Hq Hpq. destruct Hp as [<-|Hp]; destruct Hq as [<-|Hq].
      * contradiction.
      * apply adjacent_sym; [exact Hwf|]. apply (adjacency_entry g q x Hwf). apply H1. exact Hq.
      * apply (adjacency_entry g p x Hwf). apply H1. exact Hp.
      * apply H2; assumption.
    + intros H. split.
      * intros y Hy. apply (adjacency_entry g y x Hwf).
        assert (Hlt := increasing_from_lt r (S x) y Hinc Hy).
        split; [lia|]. apply H; [right; exact Hy|left; reflexivity|lia].
      * intros p q Hp Hq Hpq. apply H; [right; exact Hp|right; exact Hq|exact Hpq].
Qed.

(** The searches of [graph_max_clique] and of the counting functions go
    through the cliques of the graph that are not empty, each once. *)
Lemma extensions_cliques : forall g c,
  graph_wf g ->
  (In c (extensions (build_adjacency_matrix g) (seq 0 (n g)) []) <-> c <> [] /\ clique g c).
Proof.
  intros g c Hwf. rewrite extensions_spec. unfold clique. split.
  - intros [ext [Hne [Ec [Hs Hok]]]]. cbn [app] in Ec. subst ext.
    apply subseq_seq in Hs. destruct Hs as [Hinc Hr].
    apply ext_ok_joined in Hok. destruct Hok as [_ Hj].
    split; [exact Hne|]. split; [exact Hinc|]. split; [exact Hr|].
    apply (joined_to_earlier_clique g c 0 Hwf Hinc). exact Hj.
  - intros [Hne [Hinc [Hr Hadj]]]. exists c. split; [exact Hne|]. split; [reflexivity|].
    split; [apply subseq_seq; split; assumption|].
    apply ext_ok_joined. split; [intros v x _ []|].
    apply (joined_to_earlier_clique g c 0 Hwf Hinc). exact Hadj.
Qed.

(** *** The clique that [graph_max_clique] returns *)

Lemma improve_best : forall cur best,
  snd best = length (fst best) ->
  snd (improve cur best) = length (fst (improve cur best)) /\
  (fst (improve cur best) = fst best \/ fst (improve cur best) = cur).
Proof.
  intros cur best H. unfold improve. destruct (snd best <? length cur); cbn [fst snd]; auto.
Qed.

Lemma max_clique_loop_best : forall A cands cur best,
  snd best = length (fst best) ->
  snd (max_clique_loop A cands cur best) = length (fst (max_clique_loop A cands cur best)) /\
  (fst (max_clique_loop A cands cur best) = fst best \/
   In (fst (max_clique_loop A cands cur best)) (extensions A cands cur)).
Proof.
  intros A. induction cands as [|v rest IH]; intros cur best Hb;
    cbn [max_clique_loop extensions]; [auto|].
  destruct (is_connected_to_all A v cur).
  - destruct (improve_best (cur ++ [v]) best Hb) as [I1 I2].
    destruct (IH (cur ++ [v]) _ I1) as [J1 J2].
    destruct (IH cur _ J1) as [K1 K2]. split; [exact K1|].
    destruct K2 as [K2|K2]; [|right; apply in_or_app; right; exact K2].
    rewrite K2. destruct J2 as [J2|J2].
    + rewrite J2. destruct I2 as [I2|I2]; [left; exact I2|].
      right. apply in_or_app. left. left. symmetry. exact I2.
    + right. apply in_or_app. left. right. exact J2.
  - destruct (IH cur best Hb) as [K1 K2]. split; [exact K1|].
    destruct K2 as [K2|K2]; [left; exact K2|right; exact K2].
Qed.

Lemma max_clique_starts_best : forall A n0 k a best,
  a + k = n0 ->
  snd best = length (fst best) ->
  let r := fold_left (fun best start => max_clique_backtrack A n0 (start + 1) [start] best)
                     (seq a k) best in
  snd r = length (fst r) /\
  (fst r = fst best \/ In (fst r) (extensions A (seq a k) [])).
Proof.
  intros A n0. induction k as [|k IH]; intros a best Hn Hb; [cbn; auto|].
  assert (E : max_clique_backtrack A n0 (a + 1) [a] best
              = max_clique_loop A (seq (S a) k) [a] (improve [a] best)).
  { unfold max_clique_backtrack. replace (a + 1) with (S a) by lia.
    replace (n0 - S a) with k by lia. reflexivity. }
  cbn [seq fold_left extensions is_connected_to_all app]. cbv zeta. rewrite E.
  destruct (improve_best [a] best Hb) as [I1 I2].
  destruct (max_clique_loop_best A (seq (S a) k) [a] _ I1) as [J1 J2].
  destruct (IH (S a) _ ltac:(lia) J1) as [K1 K2]. split; [exact K1|].
  destruct K2 as [K2|K2]; [|right; right; apply in_or_app; right; exact K2].
  rewrite K2. destruct J2 as [J2|J2].
  - rewrite J2. destruct I2 as [I2|I2]; [left; exact I2|right; left; symmetry; exact I2].
  - right. right. apply in_or_app. left. exact J2.
Qed.

Lemma graph_max_clique_vertices : forall g,
  0 < n g ->
  mc_is_valid (graph_max_clique g) = true /\
  mc_size (graph_max_clique g) = Z.of_nat (length (mc_vertices (graph_max_clique g))) /\
  In (mc_vertices (graph_max_clique g))
     (extensions (build_adjacency_matrix g) (seq 0 (n g)) []).
Proof.
  intros g Hn. assert (Hsz := graph_max_clique_size g Hn). revert Hsz.
  unfold graph_max_clique.
  destruct (Nat.eqb_spec (n g) 0) as [H0|H0]; [lia|].
  destruct (Nat.eqb_spec (n g) 1) as [H1|H1].
  - intros _. rewrite H1. cbn. auto.
  - set (A := build_adjacency_matrix g).
    destruct (max_clique_starts_best A (n g) (n g) 0 ([], 0) eq_refl eq_refl) as [K1 K2].
    set (best := fold_left _ _ _) in *.
    destruct (Nat.ltb_spec 0 (snd best)) as [Hp|Hp]; cbn [mc_size mc_vertices mc_is_valid].
    + intros _. split; [reflexivity|]. split; [rewrite K1; reflexivity|].
      destruct K2 as [K2|K2]; [|exact K2].
      cbn [fst] in K2. rewrite K2 in K1. cbn in K1. lia.
    + intros Hsz. exfalso.
      assert (Hpos : 0 < max_length (extensions A (seq 0 (n g)) [])).
      { destruct (n g) as [|k]; [lia|].
        cbn [seq extensions is_connected_to_all app]. rewrite max_length_cons.
        cbn [length]. lia. }
      lia.
Qed.

(** *** [graph_is_clique] *)

Lemma all_pairs_joined_spec : forall A vs,
  all_pairs_joined A vs = true <->
  forall i j, i < j < length vs ->
    (mget A (nth i vs 0%nat) (nth j vs 0%nat) =? 0)%Z = false.
Proof.
  intros A. induction vs as [|x r IH]; cbn [all_pairs_joined length].
  - split; [intros _ i j Hij; lia|reflexivity].
  - rewrite andb_true_iff, forallb_forall, IH. split.
    + intros [H1 H2] i j Hij. destruct i as [|i]; destruct j as [|j]; try lia; cbn [nth].
      * specialize (H1 (nth j r 0) ltac:(apply nth_In; lia)).
        apply negb_true_iff in H1. exact H1.
      * apply H2. lia.
    + intros H. split.
      * intros y Hy. destruct (In_nth _ _ 0 Hy) as [j [Hj <-]].
        apply negb_true_iff. apply (H 0 (S j)). lia.
      * intros i j Hij. apply (H (S i) (S j)). lia.
Qed.

Lemma graph_is_clique_spec : forall g vertices,
  graph_wf g ->
  (graph_is_clique (Some g) vertices = true <->
   length vertices <= 1 \/
   ((forall v, In v vertices -> (0 <= v < Z.of_nat (n g))%Z) /\
    (forall i j, i < j < length vertices ->
       nth i vertices 0%Z <> nth j vertices 0%Z /\
       adjacent g (Z.to_nat (nth i vertices 0%Z)) (Z.to_nat (nth j vertices 0%Z))))).
Proof.
  intros g vertices Hwf. unfold graph_is_clique.
  destruct (Nat.leb_spec (length vertices) 1) as [Hl|Hl]; [split; auto|].
  destruct (existsb _ vertices) eqn:Ex.
  - split; [discriminate|]. intros [H|[Hr _]]; [lia|].
    apply existsb_exists in Ex. destruct Ex as [v [Hv Hb]]. specialize (Hr v Hv).
    apply orb_true_iff in Hb. destruct Hb as [Hb|Hb]; [apply Z.ltb_lt in Hb|apply Z.leb_le in Hb];
      lia.
  - assert (Hr : forall v, In v vertices -> (0 <= v < Z.of_nat (n g))%Z).
    { intros v Hv. destruct (Z.ltb_spec v 0) as [H1|H1];
        [|destruct (Z.leb_spec (Z.of_nat (n g)) v) as [H2|H2]; [|lia]].
      - assert (E : existsb (fun v => (v <? 0)%Z || (Z.of_nat (n g) <=? v)%Z) vertices = true).
        { apply existsb_exists. exists v. split; [exact Hv|].
          apply orb_true_iff. left. apply Z.ltb_lt. exact H1. }
        congruence.
      - assert (E : existsb (fun v => (v <? 0)%Z || (Z.of_nat (n g) <=? v)%Z) vertices = true).
        { apply existsb_exists. exists v. split; [exact Hv|].
          apply orb_true_iff. right. apply Z.leb_le. exact H2. }
        congruence. }
    rewrite all_pairs_joined_spec. rewrite length_map.
    assert (Hnth : forall i, i < length vertices ->
              nth i (map Z.to_nat vertices) 0 = Z.to_nat (nth i vertices 0%Z)).
    { intros i Hi. rewrite (nth_indep _ 0 (Z.to_nat 0%Z)) by (rewrite length_map; exact Hi).
      apply map_nth. }
    split.
    + intros H. right. split; [exact Hr|]. intros i j Hij.
      specialize (H i j Hij). rewrite !Hnth in H by lia.
      apply (adjacency_entry g _ _ Hwf) in H. destruct H as [H1 H2].
      split; [congruence|exact H2].
    + intros [H|[_ H]]; [lia|]. intros i j Hij. rewrite !Hnth by lia.
      destruct (H i j Hij) as [H1 H2].
      apply (adjacency_entry g _ _ Hwf). split; [|exact H2].
      assert (Hi := Hr (nth i vertices 0%Z) ltac:(apply nth_In; lia)).
      assert (Hj := Hr (nth j vertices 0%Z) ltac:(apply nth_In; lia)).
      intros E. apply H1. apply Z2Nat.inj; lia.
Qed.

(** *** The maximum clique *)

(** X9.  On a well-formed graph [graph_max_clique] returns a valid result
    whose vertices are a clique of the graph that is not empty, listed in
    increasing order, [size] being their number; [graph_is_clique] accepts
    them. *)
Theorem max_clique_is_clique : forall g,
  graph_wf g ->
  mc_is_valid (graph_max_clique g) = true /\
  mc_size (graph_max_clique g) = Z.of_nat (length (mc_vertices (graph_max_clique g))) /\
  mc_vertices (graph_max_clique g) <> [] /\
  clique g (mc_vertices (graph_max_clique g)) /\
  graph_is_clique (Some g) (map Z.of_nat (mc_vertices (graph_max_clique g))) = true.
Proof.
  intros g Hwf.
  destruct (graph_max_clique_vertices g (wf_pos Hwf)) as [Hv [Hs Hin]].
  apply (extensions_cliques g _ Hwf) in Hin. destruct Hin as [Hne Hc].
  set (c := mc_vertices (graph_max_clique g)) in *.
  split; [exact Hv|]. split; [exact Hs|]. split; [exact Hne|]. split; [exact Hc|].
  apply (graph_is_clique_spec g _ Hwf). right.
  destruct Hc as [Hinc [Hr Hadj]]. split.
  - intros v Hv'. apply in_map_iff in Hv'. destruct Hv' as [x [<- Hx]].
    specialize (Hr x Hx). lia.
  - intros i j Hij. rewrite length_map in Hij.
    assert (Hnth : forall i, nth i (map Z.of_nat c) 0%Z = Z.of_nat (nth i c 0)).
    { intros i'. apply (map_nth Z.of_nat c 0 i'). }
    rewrite !Hnth.
    assert (Hd : nth i c 0 <> nth j c 0).
    { intros E. apply (proj1 (NoDup_nth c 0) (increasing_from_nodup c 0 Hinc)) in E; lia. }
    split; [lia|]. rewrite !Nat2Z.id.
    apply Hadj; [apply nth_In; lia|apply nth_In; lia|exact Hd].
Qed.

Lemma max_clique_is_clique_witness :
  mc_is_valid (graph_max_clique g_square) = true /\
  mc_size (graph_max_clique g_square)
  = Z.of_nat (length (mc_vertices (graph_max_clique g_square))) /\
  mc_vertices (graph_max_clique g_square) <> [] /\
  clique g_square (mc_vertices (graph_max_clique g_square)) /\
  graph_is_clique (Some g_square) (map Z.of_nat (mc_vertices (graph_max_clique g_square)))
  = true.
Proof. apply (max_clique_is_clique g_square). exact g_square_wf. Defined.

Lemma clique_sorted : forall k c,
  NoDup c -> (forall x, In x c -> x < k) ->
  exists c', increasing_from 0 c' /\ (forall x, In x c' <-> In x c) /\ length c' = length c.
Proof.
  intros k c Hnd Hr.
  set (c' := filter (fun i => existsb (Nat.eqb i) c) (seq 0 k)).
  assert (Hin : forall x, In x c' <-> In x c).
  { intros x. unfold c'. rewrite filter_In, in_seq, existsb_exists. split.
    - intros [_ [y [Hy E]]]. apply Nat.eqb_eq in E. subst y. exact Hy.
    - intros Hx. split; [specialize (Hr x Hx); lia|].
      exists x. split; [exact Hx|apply Nat.eqb_refl]. }
  assert (Hinc : increasing_from 0 c').
  { apply (proj1 (subseq_seq k 0 c')). apply subseq_filter. }
  exists c'. split; [exact Hinc|]. split; [exact Hin|].
  apply Permutation_length. apply NoDup_Permutation.
  - apply (increasing_from_nodup c' 0 Hinc).
  - exact Hnd.
  - exact Hin.
Qed.

(** X10.  No set of vertices of a well-formed graph that are pairwise joined
    by an edge has more elements than the clique [graph_max_clique] returns. *)
Theorem max_clique_is_maximum : forall g c,
  graph_wf g ->
  NoDup c ->
  (forall x, In x c -> x < n g) ->
  (forall a b, In a c -> In b c -> a <> b -> adjacent g a b) ->
  (Z.of_nat (length c) <= mc_size (graph_max_clique g))%Z.
Proof.
  intros g c Hwf Hnd Hr Hadj.
  rewrite (graph_max_clique_size g (wf_pos Hwf)).
  destruct c as [|x0 c0]; [cbn; lia|].
  destruct (clique_sorted (n g) (x0 :: c0) Hnd Hr) as [c' [Hinc [Hin Hlen]]].
  rewrite <- Hlen. apply inj_le. apply max_length_ge.
  apply (extensions_cliques g c' Hwf). split.
  - intros E. rewrite E in Hlen. discriminate.
  - split; [exact Hinc|]. split.
    + intros x Hx. apply Hr. apply Hin. exact Hx.
    + intros a b Ha Hb Hab. apply Hadj; [apply Hin; exact Ha|apply Hin; exact Hb|exact Hab].
Qed.

Lemma g_triangle_wf : graph_wf g_triangle.
Proof. apply apply_ops_wf. apply (graph_create_wf 3). reflexivity. Qed.

Lemma max_clique_is_maximum_witness :
  (Z.of_nat (length [2; 0]) <= mc_size (graph_max_clique g_triangle))%Z.
Proof.
  apply (max_clique_is_maximum g_triangle [2; 0]).
  - exact g_triangle_wf.
  - repeat constructor; cbn; intuition lia.
  - change (n g_triangle) with 3. intros x [<-|[<-|[]]]; lia.
  - intros a b [<-|[<-|[]]] [<-|[<-|[]]] H; try lia; vm_compute; auto.
Defined.

(** X11.  [graph_is_clique] on a well-formed graph: 1 for at most one
    vertex, whatever it is; for more, 1 exactly when all are vertices of the
    graph and every two positions hold different vertices joined by an
    edge. *)
Theorem graph_is_clique_iff : forall g vertices,
  graph_wf g ->
  (graph_is_clique (Some g) vertices = true <->
   length vertices <= 1 \/
   ((forall v, In v vertices -> (0 <= v < Z.of_nat (n g))%Z) /\
    (forall i j, i < j < length vertices ->
       nth i vertices 0%Z <> nth j vertices 0%Z /\
       adjacent g (Z.to_nat (nth i vertices 0%Z)) (Z.to_nat (nth j vertices 0%Z))))).
Proof. exact graph_is_clique_spec. Qed.

Lemma graph_is_clique_iff_witness :
  graph_is_clique (Some g_square) [0; 1; 2]%Z = true <->
  length [0; 1; 2]%Z <= 1 \/
  ((forall v, In v [0; 1; 2]%Z -> (0 <= v < Z.of_nat (n g_square))%Z) /\
   (forall i j, i < j < length [0; 1; 2]%Z ->
      nth i [0; 1; 2]%Z 0%Z <> nth j [0; 1; 2]%Z 0%Z /\
      adjacent g_square (Z.to_nat (nth i [0; 1; 2]%Z 0%Z))
                        (Z.to_nat (nth j [0; 1; 2]%Z 0%Z)))).
Proof. apply (graph_is_clique_iff g_square [0; 1; 2]%Z). exact g_square_wf. Defined.

(** *** Counting *)

(** X12.  [graph_count_cliques_of_size] on a well-formed graph, for a size
    of at least 1, returns the number of cliques of that size when that
    number fits in an [int]: there is a list without repetition of exactly
    the cliques of the size, each in increasing order, and if its length is
    at most [INT_MAX] the count is its length. *)
Theorem count_cliques_of_size_counts : forall g k,
  graph_wf g ->
  (1 <= k)%Z ->
  exists L,
    NoDup L /\
    (forall c, In c L <-> clique g c /\ Z.of_nat (length c) = k) /\
    ((Z.of_nat (length L) <= INT_MAX)%Z ->
     graph_count_cliques_of_size g k = Some (Z.of_nat (length L))).
Proof.
  intros g k Hwf Hk.
  set (E := extensions (build_adjacency_matrix g) (seq 0 (n g)) []).
  exists (filter (fun c => (Z.of_nat (length c) =? k)%Z) E).
  split; [|split].
  - apply NoDup_filter. apply extensions_nodup. apply seq_NoDup.
  - intros c. rewrite filter_In, Z.eqb_eq. unfold E. rewrite (extensions_cliques g c Hwf).
    split.
    + intros [[_ Hc] Hl]. split; assumption.
    + intros [Hc Hl]. split; [split; [|exact Hc]|exact Hl].
      intros E0. rewrite E0 in Hl. cbn in Hl. lia.
  - intros _. rewrite (graph_count_cliques_of_size_spec g k Hk). reflexivity.
Qed.

Lemma count_cliques_of_size_counts_witness :
  exists L,
    NoDup L /\
    (forall c, In c L <-> clique g_square c /\ Z.of_nat (length c) = 2%Z) /\
    ((Z.of_nat (length L) <= INT_MAX)%Z ->
     graph_count_cliques_of_size g_square 2 = Some (Z.of_nat (length L))).
Proof.
  apply (count_cliques_of_size_counts g_square 2).
  - exact g_square_wf.
  - lia.
Defined.

Lemma subseq_firstn : forall s l k, subseq s l -> subseq (firstn k s) l.
Proof.
  intros s l k H. revert k. induction H as [l|x s l H IH|x s l H IH]; intros k.
  - rewrite firstn_nil. constructor.
  - destruct k as [|k]; cbn [firstn]; [constructor|]. apply subseq_take. apply IH.
  - apply subseq_skip. apply IH.
Qed.

Lemma ext_ok_firstn : forall A ext cur k, ext_ok A cur ext -> ext_ok A cur (firstn k ext).
Proof.
  intros A. induction ext as [|v r IH]; intros cur k H.
  - rewrite firstn_nil. exact I.
  - destruct k as [|k]; cbn [firstn ext_ok]; [exact I|].
    destruct H as [H1 H2]. split; [exact H1|]. apply IH. exact H2.
Qed.

(** The first vertices of an enumerated clique are enumerated too. *)
Lemma extensions_firstn : forall A cands c k,
  In c (extensions A cands []) -> 1 <= k -> In (firstn k c) (extensions A cands []).
Proof.
  intros A cands c k Hin Hk. apply extensions_spec in Hin.
  destruct Hin as [ext [Hne [Ec [Hs Hok]]]]. cbn [app] in Ec. subst ext.
  apply extensions_spec. exists (firstn k c). split; [|split; [reflexivity|split]].
  - destruct c as [|x c]; [contradiction|]. destruct k as [|k]; [lia|]. discriminate.
  - apply subseq_firstn. exact Hs.
  - apply ext_ok_firstn. exact Hok.
Qed.

(** The cliques of a size, listed. *)
Lemma cliques_of_size_listed : forall g k,
  graph_wf g ->
  (1 <= k)%Z ->
  let L := filter (fun c => (Z.of_nat (length c) =? k)%Z)
             (extensions (build_adjacency_matrix g) (seq 0 (n g)) []) in
  NoDup L /\ (forall c, In c L <-> clique g c /\ Z.of_nat (length c) = k).
Proof.
  intros g k Hwf Hk L. split.
  - apply NoDup_filter. apply extensions_nodup. apply seq_NoDup.
  - intros c. unfold L. rewrite filter_In, Z.eqb_eq. rewrite (extensions_cliques g c Hwf).
    split.
    + intros [[_ Hc] Hl]. split; assumption.
    + intros [Hc Hl]. split; [split; [|exact Hc]|exact Hl].
      intros E0. rewrite E0 in Hl. cbn in Hl. lia.
Qed.

(** X13.  When the number of cliques of size [k] fits in an [int] (the list
    [L] of these cliques has at most [INT_MAX] elements),
    [graph_has_cliques_of_size] answers 1 exactly for the sizes from 1 to
    the size that [graph_max_clique] reports: a graph has cliques of every
    size up to the largest, and for a size below 1 the answer is 0. *)
Theorem has_cliques_of_size_iff : forall g k L,
  graph_wf g ->
  NoDup L ->
  (forall c, In c L <-> clique g c /\ Z.of_nat (length c) = k) ->
  (Z.of_nat (length L) <= INT_MAX)%Z ->
  (graph_has_cliques_of_size g k = true <-> (1 <= k <= mc_size (graph_max_clique g))%Z).
Proof.
  intros g k L Hwf _ _ _. assert (Hn := wf_pos Hwf). unfold graph_has_cliques_of_size.
  destruct (Z.lt_ge_cases k 1) as [Hk|Hk].
  - unfold graph_count_cliques_of_size. destruct (Z.ltb_spec k 1); [|lia].
    split; [discriminate|lia].
  - rewrite (graph_count_cliques_of_size_spec g k) by lia.
    rewrite (graph_max_clique_size g Hn).
    set (E := extensions (build_adjacency_matrix g) (seq 0 (n g)) []).
    rewrite Z.ltb_lt. split.
    + intros Hc. split; [lia|].
      destruct (Z.le_gt_cases k (Z.of_nat (max_length E))) as [H|H]; [exact H|exfalso].
      rewrite count_length_zero in Hc; [lia|].
      intros c Hin. apply max_length_ge in Hin. lia.
    + intros [_ Hle].
      assert (Hne : E <> []).
      { unfold E. destruct (n g) as [|m]; [lia|].
        cbn [seq extensions is_connected_to_all app]. discriminate. }
      destruct (max_length_attained E Hne) as [c [Hin Hc]].
      assert (Hin' := extensions_firstn _ _ c (Z.to_nat k) Hin ltac:(lia)). fold E in Hin'.
      assert (0 < count_length E k); [|lia].
      apply (count_length_pos E (firstn (Z.to_nat k) c)); [exact Hin'|].
      rewrite firstn_length_le by lia. lia.
Qed.

Lemma has_cliques_of_size_iff_witness :
  graph_has_cliques_of_size g_triangle 2 = true <->
  (1 <= 2 <= mc_size (graph_max_clique g_triangle))%Z.
Proof.
  destruct (cliques_of_size_listed g_triangle 2 g_triangle_wf ltac:(lia)) as [H1 H2].
  apply (has_cliques_of_size_iff g_triangle 2 _ g_triangle_wf H1 H2).
  vm_compute. discriminate.
Defined.

(** *** [graph_count_all_cliques] *)

Lemma count_clique_length : forall s maxp counts,
  length (count_clique s maxp counts) = length counts.
Proof.
  intros s maxp counts. unfold count_clique.
  destruct ((0 <? s) && (s <=? maxp)); [apply upd_length|reflexivity].
Qed.

Lemma count_clique_nth : forall s maxp counts k,
  1 <= s <= maxp -> maxp < length counts ->
  nth k (count_clique s maxp counts) 0%Z
  = (nth k counts 0 + (if (s =? k)%nat then 1 else 0))%Z.
Proof.
  intros s maxp counts k Hs Hm. unfold count_clique.
  destruct (Nat.ltb_spec 0 s); [|lia]. destruct (Nat.leb_spec s maxp); [|lia]. cbn [andb].
  rewrite nth_upd. destruct (Nat.eqb_spec s k) as [->|Hne]; cbn [andb].
  - destruct (Nat.ltb_spec k (length counts)); [reflexivity|lia].
  - lia.
Qed.

Lemma count_cliques_loop_spec : forall A maxp cands cur counts,
  length cur + length cands <= maxp -> maxp < length counts ->
  length (count_cliques_loop A cands cur counts maxp) = length counts /\
  forall k, nth k (count_cliques_loop A cands cur counts maxp) 0%Z
    = (nth k counts 0 + Z.of_nat (count_length (extensions A cands cur) (Z.of_nat k)))%Z.
Proof.
  intros A maxp. induction cands as [|v rest IH]; intros cur counts Hl Hm;
    cbn [count_cliques_loop extensions length] in *.
  - split; [reflexivity|]. intros k. unfold count_length. cbn. lia.
  - destruct (is_connected_to_all A v cur).
    + assert (Hlen : length (cur ++ [v]) = length cur + 1) by (rewrite length_app; reflexivity).
      destruct (IH (cur ++ [v]) (count_clique (length (cur ++ [v])) maxp counts)) as [H1 H2];
        [lia|rewrite count_clique_length; exact Hm|].
      rewrite count_clique_length in H1.
      destruct (IH cur (count_cliques_loop A rest (cur ++ [v])
                          (count_clique (length (cur ++ [v])) maxp counts) maxp)) as [H3 H4];
        [lia|lia|].
      split; [lia|]. intros k. rewrite H4, H2, count_clique_nth by lia.
      cbn [app]. rewrite count_length_cons, count_length_app.
      destruct (Nat.eqb_spec (length (cur ++ [v])) k) as [E|E];
        destruct (Z.eqb_spec (Z.of_nat (length (cur ++ [v]))) (Z.of_nat k)); lia.
    + destruct (IH cur counts) as [H3 H4]; [lia|lia|].
      split; [exact H3|]. intros k. rewrite H4. cbn [app]. reflexivity.
Qed.

Lemma count_length_pos_inv : forall l k,
  0 < count_length l k -> exists c, In c l /\ Z.of_nat (length c) = k.
Proof.
  intros l k H. unfold count_length in H.
  destruct (filter (fun c => (Z.of_nat (length c) =? k)%Z) l) as [|c r] eqn:E; [cbn in H; lia|].
  assert (Hin : In c (filter (fun c => (Z.of_nat (length c) =? k)%Z) l))
    by (rewrite E; left; reflexivity).
  apply filter_In in Hin. destruct Hin as [Hin Hk]. apply Z.eqb_eq in Hk.
  exists c. split; assumption.
Qed.

Lemma length_sum_count_length : forall (l : list (list nat)) k,
  (forall c, In c l -> 1 <= length c <= k) ->
  Z.of_nat (length l) = zsum (fun i => Z.of_nat (count_length l (Z.of_nat (i + 1)))) k.
Proof.
  induction l as [|c l IH]; intros k H.
  - cbn [length]. rewrite zsum_all_zero; [reflexivity|]. intros i _. reflexivity.
  - rewrite (zsum_ext _ (fun i => ((if (length c - 1 =? i)%nat then 1 else 0)
                                   + Z.of_nat (count_length l (Z.of_nat (i + 1))))%Z)).
    + rewrite zsum_add, zsum_single, <- IH by (intros; apply H; right; assumption).
      specialize (H c (or_introl eq_refl)).
      destruct (Nat.ltb_spec (length c - 1) k); [|lia]. cbn [length]. lia.
    + intros i Hi. rewrite count_length_cons. specialize (H c (or_introl eq_refl)).
      destruct (Z.eqb_spec (Z.of_nat (length c)) (Z.of_nat (i + 1)));
        destruct (Nat.eqb_spec (length c - 1) i); lia.
Qed.

Lemma total_and_max_fold : forall counts k a acc,
  (forall i, (0 <= nth i counts 0)%Z) ->
  let r := fold_left (fun (acc : Z * Z) i =>
                        if (0 <? nth i counts 0)%Z
                        then (fst acc + nth i counts 0, Z.of_nat i)%Z
                        else acc)
                     (seq a k) acc in
  fst r = (fst acc + zsum (fun i => nth (a + i) counts 0%Z) k)%Z /\
  ((snd r = snd acc /\ forall i, a <= i < a + k -> nth i counts 0%Z = 0%Z) \/
   (exists m, snd r = Z.of_nat m /\ a <= m < a + k /\ (0 < nth m counts 0)%Z /\
              forall i, m < i < a + k -> nth i counts 0%Z = 0%Z)).
Proof.
  intros counts k a acc Hpos. induction k as [|k IH]; cbv zeta in *.
  - cbn [seq fold_left zsum]. split; [lia|]. left. split; [reflexivity|]. intros i Hi. lia.
  - rewrite seq_S, fold_left_app. cbn [fold_left zsum].
    destruct IH as [IH1 IH2].
    set (r := fold_left _ (seq a k) acc) in *.
    destruct (Z.ltb_spec 0 (nth (a + k) counts 0%Z)) as [Hp|Hp]; cbn [fst snd].
    + split; [lia|]. right. exists (a + k). split; [reflexivity|]. split; [lia|].
      split; [exact Hp|]. intros i Hi. lia.
    + assert (Hz : nth (a + k) counts 0%Z = 0%Z) by (specialize (Hpos (a + k)); lia).
      split; [lia|]. destruct IH2 as [[E Hall]|[m [E [Hm [Hc Hall]]]]].
      * left. split; [exact E|]. intros i Hi.
        destruct (Nat.eq_dec i (a + k)) as [->|Hne]; [exact Hz|]. apply Hall. lia.
      * right. exists m. split; [exact E|]. split; [lia|]. split; [exact Hc|].
        intros i Hi. destruct (Nat.eq_dec i (a + k)) as [->|Hne]; [exact Hz|]. apply Hall. lia.
Qed.

Lemma graph_count_all_cliques_spec : forall g,
  0 < n g ->
  let E := extensions (build_adjacency_matrix g) (seq 0 (n g)) [] in
  let r := graph_count_all_cliques g in
  cc_is_valid r = true /\
  length (cc_counts_by_size r) = n g + 1 /\
  (forall k, nth k (cc_counts_by_size r) 0%Z = Z.of_nat (count_length E (Z.of_nat k))) /\
  cc_max_size r = Z.of_nat (max_length E) /\
  cc_total_cliques r = Z.of_nat (length E).
Proof.
  intros g Hn E r. unfold r, graph_count_all_cliques.
  destruct (Nat.eqb_spec (n g) 0) as [H0|H0]; [lia|].
  cbn [cc_is_valid cc_counts_by_size cc_max_size cc_total_cliques].
  unfold count_cliques_recursive. rewrite Nat.sub_0_r.
  change (count_clique (length []) (n g) (repeat 0%Z (n g + 1))) with (repeat 0%Z (n g + 1)).
  destruct (count_cliques_loop_spec (build_adjacency_matrix g) (n g) (seq 0 (n g)) []
              (repeat 0%Z (n g + 1))) as [H1 H2].
  { rewrite length_seq. cbn. lia. }
  { rewrite repeat_length. lia. }
  rewrite repeat_length in H1. fold E in H2.
  set (counts := count_cliques_loop _ _ _ _ _) in *.
  assert (Hc : forall k, nth k counts 0%Z = Z.of_nat (count_length E (Z.of_nat k))).
  { intros k. rewrite H2. rewrite nth_repeat. lia. }
  assert (Hlen : forall c, In c E -> 1 <= length c <= n g).
  { intros c Hin. apply extensions_length in Hin. rewrite length_seq in Hin. cbn in Hin. lia. }
  assert (Hne : E <> []).
  { unfold E. destruct (n g) as [|m]; [lia|].
    cbn [seq extensions is_connected_to_all app]. discriminate. }
  destruct (max_length_attained E Hne) as [cm [Hcm Hlm]].
  destruct (total_and_max_fold counts (n g) 1 (0%Z, 0%Z)) as [T1 T2].
  { intros i. rewrite Hc. lia. }
  unfold total_and_max.
  split; [reflexivity|]. split; [exact H1|]. split; [exact Hc|]. split.
  - assert (HM : (0 < nth (max_length E) counts 0)%Z).
    { rewrite Hc. assert (0 < count_length E (Z.of_nat (max_length E))); [|lia].
      apply (count_length_pos E cm); [exact Hcm|lia]. }
    assert (HMr := Hlen cm Hcm). rewrite Hlm in HMr.
    destruct T2 as [[_ Hall]|[m [Em [Hm [Hcnt Hall]]]]].
    + rewrite Hall in HM by lia. lia.
    + rewrite Em. f_equal. rewrite Hc in Hcnt.
      destruct (count_length_pos_inv E (Z.of_nat m) ltac:(lia)) as [c [Hin Hl]].
      apply max_length_ge in Hin.
      destruct (Nat.lt_ge_cases m (max_length E)) as [Hlt|Hge]; [|lia].
      rewrite Hall in HM by lia. lia.
  - rewrite T1. cbn [fst]. rewrite (length_sum_count_length E (n g) Hlen).
    rewrite Z.add_0_l. apply zsum_ext. intros i Hi. rewrite Hc.
    replace (1 + i) with (i + 1) by lia. reflexivity.
Qed.

(** The cliques that are not empty, listed. *)
Lemma cliques_listed : forall g,
  graph_wf g ->
  let L := extensions (build_adjacency_matrix g) (seq 0 (n g)) [] in
  NoDup L /\ (forall c, In c L <-> c <> [] /\ clique g c).
Proof.
  intros g Hwf L. split.
  - apply extensions_nodup. apply seq_NoDup.
  - intros c. apply extensions_cliques. exact Hwf.
Qed.

(** X14.  When the number of cliques that are not empty fits in an [int]
    (the list [L] of these cliques has at most [INT_MAX] elements), the
    result of [graph_count_all_cliques] agrees with the other interfaces: it
    is valid, [counts_by_size] has [n+1] cells, the cell of each size from 1
    to [n] is what [graph_count_cliques_of_size] returns for the size,
    [max_size] is the size that [graph_max_clique] reports, [total_cliques]
    is the sum of the cells, and [graph_total_clique_count] returns it. *)
Theorem count_all_cliques_agrees : forall g L,
  graph_wf g ->
  NoDup L ->
  (forall c, In c L <-> c <> [] /\ clique g c) ->
  (Z.of_nat (length L) <= INT_MAX)%Z ->
  let r := graph_count_all_cliques g in
  cc_is_valid r = true /\
  length (cc_counts_by_size r) = n g + 1 /\
  (forall k, 1 <= k <= n g ->
     graph_count_cliques_of_size g (Z.of_nat k) = Some (nth k (cc_counts_by_size r) 0%Z)) /\
  cc_max_size r = mc_size (graph_max_clique g) /\
  cc_total_cliques r = zsum (fun i => nth (i + 1) (cc_counts_by_size r) 0%Z) (n g) /\
  graph_total_clique_count g = Some (cc_total_cliques r).
Proof.
  intros g L Hwf _ _ _ r. assert (Hn := wf_pos Hwf).
  destruct (graph_count_all_cliques_spec g Hn) as [Hv [Hl [Hc [Hm Ht]]]]. fold r in Hv, Hl, Hc, Hm, Ht.
  split; [exact Hv|]. split; [exact Hl|]. split; [|split; [|split]].
  - intros k Hk. rewrite (graph_count_cliques_of_size_spec g (Z.of_nat k)) by lia.
    rewrite Hc. reflexivity.
  - rewrite Hm. symmetry. apply graph_max_clique_size. exact Hn.
  - rewrite Ht. rewrite (length_sum_count_length _ (n g)).
    + apply zsum_ext. intros i Hi. rewrite Hc. reflexivity.
    + intros c Hin. apply extensions_length in Hin. rewrite length_seq in Hin. cbn in Hin. lia.
  - unfold graph_total_clique_count. fold r. rewrite Hv. reflexivity.
Qed.

Lemma count_all_cliques_agrees_witness :
  let r := graph_count_all_cliques g_triangle in
  cc_is_valid r = true /\
  length (cc_counts_by_size r) = n g_triangle + 1 /\
  (forall k, 1 <= k <= n g_triangle ->
     graph_count_cliques_of_size g_triangle (Z.of_nat k)
     = Some (nth k (cc_counts_by_size r) 0%Z)) /\
  cc_max_size r = mc_size (graph_max_clique g_triangle) /\
  cc_total_cliques r = zsum (fun i => nth (i + 1) (cc_counts_by_size r) 0%Z) (n g_triangle) /\
  graph_total_clique_count g_triangle = Some (cc_total_cliques r).
Proof.
  destruct (cliques_listed g_triangle g_triangle_wf) as [H1 H2].
  apply (count_all_cliques_agrees g_triangle _ g_triangle_wf H1 H2).
  vm_compute. discriminate.
Defined.

(** X15.  [graph_total_clique_count] on a well-formed graph returns the
    number of cliques that are not empty when that number fits in an [int]:
    there is a list without repetition of exactly these cliques, each in
    increasing order, and if its length is at most [INT_MAX] the total is
    its length. *)
Theorem total_clique_count_counts : forall g,
  graph_wf g ->
  exists L,
    NoDup L /\
    (forall c, In c L <-> c <> [] /\ clique g c) /\
    ((Z.of_nat (length L) <= INT_MAX)%Z ->
     graph_total_clique_count g = Some (Z.of_nat (length L))).
Proof.
  intros g Hwf.
  destruct (graph_count_all_cliques_spec g (wf_pos Hwf)) as [Hv [_ [_ [_ Ht]]]].
  exists (extensions (build_adjacency_matrix g) (seq 0 (n g)) []). split; [|split].
  - apply extensions_nodup. apply seq_NoDup.
  - intros c. apply extensions_cliques. exact Hwf.
  - intros _. unfold graph_total_clique_count. rewrite Hv, Ht. reflexivity.
Qed.

Lemma total_clique_count_counts_witness :
  exists L,
    NoDup L /\
    (forall c, In c L <-> c <> [] /\ clique g_triangle c) /\
    ((Z.of_nat (length L) <= INT_MAX)%Z ->
     graph_total_clique_count g_triangle = Some (Z.of_nat (length L))).
Proof. apply (total_clique_count_counts g_triangle). exact g_triangle_wf. Defined.

(** *** [graph_count_triangles] and [graph_count_edges] *)

Lemma fold_count : forall (T : Type) (p : T -> bool) l (c : Z),
  fold_left (fun c x => if p x then (c + 1)%Z else c) l c
  = (c + Z.of_nat (length (filter p l)))%Z.
Proof.
  intros T p. induction l as [|x l IH]; intros c; cbn [fold_left filter].
  - cbn. lia.
  - rewrite IH. destruct (p x); cbn [length]; lia.
Qed.

(** The extensions by one vertex. *)
Lemma count_length_next : forall A cands cur t,
  (Z.of_nat (length cur) + 1)%Z = t ->
  count_length (extensions A cands cur) t
  = length (filter (fun v => is_connected_to_all A v cur) cands).
Proof.
  intros A. induction cands as [|v rest IH]; intros cur t Ht; cbn [extensions filter].
  - reflexivity.
  - rewrite count_length_app, (IH cur t Ht).
    destruct (is_connected_to_all A v cur); [|reflexivity].
    rewrite count_length_cons, count_length_zero.
    + rewrite length_app. cbn [length].
      destruct (Z.eqb_spec (Z.of_nat (length cur + 1)) t); [reflexivity|lia].
    + intros c Hc. apply extensions_length in Hc. rewrite length_app in Hc. cbn [length] in Hc.
      lia.
Qed.

Section Triangles.

Variable A : Matrix.

Variable n0 : nat.

Hypothesis Hsym : forall u v, mget A u v = mget A v u.

Lemma triangles_inner : forall i j l c,
  fold_left (fun count k =>
               if negb (mget A i k =? 0)%Z && negb (mget A j k =? 0)%Z
               then (count + 1)%Z else count) l c
  = (c + Z.of_nat (count_length (extensions A l [i; j]) 3))%Z.
Proof.
  intros i j l c. rewrite fold_count, (count_length_next A l [i; j] 3) by reflexivity.
  do 3 f_equal. apply filter_ext. intros k. cbn [is_connected_to_all].
  rewrite (Hsym k i), (Hsym k j).
  destruct (mget A i k =? 0)%Z; destruct (mget A j k =? 0)%Z; reflexivity.
Qed.

Lemma triangles_mid : forall i k a c,
  a + k = n0 ->
  fold_left
    (fun count j =>
       if negb (mget A i j =? 0)%Z then
         fold_left
           (fun count k =>
              if negb (mget A i k =? 0)%Z && negb (mget A j k =? 0)%Z
              then (count + 1)%Z else count)
           (seq (j + 1) (n0 - (j + 1))) count
       else count)
    (seq a k) c
  = (c + Z.of_nat (count_length (extensions A (seq a k) [i]) 3))%Z.
Proof.
  intros i. induction k as [|k IH]; intros a c Hn; cbn [seq fold_left extensions].
  - cbn. lia.
  - rewrite IH by lia. rewrite count_length_app. cbn [is_connected_to_all app].
    rewrite (Hsym a i).
    replace (seq (a + 1) (n0 - (a + 1))) with (seq (S a) k) by (f_equal; lia).
    destruct (mget A i a =? 0)%Z; cbn [negb].
    + cbn. lia.
    + rewrite triangles_inner, count_length_cons. cbn [length Z.of_nat].
      change (Z.pos (Pos.of_succ_nat 1) =? 3)%Z with false. cbv iota. lia.
Qed.

Lemma triangles_outer : forall k a c,
  a + k = n0 ->
  fold_left
    (fun count i =>
       fold_left
         (fun count j =>
            if negb (mget A i j =? 0)%Z then
              fold_left
                (fun count k =>
                   if negb (mget A i k =? 0)%Z && negb (mget A j k =? 0)%Z
                   then (count + 1)%Z else count)
                (seq (j + 1) (n0 - (j + 1))) count
            else count)
         (seq (i + 1) (n0 - (i + 1))) count)
    (seq a k) c
  = (c + Z.of_nat (count_length (extensions A (seq a k) []) 3))%Z.
Proof.
  induction k as [|k IH]; intros a c Hn; cbn [seq fold_left extensions].
  - cbn. lia.
  - rewrite IH by lia. rewrite count_length_app. cbn [is_connected_to_all app].
    replace (seq (a + 1) (n0 - (a + 1))) with (seq (S a) k) by (f_equal; lia).
    rewrite triangles_mid by lia. rewrite count_length_cons. cbn [length Z.of_nat].
    change (Z.pos (Pos.of_succ_nat 0) =? 3)%Z with false. cbv iota. lia.
Qed.

End Triangles.

(** X16.  On a well-formed graph [graph_count_triangles] returns what
    [graph_count_cliques_of_size] returns for size 3. *)
Theorem count_triangles_is_count_of_size_3 : forall g,
  graph_wf g ->
  graph_count_cliques_of_size g 3 = Some (graph_count_triangles g).
Proof.
  intros g Hwf. rewrite (graph_count_cliques_of_size_spec g 3) by lia. f_equal.
  unfold graph_count_triangles.
  destruct (Nat.ltb_spec (n g) 3) as [Hlt|Hge].
  - rewrite count_length_zero; [reflexivity|].
    intros c Hc. apply extensions_length in Hc. rewrite length_seq in Hc. cbn in Hc. lia.
  - rewrite (triangles_outer (build_adjacency_matrix g) (n g)
               (fun u v => adjacency_entry_sym g u v Hwf) (n g) 0 0%Z eq_refl).
    lia.
Qed.

Lemma count_triangles_is_count_of_size_3_witness :
  graph_count_cliques_of_size g_triangle 3 = Some (graph_count_triangles g_triangle).
Proof. apply (count_triangles_is_count_of_size_3 g_triangle). exact g_triangle_wf. Defined.

Lemma list_sum_indicator : forall t a k,
  list_sum (map (fun v => if t =? v then 1 else 0) (seq a k))
  = if (a <=? t) && (t <? a + k) then 1 else 0.
Proof.
  intros t. intros a k. revert a. induction k as [|k IH]; intros a; simpl seq; simpl map;
    simpl list_sum.
  - destruct (Nat.leb_spec a t); destruct (Nat.ltb_spec t (a + 0)); cbn; lia.
  - rewrite IH.
    destruct (Nat.eqb_spec t a); destruct (Nat.leb_spec a t); destruct (Nat.leb_spec (S a) t);
      destruct (Nat.ltb_spec t (a + S k)); destruct (Nat.ltb_spec t (S a + k)); cbn; lia.
Qed.

Lemma length_filter_sum : forall (T : Type) (p : T -> bool) l,
  length (filter p l) = list_sum (map (fun x => if p x then 1 else 0) l).
Proof.
  intros T p. induction l as [|x l IH]; simpl; [reflexivity|].
  destruct (p x); simpl; lia.
Qed.

Lemma list_sum_map_ext : forall (T : Type) (f h : T -> nat) l,
  (forall x, In x l -> f x = h x) -> list_sum (map f l) = list_sum (map h l).
Proof.
  intros T f h. induction l as [|x l IH]; intros H; simpl; [reflexivity|].
  rewrite (H x (or_introl eq_refl)), IH; [reflexivity|]. intros y Hy. apply H. right. exact Hy.
Qed.

(** The nodes of a list that lead to a higher vertex. *)
Lemma filter_higher_count : forall l a k,
  (forall e, In e l -> to e < S a + k) ->
  length (filter (fun e => a <? to e) l) = list_sum (map (count_to l) (seq (S a) k)).
Proof.
  induction l as [|e l IH]; intros a k Hr; cbn [filter].
  - cbn [length]. symmetry. rewrite (list_sum_map_ext _ _ (fun _ => 0)) by reflexivity.
    induction (seq (S a) k) as [|x s IHs]; cbn; auto.
  - assert (He := Hr e (or_introl eq_refl)).
    rewrite (list_sum_map_ext _ (count_to (e :: l))
               (fun v => (if to e =? v then 1 else 0) + count_to l v)) by reflexivity.
    rewrite list_sum_map_add, list_sum_indicator, <- (IH a k)
      by (intros; apply Hr; right; assumption).
    destruct (Nat.ltb_spec a (to e)); destruct (Nat.leb_spec (S a) (to e));
      destruct (Nat.ltb_spec (to e) (S a + k)); cbn [andb length]; lia.
Qed.

Lemma count_edges_fold : forall g k a c,
  graph_wf g ->
  a + k = n g ->
  fold_left
    (fun count u =>
       fold_left (fun count edge => if u <? to edge then (count + 1)%Z else count)
                 (head g u) count)
    (seq a k) c
  = (c + Z.of_nat (count_length (extensions (build_adjacency_matrix g) (seq a k) []) 2))%Z.
Proof.
  intros g k a c Hwf. revert a c.
  induction k as [|k IH]; intros a c Hn; cbn [seq fold_left extensions].
  - cbn. lia.
  - rewrite IH by lia. rewrite count_length_app. cbn [is_connected_to_all app].
    rewrite count_length_cons. cbn [length Z.of_nat].
    change (Z.pos (Pos.of_succ_nat 0) =? 2)%Z with false. cbv iota.
    rewrite (count_length_next _ (seq (S a) k) [a] 2) by reflexivity.
    rewrite (fold_count _ (fun edge => a <? to edge)).
    rewrite (filter_higher_count (head g a) a k)
      by (intros e He; assert (H := wf_to Hwf a e He); lia).
    rewrite length_filter_sum.
    rewrite (list_sum_map_ext _ (count_to (head g a))
               (fun v => if is_connected_to_all (build_adjacency_matrix g) v [a] then 1 else 0)).
    + lia.
    + intros v Hv. apply in_seq in Hv. cbn [is_connected_to_all].
      assert (Hs := wf_simple Hwf a v ltac:(lia)). unfold count_neighbor in Hs.
      destruct (mget (build_adjacency_matrix g) v a =? 0)%Z eqn:E.
      * destruct (count_to (head g a) v) as [|m] eqn:Ec; [reflexivity|exfalso].
        assert (E' : (mget (build_adjacency_matrix g) v a =? 0)%Z = false).
        { apply (adjacency_entry g v a Hwf). split; [lia|].
          apply adjacent_sym; [exact Hwf|]. apply adjacent_count. unfold count_neighbor. lia. }
        congruence.
      * apply (adjacency_entry g v a Hwf) in E. destruct E as [_ E].
        apply (adjacent_sym g v a Hwf) in E. apply adjacent_count in E.
        unfold count_neighbor in E. lia.
Qed.

(** X17.  On a well-formed graph [graph_count_edges] returns what
    [graph_count_cliques_of_size] returns for size 2: the edges that are not
    self-loops, each once. *)
Theorem count_edges_is_count_of_size_2 : forall g,
  graph_wf g ->
  graph_count_cliques_of_size g 2 = Some (graph_count_edges g).
Proof.
  intros g Hwf. rewrite (graph_count_cliques_of_size_spec g 2) by lia. f_equal.
  unfold graph_count_edges. rewrite (count_edges_fold g (n g) 0 0%Z Hwf eq_refl). lia.
Qed.

Lemma g_loops_wf : graph_wf g_loops.
Proof. apply apply_ops_wf. apply (graph_create_wf 3). reflexivity. Qed.

Lemma count_edges_is_count_of_size_2_witness :
  graph_count_cliques_of_size g_loops 2 = Some (graph_count_edges g_loops).
Proof. apply (count_edges_is_count_of_size_2 g_loops). exact g_loops_wf. Defined.

(** ** More of the flow module ([maxflow.c]) *)

(** *** The queue is first in, first out *)

Lemma mod_lt2 : forall a c, 0 < c -> a < 2 * c -> a mod c = if a <? c then a else a - c.
Proof.
  intros a c Hc Ha. destruct (Nat.ltb_spec a c) as [H|H].
  - apply Nat.mod_small. exact H.
  - symmetry. apply (Nat.mod_unique a c 1); lia.
Qed.

Lemma queue_create_ok : forall capacity,
  0 < capacity -> queue_ok (queue_create capacity) /\ queue_items (queue_create capacity) = [].
Proof.
  intros c Hc. unfold queue_ok, queue_items, queue_create. cbn.
  rewrite repeat_length, Nat.mod_small by lia. repeat split; lia.
Qed.

(** X18.  The queue of the breadth-first search is first in, first out.
    [queue_enqueue] on a queue with room returns 1 and puts the item last;
    on a full queue it returns 0 and changes nothing.  [queue_dequeue]
    returns the oldest item and removes it; on an empty queue it returns -1
    and changes nothing.  The invariant of the fields is kept, and
    [queue_create] gives an empty queue. *)
Theorem queue_first_in_first_out : forall q x,
  queue_ok q ->
  (q_size q < q_capacity q ->
     fst (queue_enqueue_cells q x) = 1%Z /\
     queue_ok (snd (queue_enqueue_cells q x)) /\
     queue_items (snd (queue_enqueue_cells q x)) = queue_items q ++ [x]) /\
  (q_capacity q <= q_size q -> queue_enqueue_cells q x = (0%Z, q)) /\
  (forall y rest, queue_items q = y :: rest ->
     fst (queue_dequeue q) = y /\
     queue_ok (snd (queue_dequeue q)) /\
     queue_items (snd (queue_dequeue q)) = rest) /\
  (queue_items q = [] -> queue_dequeue q = ((-1)%Z, q)).
Proof.
  intros q x [Hc [Hl [Hf [Hs Hr]]]].
  split; [|split; [|split]].
  - intros Hlt. unfold queue_enqueue_cells.
    destruct (Nat.leb_spec (q_capacity q) (q_size q)); [lia|]. cbn [fst snd].
    split; [reflexivity|]. split.
    + unfold queue_ok. cbn [q_data q_front q_rear q_size q_capacity].
      split; [exact Hc|]. split; [rewrite upd_length; exact Hl|]. split; [exact Hf|].
      split; [lia|]. rewrite Hr, Nat.Div0.add_mod_idemp_l. f_equal. lia.
    + unfold queue_items. cbn [q_data q_front q_rear q_size q_capacity].
      rewrite Nat.add_1_r, seq_S, map_app. cbn [map Nat.add]. f_equal.
      * apply map_ext_in. intros i Hi. apply in_seq in Hi.
        apply nth_upd_other. rewrite Hr.
        rewrite (mod_lt2 (q_front q + q_size q)), (mod_lt2 (q_front q + i)) by lia.
        destruct (Nat.ltb_spec (q_front q + q_size q) (q_capacity q));
          destruct (Nat.ltb_spec (q_front q + i) (q_capacity q)); lia.
      * rewrite <- Hr. rewrite nth_upd_same; [reflexivity|].
        rewrite Hl, Hr. apply Nat.mod_upper_bound. lia.
  - intros Hfull. unfold queue_enqueue_cells.
    destruct (Nat.leb_spec (q_capacity q) (q_size q)); [reflexivity|lia].
  - intros y rest Hi. unfold queue_items in Hi.
    destruct (q_size q) as [|k] eqn:Ek; [discriminate|].
    change (seq 0 (S k)) with (0 :: seq 1 k) in Hi. cbn [map] in Hi.
    injection Hi as Hy Hrest.
    unfold queue_dequeue, queue_is_empty. rewrite Ek. cbn [Nat.eqb fst snd].
    rewrite Nat.add_0_r, Nat.mod_small in Hy by exact Hf.
    split; [exact Hy|]. split.
    + unfold queue_ok. cbn [q_data q_front q_rear q_size q_capacity].
      split; [exact Hc|]. split; [exact Hl|].
      split; [apply Nat.mod_upper_bound; lia|]. split; [lia|].
      rewrite Hr, Nat.Div0.add_mod_idemp_l. f_equal. lia.
    + unfold queue_items. cbn [q_data q_front q_rear q_size q_capacity].
      rewrite <- Hrest. replace (S k - 1) with k by lia.
      rewrite <- seq_shift, map_map. apply map_ext. intros i.
      rewrite Nat.Div0.add_mod_idemp_l. do 2 f_equal. lia.
  - intros Hi. unfold queue_items in Hi.
    destruct (q_size q) as [|k] eqn:Ek; [|discriminate].
    unfold queue_dequeue, queue_is_empty. rewrite Ek. reflexivity.
Qed.

Lemma queue_first_in_first_out_witness :
  let q := snd (queue_enqueue_cells (queue_create 2) 4%Z) in
  (q_size q < q_capacity q ->
     fst (queue_enqueue_cells q 6%Z) = 1%Z /\
     queue_ok (snd (queue_enqueue_cells q 6%Z)) /\
     queue_items (snd (queue_enqueue_cells q 6%Z)) = queue_items q ++ [6%Z]) /\
  (q_capacity q <= q_size q -> queue_enqueue_cells q 6%Z = (0%Z, q)) /\
  (forall y rest, queue_items q = y :: rest ->
     fst (queue_dequeue q) = y /\
     queue_ok (snd (queue_dequeue q)) /\
     queue_items (snd (queue_dequeue q)) = rest) /\
  (queue_items q = [] -> queue_dequeue q = ((-1)%Z, q)).
Proof.
  apply (queue_first_in_first_out (snd (queue_enqueue_cells (queue_create 2) 4%Z)) 6%Z).
  unfold queue_ok. cbn. repeat split; lia.
Defined.

(** *** The value of the flow *)

Local Open Scope Z_scope.

Lemma graph_max_flow_valid : forall g s t,
  graph_max_flow_ok g s t <> Some None ->
  0 <= s < Z.of_nat (n g) /\ 0 <= t < Z.of_nat (n g) /\ s <> t.
Proof.
  intros g s t H. unfold graph_max_flow_ok in H.
  destruct (Z.ltb_spec s 0); cbn [orb] in H; [congruence|].
  destruct (Z.ltb_spec t 0); cbn [orb] in H; [congruence|].
  rewrite !Z.geb_leb in H.
  destruct (Z.leb_spec (Z.of_nat (n g)) s); cbn [orb] in H; [congruence|].
  destruct (Z.leb_spec (Z.of_nat (n g)) t); cbn [orb] in H; [congruence|].
  destruct (Z.eqb_spec s t); cbn [orb] in H; [congruence|]. lia.
Qed.

Lemma graph_max_flow_invalid : forall g s t,
  ~ (0 <= s < Z.of_nat (n g) /\ 0 <= t < Z.of_nat (n g) /\ s <> t) ->
  graph_max_flow_ok g s t = Some None.
Proof.
  intros g s t H. unfold graph_max_flow_ok. rewrite !Z.geb_leb.
  destruct (Z.ltb_spec s 0); cbn [orb]; [reflexivity|].
  destruct (Z.ltb_spec t 0); cbn [orb]; [reflexivity|].
  destruct (Z.leb_spec (Z.of_nat (n g)) s); cbn [orb]; [reflexivity|].
  destruct (Z.leb_spec (Z.of_nat (n g)) t); cbn [orb]; [reflexivity|].
  destruct (Z.eqb_spec s t); cbn [orb]; [reflexivity|]. exfalso. apply H. lia.
Qed.

(** The value is the least capacity of a cut. *)
Lemma graph_max_flow_cut : forall g s t,
  graph_wf g -> weights_nonneg g ->
  (s < n g)%nat -> (t < n g)%nat -> s <> t ->
  exists value,
    graph_max_flow_ok g (Z.of_nat s) (Z.of_nat t) = Some (Some value) /\
    0 <= value /\
    (exists S, is_cut s t S /\ cut_capacity (build_capacity_matrix g) (n g) S = value) /\
    (forall S, is_cut s t S -> value <= cut_capacity (build_capacity_matrix g) (n g) S).
Proof.
  intros g s t Hwf Hw Hs Ht Hst.
  destruct (max_flow_loop_min_cut (build_capacity_matrix g) (n g) s t
              (proj1 (build_capacity_matrix_spec g Hwf)) Hs Ht Hst
              (capacity_nonneg g Hwf Hw) (repeat 0%Z (n g)) (repeat_length _ _))
    as [value [R' [Hrun [Hge [Hinv [[S [HS [Hcap Hzero]]] Hmin]]]]]].
  exists value. split.
  { rewrite (graph_max_flow_run g s t Hs Ht Hst), Hrun. reflexivity. }
  split; [exact Hge|]. split; [exists S; split; assumption|exact Hmin].
Qed.

Lemma capacity_sym : forall g a b,
  graph_wf g -> (a < n g)%nat -> (b < n g)%nat ->
  mget (build_capacity_matrix g) a b = mget (build_capacity_matrix g) b a.
Proof.
  intros g a b Hwf Ha Hb.
  rewrite !(proj2 (build_capacity_matrix_spec g Hwf)) by assumption.
  rewrite (Nat.eqb_sym b a). destruct (Nat.eqb_spec a b) as [E|E]; [reflexivity|].
  apply first_weight_sym; assumption.
Qed.

Lemma cut_capacity_complement : forall M k S,
  (forall a b, (a < k)%nat -> (b < k)%nat -> mget M a b = mget M b a) ->
  cut_capacity M k (fun x => negb (S x)) = cut_capacity M k S.
Proof.
  intros M k S Hsym. unfold cut_capacity.
  rewrite (zsum_swap (fun a b => if negb (S a) && negb (negb (S b)) then mget M a b else 0) k k).
  apply zsum2_ext. intros a b Ha Hb. rewrite (Hsym b a Hb Ha).
  destruct (S a); destruct (S b); reflexivity.
Qed.

(** In exact arithmetic the value is the same in both directions. *)
Lemma max_flow_ok_symmetric : forall g s t,
  graph_wf g -> weights_nonneg g ->
  graph_max_flow_ok g s t = graph_max_flow_ok g t s.
Proof.
  intros g s t Hwf Hw.
  assert (Hdec : (0 <= s < Z.of_nat (n g) /\ 0 <= t < Z.of_nat (n g) /\ s <> t) \/
                 ~ (0 <= s < Z.of_nat (n g) /\ 0 <= t < Z.of_nat (n g) /\ s <> t)) by lia.
  destruct Hdec as [[Hs [Ht Hst]]|Hinv].
  - assert (Hs' : (Z.to_nat s < n g)%nat) by lia.
    assert (Ht' : (Z.to_nat t < n g)%nat) by lia.
    assert (Hst' : Z.to_nat s <> Z.to_nat t) by lia.
    destruct (graph_max_flow_cut g _ _ Hwf Hw Hs' Ht' Hst')
      as [v1 [E1 [_ [[S1 [[C1a C1b] K1]] M1]]]].
    destruct (graph_max_flow_cut g _ _ Hwf Hw Ht' Hs' (not_eq_sym Hst'))
      as [v2 [E2 [_ [[S2 [[C2a C2b] K2]] M2]]]].
    rewrite !Z2Nat.id in E1, E2 by lia. rewrite E1, E2. do 2 f_equal.
    assert (Hc := fun S => cut_capacity_complement (build_capacity_matrix g) (n g) S
                             (fun a b Ha Hb => capacity_sym g a b Hwf Ha Hb)).
    assert (H1 : v1 <= v2).
    { rewrite <- K2, <- (Hc S2). apply M1. split; [rewrite C2b|rewrite C2a]; reflexivity. }
    assert (H2 : v2 <= v1).
    { rewrite <- K1, <- (Hc S1). apply M2. split; [rewrite C1b|rewrite C1a]; reflexivity. }
    lia.
  - rewrite (graph_max_flow_invalid g s t Hinv).
    rewrite (graph_max_flow_invalid g t s); [reflexivity|]. intros [H1 [H2 H3]]. apply Hinv.
    split; [exact H2|]. split; [exact H1|]. congruence.
Qed.

Lemma g_flow_wf : graph_wf g_flow.
Proof. apply apply_ops_wf. apply (graph_create_wf 4). reflexivity. Qed.

Lemma g_flow_weights : weights_ge_1 g_flow.
Proof.
  intros u e H. unfold head in H.
  do 4 (destruct u as [|u]; [cbv in H; intuition (subst; simpl; lia)|]).
  cbv in H. destruct u; destruct H.
Qed.

Lemma weights_ge_1_nonneg : forall g, weights_ge_1 g -> weights_nonneg g.
Proof. intros g H u e He. specialize (H u e He). lia. Qed.

Lemma cut_single : forall g x,
  graph_wf g -> (x < n g)%nat ->
  cut_capacity (build_capacity_matrix g) (n g) (fun a => (a =? x)%nat) = weight_at g x.
Proof.
  intros g x Hwf Hx. unfold cut_capacity, weight_at.
  rewrite (zsum_ext _ (fun a => if (x =? a)%nat then weight_at g x else 0)).
  - rewrite zsum_single. destruct (Nat.ltb_spec x (n g)); [reflexivity|lia].
  - intros a Ha. destruct (Nat.eqb_spec x a) as [<-|Hne].
    + unfold weight_at. apply zsum_ext. intros b Hb. rewrite Nat.eqb_refl. cbn [andb].
      rewrite (capacity_entry g Hwf x b Hx Hb). rewrite (Nat.eqb_sym b x).
      destruct (x =? b)%nat; reflexivity.
    + apply zsum_all_zero. intros b Hb.
      destruct (Nat.eqb_spec a x) as [E|_]; [congruence|]. reflexivity.
Qed.

Lemma reach_crossing : forall g s x (S : nat -> bool),
  reach g s x -> S s = true -> S x = false ->
  exists a b, S a = true /\ S b = false /\ adjacent g a b.
Proof.
  intros g s x S H Hs. induction H as [|v w Hv IH Hvw]; intros Hx.
  - congruence.
  - destruct (S v) eqn:Ev.
    + exists v, w. repeat split; assumption.
    + apply IH. reflexivity.
Qed.

Lemma cut_capacity_ge_entry : forall M k (S : nat -> bool) a0 b0,
  (forall a b, (a < k)%nat -> (b < k)%nat -> 0 <= mget M a b) ->
  (a0 < k)%nat -> (b0 < k)%nat -> S a0 = true -> S b0 = false ->
  mget M a0 b0 <= cut_capacity M k S.
Proof.
  intros M k S a0 b0 Hpos Ha Hb Sa Sb. unfold cut_capacity.
  assert (E : mget M a0 b0
              = zsum (fun a => zsum (fun b => if (a0 =? a)%nat && (b0 =? b)%nat
                                              then mget M a0 b0 else 0) k) k).
  { rewrite (zsum_ext _ (fun a => if (a0 =? a)%nat then mget M a0 b0 else 0)).
    - rewrite zsum_single. destruct (Nat.ltb_spec a0 k); [reflexivity|lia].
    - intros a _. destruct (a0 =? a)%nat; cbn [andb].
      + rewrite zsum_single. destruct (Nat.ltb_spec b0 k); [reflexivity|lia].
      + apply zsum_all_zero. reflexivity. }
  rewrite E at 1. apply zsum_le. intros a Ha'. apply zsum_le. intros b Hb'.
  destruct (Nat.eqb_spec a0 a) as [<-|Hne]; cbn [andb].
  - destruct (Nat.eqb_spec b0 b) as [<-|Hne'].
    + rewrite Sa, Sb. cbn. lia.
    + destruct (S a0 && negb (S b)); [apply Hpos; assumption|lia].
  - destruct (S a && negb (S b)); [apply Hpos; assumption|lia].
Qed.

Lemma capacity_ge_1 : forall g a b,
  graph_wf g -> weights_ge_1 g -> a <> b -> adjacent g a b ->
  1 <= mget (build_capacity_matrix g) a b.
Proof.
  intros g a b Hwf Hw Hab Hadj. destruct (adjacent_range g a b Hwf Hadj) as [Ha Hb].
  rewrite (proj2 (build_capacity_matrix_spec g Hwf) a b Ha Hb).
  destruct (Nat.eqb_spec a b) as [E|_]; [contradiction|].
  apply adjacent_count in Hadj. unfold count_neighbor in Hadj.
  destruct (first_weight_in (head g a) b Hadj) as [e [Hin [_ He]]].
  rewrite <- He. apply (Hw a e Hin).
Qed.

(** In exact arithmetic, with weights of at least 1, the value is positive
    exactly when the sink can be reached from the source. *)
Lemma max_flow_ok_positive_iff_reachable : forall g s t value,
  graph_wf g -> weights_ge_1 g ->
  graph_max_flow_ok g s t = Some (Some value) ->
  (0 < value <-> reach g (Z.to_nat s) (Z.to_nat t)).
Proof.
  intros g s t value Hwf Hw1 Hrun.
  assert (Hw := weights_ge_1_nonneg g Hw1).
  destruct (graph_max_flow_valid g s t) as [Hs [Ht Hst]]; [rewrite Hrun; discriminate|].
  assert (Hs' : (Z.to_nat s < n g)%nat) by lia.
  assert (Ht' : (Z.to_nat t < n g)%nat) by lia.
  assert (Hst' : Z.to_nat s <> Z.to_nat t) by lia.
  destruct (graph_max_flow_cut g _ _ Hwf Hw Hs' Ht' Hst')
    as [v [E [Hge [[S [[Sa Sb] Hcap]] Hmin]]]].
  rewrite !Z2Nat.id in E by lia. rewrite Hrun in E. injection E as <-.
  destruct (dfs_from_start g (Z.to_nat s) Hwf Hs') as [vis [_ [_ Hvis]]].
  split.
  - intros Hpos. apply Hvis. destruct (nth (Z.to_nat t) vis false) eqn:Et; [reflexivity|].
    exfalso.
    assert (Hle : value <= cut_capacity (build_capacity_matrix g) (n g)
                             (fun x => nth x vis false)).
    { apply Hmin. split; [apply Hvis; constructor|exact Et]. }
    assert (Hz : cut_capacity (build_capacity_matrix g) (n g) (fun x => nth x vis false) = 0).
    { unfold cut_capacity. apply zsum_all_zero. intros a Ha. apply zsum_all_zero. intros b Hb.
      destruct (nth a vis false) eqn:Ea; [|reflexivity].
      destruct (nth b vis false) eqn:Eb; [reflexivity|]. cbn [negb andb].
      assert (Hc := capacity_nonneg g Hwf Hw a b Ha Hb).
      destruct (Z.eq_dec (mget (build_capacity_matrix g) a b) 0) as [E0|E0]; [exact E0|].
      exfalso. assert (Hadj := capacity_adjacent g Hwf a b Ha Hb ltac:(lia)).
      assert (Hr : reach g (Z.to_nat s) b).
      { apply (reach_step g _ a b); [apply Hvis; exact Ea|exact Hadj]. }
      apply Hvis in Hr. congruence. }
    lia.
  - intros Hreach.
    destruct (reach_crossing g _ _ S Hreach Sa Sb) as [a [b [Ha [Hb Hadj]]]].
    destruct (adjacent_range g a b Hwf Hadj) as [Ra Rb].
    assert (Hab : a <> b) by (intros ->; congruence).
    assert (H1 := capacity_ge_1 g a b Hwf Hw1 Hab Hadj).
    assert (H2 := cut_capacity_ge_entry (build_capacity_matrix g) (n g) S a b
                    (capacity_nonneg g Hwf Hw) Ra Rb Ha Hb).
    lia.
Qed.

Local Close Scope Z_scope.

(** ** More of the spanning tree module ([mst.c]) *)

(** *** The priority queue *)

(** X23.  The priority queue of Prim's algorithm.  [pq_push] on a full queue
    returns 0 and leaves the queue as it is.  On a queue in heap order with
    room it returns 1, and a [pq_pop] made next returns the pushed entry or
    an entry that was in the queue before, of a weight that is at most the
    pushed weight and at most the weight of every entry that was in the
    queue; the queue is in heap order again, with as many entries as
    before. *)
Theorem pq_push_then_pop_least : forall pq weight vertex,
  pq_wf pq ->
  (pq_capacity pq <= pq_size pq -> pq_push pq weight vertex = Some (0%Z, pq)) /\
  (pq_size pq < pq_capacity pq ->
   exists pq1 e pq2,
     pq_push pq weight vertex = Some (1%Z, pq1) /\
     pq_pop pq1 = Some (e, pq2) /\
     pq_wf pq2 /\ pq_size pq2 = pq_size pq /\
     (e = mkPQNode weight vertex \/ pq_in pq e) /\
     (pq_weight e <= weight)%Z /\
     (forall e', pq_in pq e' -> (pq_weight e <= pq_weight e')%Z) /\
     (forall e', pq_in pq2 e' -> e' = mkPQNode weight vertex \/ pq_in pq e')).
Proof.
  intros pq w v Hwf. split.
  - intros Hfull. unfold pq_push.
    destruct (Nat.leb_spec (pq_capacity pq) (pq_size pq)); [reflexivity|lia].
  - intros Hroom.
    destruct (pq_push_spec pq w v Hwf Hroom) as [r [pq1 [Hpush [Hwf1 [Hs1 [_ Hin1]]]]]].
    assert (Hr : r = 1%Z).
    { unfold pq_push in Hpush.
      destruct (Nat.leb_spec (pq_capacity pq) (pq_size pq)); [lia|].
      destruct (pq_heapify_up _ _ _); [|discriminate]. injection Hpush as <- _. reflexivity. }
    subst r.
    destruct (pq_pop_spec pq1 Hwf1) as [e [pq2 [Hpop [Hwf2 [Hs2 [_ [He [Hmin Hin2]]]]]]]];
      [lia|].
    exists pq1, e, pq2. split; [exact Hpush|]. split; [exact Hpop|].
    split; [exact Hwf2|]. split; [lia|]. split; [|split; [|split]].
    + apply Hin1 in He. destruct He as [He|He]; [right; exact He|left; exact He].
    + apply (Hmin (mkPQNode w v)). apply Hin1. right. reflexivity.
    + intros e' He'. apply Hmin. apply Hin1. left. exact He'.
    + intros e' He'. assert (H : pq_in pq1 e') by (apply Hin2; right; exact He').
      apply Hin1 in H. destruct H as [H|H]; [right; exact H|left; exact H].
Qed.

Lemma pq_push_then_pop_least_witness :
  (pq_capacity (pq_create 4) <= pq_size (pq_create 4) ->
   pq_push (pq_create 4) 5 2 = Some (0%Z, pq_create 4)) /\
  (pq_size (pq_create 4) < pq_capacity (pq_create 4) ->
   exists pq1 e pq2,
     pq_push (pq_create 4) 5 2 = Some (1%Z, pq1) /\
     pq_pop pq1 = Some (e, pq2) /\
     pq_wf pq2 /\ pq_size pq2 = pq_size (pq_create 4) /\
     (e = mkPQNode 5 2 \/ pq_in (pq_create 4) e) /\
     (pq_weight e <= 5)%Z /\
     (forall e', pq_in (pq_create 4) e' -> (pq_weight e <= pq_weight e')%Z) /\
     (forall e', pq_in pq2 e' -> e' = mkPQNode 5 2 \/ pq_in (pq_create 4) e')).
Proof. apply (pq_push_then_pop_least (pq_create 4) 5 2). apply pq_create_wf. Defined.

(** X24.  Two calls of [pq_pop] on a queue in heap order with at least two
    entries return entries of the queue, the first no heavier than the
    second. *)
Theorem pq_pops_in_order : forall pq,
  pq_wf pq -> 2 <= pq_size pq ->
  exists e1 pq1 e2 pq2,
    pq_pop pq = Some (e1, pq1) /\ pq_pop pq1 = Some (e2, pq2) /\
    pq_in pq e1 /\ pq_in pq e2 /\
    (pq_weight e1 <= pq_weight e2)%Z /\
    pq_wf pq2 /\ pq_size pq2 = pq_size pq - 2.
Proof.
  intros pq Hwf Hs.
  destruct (pq_pop_spec pq Hwf) as [e1 [pq1 [Hp1 [Hwf1 [Hs1 [_ [He1 [Hmin1 Hin1]]]]]]]]; [lia|].
  destruct (pq_pop_spec pq1 Hwf1) as [e2 [pq2 [Hp2 [Hwf2 [Hs2 [_ [He2 [_ _]]]]]]]]; [lia|].
  assert (He2' : pq_in pq e2) by (apply Hin1; right; exact He2).
  exists e1, pq1, e2, pq2.
  split; [exact Hp1|]. split; [exact Hp2|]. split; [exact He1|]. split; [exact He2'|].
  split; [apply Hmin1; exact He2'|]. split; [exact Hwf2|lia].
Qed.

Lemma pq_pops_in_order_witness :
  let pq := mkPQ [mkPQNode 3 1; mkPQNode 5 2; pq_node0; pq_node0] 2 4 in
  exists e1 pq1 e2 pq2,
    pq_pop pq = Some (e1, pq1) /\ pq_pop pq1 = Some (e2, pq2) /\
    pq_in pq e1 /\ pq_in pq e2 /\
    (pq_weight e1 <= pq_weight e2)%Z /\
    pq_wf pq2 /\ pq_size pq2 = pq_size pq - 2.
Proof.
  apply (pq_pops_in_order (mkPQ [mkPQNode 3 1; mkPQNode 5 2; pq_node0; pq_node0] 2 4)).
  - constructor; cbn [pq_data pq_size pq_capacity].
    + intros i Hi. destruct i as [|[|i]]; [lia| |lia]. cbn. lia.
    + lia.
    + reflexivity.
  - cbn. lia.
Defined.

(** *** When [graph_mst_prim] reports a connected graph *)

Lemma pq_empty_no_entry : forall pq e, pq_size pq = 0 -> ~ pq_in pq e.
Proof. intros pq e Hs [i [Hi _]]. lia. Qed.

Lemma joined_reach : forall g T x,
  (forall a b, In (a, b) T -> adjacent g a b /\ adjacent g b a) ->
  joined T 0 x -> reach g 0 x.
Proof.
  intros g T x HT H. induction H as [|y z Hy IH Hstep]; [constructor|].
  apply (reach_step g 0 y z IH). destruct Hstep as [Hin|Hin]; apply HT in Hin; tauto.
Qed.

(** At the end of the main loop, with the queue empty, no edge of a weight
    in range leaves the set of the vertices reached. *)
Lemma prim_exit_closed : forall g st tr,
  graph_wf g -> weights_in_range g ->
  prim_inv (build_weight_matrix g) (n g) (fun _ _ => True) st tr ->
  pq_size (pr_pq st) = 0 ->
  forall x, x < n g -> (nth x (pr_in_mst st) false = true <-> reach g 0 x).
Proof.
  intros g st tr Hwf Hw Hinv Hsz.
  assert (Hpos := wf_pos Hwf).
  assert (Ht := pi_trace _ _ _ _ _ Hinv).
  assert (Hw1 : weights_ge_1 g) by (intros u e He; apply (Hw u e He)).
  assert (Hclosed : forall x, reach g 0 x -> in_tree tr x = true).
  { intros x H. induction H as [|v w Hv IH Hvw]; [reflexivity|].
    destruct (in_tree tr w) eqn:Ew; [reflexivity|exfalso].
    destruct (adjacent_range g v w Hwf Hvw) as [Rv Rw].
    assert (Hne : v <> w) by (intros ->; congruence).
    assert (Hp := weight_matrix_pos g Hwf Hw1 v w Hne Hvw).
    assert (Hlt : (mget (build_weight_matrix g) v w < INT_MAX)%Z).
    { rewrite (proj2 (build_weight_matrix_spec g Hwf) v w Rv Rw).
      destruct (Nat.eqb_spec v w); [contradiction|].
      apply adjacent_count in Hvw. unfold count_neighbor in Hvw.
      destruct (first_weight_in (head g v) w Hvw) as [e [Hin [_ He]]].
      rewrite <- He. apply (Hw v e Hin). }
    assert (Hk := pi_cover _ _ _ _ _ Hinv v w IH Rw Ew Hp I).
    destruct (pi_key_out _ _ _ _ _ Hinv w Rw Ew) as [Hmax|[p [_ [_ [_ [_ Hin]]]]]].
    - lia.
    - apply (pq_empty_no_entry _ _ Hsz Hin). }
  intros x Hx. rewrite (pi_in _ _ _ _ _ Hinv x Hx). split.
  - intros Hin. apply (joined_reach g tr).
    + intros a b Hab.
      destruct (prim_trace_edges_ok _ _ Hpos tr Ht a b Hab) as [_ [_ Hwab]].
      destruct (weight_matrix_edge g Hwf a b Hwab) as [_ [_ [_ Hadj]]].
      split; [exact Hadj|apply adjacent_sym; assumption].
    + apply (prim_trace_joined _ _ tr Ht). exact Hin.
  - apply Hclosed.
Qed.

(** X25.  On a well-formed graph whose weights are at least 1 and below
    [INT_MAX], [graph_mst_prim] sets [is_connected] exactly when every
    vertex can be reached from vertex 0; [graph_mst_weight] then returns the
    total weight, and returns 0 otherwise. *)
Theorem mst_connected_iff_reachable : forall g r,
  graph_wf g -> weights_in_range g ->
  graph_mst_prim (Some g) = Some (Some r) ->
  (is_connected r = true <-> forall x, x < n g -> reach g 0 x) /\
  graph_mst_weight (Some g)
  = Some (if is_connected r then Some (total_weight r) else None).
Proof.
  intros g r Hwf Hw Hrun. assert (Hpos := wf_pos Hwf).
  split; [|unfold graph_mst_weight; rewrite Hrun; destruct (is_connected r); reflexivity].
  unfold graph_mst_prim in Hrun.
  destruct (Nat.ltb_spec (n g) 1) as [H1|H1]; [lia|].
  destruct (Nat.eqb_spec (n g) 1) as [E1|E1].
  - injection Hrun as <-. cbn [is_connected]. split; [|reflexivity].
    intros _ x Hx. replace x with 0 by lia. constructor.
  - destruct (prim_loop_start (build_weight_matrix g) (n g) Hpos)
      as [r0 [pq0 [Hpush [st [tr [Hloop [Hinv Hsz]]]]]]].
    rewrite Hpush, Hloop in Hrun.
    assert (Hiff := prim_exit_closed g st tr Hwf Hw Hinv Hsz).
    destruct (Nat.eqb_spec (vertices_in_mst (pr_in_mst st) (n g)) (n g)) as [Eall|Enot];
      cbn [negb] in Hrun.
    + destruct (emit_edges _ _ _) as [[es ec] tot]. injection Hrun as <-.
      cbn [is_connected]. split; [|reflexivity].
      intros _ x Hx. apply Hiff; [exact Hx|].
      apply (proj1 (vertices_in_mst_all _ _) Eall). exact Hx.
    + injection Hrun as <-. cbn [is_connected]. split; [discriminate|].
      intros Hall. exfalso. apply Enot. apply vertices_in_mst_all.
      intros x Hx. apply Hiff; [exact Hx|]. apply Hall. exact Hx.
Qed.

Lemma g_weighted_triangle_in_range : weights_in_range g_weighted_triangle.
Proof.
  intros u e H. unfold head in H.
  do 3 (destruct u as [|u]; [cbv in H; intuition (subst; cbn; unfold INT_MAX; lia)|]).
  cbv in H. destruct u; destruct H.
Qed.

Lemma mst_connected_iff_reachable_witness :
  let r := mkMSTResult [mkMSTEdge 0 1 1; mkMSTEdge 1 2 2] 2 3 true in
  (is_connected r = true <-> forall x, x < n g_weighted_triangle -> reach g_weighted_triangle 0 x) /\
  graph_mst_weight (Some g_weighted_triangle)
  = Some (if is_connected r then Some (total_weight r) else None).
Proof.
  apply (mst_connected_iff_reachable g_weighted_triangle).
  - exact g_weighted_triangle_wf.
  - exact g_weighted_triangle_in_range.
  - reflexivity.
Defined.

(** ** The graphs that the servers build *)

(** *** The scans that write a weight *)

Lemma joinsb_sym : forall s d a b, joinsb s d a b = joinsb s d b a.
Proof.
  intros s d a b. unfold joinsb.
  destruct (s =? a); destruct (d =? b); destruct (s =? b); destruct (d =? a); reflexivity.
Qed.

Ltac eqb_cases :=
  repeat match goal with
         | |- context [Nat.eqb ?a ?b] => destruct (Nat.eqb_spec a b)
         end;
  cbn [andb orb negb]; try reflexivity; try congruence; try lia.

Lemma rewrite_weights_head : forall g s d w x,
  head (rewrite_weights g s d w) x = map (relabel s d w x) (head g x).
Proof.
  intros g s d w x. unfold rewrite_weights.
  assert (Hid : forall l, (forall e, In e l -> relabel s d w x e = e) ->
                          l = map (relabel s d w x) l).
  { intros l Hl. rewrite <- (map_id l) at 1. symmetry. apply map_ext_in. exact Hl. }
  destruct (Nat.ltb_spec x (length (adj g))) as [Hx|Hx].
  - destruct (Nat.eqb_spec s d) as [Esd|Esd].
    + subst d. rewrite head_set_head.
      destruct (Nat.eqb_spec s x) as [->|Hsx]; cbn [andb].
      * destruct (Nat.ltb_spec x (length (adj g))); [|lia].
        unfold set_weights. apply map_ext. intros e. unfold relabel, joinsb. eqb_cases.
      * apply Hid. intros e _. unfold relabel, joinsb. eqb_cases.
    + rewrite !head_set_head, set_head_length.
      destruct (Nat.eqb_spec d x) as [->|Hdx]; cbn [andb].
      * destruct (Nat.ltb_spec x (length (adj g))); [|lia].
        destruct (Nat.eqb_spec s x) as [E|_]; [contradiction|]. cbn [andb].
        unfold set_weights. apply map_ext. intros e. unfold relabel, joinsb. eqb_cases.
      * destruct (Nat.eqb_spec s x) as [->|Hsx]; cbn [andb].
        -- destruct (Nat.ltb_spec x (length (adj g))); [|lia].
           unfold set_weights. apply map_ext. intros e. unfold relabel, joinsb. eqb_cases.
        -- apply Hid. intros e _. unfold relabel, joinsb. eqb_cases.
  - rewrite (head_out_of_range g x) by lia. cbn [map].
    apply head_out_of_range.
    destruct (s =? d); rewrite ?set_head_length; lia.
Qed.

Lemma relabel_to : forall s d w x e, to (relabel s d w x e) = to e.
Proof. intros. unfold relabel. destruct (joinsb s d x (to e)); reflexivity. Qed.

Lemma count_to_relabel : forall s d w x l v,
  count_to (map (relabel s d w x) l) v = count_to l v.
Proof.
  intros s d w x. induction l as [|e l IH]; intros v; cbn [map count_to]; [reflexivity|].
  rewrite relabel_to, IH. reflexivity.
Qed.

Lemma first_weight_relabel : forall s d w x l v,
  first_weight (map (relabel s d w x) l) v
  = if joinsb s d x v then (if 0 <? count_to l v then w else 0%Z) else first_weight l v.
Proof.
  intros s d w x. induction l as [|e l IH]; intros v; cbn [map first_weight count_to].
  - destruct (joinsb s d x v); reflexivity.
  - rewrite relabel_to, IH. destruct (Nat.eqb_spec (to e) v) as [E|E].
    + unfold relabel. rewrite E. destruct (joinsb s d x v); reflexivity.
    + reflexivity.
Qed.

Lemma in_relabel : forall s d w x l v y,
  In (mkEdgeNode v y) (map (relabel s d w x) l) <->
  (joinsb s d x v = true /\ y = w /\ exists y0, In (mkEdgeNode v y0) l) \/
  (joinsb s d x v = false /\ In (mkEdgeNode v y) l).
Proof.
  intros s d w x l v y. rewrite in_map_iff. split.
  - intros [[t y0] [He Hin]]. unfold relabel in He. cbn [to] in He.
    destruct (joinsb s d x t) eqn:Ej.
    + injection He as <- <-. left. split; [exact Ej|]. split; [reflexivity|].
      exists y0. exact Hin.
    + injection He as <- <-. right. split; [exact Ej|exact Hin].
  - intros [[Ej [-> [y0 Hin]]]|[Ej Hin]].
    + exists (mkEdgeNode v y0). split; [|exact Hin]. unfold relabel. cbn [to]. rewrite Ej.
      reflexivity.
    + exists (mkEdgeNode v y). split; [|exact Hin]. unfold relabel. cbn [to]. rewrite Ej.
      reflexivity.
Qed.

Lemma rewrite_weights_n : forall g s d w, n (rewrite_weights g s d w) = n g.
Proof. intros. unfold rewrite_weights. destruct (s =? d); reflexivity. Qed.

Lemma rewrite_weights_length : forall g s d w,
  length (adj (rewrite_weights g s d w)) = length (adj g).
Proof.
  intros. unfold rewrite_weights. destruct (s =? d); rewrite ?set_head_length; reflexivity.
Qed.

(** The scans keep the representation invariant. *)
Lemma rewrite_weights_wf : forall g s d w,
  graph_wf g -> graph_wf (rewrite_weights g s d w).
Proof.
  intros g s d w Hwf.
  assert (Hc : forall u v, count_neighbor (rewrite_weights g s d w) u v = count_neighbor g u v).
  { intros u v. unfold count_neighbor. rewrite rewrite_weights_head. apply count_to_relabel. }
  constructor.
  - rewrite rewrite_weights_n. apply (wf_pos Hwf).
  - rewrite rewrite_weights_length, rewrite_weights_n. apply (wf_len Hwf).
  - intros u e He. rewrite rewrite_weights_head in He. apply in_map_iff in He.
    destruct He as [e0 [<- Hin]]. rewrite relabel_to, rewrite_weights_n.
    apply (wf_to Hwf u e0 Hin).
  - intros u v y Huv. rewrite !rewrite_weights_head, !in_relabel.
    rewrite (joinsb_sym s d v u).
    assert (Hs := fun y' => wf_sym Hwf u v y' Huv).
    split.
    + intros [[Ej [-> [y0 Hin]]]|[Ej Hin]].
      * left. split; [exact Ej|]. split; [reflexivity|]. exists y0. apply Hs. exact Hin.
      * right. split; [exact Ej|]. apply Hs. exact Hin.
    + intros [[Ej [-> [y0 Hin]]]|[Ej Hin]].
      * left. split; [exact Ej|]. split; [reflexivity|]. exists y0. apply Hs. exact Hin.
      * right. split; [exact Ej|]. apply Hs. exact Hin.
  - intros u v Huv. rewrite Hc. apply (wf_simple Hwf u v Huv).
  - intros u. rewrite Hc. apply (wf_loop Hwf u).
Qed.

Lemma rewrite_weights_first_weight : forall g s d w a b,
  graph_wf g -> adjacent g s d ->
  first_weight (head (rewrite_weights g s d w) a) b
  = if joinsb s d a b then w else first_weight (head g a) b.
Proof.
  intros g s d w a b Hwf Hadj. rewrite rewrite_weights_head, first_weight_relabel.
  destruct (joinsb s d a b) eqn:Ej; [|reflexivity].
  assert (Hab : adjacent g a b).
  { unfold joinsb in Ej. apply orb_true_iff in Ej.
    destruct Ej as [Ej|Ej]; apply andb_true_iff in Ej; destruct Ej as [E1 E2];
      apply Nat.eqb_eq in E1; apply Nat.eqb_eq in E2; subst.
    - exact Hadj.
    - apply adjacent_sym; assumption. }
  apply adjacent_count in Hab. unfold count_neighbor in Hab.
  destruct (Nat.ltb_spec 0 (count_to (head g a) b)); [reflexivity|lia].
Qed.

Lemma rewrite_weights_adjacent : forall g s d w a b,
  adjacent (rewrite_weights g s d w) a b <-> adjacent g a b.
Proof.
  intros g s d w a b. rewrite !adjacent_count. unfold count_neighbor.
  rewrite rewrite_weights_head, count_to_relabel. reflexivity.
Qed.

Lemma rewrite_weights_weights : forall g s d w,
  weights_ge_1 g -> (1 <= w)%Z -> weights_ge_1 (rewrite_weights g s d w).
Proof.
  intros g s d w Hg Hw u e He. rewrite rewrite_weights_head in He.
  apply in_map_iff in He. destruct He as [e0 [<- Hin]]. unfold relabel.
  destruct (joinsb s d u (to e0)); [exact Hw|apply (Hg u e0 Hin)].
Qed.

(** *** [graph_add_edge] as the servers call it *)

Lemma add_ok_first_weight : forall g u v w g' a b,
  graph_wf g ->
  graph_add_weighted_edge true true g u v w = (RC_OK, g') ->
  first_weight (head g' a) b
  = if joinsb (Z.to_nat u) (Z.to_nat v) a b then w else first_weight (head g a) b.
Proof.
  intros g u v w g' a b Hwf Hadd.
  destruct (add_ok_heads _ _ _ _ _ _ _ Hwf Hadd) as [Hu [Hv [Hn Hh]]].
  rewrite Hh. unfold joinsb.
  destruct (Nat.eqb_spec (Z.to_nat u) (Z.to_nat v)) as [E|E]; [rewrite <- E|];
    repeat (match goal with
            | |- context [Nat.eqb ?x ?y] => destruct (Nat.eqb_spec x y)
            end; cbn [andb orb app first_weight to weight]);
    try reflexivity; try congruence.
Qed.

Lemma add_ok_adjacent : forall g u v w g' a b,
  graph_wf g ->
  graph_add_weighted_edge true true g u v w = (RC_OK, g') ->
  (adjacent g' a b <-> joinsb (Z.to_nat u) (Z.to_nat v) a b = true \/ adjacent g a b).
Proof.
  intros g u v w g' a b Hwf Hadd.
  destruct (add_ok_heads _ _ _ _ _ _ _ Hwf Hadd) as [Hu [Hv [Hn Hh]]].
  unfold adjacent. rewrite Hh. unfold joinsb.
  destruct (Nat.eqb_spec (Z.to_nat u) (Z.to_nat v)) as [E|E]; [rewrite <- E|];
    repeat (match goal with
            | |- context [Nat.eqb ?x ?y] => destruct (Nat.eqb_spec x y)
            end; cbn [andb orb app map to In]);
    intuition congruence.
Qed.

(** The three outcomes of [graph_add_edge] on a valid triplet. *)
Lemma add_edge_valid : forall g src dest,
  graph_wf g ->
  (0 <= src < Z.of_nat (n g))%Z -> (0 <= dest < Z.of_nat (n g))%Z ->
  (adjacent g (Z.to_nat src) (Z.to_nat dest) /\
   graph_add_edge true true g src dest = (RC_DUP, g)) \/
  (~ adjacent g (Z.to_nat src) (Z.to_nat dest) /\
   exists g', graph_add_edge true true g src dest = (RC_OK, g')).
Proof.
  intros g src dest Hwf Hs Hd. unfold graph_add_edge, graph_add_weighted_edge.
  assert (Bs : in_bounds (Some g) src = true) by (apply in_bounds_true; exact Hs).
  assert (Bd : in_bounds (Some g) dest = true) by (apply in_bounds_true; exact Hd).
  rewrite Bs, Bd. cbn [negb orb].
  assert (Hadj := edge_exists_simple_adjacent g (Z.to_nat src) (Z.to_nat dest) Hwf).
  destruct (edge_exists_simple g (Z.to_nat src) (Z.to_nat dest)).
  - left. split; [apply Hadj; reflexivity|reflexivity].
  - right. split; [intros H; apply Hadj in H; discriminate|].
    destruct (Z.to_nat src =? Z.to_nat dest); eexists; reflexivity.
Qed.

(** *** The leader/follower and pipeline servers: the last triplet counts *)

Lemma process_triplet_step : forall g t,
  graph_wf g ->
  graph_wf (process_triplet_ok g t) /\
  n (process_triplet_ok g t) = n g /\
  (weights_ge_1 g -> weights_ge_1 (process_triplet_ok g t)) /\
  forall a b, first_weight (head (process_triplet_ok g t) a) b
    = if triplet_valid (n g) t && triplet_joins t a b then snd t
      else first_weight (head g a) b.
Proof.
  intros g [[src dest] w] Hwf. unfold process_triplet_ok.
  change (triplet_ok g src dest w) with (triplet_valid (n g) (src, dest, w)).
  destruct (triplet_valid (n g) (src, dest, w)) eqn:Ev; cbn [andb snd].
  2:{ split; [exact Hwf|]. split; [reflexivity|]. split; [auto|reflexivity]. }
  assert (Hr : (0 <= src < Z.of_nat (n g))%Z /\ (0 <= dest < Z.of_nat (n g))%Z /\ (0 < w)%Z).
  { unfold triplet_valid in Ev. rewrite !andb_true_iff in Ev.
    rewrite !Z.leb_le, !Z.ltb_lt in Ev. lia. }
  destruct Hr as [Hs [Hd Hw]].
  unfold triplet_joins. cbn [fst snd].
  destruct (add_edge_valid g src dest Hwf Hs Hd) as [[Hadj E]|[Hnadj [g1 E]]]; rewrite E;
    cbn [snd].
  - split; [apply rewrite_weights_wf; exact Hwf|]. split; [apply rewrite_weights_n|].
    split; [intros Hg; apply rewrite_weights_weights; [exact Hg|lia]|].
    intros a b. apply rewrite_weights_first_weight; assumption.
  - unfold graph_add_edge in E.
    assert (Hwf1 := add_ok_wf _ _ _ _ _ _ _ Hwf E).
    assert (Hadj1 : adjacent g1 (Z.to_nat src) (Z.to_nat dest)).
    { apply (add_ok_adjacent g src dest 1 g1 _ _ Hwf E). left. unfold joinsb.
      rewrite !Nat.eqb_refl. reflexivity. }
    destruct (add_ok_heads _ _ _ _ _ _ _ Hwf E) as [_ [_ [Hn1 _]]].
    split; [apply rewrite_weights_wf; exact Hwf1|].
    split; [rewrite rewrite_weights_n; exact Hn1|].
    split.
    + intros Hg. apply rewrite_weights_weights; [|lia].
      intros u e He.
      assert (H := add_entries_weight true true g src dest 1 u e Hwf).
      rewrite E in H. cbn [snd] in H. destruct (H He) as [H1|H1]; [apply (Hg u e H1)|lia].
    + intros a b. rewrite (rewrite_weights_first_weight g1 _ _ w a b Hwf1 Hadj1).
      rewrite (add_ok_first_weight g src dest 1 g1 a b Hwf E).
      destruct (joinsb (Z.to_nat src) (Z.to_nat dest) a b); reflexivity.
Qed.

Lemma process_weighted_request_spec : forall ts g,
  graph_wf g ->
  graph_wf (process_weighted_request_ok g ts) /\
  n (process_weighted_request_ok g ts) = n g /\
  (weights_ge_1 g -> weights_ge_1 (process_weighted_request_ok g ts)) /\
  forall a b, first_weight (head (process_weighted_request_ok g ts) a) b
    = last_valid_weight (n g) ts a b (first_weight (head g a) b).
Proof.
  unfold process_weighted_request_ok.
  induction ts as [|t ts IH]; intros g Hwf; cbn [fold_left last_valid_weight].
  - split; [exact Hwf|]. split; [reflexivity|]. split; [auto|reflexivity].
  - destruct (process_triplet_step g t Hwf) as [W1 [N1 [G1 F1]]].
    destruct (IH _ W1) as [W2 [N2 [G2 F2]]].
    split; [exact W2|]. split; [congruence|]. split; [auto|].
    intros a b. rewrite F2, F1, N1. reflexivity.
Qed.

Lemma get_first_weight : forall g a b,
  a < n g -> b < n g ->
  graph_get_edge_weight (Some g) (Z.of_nat a) (Z.of_nat b) = first_weight (head g a) b.
Proof.
  intros g a b Ha Hb. unfold graph_get_edge_weight.
  assert (Ba : in_bounds (Some g) (Z.of_nat a) = true) by (apply in_bounds_true; lia).
  assert (Bb : in_bounds (Some g) (Z.of_nat b) = true) by (apply in_bounds_true; lia).
  rewrite Ba, Bb, !Nat2Z.id. reflexivity.
Qed.

Lemma graph_create_empty : forall n0 g,
  graph_create n0 = Some g ->
  graph_wf g /\ weights_ge_1 g /\ forall a b, first_weight (head g a) b = 0%Z.
Proof.
  intros n0 g Hc. split; [exact (graph_create_wf n0 g Hc)|]. split.
  - intros u e He. rewrite (graph_create_head n0 g u Hc) in He. destruct He.
  - intros a b. rewrite (graph_create_head n0 g a Hc). reflexivity.
Qed.

(** X26.  The graph that [process_weighted_request] of the leader/follower
    server builds from a request (the pipeline server has the same loop) in
    a run where no allocation fails: it is well formed, every weight is at
    least 1, and the weight read between two vertices is the weight of the
    last valid triplet of the request for that pair, in either order of its
    ends; 0 when there is none.  A triplet is valid when both ends are
    vertices and its weight is positive. *)
Theorem weighted_request_last_triplet_counts : forall o n0 g ts,
  all_succeed o ->
  graph_create n0 = Some g ->
  graph_wf (process_weighted_request o g ts) /\
  n (process_weighted_request o g ts) = n g /\
  weights_ge_1 (process_weighted_request o g ts) /\
  forall a b, a < n g -> b < n g ->
    graph_get_edge_weight (Some (process_weighted_request o g ts)) (Z.of_nat a) (Z.of_nat b)
    = last_valid_weight (n g) ts a b 0%Z.
Proof.
  intros o n0 g ts Ho Hc. rewrite (process_weighted_request_succeed ts o g Ho).
  destruct (graph_create_empty n0 g Hc) as [Hwf [Hw Hz]].
  destruct (process_weighted_request_spec ts g Hwf) as [W [N [G F]]].
  split; [exact W|]. split; [exact N|]. split; [exact (G Hw)|].
  intros a b Ha Hb. rewrite get_first_weight by (rewrite N; assumption).
  rewrite F, Hz. reflexivity.
Qed.

Lemma weighted_request_last_triplet_counts_witness :
  let o := [true; true] in
  let g := mkGraph 2 [[]; []] in
  let ts := [(0, 1, 5); (1, 0, 9); (0, 7, 3)]%Z in
  graph_wf (process_weighted_request o g ts) /\
  n (process_weighted_request o g ts) = n g /\
  weights_ge_1 (process_weighted_request o g ts) /\
  forall a b, a < n g -> b < n g ->
    graph_get_edge_weight (Some (process_weighted_request o g ts)) (Z.of_nat a) (Z.of_nat b)
    = last_valid_weight (n g) ts a b 0%Z.
Proof.
  apply (weighted_request_last_triplet_counts [true; true] 2).
  - repeat constructor.
  - reflexivity.
Defined.

(** With a failed allocation the edge of the triplet is missing, and the
    weight read is 0. *)
Example weighted_request_failed_allocation :
  graph_get_edge_weight
    (Some (process_weighted_request [false] (mkGraph 2 [[]; []]) [(0, 1, 5)%Z])) 0 1 = 0%Z.
Proof. reflexivity. Qed.

(** *** The server of part 7: the first triplet counts *)

Lemma last_match_app : forall E1 E2 a b d,
  last_match (E1 ++ E2) a b d = last_match E2 a b (last_match E1 a b d).
Proof. intros. unfold last_match. apply fold_left_app. Qed.

Lemma last_match_none : forall E a b d,
  (forall s t w, In (s, t, w) E -> joinsb s t a b = false) -> last_match E a b d = d.
Proof.
  unfold last_match. induction E as [|[[s t] w] E IH]; intros a b d H; cbn [fold_left fst snd].
  - reflexivity.
  - rewrite (H s t w (or_introl eq_refl)). apply IH.
    intros s' t' w' Hin. apply (H s' t' w'). right. exact Hin.
Qed.

Lemma joinsb_adjacent : forall g s d a b,
  graph_wf g -> joinsb s d a b = true -> (adjacent g s d <-> adjacent g a b).
Proof.
  intros g s d a b Hwf Ej. unfold joinsb in Ej. apply orb_true_iff in Ej.
  destruct Ej as [Ej|Ej]; apply andb_true_iff in Ej; destruct Ej as [E1 E2];
    apply Nat.eqb_eq in E1; apply Nat.eqb_eq in E2; subst.
  - reflexivity.
  - split; apply adjacent_sym; exact Hwf.
Qed.

Lemma mst_rewrite_all : forall E g,
  graph_wf g ->
  (forall s d w, In (s, d, w) E -> adjacent g s d) ->
  graph_wf (fold_left mst_rewrite E g) /\
  n (fold_left mst_rewrite E g) = n g /\
  (weights_ge_1 g -> (forall s d w, In (s, d, w) E -> (1 <= w)%Z) ->
   weights_ge_1 (fold_left mst_rewrite E g)) /\
  forall a b, first_weight (head (fold_left mst_rewrite E g) a) b
    = last_match E a b (first_weight (head g a) b).
Proof.
  induction E as [|[[s d] w] E IH]; intros g Hwf Hadj; cbn [fold_left].
  - split; [exact Hwf|]. split; [reflexivity|]. split; [auto|reflexivity].
  - cbn [mst_rewrite].
    assert (Hsd := Hadj s d w (or_introl eq_refl)).
    destruct (IH (rewrite_weights g s d w)) as [W [N [G F]]].
    + apply rewrite_weights_wf. exact Hwf.
    + intros s' d' w' Hin. apply rewrite_weights_adjacent. apply (Hadj s' d' w').
      right. exact Hin.
    + split; [exact W|]. split; [rewrite N; apply rewrite_weights_n|]. split.
      * intros Hg Hw. apply G.
        -- apply rewrite_weights_weights; [exact Hg|]. apply (Hw s d w). left. reflexivity.
        -- intros s' d' w' Hin. apply (Hw s' d' w'). right. exact Hin.
      * intros a b. rewrite F. rewrite (rewrite_weights_first_weight g s d w a b Hwf Hsd).
        reflexivity.
Qed.

Lemma mst_request_general : forall ts g E0,
  graph_wf g ->
  (forall s d w, In (s, d, w) E0 -> adjacent g s d) ->
  let st := fold_left mst_add_triplet_ok ts (g, E0) in
  let g' := fold_left mst_rewrite (snd st) (fst st) in
  graph_wf g' /\ n g' = n g /\
  (weights_ge_1 g -> (forall s d w, In (s, d, w) E0 -> (1 <= w)%Z) -> weights_ge_1 g') /\
  forall a b, first_weight (head g' a) b
    = last_match E0 a b (if adjacentb g a b then first_weight (head g a) b
                         else first_valid_weight (n g) ts a b 0%Z).
Proof.
  induction ts as [|[[src dest] w] ts IH]; intros g E0 Hwf Hadj; cbv zeta;
    cbn [fold_left first_valid_weight].
  - cbn [fst snd]. destruct (mst_rewrite_all E0 g Hwf Hadj) as [W [N [G F]]].
    split; [exact W|]. split; [exact N|]. split; [exact G|].
    intros a b. rewrite F. f_equal.
    destruct (adjacentb g a b) eqn:Ea; [reflexivity|].
    apply first_weight_absent. unfold adjacentb in Ea. apply Nat.ltb_ge in Ea.
    unfold count_neighbor in Ea. lia.
  - assert (Hskip : triplet_valid (n g) (src, dest, w) = false ->
              mst_add_triplet_ok (g, E0) (src, dest, w) = (g, E0)).
    { intros Ev. unfold mst_add_triplet_ok, triplet_valid in *. rewrite !Z.geb_leb.
      destruct (Z.ltb_spec src 0); cbn [orb]; [reflexivity|].
      destruct (Z.leb_spec (Z.of_nat (n g)) src); cbn [orb]; [reflexivity|].
      destruct (Z.ltb_spec dest 0); cbn [orb]; [reflexivity|].
      destruct (Z.leb_spec (Z.of_nat (n g)) dest); cbn [orb]; [reflexivity|].
      destruct (Z.leb_spec w 0); [reflexivity|exfalso].
      destruct (Z.leb_spec 0 src); [|lia]. destruct (Z.ltb_spec src (Z.of_nat (n g))); [|lia].
      destruct (Z.leb_spec 0 dest); [|lia]. destruct (Z.ltb_spec dest (Z.of_nat (n g))); [|lia].
      destruct (Z.ltb_spec 0 w); [|lia]. discriminate. }
    destruct (triplet_valid (n g) (src, dest, w)) eqn:Ev; cbn [andb snd].
    2:{ rewrite (Hskip eq_refl). apply (IH g E0 Hwf Hadj). }
    assert (Hr : (0 <= src < Z.of_nat (n g))%Z /\ (0 <= dest < Z.of_nat (n g))%Z /\ (0 < w)%Z).
    { unfold triplet_valid in Ev. rewrite !andb_true_iff in Ev.
      rewrite !Z.leb_le, !Z.ltb_lt in Ev. lia. }
    destruct Hr as [Hs [Hd Hw]].
    assert (Hstep : forall r g1, graph_add_edge true true g src dest = (r, g1) ->
              mst_add_triplet_ok (g, E0) (src, dest, w)
              = if (r =? 0)%Z then (g1, E0 ++ [(Z.to_nat src, Z.to_nat dest, w)])
                else (g1, E0)).
    { intros r g1 E. unfold mst_add_triplet_ok. rewrite !Z.geb_leb.
      destruct (Z.ltb_spec src 0); [lia|].
      destruct (Z.leb_spec (Z.of_nat (n g)) src); [lia|].
      destruct (Z.ltb_spec dest 0); [lia|].
      destruct (Z.leb_spec (Z.of_nat (n g)) dest); [lia|]. cbn [orb].
      destruct (Z.leb_spec w 0); [lia|]. rewrite E. reflexivity. }
    unfold triplet_joins. cbn [fst snd].
    destruct (add_edge_valid g src dest Hwf Hs Hd) as [[Hsd E]|[Hnsd [g1 E]]].
    + rewrite (Hstep _ _ E). change (RC_DUP =? 0)%Z with false. cbv iota.
      destruct (IH g E0 Hwf Hadj) as [W [N [G F]]].
      split; [exact W|]. split; [exact N|]. split; [exact G|].
      intros a b. rewrite F. f_equal.
      destruct (adjacentb g a b) eqn:Ea; [reflexivity|].
      destruct (joinsb (Z.to_nat src) (Z.to_nat dest) a b) eqn:Ej; [exfalso|reflexivity].
      apply (joinsb_adjacent g _ _ a b Hwf Ej) in Hsd. apply adjacentb_true in Hsd. congruence.
    + rewrite (Hstep _ _ E). change (RC_OK =? 0)%Z with true. cbv iota.
      unfold graph_add_edge in E.
      assert (Hwf1 := add_ok_wf _ _ _ _ _ _ _ Hwf E).
      destruct (add_ok_heads _ _ _ _ _ _ _ Hwf E) as [_ [_ [Hn1 _]]].
      assert (Hadj1 : forall a b, adjacent g1 a b <->
                joinsb (Z.to_nat src) (Z.to_nat dest) a b = true \/ adjacent g a b)
        by (intros a b; apply (add_ok_adjacent g src dest 1 g1 a b Hwf E)).
      destruct (IH g1 (E0 ++ [(Z.to_nat src, Z.to_nat dest, w)]) Hwf1) as [W [N [G F]]].
      { intros s d w' Hin. apply Hadj1. apply in_app_or in Hin.
        destruct Hin as [Hin|[Hin|[]]].
        - right. apply (Hadj s d w' Hin).
        - injection Hin as <- <- <-. left. unfold joinsb. rewrite !Nat.eqb_refl. reflexivity. }
      split; [exact W|]. split; [congruence|]. split.
      { intros Hg Hw0. apply G.
        - intros u e He.
          assert (H := add_entries_weight true true g src dest 1 u e Hwf).
          rewrite E in H. cbn [snd] in H. destruct (H He) as [H1|H1]; [apply (Hg u e H1)|lia].
        - intros s d w' Hin. apply in_app_or in Hin. destruct Hin as [Hin|[Hin|[]]].
          + apply (Hw0 s d w' Hin).
          + injection Hin as <- <- <-. lia. }
      intros a b. rewrite F, last_match_app. unfold last_match at 1. cbn [fold_left fst snd].
      rewrite Hn1.
      destruct (joinsb (Z.to_nat src) (Z.to_nat dest) a b) eqn:Ej.
      * assert (Hnab : adjacentb g a b = false).
        { destruct (adjacentb g a b) eqn:Ea; [exfalso|reflexivity].
          apply adjacentb_true in Ea. apply Hnsd.
          apply (joinsb_adjacent g _ _ a b Hwf Ej). exact Ea. }
        rewrite Hnab. rewrite last_match_none; [reflexivity|].
        intros s t w' Hin. destruct (joinsb s t a b) eqn:Ej'; [exfalso|reflexivity].
        assert (Hst := Hadj s t w' Hin).
        apply (joinsb_adjacent g _ _ a b Hwf Ej') in Hst.
        apply adjacentb_true in Hst. congruence.
      * f_equal.
        assert (Eadj : adjacentb g1 a b = adjacentb g a b).
        { apply Bool.eq_iff_eq_true. rewrite !adjacentb_true, Hadj1. rewrite Ej.
          split; [intros [H|H]; [discriminate|exact H]|auto]. }
        rewrite Eadj. rewrite (add_ok_first_weight g src dest 1 g1 a b Hwf E), Ej.
        reflexivity.
Qed.

Lemma mst_add_triplet_ok_skip : forall g E0 t,
  triplet_valid (n g) t = false -> mst_add_triplet_ok (g, E0) t = (g, E0).
Proof.
  intros g E0 [[src dest] w] Ev. unfold mst_add_triplet_ok, triplet_valid in *.
  rewrite !Z.geb_leb.
  destruct (Z.ltb_spec src 0); cbn [orb]; [reflexivity|].
  destruct (Z.leb_spec (Z.of_nat (n g)) src); cbn [orb]; [reflexivity|].
  destruct (Z.ltb_spec dest 0); cbn [orb]; [reflexivity|].
  destruct (Z.leb_spec (Z.of_nat (n g)) dest); cbn [orb]; [reflexivity|].
  destruct (Z.leb_spec w 0); [reflexivity|exfalso].
  destruct (Z.leb_spec 0 src); [|lia]. destruct (Z.ltb_spec src (Z.of_nat (n g))); [|lia].
  destruct (Z.leb_spec 0 dest); [|lia]. destruct (Z.ltb_spec dest (Z.of_nat (n g))); [|lia].
  destruct (Z.ltb_spec 0 w); [|lia]. discriminate.
Qed.

(** The list of recorded triplets only grows. *)
Lemma mst_recorded_grows : forall ts g E0,
  exists E1, snd (fold_left mst_add_triplet_ok ts (g, E0)) = E0 ++ E1.
Proof.
  induction ts as [|[[src dest] w] ts IH]; intros g E0; cbn [fold_left].
  - exists []. rewrite app_nil_r. reflexivity.
  - unfold mst_add_triplet_ok at 2.
    destruct ((src <? 0)%Z || (src >=? Z.of_nat (n g))%Z ||
              (dest <? 0)%Z || (dest >=? Z.of_nat (n g))%Z); [apply IH|].
    destruct (w <=? 0)%Z; [apply IH|].
    destruct (graph_add_edge true true g src dest) as [r g1].
    destruct (r =? 0)%Z; [|apply IH].
    destruct (IH g1 (E0 ++ [(Z.to_nat src, Z.to_nat dest, w)])) as [E1 HE1].
    rewrite HE1, <- app_assoc. eexists. reflexivity.
Qed.

(** On a graph without edges, a triplet is recorded exactly when the
    request has a valid triplet: the first one is always inserted. *)
Lemma mst_recorded_none : forall ts g,
  graph_wf g -> (forall a b, ~ adjacent g a b) ->
  (snd (fold_left mst_add_triplet_ok ts (g, [])) = [] <->
   existsb (triplet_valid (n g)) ts = false).
Proof.
  induction ts as [|t ts IH]; intros g Hwf Hno; cbn [fold_left existsb].
  - split; reflexivity.
  - destruct (triplet_valid (n g) t) eqn:Ev; cbn [orb].
    + split; [|discriminate]. intros H. exfalso.
      destruct t as [[src dest] w].
      assert (Hr : (0 <= src < Z.of_nat (n g))%Z /\ (0 <= dest < Z.of_nat (n g))%Z /\ (0 < w)%Z).
      { unfold triplet_valid in Ev. rewrite !andb_true_iff in Ev.
        rewrite !Z.leb_le, !Z.ltb_lt in Ev. lia. }
      destruct Hr as [Hs [Hd Hw]].
      assert (Hstep : exists g1, mst_add_triplet_ok (g, []) (src, dest, w)
                                 = (g1, [(Z.to_nat src, Z.to_nat dest, w)])).
      { destruct (add_edge_valid g src dest Hwf Hs Hd) as [[Hsd _]|[_ [g1 E]]].
        - exfalso. apply (Hno _ _ Hsd).
        - exists g1. unfold mst_add_triplet_ok. rewrite !Z.geb_leb.
          destruct (Z.ltb_spec src 0); [lia|].
          destruct (Z.leb_spec (Z.of_nat (n g)) src); [lia|].
          destruct (Z.ltb_spec dest 0); [lia|].
          destruct (Z.leb_spec (Z.of_nat (n g)) dest); [lia|]. cbn [orb].
          destruct (Z.leb_spec w 0); [lia|]. rewrite E. reflexivity. }
      destruct Hstep as [g1 Hstep]. rewrite Hstep in H.
      destruct (mst_recorded_grows ts g1 [(Z.to_nat src, Z.to_nat dest, w)]) as [E1 HE1].
      rewrite HE1 in H. discriminate.
    + rewrite (mst_add_triplet_ok_skip g [] t Ev). apply IH; assumption.
Qed.

Lemma graph_create_call_succeed : forall o n0,
  all_succeed o -> (0 < n0)%Z ->
  exists g o', graph_create_call o n0 = (Some g, o') /\ graph_create n0 = Some g /\
               all_succeed o'.
Proof.
  intros o n0 Ho Hn. unfold graph_create_call.
  destruct (Z.leb_spec n0 0) as [H|H]; [lia|].
  destruct (alloc_succeed o Ho) as [E1 H1]. destruct (alloc o) as [m1 o1].
  cbn [fst snd] in *. subst m1. cbn [negb].
  destruct (alloc_succeed o1 H1) as [E2 H2]. destruct (alloc o1) as [m2 o2].
  cbn [fst snd] in *. subst m2. cbn [negb].
  unfold graph_create. destruct (Z.leb_spec n0 0) as [H'|H']; [lia|].
  eexists. eexists. split; [reflexivity|]. split; [reflexivity|exact H2].
Qed.

(** X27.  [process_mst_weighted_request] of the part 7 server on a request
    that passes the tests on the header ([n <= 50], [num_edges <= n * n],
    all the triplets received), in a run where no allocation fails.  The
    request is refused when none of its triplets is valid.  Otherwise the
    graph handed to the algorithm is well formed, every weight is at least
    1, and the weight read between two vertices is the weight of the first
    valid triplet of the request for that pair, in either order of its ends;
    0 when there is none.  A later triplet for the same pair changes
    nothing. *)
Theorem mst_request_first_triplet_counts : forall o n0 num_edges ts,
  all_succeed o ->
  (0 < n0 <= 50)%Z -> (0 <= num_edges <= n0 * n0)%Z ->
  (num_edges <= Z.of_nat (length ts))%Z ->
  let req := firstn (Z.to_nat num_edges) ts in
  (existsb (triplet_valid (Z.to_nat n0)) req = false ->
   process_mst_weighted_request o n0 num_edges ts = None) /\
  (existsb (triplet_valid (Z.to_nat n0)) req = true ->
   exists g',
     process_mst_weighted_request o n0 num_edges ts = Some g' /\
     graph_wf g' /\ n g' = Z.to_nat n0 /\ weights_ge_1 g' /\
     forall a b, a < n g' -> b < n g' ->
       graph_get_edge_weight (Some g') (Z.of_nat a) (Z.of_nat b)
       = first_valid_weight (n g') req a b 0%Z).
Proof.
  intros o n0 num_edges ts Ho Hn Hk Hlen req.
  unfold process_mst_weighted_request.
  destruct (Z.leb_spec n0 0) as [H|_]; [lia|].
  destruct (Z.ltb_spec 50 n0) as [H|_]; [lia|]. cbn [orb].
  destruct (Z.ltb_spec num_edges 0) as [H|_]; [lia|].
  destruct (Z.ltb_spec (n0 * n0) num_edges) as [H|_]; [lia|]. cbn [orb].
  destruct (Z.ltb_spec (Z.of_nat (length ts)) num_edges) as [H|_]; [lia|].
  destruct (graph_create_call_succeed o n0 Ho ltac:(lia)) as [g [o1 [Ec [Hc Ho1]]]].
  rewrite Ec.
  destruct (alloc_succeed o1 Ho1) as [E2 Ho2]. destruct (alloc o1) as [m o2].
  cbn [fst snd] in *. subst m. cbn [negb]. fold req.
  assert (Hfold := mst_add_triplets_succeed req o2 g [] Ho2).
  destruct (fold_left mst_add_triplet req (g, [], o2)) as [[g1 we] o3]. cbn [fst] in Hfold.
  destruct (graph_create_empty n0 g Hc) as [Hwf [Hw Hz]].
  assert (Hng : n g = Z.to_nat n0).
  { unfold graph_create in Hc. destruct (n0 <=? 0)%Z; [discriminate|].
    injection Hc as <-. reflexivity. }
  assert (Hno : forall a b, ~ adjacent g a b).
  { intros a b H. unfold adjacent in H. rewrite (graph_create_head n0 g a Hc) in H.
    destruct H. }
  assert (Hrec := mst_recorded_none req g Hwf Hno). rewrite <- Hfold in Hrec.
  cbn [snd] in Hrec. rewrite Hng in Hrec.
  split.
  - intros Hnone. apply Hrec in Hnone. subst we. reflexivity.
  - intros Hsome.
    destruct we as [|e we]; [exfalso; assert (H := proj1 Hrec eq_refl); congruence|].
    cbn [length Nat.eqb]. eexists. split; [reflexivity|].
    destruct (mst_request_general req g [] Hwf) as [W [N [G F]]]; [intros s d w []|].
    rewrite <- Hfold in W, N, G, F. cbn [fst snd] in W, N, G, F.
    split; [exact W|]. split; [congruence|].
    split; [apply G; [exact Hw|intros s d w []]|].
    intros a b Ha Hb. rewrite get_first_weight by assumption.
    rewrite F, N. unfold last_match.
    assert (Ea : adjacentb g a b = false).
    { unfold adjacentb, count_neighbor. rewrite (graph_create_head n0 g a Hc). reflexivity. }
    rewrite Ea. reflexivity.
Qed.

Lemma mst_request_first_triplet_counts_witness :
  let ts := [(0, 1, 5); (1, 0, 9); (0, 7, 3)]%Z in
  let req := firstn (Z.to_nat 3) ts in
  (existsb (triplet_valid (Z.to_nat 2)) req = false ->
   process_mst_weighted_request [true] 2 3 ts = None) /\
  (existsb (triplet_valid (Z.to_nat 2)) req = true ->
   exists g',
     process_mst_weighted_request [true] 2 3 ts = Some g' /\
     graph_wf g' /\ n g' = Z.to_nat 2 /\ weights_ge_1 g' /\
     forall a b, a < n g' -> b < n g' ->
       graph_get_edge_weight (Some g') (Z.of_nat a) (Z.of_nat b)
       = first_valid_weight (n g') req a b 0%Z).
Proof.
  apply (mst_request_first_triplet_counts [true] 2 3).
  - repeat constructor.
  - lia.
  - lia.
  - simpl. lia.
Defined.

(** With a failed allocation for the first triplet, the second triplet of
    the pair gives the weight. *)
Example mst_request_failed_allocation :
  option_map (fun g => graph_get_edge_weight (Some g) 0 1)
    (process_mst_weighted_request [true; true; true; false] 2 2 [(0, 1, 5); (0, 1, 9)]%Z)
  = Some 9%Z.
Proof. reflexivity. Qed.

(** *** The request with an adjacency matrix *)

Lemma fold_adjacent : forall (T : Type) (Inv : Graph -> Prop) (ok : T -> Prop)
    (hit : T -> nat -> nat -> Prop) (f : Graph -> T -> Graph),
  (forall g x, Inv g -> ok x ->
     Inv (f g x) /\ forall a b, adjacent (f g x) a b <-> adjacent g a b \/ hit x a b) ->
  forall l g, Inv g -> (forall x, In x l -> ok x) ->
    Inv (fold_left f l g) /\
    forall a b, adjacent (fold_left f l g) a b <->
                adjacent g a b \/ exists x, In x l /\ hit x a b.
Proof.
  intros T Inv ok hit f Hstep. induction l as [|x l IH]; intros g Hg Hok; cbn [fold_left].
  - split; [exact Hg|]. intros a b. split; [auto|]. intros [H|[x [[] _]]]. exact H.
  - destruct (Hstep g x Hg (Hok x (or_introl eq_refl))) as [H1 H2].
    destruct (IH (f g x) H1 (fun y Hy => Hok y (or_intror Hy))) as [H3 H4].
    split; [exact H3|]. intros a b. rewrite H4, H2. split.
    + intros [[H|H]|[y [Hy H]]].
      * left. exact H.
      * right. exists x. split; [left; reflexivity|exact H].
      * right. exists y. split; [right; exact Hy|exact H].
    + intros [H|[y [[<-|Hy] H]]].
      * left. left. exact H.
      * left. right. exact H.
      * right. exists y. split; assumption.
Qed.

Lemma add_edge_unit_step : forall g i j,
  graph_wf g /\ unit_weights g ->
  i < n g -> j < n g ->
  let g1 := snd (graph_add_edge true true g (Z.of_nat i) (Z.of_nat j)) in
  (graph_wf g1 /\ unit_weights g1) /\ n g1 = n g /\
  forall a b, adjacent g1 a b <-> adjacent g a b \/ joinsb i j a b = true.
Proof.
  intros g i j [Hwf Hu] Hi Hj.
  destruct (add_edge_valid g (Z.of_nat i) (Z.of_nat j) Hwf) as [[Hadj E]|[Hn [g1 E]]];
    try lia; rewrite E; cbn [snd]; rewrite !Nat2Z.id in *.
  - split; [split; assumption|]. split; [reflexivity|]. intros a b. split; [auto|].
    intros [H|H]; [exact H|]. apply (joinsb_adjacent g i j a b Hwf H). exact Hadj.
  - unfold graph_add_edge in E.
    destruct (add_ok_heads _ _ _ _ _ _ _ Hwf E) as [_ [_ [Hn1 _]]].
    split; [split|split].
    + apply (add_ok_wf _ _ _ _ _ _ _ Hwf E).
    + intros u e He.
      assert (H := add_entries_weight true true g (Z.of_nat i) (Z.of_nat j) 1 u e Hwf).
      rewrite E in H. cbn [snd] in H. destruct (H He) as [H1|H1]; [apply (Hu u e H1)|exact H1].
    + exact Hn1.
    + intros a b. assert (H := add_ok_adjacent g _ _ 1 g1 a b Hwf E).
      rewrite !Nat2Z.id in H. rewrite H. tauto.
Qed.

Lemma process_unweighted_request_spec : forall buffer g,
  graph_wf g -> unit_weights g ->
  let g' := process_unweighted_request_ok buffer (n g) g in
  graph_wf g' /\ unit_weights g' /\ n g' = n g /\
  forall a b, adjacent g' a b <->
    adjacent g a b \/
    exists i j, i <= j < n g /\ nth (2 + i * n g + j) buffer 0%Z = 1%Z /\ joinsb i j a b = true.
Proof.
  intros buffer g Hwf Hu. cbv zeta. set (n0 := n g).
  set (Inv := fun h : Graph => (graph_wf h /\ unit_weights h) /\ n h = n0).
  assert (Hcell : forall i h j, Inv h -> i < n0 /\ j < n0 ->
            Inv (if (nth (2 + i * n0 + j) buffer 0 =? 1)%Z
                 then snd (graph_add_edge true true h (Z.of_nat i) (Z.of_nat j)) else h) /\
            forall a b,
              adjacent (if (nth (2 + i * n0 + j) buffer 0 =? 1)%Z
                        then snd (graph_add_edge true true h (Z.of_nat i) (Z.of_nat j))
                        else h) a b <->
              adjacent h a b \/
              (nth (2 + i * n0 + j) buffer 0%Z = 1%Z /\ joinsb i j a b = true)).
  { intros i h j [Hh Hn] [Hi Hj].
    destruct (Z.eqb_spec (nth (2 + i * n0 + j) buffer 0%Z) 1) as [E|E].
    - destruct (add_edge_unit_step h i j Hh) as [H1 [H2 H3]]; try lia.
      split; [split; [exact H1|congruence]|]. intros a b. rewrite H3. tauto.
    - split; [split; assumption|]. intros a b. tauto. }
  assert (Hrow : forall h i, Inv h -> i < n0 ->
            Inv (matrix_row_edges_ok buffer n0 i h) /\
            forall a b, adjacent (matrix_row_edges_ok buffer n0 i h) a b <->
              adjacent h a b \/
              exists j, i <= j < n0 /\ nth (2 + i * n0 + j) buffer 0%Z = 1%Z /\
                        joinsb i j a b = true).
  { intros h i Hh Hi. unfold matrix_row_edges_ok.
    destruct (fold_adjacent nat Inv (fun j => i < n0 /\ j < n0)
                (fun j a b => nth (2 + i * n0 + j) buffer 0%Z = 1%Z /\ joinsb i j a b = true)
                _ (Hcell i) (seq i (n0 - i)) h Hh) as [H1 H2].
    { intros j Hj. apply in_seq in Hj. lia. }
    split; [exact H1|]. intros a b. rewrite H2. split.
    - intros [H|[j [Hj H]]]; [left; exact H|]. right. exists j. apply in_seq in Hj.
      split; [lia|exact H].
    - intros [H|[j [Hj H]]]; [left; exact H|]. right. exists j.
      split; [apply in_seq; lia|exact H]. }
  unfold process_unweighted_request_ok.
  destruct (fold_adjacent nat Inv (fun i => i < n0)
              (fun i a b => exists j, i <= j < n0 /\
                                      nth (2 + i * n0 + j) buffer 0%Z = 1%Z /\
                                      joinsb i j a b = true)
              (fun h i => matrix_row_edges_ok buffer n0 i h)
              (fun h i Hh Hi => Hrow h i Hh Hi) (seq 0 n0) g) as [[[H1 H2] H3] H4].
  { split; [split; assumption|reflexivity]. }
  { intros i Hi. apply in_seq in Hi. lia. }
  split; [exact H1|]. split; [exact H2|]. split; [exact H3|].
  intros a b. rewrite H4. split.
  - intros [H|[i [Hi [j [Hj H]]]]]; [left; exact H|]. right. exists i, j. split; [lia|exact H].
  - intros [H|[i [j [Hij H]]]]; [left; exact H|]. right. exists i.
    split; [apply in_seq; lia|]. exists j. split; [lia|exact H].
Qed.

Lemma matrix_row_edges_succeed : forall buffer n0 i js o g,
  all_succeed o ->
  let st := fold_left
    (fun (st : Graph * Alloc) j =>
       if (nth (2 + i * n0 + j) buffer 0 =? 1)%Z
       then
         let '(_, g1, o1) := graph_add_edge_call (snd st) (fst st) (Z.of_nat i) (Z.of_nat j) in
         (g1, o1)
       else st) js (g, o) in
  fst st = fold_left
    (fun g j =>
       if (nth (2 + i * n0 + j) buffer 0 =? 1)%Z
       then snd (graph_add_edge true true g (Z.of_nat i) (Z.of_nat j))
       else g) js g /\
  all_succeed (snd st).
Proof.
  intros buffer n0 i. induction js as [|j js IH]; intros o g Ho; cbv zeta; cbn [fold_left].
  - split; [reflexivity|exact Ho].
  - cbn [fst snd]. destruct (nth (2 + i * n0 + j) buffer 0 =? 1)%Z.
    + destruct (graph_add_edge_call_succeed o g (Z.of_nat i) (Z.of_nat j) Ho) as [E1 H1].
      destruct (graph_add_edge_call o g (Z.of_nat i) (Z.of_nat j)) as [[rc g1] o1].
      cbn [fst snd] in *. rewrite <- E1. cbn [snd]. apply (IH o1 g1 H1).
    + apply (IH o g Ho).
Qed.

Lemma process_unweighted_request_succeed : forall o buffer n0 g,
  all_succeed o ->
  process_unweighted_request o buffer n0 g = process_unweighted_request_ok buffer n0 g.
Proof.
  intros o buffer n0 g Ho. unfold process_unweighted_request, process_unweighted_request_ok.
  generalize (seq 0 n0). intros rows. revert o g Ho.
  induction rows as [|i rows IH]; intros o g Ho; [reflexivity|].
  cbn [fold_left].
  destruct (matrix_row_edges_succeed buffer n0 i (seq i (n0 - i)) o g Ho) as [E1 H1].
  fold (matrix_row_edges buffer n0 i (g, o)) in E1, H1.
  fold (matrix_row_edges_ok buffer n0 i g) in E1.
  destruct (matrix_row_edges buffer n0 i (g, o)) as [g1 o1]. cbn [fst snd] in *.
  rewrite <- E1. apply IH. exact H1.
Qed.

(** X28.  The graph that [process_unweighted_request] builds from the
    adjacency matrix of a request in a run where no allocation fails: it is
    well formed, every weight is 1, and two vertices [a <= b] are joined
    exactly when the entry of row [a] and column [b] is 1; an entry of the
    diagonal gives a self-loop, and the entries below the diagonal are not
    looked at. *)
Theorem unweighted_request_reads_upper_triangle : forall o n0 g buffer,
  all_succeed o ->
  graph_create n0 = Some g ->
  let g' := process_unweighted_request o buffer (n g) g in
  graph_wf g' /\ unit_weights g' /\ n g' = n g /\
  forall a b, a <= b < n g ->
    (adjacent g' a b <-> nth (2 + a * n g + b) buffer 0%Z = 1%Z).
Proof.
  intros o n0 g buffer Ho Hc. cbv zeta.
  rewrite (process_unweighted_request_succeed o buffer (n g) g Ho).
  destruct (graph_create_empty n0 g Hc) as [Hwf [_ _]].
  assert (Hu : unit_weights g).
  { intros u e He. rewrite (graph_create_head n0 g u Hc) in He. destruct He. }
  destruct (process_unweighted_request_spec buffer g Hwf Hu) as [W [U [N F]]].
  split; [exact W|]. split; [exact U|]. split; [exact N|].
  intros a b Hab. rewrite F. split.
  - intros [H|[i [j [Hij [Hm Hj]]]]].
    + unfold adjacent in H. rewrite (graph_create_head n0 g a Hc) in H. destruct H.
    + unfold joinsb in Hj. apply orb_true_iff in Hj.
      destruct Hj as [Hj|Hj]; apply andb_true_iff in Hj; destruct Hj as [E1 E2];
        apply Nat.eqb_eq in E1; apply Nat.eqb_eq in E2; subst.
      * exact Hm.
      * assert (E : a = b) by lia. subst b. exact Hm.
  - intros Hm. right. exists a, b. split; [lia|]. split; [exact Hm|].
    unfold joinsb. rewrite !Nat.eqb_refl. reflexivity.
Qed.

Lemma unweighted_request_reads_upper_triangle_witness :
  let o := [true; true] in
  let g := mkGraph 2 [[]; []] in
  let buffer := [1; 2; 0; 1; 0; 1]%Z in
  let g' := process_unweighted_request o buffer (n g) g in
  graph_wf g' /\ unit_weights g' /\ n g' = n g /\
  forall a b, a <= b < n g ->
    (adjacent g' a b <-> nth (2 + a * n g + b) buffer 0%Z = 1%Z).
Proof.
  apply (unweighted_request_reads_upper_triangle [true; true] 2).
  - repeat constructor.
  - reflexivity.
Defined.

(** With a failed allocation an entry 1 leaves no edge. *)
Example unweighted_request_failed_allocation :
  process_unweighted_request [false] [1; 2; 0; 1; 0; 0]%Z 2 (mkGraph 2 [[]; []])
  = mkGraph 2 [[]; []].
Proof. reflexivity. Qed.

(** ** All the maximal cliques ([maxclique.c]) *)

(** *** Maximal cliques *)

Lemma increasing_from_raise : forall c a b,
  increasing_from a c -> (forall y, In y c -> b <= y) -> increasing_from b c.
Proof.
  intros [|x c] a b H Hb; cbn in *; [exact I|].
  split; [apply Hb; left; reflexivity|apply H].
Qed.

Lemma increasing_app : forall l1 l2 a,
  increasing_from a (l1 ++ l2) <->
  increasing_from a l1 /\ increasing_from a l2 /\
  forall x y, In x l1 -> In y l2 -> x < y.
Proof.
  induction l1 as [|x l1 IH]; intros l2 a; cbn [app increasing_from].
  - split; [intros H; split; [exact I|split; [exact H|intros x y []]]|tauto].
  - rewrite IH. split.
    + intros [Hx [H1 [H2 H3]]]. split; [split; assumption|]. split.
      * apply (increasing_from_le l2 a (S x)); [lia|exact H2].
      * intros x' y [<-|Hx'] Hy.
        -- assert (H := increasing_from_lt l2 (S x) y H2 Hy). lia.
        -- apply H3; assumption.
    + intros [[Hx H1] [H2 H3]]. split; [exact Hx|]. split; [exact H1|]. split.
      * apply (increasing_from_raise l2 a); [exact H2|].
        intros y Hy. assert (H := H3 x y (or_introl eq_refl) Hy). lia.
      * intros x' y Hx' Hy. apply H3; [right; exact Hx'|exact Hy].
Qed.

Lemma increasing_filter : forall (f : nat -> bool) l a,
  increasing_from a l -> increasing_from a (filter f l).
Proof.
  intros f. induction l as [|x l IH]; intros a H; cbn [filter]; [exact I|].
  destruct H as [Hx H]. destruct (f x).
  - split; [exact Hx|]. apply IH. exact H.
  - apply (increasing_from_le _ a (S x)); [lia|]. apply IH. exact H.
Qed.

Section BronKerbosch.

Variable g : Graph.

Hypothesis Hwf : graph_wf g.

Let A := build_adjacency_matrix g.

Lemma in_neighbours_in : forall v l x,
  In x (neighbours_in A v l) <-> In x l /\ v <> x /\ adjacent g v x.
Proof.
  intros v l x. unfold neighbours_in. rewrite filter_In, negb_true_iff.
  unfold A. rewrite (adjacency_entry g v x Hwf). tauto.
Qed.

Lemma bk_pre_clique : forall R P X, bk_pre g R P X -> clique g R.
Proof.
  intros R P X [H1 [H2 [H3 _]]]. apply increasing_app in H1. destruct H1 as [H1 _].
  split; [exact H1|]. split; assumption.
Qed.

(** The arrays of the recursive call made for the first cell of [P]. *)
Lemma bk_pre_call : forall R v rest X,
  bk_pre g R (v :: rest) X ->
  bk_pre g (R ++ [v]) (neighbours_in A v (v :: rest)) (neighbours_in A v X).
Proof.
  intros R v rest X [H1 [H2 [H3 [H4 H5]]]].
  assert (Hv : v < n g /\ forall y, In y R -> v <> y /\ adjacent g v y).
  { apply H4. left. left. reflexivity. }
  destruct Hv as [Hvn Hvr].
  apply increasing_app in H1. destruct H1 as [I1 [I2 I3]].
  destruct I2 as [_ I2].
  assert (Hrest : forall y, In y rest -> v < y).
  { intros y Hy. assert (H := increasing_from_lt rest (S v) y I2 Hy). lia. }
  assert (Hnv : neighbours_in A v (v :: rest) = neighbours_in A v rest).
  { unfold neighbours_in. cbn [filter].
    destruct (mget A v v =? 0)%Z eqn:E; [reflexivity|].
    apply (adjacency_entry g v v Hwf) in E. destruct E as [E _]. contradiction. }
  rewrite Hnv. split; [|split; [|split; [|split]]].
  - rewrite <- app_assoc. cbn [app]. apply increasing_app. split; [exact I1|]. split.
    + split; [lia|]. apply increasing_filter. exact I2.
    + intros x y Hx [<-|Hy].
      * apply I3; [exact Hx|left; reflexivity].
      * apply in_neighbours_in in Hy. apply I3; [exact Hx|right; tauto].
  - intros x Hx. apply in_app_or in Hx. destruct Hx as [Hx|[<-|[]]]; [apply H2; exact Hx|exact Hvn].
  - intros a b Ha Hb Hab. apply in_app_or in Ha. apply in_app_or in Hb.
    destruct Ha as [Ha|[<-|[]]]; destruct Hb as [Hb|[<-|[]]].
    + apply H3; assumption.
    + apply adjacent_sym; [exact Hwf|]. apply Hvr. exact Ha.
    + apply Hvr. exact Hb.
    + contradiction.
  - intros x. rewrite !in_neighbours_in. split.
    + intros Hx.
      assert (Hin : In x (v :: rest) \/ In x X) by (destruct Hx as [Hx|Hx]; [left; right|right]; tauto).
      assert (Hvx : v <> x /\ adjacent g v x) by tauto.
      apply H4 in Hin. destruct Hin as [Hxn Hxr]. split; [exact Hxn|].
      intros y Hy. apply in_app_or in Hy. destruct Hy as [Hy|[<-|[]]]; [apply Hxr; exact Hy|].
      split; [intros E; apply (proj1 Hvx); congruence|].
      apply adjacent_sym; [exact Hwf|tauto].
    + intros [Hxn Hxr].
      assert (Hvx : x <> v /\ adjacent g x v).
      { apply Hxr. apply in_or_app. right. left. reflexivity. }
      assert (Hin : In x (v :: rest) \/ In x X).
      { apply H4. split; [exact Hxn|]. intros y Hy. apply Hxr. apply in_or_app. left. exact Hy. }
      assert (Hvx' : v <> x /\ adjacent g v x).
      { split; [intros E; apply (proj1 Hvx); congruence|].
        apply adjacent_sym; [exact Hwf|tauto]. }
      destruct Hin as [[E|Hin]|Hin].
      * exfalso. apply (proj1 Hvx). congruence.
      * left. tauto.
      * right. tauto.
  - intros x Hx Hx'. apply in_neighbours_in in Hx. apply in_neighbours_in in Hx'.
    apply (H5 x); [right; tauto|tauto].
Qed.

(** The arrays after the first cell of [P] has been moved to [X]. *)
Lemma bk_pre_next : forall R v rest X,
  bk_pre g R (v :: rest) X -> bk_pre g R rest (X ++ [v]).
Proof.
  intros R v rest X [H1 [H2 [H3 [H4 H5]]]].
  apply increasing_app in H1. destruct H1 as [I1 [I2 I3]].
  assert (Hnd := increasing_from_nodup _ _ I2). inversion Hnd as [|? ? Hv Hnd']; subst.
  split; [|split; [|split; [|split]]].
  - apply increasing_app. split; [exact I1|]. split.
    + destruct I2 as [_ I2]. apply (increasing_from_le rest 0 (S v)); [lia|exact I2].
    + intros x y Hx Hy. apply I3; [exact Hx|right; exact Hy].
  - exact H2.
  - exact H3.
  - intros x. rewrite <- H4. rewrite in_app_iff. cbn [In]. split.
    + intros [H|[H|[<-|[]]]]; [left; right; exact H|right; exact H|left; left; reflexivity].
    + intros [[<-|H]|H]; [right; right; left; reflexivity|left; exact H|right; left; exact H].
  - intros x Hx Hx'. apply in_app_or in Hx'. destruct Hx' as [Hx'|[<-|[]]].
    + apply (H5 x); [right; exact Hx|exact Hx'].
    + contradiction.
Qed.

Section Loop.

Variable rec : list nat -> list nat -> list nat -> list MaxClique_Result ->
               option (list MaxClique_Result).

Variable bound : nat.

(** The recursive call reports the maximal cliques that extend [R] by
    vertices of [P]. *)
Hypothesis Hrec : forall R P X results,
  length P < bound -> bk_pre g R P X ->
  exists L, rec R P X results = Some (results ++ map clique_result L) /\
    NoDup L /\
    forall c, In c L <->
      maximal_clique g c /\ exists ext, c = R ++ ext /\ forall x, In x ext -> In x P.

Lemma bk_loop_correct : forall l R X results,
  length l <= bound -> bk_pre g R l X ->
  exists L, bk_loop rec A R l l X results = Some (results ++ map clique_result L) /\
    NoDup L /\
    forall c, In c L <->
      maximal_clique g c /\
      exists ext, ext <> [] /\ c = R ++ ext /\ forall x, In x ext -> In x l.
Proof.
  induction l as [|v rest IH]; intros R X results Hlen Hpre.
  - exists []. cbn [bk_loop map]. rewrite app_nil_r. split; [reflexivity|].
    split; [constructor|]. intros c. split; [intros []|].
    intros [_ [ext [Hne [_ Hsub]]]]. destruct ext as [|x ext]; [contradiction|].
    apply (Hsub x). left. reflexivity.
  - cbn [bk_loop remove_first]. rewrite Nat.eqb_refl.
    assert (Hcall := bk_pre_call R v rest X Hpre).
    assert (Hnext := bk_pre_next R v rest X Hpre).
    assert (Hnl : length (neighbours_in A v (v :: rest)) < bound).
    { assert (Hnv : neighbours_in A v (v :: rest) = neighbours_in A v rest).
      { unfold neighbours_in. cbn [filter].
        destruct (mget A v v =? 0)%Z eqn:E; [reflexivity|].
        apply (adjacency_entry g v v Hwf) in E. destruct E as [E _]. contradiction. }
      rewrite Hnv. unfold neighbours_in.
      assert (H := filter_length_le (fun u => negb (mget A v u =? 0)%Z) rest).
      cbn [length] in Hlen. lia. }
    destruct (Hrec _ _ _ results Hnl Hcall) as [L1 [E1 [N1 S1]]]. rewrite E1.
    destruct (IH R (X ++ [v]) (results ++ map clique_result L1)) as [L2 [E2 [N2 S2]]];
      [cbn [length] in Hlen; lia|exact Hnext|].
    rewrite E2. exists (L1 ++ L2). split; [|split].
    + rewrite map_app, app_assoc. reflexivity.
    + apply NoDup_app; [exact N1|exact N2|].
      intros c H1 H2. apply S1 in H1. apply S2 in H2.
      destruct H1 as [_ [e1 [Ec1 _]]]. destruct H2 as [_ [e2 [Hne [Ec2 Hsub]]]].
      rewrite Ec1, <- app_assoc in Ec2. apply app_inv_head in Ec2. cbn [app] in Ec2.
      destruct e2 as [|y e2]; [contradiction|]. injection Ec2 as Ey _.
      assert (Hy : In y rest) by (apply Hsub; left; reflexivity).
      destruct Hpre as [I _]. apply increasing_app in I. destruct I as [_ [I _]].
      apply increasing_from_nodup in I. inversion I as [|? ? Hv _]; subst. contradiction.
    + intros c. rewrite in_app_iff, S1, S2. split.
      * intros [[Hm [ext [Ec Hsub]]]|[Hm [ext [Hne [Ec Hsub]]]]].
        -- split; [exact Hm|]. exists (v :: ext). split; [discriminate|].
           split; [rewrite Ec, <- app_assoc; reflexivity|].
           intros x [<-|Hx]; [left; reflexivity|].
           apply Hsub in Hx. apply in_neighbours_in in Hx. tauto.
        -- split; [exact Hm|]. exists ext. split; [exact Hne|]. split; [exact Ec|].
           intros x Hx. right. apply Hsub. exact Hx.
      * intros [Hm [ext [Hne [Ec Hsub]]]].
        assert (Hinc : increasing_from 0 c) by (apply Hm).
        rewrite Ec in Hinc. apply increasing_app in Hinc. destruct Hinc as [_ [Iext _]].
        destruct Hpre as [I _]. apply increasing_app in I. destruct I as [_ [[_ Irest] _]].
        assert (Hrest : forall y, In y rest -> v < y).
        { intros y Hy. assert (H := increasing_from_lt rest (S v) y Irest Hy). lia. }
        destruct ext as [|e1 ext']; [contradiction|].
        destruct (Nat.eq_dec e1 v) as [->|Hne1].
        -- left. split; [exact Hm|]. exists ext'. split; [rewrite Ec, <- app_assoc; reflexivity|].
           intros x Hx. apply in_neighbours_in.
           assert (Hxv : v < x).
           { destruct Iext as [_ Iext]. assert (H := increasing_from_lt ext' (S v) x Iext Hx). lia. }
           split; [apply Hsub; right; exact Hx|]. split; [lia|].
           destruct Hm as [[_ [_ Hadj]] _]. apply Hadj.
           ++ rewrite Ec. apply in_or_app. right. left. reflexivity.
           ++ rewrite Ec. apply in_or_app. right. right. exact Hx.
           ++ lia.
        -- right. split; [exact Hm|]. exists (e1 :: ext'). split; [discriminate|].
           split; [exact Ec|].
           assert (He1 : v < e1).
           { destruct (Hsub e1 (or_introl eq_refl)) as [E|H]; [congruence|apply Hrest; exact H]. }
           intros x Hx. destruct (Hsub x Hx) as [E|H]; [|exact H]. exfalso. subst x.
           destruct Hx as [E|Hx]; [congruence|].
           destruct Iext as [_ Iext]. assert (H := increasing_from_lt ext' (S e1) v Iext Hx). lia.
Qed.

End Loop.

Lemma bron_kerbosch_correct : forall fuel R P X results,
  length P < fuel -> bk_pre g R P X ->
  exists L, bron_kerbosch fuel A R P X results = Some (results ++ map clique_result L) /\
    NoDup L /\
    forall c, In c L <->
      maximal_clique g c /\ exists ext, c = R ++ ext /\ forall x, In x ext -> In x P.
Proof.
  induction fuel as [|fuel IH]; intros R P X results Hlen Hpre; [lia|].
  cbn [bron_kerbosch].
  destruct ((length P =? 0) && (length X =? 0)) eqn:Eempty.
  - apply andb_true_iff in Eempty. destruct Eempty as [EP EX].
    apply Nat.eqb_eq in EP. apply Nat.eqb_eq in EX.
    apply length_zero_iff_nil in EP. apply length_zero_iff_nil in EX. subst P X.
    exists [R]. split; [reflexivity|]. split; [repeat constructor; intros []|].
    assert (Hmax : maximal_clique g R).
    { split; [apply (bk_pre_clique R [] [] Hpre)|].
      intros x Hx Hall. destruct Hpre as [_ [_ [_ [H4 _]]]].
      destruct (proj2 (H4 x) (conj Hx Hall)) as [[]|[]]. }
    intros c. split.
    + intros [<-|[]]. split; [exact Hmax|]. exists []. rewrite app_nil_r.
      split; [reflexivity|intros x []].
    + intros [_ [ext [Ec Hsub]]]. left. destruct ext as [|x ext].
      * rewrite app_nil_r in Ec. congruence.
      * destruct (Hsub x (or_introl eq_refl)).
  - destruct (bk_loop_correct (bron_kerbosch fuel A) fuel
                (fun R' P' X' res Hl Hp => IH R' P' X' res Hl Hp) P R X results)
      as [L [E [N S]]]; [lia|exact Hpre|].
    exists L. split; [exact E|]. split; [exact N|]. intros c. rewrite S. split.
    + intros [Hm [ext [_ [Ec Hsub]]]]. split; [exact Hm|]. exists ext. split; assumption.
    + intros [Hm [ext [Ec Hsub]]]. split; [exact Hm|]. exists ext.
      split; [|split; assumption]. intros ->. rewrite app_nil_r in Ec. subst c.
      assert (Hx : exists x, In x P \/ In x X).
      { destruct P as [|p P]; [|exists p; left; left; reflexivity].
        destruct X as [|x X]; [discriminate|]. exists x. right. left. reflexivity. }
      destruct Hx as [x Hx]. destruct Hpre as [_ [_ [_ [H4 _]]]].
      apply H4 in Hx. destruct Hx as [Hxn Hall]. destruct Hm as [_ Hm].
      apply (Hm x Hxn). exact Hall.
Qed.

End BronKerbosch.

(** X29.  On a well-formed graph [graph_find_all_maximal_cliques] returns,
    and the cliques it stores are the maximal cliques of the graph, each
    once, its vertices in increasing order, with [size] their number and
    [is_valid] set.  A maximal clique is a set of vertices joined two by two
    to which no vertex can be added. *)
Theorem find_all_maximal_cliques_correct : forall g,
  graph_wf g ->
  exists L,
    graph_find_all_maximal_cliques g = Some (map clique_result L) /\
    NoDup L /\
    forall c, In c L <-> maximal_clique g c.
Proof.
  intros g Hwf. assert (Hpos := wf_pos Hwf). unfold graph_find_all_maximal_cliques.
  destruct (Nat.eqb_spec (n g) 0) as [H0|_]; [lia|].
  destruct (bron_kerbosch_correct g Hwf (n g + 1) [] (seq 0 (n g)) [] []) as [L [E [N S]]].
  - rewrite length_seq. lia.
  - split; [|split; [|split; [|split]]].
    + cbn [app]. apply (proj1 (subseq_seq (n g) 0 (seq 0 (n g)))).
      assert (Hs : forall l : list nat, subseq l l)
        by (induction l as [|x l IHl]; constructor; exact IHl).
      apply Hs.
    + intros x [].
    + intros a b [].
    + intros x. rewrite in_seq. split.
      * intros [H|[]]. split; [lia|intros y []].
      * intros [H _]. left. lia.
    + intros x _ [].
  - exists L. split; [exact E|]. split; [exact N|]. intros c. rewrite S. split.
    + intros [Hm _]. exact Hm.
    + intros Hm. split; [exact Hm|]. exists c. split; [reflexivity|].
      intros x Hx. apply in_seq. destruct Hm as [[_ [Hr _]] _]. specialize (Hr x Hx). lia.
Qed.

Lemma find_all_maximal_cliques_correct_witness :
  exists L,
    graph_find_all_maximal_cliques g_square = Some (map clique_result L) /\
    NoDup L /\
    forall c, In c L <-> maximal_clique g_square c.
Proof. apply (find_all_maximal_cliques_correct g_square). exact g_square_wf. Defined.

Example maximal_cliques_square :
  option_map (map mc_vertices) (graph_find_all_maximal_cliques g_square)
  = Some [[0; 1]; [0; 3]; [1; 2]; [2; 3]].
Proof. reflexivity. Qed.

(** ** The Euler code with its allocations ([graph.c]) *)

(** *** Calls of [v_push] and [v_pop] *)

Lemma v_items_length : forall v, vec_ok v -> length (v_items v) = v_n v.
Proof. intros v [Hn Hl]. unfold v_items. apply firstn_length_le. lia. Qed.

Lemma vec_ok_empty : vec_ok (mkVec [] 0 0).
Proof. split; cbn; lia. Qed.

(** A call either appends [x], or fails and leaves the vector as it was;
    it fails only when an allocation fails. *)
Lemma v_push_call_spec : forall o v x,
  vec_ok v ->
  exists rc v' o',
    v_push_call o v x = (rc, v', o') /\ vec_ok v' /\
    ((rc = 0%Z /\ v_items v' = v_items v ++ [x] /\ v_n v' = v_n v + 1) \/
     (rc = (-1)%Z /\ v' = v /\ ~ all_succeed o)) /\
    (all_succeed o -> all_succeed o').
Proof.
  intros o v x Hok. unfold v_push_call.
  destruct (Nat.leb_spec (v_n v + 1) (v_cap v)) as [Hle|Hgt].
  - assert (H := v_push_spec true v x Hok). cbv zeta in H.
    destruct (v_push true v x) as [rc v']. cbn [fst snd] in H.
    exists rc, v', o. split; [reflexivity|].
    destruct H as [[E [Hok' [Hi _]]]|[_ [Hf _]]]; [|discriminate].
    split; [exact Hok'|]. split; [|auto]. left. split; [exact E|]. split; [exact Hi|].
    rewrite <- (v_items_length v' Hok'), Hi, length_app, (v_items_length v Hok). reflexivity.
  - destruct o as [|m o1]; cbn [alloc].
    + assert (H := v_push_spec true v x Hok). cbv zeta in H.
      destruct (v_push true v x) as [rc v']. cbn [fst snd] in H.
      exists rc, v', []. split; [reflexivity|].
      destruct H as [[E [Hok' [Hi _]]]|[_ [Hf _]]]; [|discriminate].
      split; [exact Hok'|]. split; [|auto]. left. split; [exact E|]. split; [exact Hi|].
      rewrite <- (v_items_length v' Hok'), Hi, length_app, (v_items_length v Hok). reflexivity.
    + assert (H := v_push_spec m v x Hok). cbv zeta in H.
      destruct (v_push m v x) as [rc v']. cbn [fst snd] in H.
      exists rc, v', o1. split; [reflexivity|].
      destruct H as [[E [Hok' [Hi _]]]|[E [Hf [_ Ev]]]].
      * split; [exact Hok'|]. split.
        -- left. split; [exact E|]. split; [exact Hi|].
           rewrite <- (v_items_length v' Hok'), Hi, length_app, (v_items_length v Hok).
           reflexivity.
        -- intros Ho. inversion Ho; assumption.
      * subst v' m. split; [exact Hok|]. split.
        -- right. split; [exact E|]. split; [reflexivity|].
           intros Ho. inversion Ho; discriminate.
        -- intros Ho. inversion Ho; assumption.
Qed.

Lemma v_push_call_succeed : forall o v x,
  vec_ok v -> all_succeed o ->
  exists v' o',
    v_push_call o v x = (0%Z, v', o') /\ vec_ok v' /\
    v_items v' = v_items v ++ [x] /\ all_succeed o'.
Proof.
  intros o v x Hok Ho.
  destruct (v_push_call_spec o v x Hok) as [rc [v' [o' [E [Hok' [H Ho']]]]]].
  destruct H as [[-> [Hi _]]|[_ [_ Hf]]]; [|contradiction].
  exists v', o'. split; [exact E|]. split; [exact Hok'|]. split; [exact Hi|auto].
Qed.

Lemma v_pop_spec : forall v l x,
  vec_ok v -> v_items v = l ++ [x] ->
  v_pop v = (x, snd (v_pop v)) /\ v_back v = x /\
  vec_ok (snd (v_pop v)) /\ v_items (snd (v_pop v)) = l /\
  v_n (snd (v_pop v)) = v_n v - 1.
Proof.
  intros v l x Hok Hi. assert (Hlen := v_items_length v Hok).
  rewrite Hi, length_app in Hlen. cbn [length] in Hlen.
  destruct Hok as [Hn Hl]. unfold v_pop, v_back, v_items, vec_ok in *.
  cbn [fst snd v_a v_n v_cap].
  assert (Hx : nth (v_n v - 1) (v_a v) 0%Z = x).
  { rewrite <- (firstn_skipn (v_n v) (v_a v)), Hi.
    rewrite app_nth1 by (rewrite length_app; cbn [length]; lia).
    rewrite app_nth2 by lia. replace (v_n v - 1 - length l) with 0 by lia. reflexivity. }
  rewrite Hx. split; [reflexivity|]. split; [reflexivity|].
  split; [split; [lia|exact Hl]|]. split; [|reflexivity].
  replace (v_n v - 1) with (length l) by lia.
  assert (E : firstn (length l) (v_a v) = firstn (length l) (firstn (v_n v) (v_a v))).
  { rewrite firstn_firstn. f_equal. lia. }
  rewrite E, Hi, firstn_app, Nat.sub_diag, firstn_O, app_nil_r, firstn_all. reflexivity.
Qed.

(** *** The stack loop of [is_connected_ignore_isolated] *)

(** One scan of a list, whatever the allocations do: the marks are those of
    the run without failure, the stack gains marked vertices only. *)
Lemma visit_neighbors_run : forall l st vis o,
  vec_ok st ->
  (forall e, In e l -> to e < length vis) ->
  let r := visit_neighbors l (st, vis, o) in
  vec_ok (fst (fst r)) /\
  length (snd (fst r)) = length vis /\
  (forall x, nth x (snd (fst r)) false = true <->
             nth x vis false = true \/ In x (map to l)) /\
  (forall z, In z (v_items (fst (fst r))) ->
             In z (v_items st) \/
             exists x, z = Z.of_nat x /\ nth x (snd (fst r)) false = true) /\
  2 * unvisited (snd (fst r)) + v_n (fst (fst r)) <= 2 * unvisited vis + v_n st /\
  (all_succeed o -> all_succeed (snd r)).
Proof.
  unfold visit_neighbors.
  induction l as [|e l IH]; intros st vis o Hok Hr; cbv zeta; cbn [fold_left fst snd map].
  - split; [exact Hok|]. split; [reflexivity|]. split; [intros x; cbn [In]; tauto|].
    split; [auto|]. split; [lia|auto].
  - assert (He : to e < length vis) by (apply Hr; left; reflexivity).
    assert (Hr' : forall e', In e' l -> to e' < length vis)
      by (intros e' H; apply Hr; right; exact H).
    destruct (nth (to e) vis false) eqn:Ev.
    + destruct (IH st vis o Hok Hr') as [H1 [H2 [H3 [H4 [H5 H6]]]]].
      split; [exact H1|]. split; [exact H2|]. split; [|split; [exact H4|split; assumption]].
      intros x. rewrite H3. cbn [In]. split.
      * intros [H|H]; auto.
      * intros [H|[H|H]]; auto. subst x. auto.
    + destruct (v_push_call_spec o st (Z.of_nat (to e)) Hok)
        as [rc [st1 [o1 [E [Hok1 [Hcase Ho1]]]]]].
      rewrite E.
      assert (Hr1 : forall e', In e' l -> to e' < length (upd vis (to e) true))
        by (intros e' H; rewrite upd_length; apply Hr'; exact H).
      destruct (IH st1 (upd vis (to e) true) o1 Hok1 Hr1) as [H1 [H2 [H3 [H4 [H5 H6]]]]].
      rewrite upd_length in H2.
      assert (Hu : forall x, nth x (upd vis (to e) true) false = true <->
                             nth x vis false = true \/ x = to e).
      { intros x. rewrite nth_upd.
        destruct (Nat.eqb_spec (to e) x) as [Hx|Hx];
          destruct (Nat.ltb_spec (to e) (length vis)); simpl; try lia; intuition. }
      assert (Hm := unvisited_upd vis (to e) He Ev).
      split; [exact H1|]. split; [exact H2|]. split; [|split; [|split]].
      * intros x. rewrite H3, Hu. cbn [In]. intuition.
      * intros z Hz. destruct (H4 z Hz) as [Hin|Hnew]; [|right; exact Hnew].
        destruct Hcase as [[_ [Hi _]]|[_ [-> _]]]; [|left; exact Hin].
        rewrite Hi in Hin. apply in_app_or in Hin. destruct Hin as [Hin|[<-|[]]].
        -- left. exact Hin.
        -- right. exists (to e). split; [reflexivity|]. apply H3. left. apply Hu. auto.
      * destruct Hcase as [[_ [_ Hn]]|[_ [-> _]]]; lia.
      * intros Ho. apply H6. apply Ho1. exact Ho.
Qed.

(** One scan in a run without failure. *)
Lemma visit_neighbors_sim : forall l st vis o st_ok,
  vec_ok st -> all_succeed o ->
  v_items st = map Z.of_nat (rev st_ok) ->
  let r := visit_neighbors l (st, vis, o) in
  let r_ok := visit_neighbors_ok l st_ok vis in
  vec_ok (fst (fst r)) /\ all_succeed (snd r) /\
  snd (fst r) = snd r_ok /\
  v_items (fst (fst r)) = map Z.of_nat (rev (fst r_ok)).
Proof.
  unfold visit_neighbors, visit_neighbors_ok.
  induction l as [|e l IH]; intros st vis o st_ok Hok Ho Hi; cbv zeta;
    cbn [fold_left fst snd].
  - split; [exact Hok|]. split; [exact Ho|]. split; [reflexivity|exact Hi].
  - destruct (nth (to e) vis false) eqn:Ev.
    + apply IH; assumption.
    + destruct (v_push_call_succeed o st (Z.of_nat (to e)) Hok Ho)
        as [st1 [o1 [E [Hok1 [Hi1 Ho1]]]]].
      rewrite E. apply IH; [exact Hok1|exact Ho1|].
      rewrite Hi1, Hi. cbn [rev]. rewrite map_app. reflexivity.
Qed.

Lemma dfs_loop_sim : forall g fuel st vis o st_ok,
  vec_ok st -> all_succeed o ->
  v_items st = map Z.of_nat (rev st_ok) ->
  exists o', all_succeed o' /\
    dfs_loop fuel g (st, vis, o)
    = option_map (fun vis' => (vis', o')) (dfs_loop_ok fuel g st_ok vis).
Proof.
  intros g. induction fuel as [|fuel IH]; intros st vis o st_ok Hok Ho Hi.
  - exists o. split; [exact Ho|reflexivity].
  - cbn [dfs_loop dfs_loop_ok]. assert (Hlen := v_items_length st Hok).
    destruct st_ok as [|u rest].
    + cbn [rev map] in Hi. rewrite Hi in Hlen. cbn [length] in Hlen. rewrite <- Hlen.
      exists o. split; [exact Ho|reflexivity].
    + cbn [rev] in Hi. rewrite map_app in Hi. cbn [map] in Hi.
      rewrite Hi, length_app in Hlen. cbn [length] in Hlen.
      destruct (Nat.eqb_spec (v_n st) 0) as [H0|_]; [lia|].
      destruct (v_pop_spec st _ _ Hok Hi) as [Ep [_ [Hok1 [Hi1 _]]]].
      rewrite Ep, Nat2Z.id.
      destruct (visit_neighbors_sim (head g u) (snd (v_pop st)) vis o rest Hok1 Ho Hi1)
        as [H1 [H2 [H3 H4]]].
      destruct (visit_neighbors (head g u) (snd (v_pop st), vis, o)) as [[st' vis'] o'].
      cbn [fst snd] in *. subst vis'. apply IH; assumption.
Qed.

Section DfsRun.

Variable g : Graph.

Variable start : nat.

Hypothesis Hwf : graph_wf g.

(** What holds of the stack and of the marks in every run: the stack holds
    marked vertices, and a marked vertex is reachable from [start]. *)
Record dfs_run_inv (st : Vec) (vis : list bool) : Prop := mk_dfs_run_inv {
  dr_ok : vec_ok st;
  dr_len : length vis = n g;
  dr_stack : forall z, In z (v_items st) ->
               exists u, z = Z.of_nat u /\ nth u vis false = true;
  dr_sound : forall v, nth v vis false = true -> reach g start v
}.

Lemma dfs_loop_run : forall fuel st vis o,
  dfs_run_inv st vis ->
  2 * unvisited vis + v_n st < fuel ->
  exists vis' o',
    dfs_loop fuel g (st, vis, o) = Some (vis', o') /\
    length vis' = n g /\
    (forall v, nth v vis' false = true -> reach g start v).
Proof.
  induction fuel as [|fuel IH]; intros st vis o Hinv Hm; [lia|].
  cbn [dfs_loop]. destruct Hinv as [Hok Hlen Hstack Hsound].
  assert (Hl := v_items_length st Hok).
  destruct (Nat.eqb_spec (v_n st) 0) as [H0|H0].
  - exists vis, o. split; [reflexivity|]. split; assumption.
  - destruct (exists_last (l := v_items st)) as [l [x Hi]].
    { intros E. rewrite E in Hl. cbn in Hl. lia. }
    destruct (v_pop_spec st l x Hok Hi) as [Ep [_ [Hok1 [Hi1 Hn1]]]].
    rewrite Ep.
    destruct (Hstack x) as [u [-> Hu]]; [rewrite Hi; apply in_or_app; right; left; reflexivity|].
    rewrite Nat2Z.id.
    assert (Hr : forall e, In e (head g u) -> to e < length vis).
    { intros e He. rewrite Hlen. apply (wf_to Hwf u e He). }
    destruct (visit_neighbors_run (head g u) (snd (v_pop st)) vis o Hok1 Hr)
      as [H1 [H2 [H3 [H4 [H5 _]]]]].
    destruct (visit_neighbors (head g u) (snd (v_pop st), vis, o)) as [[st' vis'] o'].
    cbn [fst snd] in *. apply IH.
    + constructor.
      * exact H1.
      * congruence.
      * intros z Hz. destruct (H4 z Hz) as [Hin|Hnew]; [|exact Hnew].
        rewrite Hi1 in Hin. destruct (Hstack z) as [w [-> Hw]].
        { rewrite Hi. apply in_or_app. left. exact Hin. }
        exists w. split; [reflexivity|]. apply H3. left. exact Hw.
      * intros v Hv. apply H3 in Hv. destruct Hv as [Hv|Hv]; [apply Hsound; exact Hv|].
        apply (reach_step g start u v); [apply Hsound; exact Hu|exact Hv].
    + lia.
Qed.

End DfsRun.

(** [is_connected_ignore_isolated] returns in every run; an answer 1 is
    right in every run, and in a run without allocation failure the answer
    is that of the run modelled with lists. *)
Lemma is_connected_ignore_isolated_run : forall o g,
  graph_wf g ->
  exists b o',
    is_connected_ignore_isolated o g = Some (b, o') /\
    (b = true -> is_connected_ignore_isolated_ok g = Some true) /\
    (all_succeed o -> all_succeed o' /\ is_connected_ignore_isolated_ok g = Some b).
Proof.
  intros o g Hwf.
  destruct (is_connected_ignore_isolated_spec g Hwf) as [b_ok [Eok Hconn]].
  unfold is_connected_ignore_isolated.
  destruct (first_with_degree g) as [start|] eqn:Ef.
  2:{ exists true, o. split; [reflexivity|].
      assert (E : is_connected_ignore_isolated_ok g = Some true).
      { unfold is_connected_ignore_isolated_ok. rewrite Ef. reflexivity. }
      split; [intros _; exact E|]. intros Ho. split; [exact Ho|exact E]. }
  destruct (first_with_degree_some g start Ef) as [Hs Hd].
  destruct (alloc o) as [m o1] eqn:Ea.
  assert (Ho1 : all_succeed o -> m = true /\ all_succeed o1).
  { intros Ho. assert (H := alloc_succeed o Ho). rewrite Ea in H. exact H. }
  destruct m; cbn [negb].
  2:{ exists false, o1. split; [reflexivity|]. split; [discriminate|].
      intros Ho. destruct (Ho1 Ho) as [H _]. discriminate. }
  destruct (v_push_call_spec o1 (mkVec [] 0 0) (Z.of_nat start) vec_ok_empty)
    as [rc [st [o2 [E [Hok [Hcase Ho2]]]]]].
  rewrite E.
  set (vis0 := upd (repeat false (n g)) start true).
  assert (Hn : forall x, nth x vis0 false = true <-> x = start).
  { intros x. unfold vis0. rewrite nth_upd, repeat_length.
    destruct (Nat.eqb_spec start x) as [Hx|Hx];
      destruct (Nat.ltb_spec start (n g)) as [Hl|Hl]; simpl; try lia;
      try rewrite nth_repeat; intuition congruence. }
  assert (Hinv : dfs_run_inv g start st vis0).
  { constructor.
    - exact Hok.
    - unfold vis0. rewrite upd_length, repeat_length. reflexivity.
    - intros z Hz. destruct Hcase as [[_ [Hi _]]|[_ [-> _]]]; [|destruct Hz].
      rewrite Hi in Hz. destruct Hz as [<-|[]]. exists start. split; [reflexivity|].
      apply Hn. reflexivity.
    - intros v Hv. apply Hn in Hv. subst v. constructor. }
  assert (Hm : 2 * unvisited vis0 + v_n st < 2 * n g).
  { assert (Hu : unvisited vis0 + 1 = unvisited (repeat false (n g))).
    { apply unvisited_upd; [rewrite repeat_length; exact Hs|apply nth_repeat]. }
    assert (Hle := unvisited_le (repeat false (n g))). rewrite repeat_length in Hle.
    destruct Hcase as [[_ [_ Hn1]]|[_ [-> _]]]; cbn [v_n] in *; lia. }
  destruct (dfs_loop_run g start Hwf (2 * n g) st vis0 o2 Hinv Hm)
    as [vis [o3 [Erun [Hlen Hsound]]]].
  rewrite Erun. exists (all_with_degree_visited g vis), o3. split; [reflexivity|]. split.
  - intros Hall. rewrite Eok. f_equal. apply Hconn.
    rewrite all_with_degree_visited_true in Hall.
    intros u v Hu Hv.
    assert (Ru : reach g start u).
    { apply Hsound, Hall; [eapply non_isolated_range; eauto|apply non_isolated_degree; auto]. }
    assert (Rv : reach g start v).
    { apply Hsound, Hall; [eapply non_isolated_range; eauto|apply non_isolated_degree; auto]. }
    eapply reach_trans; [apply reach_sym; eauto|exact Rv].
  - intros Ho. destruct (Ho1 Ho) as [_ Ho1'].
    destruct Hcase as [[_ [Hi _]]|[_ [_ Hf]]]; [|contradiction].
    destruct (dfs_loop_sim g (2 * n g) st vis0 o2 [start] Hok (Ho2 Ho1') Hi)
      as [o' [Ho' Esim]].
    rewrite Erun in Esim. unfold is_connected_ignore_isolated_ok. rewrite Ef. fold vis0.
    destruct (dfs_loop_ok (2 * n g) g [start] vis0) as [vis_ok|]; [|discriminate].
    cbn [option_map] in Esim. injection Esim as <- <-. split; [exact Ho'|reflexivity].
Qed.

Lemma graph_has_euler_circuit_run : forall o g,
  graph_wf g ->
  exists b o',
    graph_has_euler_circuit o (Some g) = Some (b, o') /\
    (b = true -> graph_has_euler_circuit_ok (Some g) = Some true) /\
    (all_succeed o -> all_succeed o' /\ graph_has_euler_circuit_ok (Some g) = Some b).
Proof.
  intros o g Hwf. unfold graph_has_euler_circuit, graph_has_euler_circuit_ok.
  destruct (is_connected_ignore_isolated_run o g Hwf) as [c [o' [E [Htrue Hsucc]]]].
  rewrite E. destruct c.
  - rewrite (Htrue eq_refl).
    destruct (sum_even_degrees g (seq 0 (n g)) 0) as [sumdeg|].
    + exists (negb (sumdeg =? 0)), o'. split; [reflexivity|]. split; [intros ->; reflexivity|].
      intros Ho. split; [apply Hsucc; exact Ho|reflexivity].
    + exists false, o'. split; [reflexivity|]. split; [discriminate|].
      intros Ho. split; [apply Hsucc; exact Ho|reflexivity].
  - exists false, o'. split; [reflexivity|]. split; [discriminate|].
    intros Ho. destruct (Hsucc Ho) as [Ho' Eok]. rewrite Eok. split; [exact Ho'|reflexivity].
Qed.

(** *** [build_edge_view] *)

Lemma map_upd : forall (A B : Type) (f : A -> B) l i x,
  map f (upd l i x) = upd (map f l) i (f x).
Proof.
  intros A B f. induction l as [|a l IH]; intros [|i] x; cbn [upd map]; try reflexivity.
  rewrite IH. reflexivity.
Qed.

Lemma Forall_upd : forall (A : Type) (P : A -> Prop) l i x,
  Forall P l -> P x -> Forall P (upd l i x).
Proof.
  intros A P. induction l as [|a l IH]; intros [|i] x Hl Hx; cbn [upd]; try assumption.
  - inversion Hl; subst. constructor; assumption.
  - inversion Hl; subst. constructor; [assumption|]. apply IH; assumption.
Qed.

Lemma incid_rel_length : forall incid incid_ok,
  incid_rel incid incid_ok -> length incid = length incid_ok.
Proof.
  intros incid incid_ok [_ H]. rewrite <- (length_map v_items incid), H, length_map.
  reflexivity.
Qed.

Lemma nth_map_default : forall (A B : Type) (f : A -> B) l d d' i,
  f d = d' -> f (nth i l d) = nth i (map f l) d'.
Proof.
  intros A B f. induction l as [|a l IH]; intros d d' [|i] H; cbn [nth map]; auto.
Qed.

Lemma incid_rel_nth : forall incid incid_ok u,
  incid_rel incid incid_ok ->
  vec_ok (nth u incid (mkVec [] 0 0)) /\
  v_items (nth u incid (mkVec [] 0 0)) = map Z.of_nat (nth u incid_ok []).
Proof.
  intros incid incid_ok u [Hall H]. split.
  - destruct (Nat.lt_ge_cases u (length incid)) as [Hu|Hu].
    + apply (proj1 (Forall_forall _ _) Hall). apply nth_In. exact Hu.
    + rewrite nth_overflow by exact Hu. exact vec_ok_empty.
  - rewrite (nth_map_default _ _ v_items incid (mkVec [] 0 0) [] u eq_refl), H.
    symmetry. apply (nth_map_default _ _ (map Z.of_nat) incid_ok [] [] u eq_refl).
Qed.

Lemma incid_rel_upd : forall incid incid_ok u v l,
  incid_rel incid incid_ok -> vec_ok v -> v_items v = map Z.of_nat l ->
  incid_rel (upd incid u v) (upd incid_ok u l).
Proof.
  intros incid incid_ok u v l [Hall H] Hok Hi. split.
  - apply Forall_upd; assumption.
  - rewrite !map_upd, H, Hi. reflexivity.
Qed.

Lemma incid_rel_push : forall o incid incid_ok u x,
  incid_rel incid incid_ok ->
  exists rc vu o',
    v_push_call o (nth u incid (mkVec [] 0 0)) (Z.of_nat x) = (rc, vu, o') /\
    (rc = 0%Z -> incid_rel (upd incid u vu) (incid_push_ok incid_ok u x)) /\
    (rc <> 0%Z -> ~ all_succeed o) /\
    (all_succeed o -> all_succeed o').
Proof.
  intros o incid incid_ok u x Hrel.
  destruct (incid_rel_nth incid incid_ok u Hrel) as [Hok Hi].
  destruct (v_push_call_spec o _ (Z.of_nat x) Hok) as [rc [vu [o' [E [Hok' [Hcase Ho']]]]]].
  exists rc, vu, o'. split; [exact E|]. split; [|split; [|exact Ho']].
  - intros ->. destruct Hcase as [[_ [Hi' _]]|[H _]]; [|discriminate].
    unfold incid_push_ok. apply incid_rel_upd; [exact Hrel|exact Hok'|].
    rewrite Hi', Hi, map_app. reflexivity.
  - intros Hrc. destruct Hcase as [[H _]|[_ [_ Hf]]]; [contradiction|exact Hf].
Qed.

Lemma view_add_edge_sim : forall u v s ev_ok,
  view_rel (vs_ev s) ev_ok ->
  match view_add_edge u v s with
  | None => ~ all_succeed (vs_alloc s)
  | Some s' =>
      view_rel (vs_ev s')
        (mkEdgeView_ok (evk_edges ev_ok ++ [(u, v)])
           (incid_push_ok (incid_push_ok (evk_incid ev_ok) u (evk_m ev_ok)) v (evk_m ev_ok))) /\
      vs_loop_half s' = vs_loop_half s /\
      (all_succeed (vs_alloc s) -> all_succeed (vs_alloc s'))
  end.
Proof.
  intros u v s ev_ok [He Hi]. unfold view_add_edge.
  assert (Hm : ev_m (vs_ev s) = evk_m ev_ok) by (unfold ev_m, evk_m; rewrite He; reflexivity).
  rewrite Hm.
  assert (Hgrow : exists r,
            (if evk_m ev_ok =? vs_m_est s
             then let '(ok, o1) := alloc (vs_alloc s) in
                  if ok then Some (if vs_m_est s =? 0 then 16 else vs_m_est s * 2, o1)
                  else None
             else Some (vs_m_est s, vs_alloc s)) = r /\
            match r with
            | None => ~ all_succeed (vs_alloc s)
            | Some (_, o1) => all_succeed (vs_alloc s) -> all_succeed o1
            end).
  { eexists. split; [reflexivity|].
    destruct (evk_m ev_ok =? vs_m_est s); [|auto].
    destruct (alloc (vs_alloc s)) as [ok o1] eqn:Ea.
    destruct ok.
    - intros Ho. assert (H := alloc_succeed _ Ho). rewrite Ea in H. apply H.
    - intros Ho. assert (H := alloc_succeed _ Ho). rewrite Ea in H. destruct H; discriminate. }
  destruct Hgrow as [r [Er Hr]]. rewrite Er. destruct r as [[m_est o1]|]; [|exact Hr].
  destruct (incid_rel_push o1 _ _ u (evk_m ev_ok) Hi) as [rc1 [vu [o2 [E1 [H1 [F1 S1]]]]]].
  rewrite E1. destruct (Z.eqb_spec rc1 0) as [->|Hrc1]; cbn [negb].
  2:{ intros Ho. apply (F1 Hrc1). apply Hr. exact Ho. }
  specialize (H1 eq_refl).
  destruct (incid_rel_push o2 _ _ v (evk_m ev_ok) H1) as [rc2 [vv [o3 [E2 [H2 [F2 S2]]]]]].
  rewrite E2. destruct (Z.eqb_spec rc2 0) as [->|Hrc2]; cbn [negb].
  2:{ intros Ho. apply (F2 Hrc2). apply S1. apply Hr. exact Ho. }
  cbn [vs_ev vs_loop_half vs_alloc]. split; [|split; [reflexivity|]].
  - split; [cbn [ev_edges evk_edges]; rewrite He; reflexivity|].
    cbn [ev_incid evk_incid]. apply H2. reflexivity.
  - intros Ho. apply S2, S1, Hr. exact Ho.
Qed.

Lemma view_step_sim : forall o0 u s s_ok e,
  vstate_rel o0 s s_ok -> vstate_rel o0 (view_step u s e) (view_step_ok u s_ok e).
Proof.
  intros o0 u s [ev_ok lh] e H. destruct s as [s|]; [|exact H].
  destruct H as [Hv [Hl Ho]]. cbn [fst snd] in *.
  unfold view_step, view_step_ok. rewrite Hl.
  destruct (u =? to e) eqn:Eu.
  - destruct (Nat.even (nth u lh 0 + 1)) eqn:Ee.
    + assert (H := view_add_edge_sim u u
                     (mkViewState (vs_ev s) (vs_m_est s) (upd lh u (nth u lh 0 + 1))
                        (vs_alloc s)) ev_ok Hv).
      destruct (view_add_edge u u _) as [s'|]; cbn [vstate_rel].
      * destruct H as [H1 [H2 H3]]. cbn [fst snd vs_loop_half vs_alloc] in *.
        split; [exact H1|]. split; [exact H2|]. intros H0. apply H3, Ho. exact H0.
      * cbn [vs_alloc] in H. intros H0. apply H, Ho. exact H0.
    + cbn [vstate_rel fst snd vs_ev vs_loop_half vs_alloc]. split; [exact Hv|].
      split; [reflexivity|exact Ho].
  - destruct (u <? to e).
    + assert (H := view_add_edge_sim u (to e) s ev_ok Hv).
      destruct (view_add_edge u (to e) s) as [s'|]; cbn [vstate_rel].
      * destruct H as [H1 [H2 H3]]. cbn [fst snd] in *.
        split; [exact H1|]. split; [congruence|]. intros H0. apply H3, Ho. exact H0.
      * intros H0. apply H, Ho. exact H0.
    + cbn [vstate_rel fst snd]. split; [exact Hv|]. split; [exact Hl|exact Ho].
Qed.

Lemma view_scan_sim : forall o0 u l s s_ok,
  vstate_rel o0 s s_ok ->
  vstate_rel o0 (fold_left (view_step u) l s) (fold_left (view_step_ok u) l s_ok).
Proof.
  intros o0 u. induction l as [|e l IH]; intros s s_ok H; [exact H|].
  cbn [fold_left]. apply IH. apply view_step_sim. exact H.
Qed.

Lemma view_loops_sim : forall o0 g us s s_ok,
  vstate_rel o0 s s_ok ->
  vstate_rel o0
    (fold_left (fun s u => fold_left (view_step u) (head g u) s) us s)
    (fold_left (fun s u => fold_left (view_step_ok u) (head g u) s) us s_ok).
Proof.
  intros o0 g. induction us as [|u us IH]; intros s s_ok H; [exact H|].
  cbn [fold_left]. apply IH. apply view_scan_sim. exact H.
Qed.

(** When [build_edge_view] returns 0 the view is the one of the run
    modelled with lists, and it returns 0 when no allocation fails. *)
Lemma build_edge_view_run : forall o g,
  match build_edge_view o g with
  | None => ~ all_succeed o
  | Some (ev, o') =>
      view_rel ev (build_edge_view_ok g) /\ (all_succeed o -> all_succeed o')
  end.
Proof.
  intros o g. unfold build_edge_view.
  destruct (alloc o) as [m1 o1] eqn:E1.
  assert (H1 : all_succeed o -> m1 = true /\ all_succeed o1).
  { intros Ho. assert (H := alloc_succeed o Ho). rewrite E1 in H. exact H. }
  destruct m1; cbn [negb]; [|intros Ho; destruct (H1 Ho); discriminate].
  destruct (alloc o1) as [m2 o2] eqn:E2.
  assert (H2 : all_succeed o1 -> m2 = true /\ all_succeed o2).
  { intros Ho. assert (H := alloc_succeed o1 Ho). rewrite E2 in H. exact H. }
  destruct m2; cbn [negb];
    [|intros Ho; destruct (H1 Ho) as [_ Ho1]; destruct (H2 Ho1); discriminate].
  destruct (alloc o2) as [m3 o3] eqn:E3.
  assert (H3 : all_succeed o2 -> m3 = true /\ all_succeed o3).
  { intros Ho. assert (H := alloc_succeed o2 Ho). rewrite E3 in H. exact H. }
  destruct m3; cbn [negb];
    [|intros Ho; destruct (H1 Ho) as [_ Ho1]; destruct (H2 Ho1) as [_ Ho2];
      destruct (H3 Ho2); discriminate].
  set (s0 := mkViewState (mkEdgeView [] (repeat (mkVec [] 0 0) (n g)))
               (list_sum (map (degree_vertex_adj g) (seq 0 (n g))) / 2 + 1)
               (repeat 0 (n g)) o3).
  assert (H0 : vstate_rel o (Some s0) (mkEdgeView_ok [] (repeat [] (n g)), repeat 0 (n g))).
  { cbn [vstate_rel fst snd]. unfold s0. cbn [vs_ev vs_loop_half vs_alloc].
    split; [|split; [reflexivity|]].
    - split; [reflexivity|]. cbn [ev_incid evk_incid]. split.
      + apply Forall_forall. intros v Hv. apply repeat_spec in Hv. subst v.
        exact vec_ok_empty.
      + rewrite !map_repeat. reflexivity.
    - intros Ho. apply H3, H2, H1. exact Ho. }
  assert (H := view_loops_sim o g (seq 0 (n g)) _ _ H0).
  unfold build_edge_view_ok.
  destruct (fold_left (fun s u => fold_left (view_step u) (head g u) s) (seq 0 (n g))
              (Some s0)) as [s|]; cbn [vstate_rel] in H.
  - destruct H as [Hv [_ Ho]]. split; assumption.
  - exact H.
Qed.

(** *** The walk of [graph_find_euler_circuit] *)

Lemma skip_used_map : forall used l i,
  skip_used used (map Z.of_nat l) i = skip_used_ok used l i.
Proof.
  intros used. induction l as [|e l IH]; intros i; cbn [map skip_used skip_used_ok];
    [reflexivity|].
  rewrite Nat2Z.id. destruct (nth e used false); [apply IH|reflexivity].
Qed.

Lemma nth_firstn_lt : forall (A : Type) (l : list A) k i d,
  i < k -> nth i (firstn k l) d = nth i l d.
Proof.
  intros A. induction l as [|a l IH]; intros [|k] [|i] d H; cbn [firstn nth]; try lia;
    try reflexivity.
  apply IH. lia.
Qed.

Lemma walk_step_sim : forall ev ev_ok s s_ok u rest,
  view_rel ev ev_ok -> walk_rel ev_ok s s_ok ->
  wk_stack s_ok = u :: rest ->
  walk_rel ev_ok (walk_step ev s) (walk_step_ok ev_ok u rest s_ok).
Proof.
  intros ev ev_ok s s_ok u rest [Hedges Hincid] [Hsok Hs Hpok Hp Hu Hit Ho Hb] Est.
  rewrite Est in Hs. cbn [rev] in Hs. rewrite map_app in Hs. cbn [map] in Hs.
  destruct (v_pop_spec (w_stack s) _ _ Hsok Hs) as [Epop [Eback [Hsok1 [Hs1 _]]]].
  unfold walk_step, walk_step_ok. rewrite Eback, Nat2Z.id.
  destruct (incid_rel_nth _ _ u Hincid) as [Hinc_ok Hinc].
  set (inc := nth u (ev_incid ev) (mkVec [] 0 0)) in *.
  set (inc_ok := nth u (evk_incid ev_ok) []) in *.
  assert (Hn : v_n inc = length inc_ok).
  { rewrite <- (v_items_length inc Hinc_ok), Hinc, length_map. reflexivity. }
  rewrite Hinc, skipn_map, skip_used_map, Hu, Hit, Hn.
  assert (Hk := Hb u). fold inc_ok in Hk.
  destruct (skip_used_spec (wk_used s_ok) inc_ok (length inc_ok - nth u (wk_it s_ok) 0)
              (nth u (wk_it s_ok) 0) eq_refl Hk) as [Hi _].
  set (i := skip_used_ok (wk_used s_ok) (skipn (nth u (wk_it s_ok) 0) inc_ok)
              (nth u (wk_it s_ok) 0)) in *.
  assert (Hbound : forall k, k <= length inc_ok ->
            forall u', nth u' (upd (wk_it s_ok) u k) 0 <= length (nth u' (evk_incid ev_ok) [])).
  { intros k Hkl u'. rewrite nth_upd.
    destruct ((u =? u') && (u <? length (wk_it s_ok))) eqn:E; [|apply Hb].
    apply andb_true_iff in E. destruct E as [E _]. apply Nat.eqb_eq in E. subst u'.
    exact Hkl. }
  destruct (Nat.eqb_spec i (length inc_ok)) as [Ei|Ei].
  - destruct (v_push_call_succeed (w_alloc s) (w_path s) (Z.of_nat u) Hpok Ho)
      as [path1 [o1 [E1 [Hpok1 [Hp1 Ho1]]]]].
    rewrite E1, Epop. constructor; cbn [w_stack w_path w_used w_it w_alloc
                                           wk_stack wk_path wk_used wk_it].
    + exact Hsok1.
    + exact Hs1.
    + exact Hpok1.
    + rewrite Hp1, Hp, map_app. reflexivity.
    + reflexivity.
    + reflexivity.
    + exact Ho1.
    + apply Hbound. lia.
  - assert (Hei : Z.to_nat (nth i (v_a inc) 0%Z) = nth i inc_ok 0).
    { rewrite <- (nth_firstn_lt _ (v_a inc) (v_n inc) i 0%Z) by lia.
      fold (v_items inc). rewrite Hinc.
      rewrite <- (nth_map_default _ _ Z.of_nat inc_ok 0 0%Z i eq_refl). apply Nat2Z.id. }
    rewrite Hei, Hedges.
    destruct (nth (nth i inc_ok 0) (wk_used s_ok) false); cbn [negb].
    + constructor; cbn [w_stack w_path w_used w_it w_alloc wk_stack wk_path wk_used wk_it];
        try assumption; try reflexivity.
      * cbn [rev]. rewrite map_app. exact Hs.
      * apply Hbound. lia.
    + destruct (nth (nth i inc_ok 0) (evk_edges ev_ok) (0, 0)) as [a b].
      destruct (v_push_call_succeed (w_alloc s) (w_stack s)
                  (Z.of_nat (if u =? a then b else a)) Hsok Ho)
        as [stack1 [o1 [E1 [Hsok2 [Hs2 Ho1]]]]].
      rewrite E1. constructor;
        cbn [w_stack w_path w_used w_it w_alloc wk_stack wk_path wk_used wk_it];
        try assumption; try reflexivity.
      * rewrite Hs2, Hs. cbn [rev]. rewrite !map_app. reflexivity.
      * apply Hbound. lia.
Qed.

Lemma walk_loop_sim : forall ev ev_ok fuel s s_ok,
  view_rel ev ev_ok -> walk_rel ev_ok s s_ok ->
  match walk_loop_ok fuel ev_ok s_ok with
  | None => walk_loop fuel ev s = None
  | Some s_ok' => exists s', walk_loop fuel ev s = Some s' /\ walk_rel ev_ok s' s_ok'
  end.
Proof.
  intros ev ev_ok. induction fuel as [|fuel IH]; intros s s_ok Hv Hr; [reflexivity|].
  cbn [walk_loop walk_loop_ok].
  assert (Hlen := v_items_length (w_stack s) (wr_stack_ok _ _ _ Hr)).
  rewrite (wr_stack _ _ _ Hr), length_map, length_rev in Hlen.
  destruct (wk_stack s_ok) as [|u rest] eqn:Est.
  - cbn [length] in Hlen. rewrite <- Hlen. cbn [Nat.eqb]. exists s. split; [reflexivity|exact Hr].
  - cbn [length] in Hlen. rewrite <- Hlen. cbn [Nat.eqb].
    apply IH; [exact Hv|]. apply walk_step_sim; assumption.
Qed.

Lemma find_ext_eq : forall (A : Type) (f h : A -> bool) l,
  (forall x, f x = h x) -> find f l = find h l.
Proof.
  intros A f h. induction l as [|a l IH]; intros H; cbn [find]; [reflexivity|].
  rewrite H, IH by exact H. reflexivity.
Qed.

Lemma first_incident_sim : forall ev ev_ok,
  view_rel ev ev_ok -> first_incident ev = first_incident_ok ev_ok.
Proof.
  intros ev ev_ok [_ Hincid]. unfold first_incident, first_incident_ok.
  rewrite (incid_rel_length _ _ Hincid). apply find_ext_eq. intros i.
  destruct (incid_rel_nth _ _ i Hincid) as [Hok Hi].
  rewrite <- (v_items_length _ Hok), Hi, length_map. reflexivity.
Qed.

Lemma incid_rel_sum : forall incid incid_ok,
  incid_rel incid incid_ok -> list_sum (map v_n incid) = length (concat incid_ok).
Proof.
  induction incid as [|v incid IH]; intros [|l incid_ok] [Hall H]; cbn [map] in H;
    try discriminate; [reflexivity|].
  injection H as H1 H2. inversion Hall as [|? ? Hv Hall']; subst.
  cbn [map list_sum concat]. rewrite length_app, <- (IH incid_ok (conj Hall' H2)).
  rewrite <- (v_items_length v Hv), H1, length_map. reflexivity.
Qed.

(** From the start of the walk on, a run in which no allocation fails
    returns what the run modelled with lists returns. *)
Lemma find_euler_walk_sim : forall g o ev start o',
  graph_wf g ->
  find_euler_setup o g = Some (Some (ev, start, o')) ->
  all_succeed o' ->
  graph_has_euler_circuit_ok (Some g) = Some true /\
  graph_find_euler_circuit o g = graph_find_euler_circuit_ok g.
Proof.
  intros g o ev start o' Hwf Hset Ho'.
  unfold graph_find_euler_circuit. rewrite Hset.
  unfold find_euler_setup in Hset.
  destruct (graph_has_euler_circuit_run o g Hwf) as [b [o1 [Eh [Htrue _]]]].
  rewrite Eh in Hset. destruct b; [|discriminate]. specialize (Htrue eq_refl).
  split; [exact Htrue|].
  assert (Hview := build_edge_view_run o1 g).
  destruct (build_edge_view o1 g) as [[ev' o2]|]; [|discriminate].
  destruct Hview as [Hv _].
  rewrite (first_incident_sim _ _ Hv) in Hset.
  unfold graph_find_euler_circuit_ok. rewrite Htrue.
  destruct (first_incident_ok (build_edge_view_ok g)) as [start'|]; [|discriminate].
  destruct (alloc o2) as [m1 o3]. destruct (alloc o3) as [m2 o4].
  destruct (negb m1 || negb m2); [discriminate|].
  injection Hset as <- <- <-.
  destruct (v_push_call_succeed o4 (mkVec [] 0 0) (Z.of_nat start') vec_ok_empty Ho')
    as [stack [o5 [E [Hsok [Hs Ho5]]]]].
  rewrite E.
  assert (Hrel : walk_rel (build_edge_view_ok g)
            (mkWalk stack (mkVec [] 0 0) (repeat false (ev_m ev'))
               (repeat 0 (length (ev_incid ev'))) o5)
            (mkWalk_ok [start'] [] (repeat false (evk_m (build_edge_view_ok g)))
               (repeat 0 (length (evk_incid (build_edge_view_ok g)))))).
  { destruct Hv as [He Hi]. constructor;
      cbn [w_stack w_path w_used w_it w_alloc wk_stack wk_path wk_used wk_it].
    - exact Hsok.
    - exact Hs.
    - exact vec_ok_empty.
    - reflexivity.
    - unfold ev_m, evk_m. rewrite He. reflexivity.
    - rewrite (incid_rel_length _ _ Hi). reflexivity.
    - exact Ho5.
    - intros u. rewrite nth_repeat. lia. }
  rewrite (incid_rel_sum _ _ (proj2 Hv)).
  assert (Hsim := walk_loop_sim ev' (build_edge_view_ok g)
                    (2 * length (concat (evk_incid (build_edge_view_ok g))) + 2) _ _ Hv Hrel).
  destruct (walk_loop_ok _ (build_edge_view_ok g) _) as [s_ok|].
  - destruct Hsim as [s [Es Hr]]. rewrite Es.
    destruct (v_reverse_spec (w_path s) (wr_path_ok _ _ _ Hr))
      as [path [Er [Hitems [Hn _]]]].
    rewrite Er.
    assert (Hl := v_items_length _ (wr_path_ok _ _ _ Hr)).
    rewrite (wr_path _ _ _ Hr), length_map in Hl.
    rewrite Hn, <- Hl, length_rev.
    destruct (length (wk_path s_ok) <? 1); [reflexivity|].
    rewrite Hitems, (wr_path _ _ _ Hr), <- map_rev, map_map.
    f_equal. f_equal. rewrite <- (map_id (rev (wk_path s_ok))) at 2.
    apply map_ext. intros x. apply Nat2Z.id.
  - rewrite Hsim. reflexivity.
Qed.

Lemma find_euler_setup_run : forall o g,
  graph_wf g ->
  exists r, find_euler_setup o g = Some r /\
    (all_succeed o ->
     match r with
     | None => graph_find_euler_circuit_ok g = Some None
     | Some (_, _, o') => all_succeed o'
     end).
Proof.
  intros o g Hwf. unfold find_euler_setup.
  destruct (graph_has_euler_circuit_run o g Hwf) as [b [o1 [Eh [Htrue Hsucc]]]].
  rewrite Eh. destruct b.
  2:{ exists None. split; [reflexivity|]. intros Ho. destruct (Hsucc Ho) as [_ Eok].
      unfold graph_find_euler_circuit_ok. rewrite Eok. reflexivity. }
  assert (Hview := build_edge_view_run o1 g).
  destruct (build_edge_view o1 g) as [[ev o2]|].
  2:{ exists None. split; [reflexivity|]. intros Ho. exfalso. apply Hview, Hsucc, Ho. }
  destruct Hview as [Hv Ho2]. rewrite (first_incident_sim _ _ Hv).
  destruct (first_incident_ok (build_edge_view_ok g)) as [start|] eqn:Efi.
  2:{ exists None. split; [reflexivity|]. intros _.
      unfold graph_find_euler_circuit_ok. rewrite (Htrue eq_refl), Efi. reflexivity. }
  destruct (alloc o2) as [m1 o3] eqn:E1. destruct (alloc o3) as [m2 o4] eqn:E2.
  assert (Hall : all_succeed o -> m1 = true /\ m2 = true /\ all_succeed o4).
  { intros Ho. assert (H2 := alloc_succeed o2 (Ho2 (proj1 (Hsucc Ho)))). rewrite E1 in H2.
    cbn [fst snd] in H2. destruct H2 as [-> H3].
    assert (H4 := alloc_succeed o3 H3). rewrite E2 in H4. cbn [fst snd] in H4.
    destruct H4 as [-> H5].
    split; [reflexivity|]. split; [reflexivity|exact H5]. }
  destruct (negb m1 || negb m2) eqn:Em.
  - exists None. split; [reflexivity|]. intros Ho. destruct (Hall Ho) as [-> [-> _]].
    discriminate.
  - eexists. split; [reflexivity|]. intros Ho. apply Hall. exact Ho.
Qed.

(** A run in which no allocation fails returns what the run modelled with
    lists returns. *)
Lemma find_euler_circuit_succeed : forall o g,
  graph_wf g -> all_succeed o ->
  graph_find_euler_circuit o g = graph_find_euler_circuit_ok g.
Proof.
  intros o g Hwf Ho. destruct (find_euler_setup_run o g Hwf) as [r [Er Hr]].
  specialize (Hr Ho). destruct r as [[[ev start] o']|].
  - apply (find_euler_walk_sim g o ev start o' Hwf Er Hr).
  - unfold graph_find_euler_circuit. rewrite Er, Hr. reflexivity.
Qed.

(** *** Properties *)

(** C4 (as amended).  On a well-formed graph [graph_has_euler_circuit]
    returns in every run.  When it returns true the graph has an edge, every
    vertex has even degree (a self-loop counting 2), and the vertices that
    are not isolated are connected; and in a run in which no allocation
    fails it returns true whenever these three conditions hold. *)
Theorem has_euler_circuit_iff : forall o g,
  graph_wf g ->
  exists b o',
    graph_has_euler_circuit o (Some g) = Some (b, o') /\
    (b = true -> euler_conditions g) /\
    (all_succeed o -> euler_conditions g -> b = true).
Proof.
  intros o g Hwf.
  destruct (graph_has_euler_circuit_run o g Hwf) as [b [o' [E [Htrue Hsucc]]]].
  destruct (graph_has_euler_circuit_spec g Hwf) as [b_ok [Eok Hiff]].
  exists b, o'. split; [exact E|]. split.
  - intros Hb. specialize (Htrue Hb). rewrite Eok in Htrue. injection Htrue as ->.
    apply Hiff. reflexivity.
  - intros Ho Hc. destruct (Hsucc Ho) as [_ Eb]. rewrite Eok in Eb. injection Eb as <-.
    apply Hiff. exact Hc.
Qed.

Lemma has_euler_circuit_iff_witness :
  exists b o',
    graph_has_euler_circuit [true; true] (Some g_square) = Some (b, o') /\
    (b = true -> euler_conditions g_square) /\
    (all_succeed [true; true] -> euler_conditions g_square -> b = true).
Proof. apply (has_euler_circuit_iff [true; true] g_square). exact g_square_wf. Defined.

Lemma g_square_euler_conditions : euler_conditions g_square.
Proof.
  destruct (graph_has_euler_circuit_spec g_square g_square_wf) as [b [E Hiff]].
  apply Hiff. vm_compute in E. congruence.
Qed.

(** C4 as stated fails: the square has an edge, even degrees and is
    connected, and [graph_has_euler_circuit] returns false on it when the
    [calloc] of the marks fails, and also when the [realloc] of the first
    [v_push] fails, whose return value is dropped. *)
Lemma has_euler_circuit_counterexample :
  euler_conditions g_square /\
  graph_has_euler_circuit [false] (Some g_square) = Some (false, []) /\
  graph_has_euler_circuit [true; false] (Some g_square) = Some (false, []).
Proof.
  split; [exact g_square_euler_conditions|]. split; reflexivity.
Qed.




(** X7.  On a well-formed graph, in a run in which no allocation fails,
    [graph_find_euler_circuit] returns 1 exactly when
    [graph_has_euler_circuit] returns 1, and 0 exactly when it returns 0:
    the extraction never fails on a graph that passed the test. *)
Theorem find_euler_circuit_iff_has : forall o g,
  graph_wf g ->
  all_succeed o ->
  ((exists cycle, graph_find_euler_circuit o g = Some (Some cycle)) <->
   (exists o', graph_has_euler_circuit o (Some g) = Some (true, o'))) /\
  (graph_find_euler_circuit o g = Some None <->
   (exists o', graph_has_euler_circuit o (Some g) = Some (false, o'))).
Proof.
  intros o g Hwf Ho. rewrite (find_euler_circuit_succeed o g Hwf Ho).
  destruct (graph_has_euler_circuit_run o g Hwf) as [b [o1 [Eh [_ Hsucc]]]].
  destruct (Hsucc Ho) as [_ Eok].
  destruct (find_euler_circuit_ok_iff_has g Hwf) as [H1 H2].
  rewrite H1, H2, Eok, Eh. split; split.
  - intros E. injection E as ->. exists o1. reflexivity.
  - intros [o' E]. injection E as -> _. reflexivity.
  - intros E. injection E as ->. exists o1. reflexivity.
  - intros [o' E]. injection E as -> _. reflexivity.
Qed.

Lemma find_euler_circuit_iff_has_witness :
  ((exists cycle, graph_find_euler_circuit [true; true] g_square = Some (Some cycle)) <->
   (exists o', graph_has_euler_circuit [true; true] (Some g_square) = Some (true, o'))) /\
  (graph_find_euler_circuit [true; true] g_square = Some None <->
   (exists o', graph_has_euler_circuit [true; true] (Some g_square) = Some (false, o'))).
Proof.
  apply (find_euler_circuit_iff_has [true; true] g_square).
  - exact g_square_wf.
  - repeat constructor.
Defined.

(** X8.  In a run in which no [v_push] of the walk fails, the circuit that
    [graph_find_euler_circuit] returns on a well-formed graph starts at the
    lowest-numbered vertex that has an edge, and the vertices on it are the
    vertices that have an edge. *)
Theorem euler_circuit_vertices : forall o g cycle,
  graph_wf g ->
  walk_allocations_succeed o g ->
  graph_find_euler_circuit o g = Some (Some cycle) ->
  non_isolated g (hd 0 cycle) /\
  (forall x, non_isolated g x -> hd 0 cycle <= x) /\
  (forall x, In x cycle <-> non_isolated g x).
Proof.
  intros o g cycle Hwf Hwalk Hc. unfold walk_allocations_succeed in Hwalk.
  destruct (find_euler_setup_run o g Hwf) as [r [Er _]]. rewrite Er in Hwalk.
  destruct r as [[[ev start] o']|].
  - destruct (find_euler_walk_sim g o ev start o' Hwf Er Hwalk) as [_ E].
    rewrite E in Hc. apply (euler_circuit_ok_vertices g cycle Hwf Hc).
  - unfold graph_find_euler_circuit in Hc. rewrite Er in Hc. discriminate.
Qed.

Lemma euler_circuit_vertices_witness :
  non_isolated g_square (hd 0 [0; 3; 2; 1; 0]) /\
  (forall x, non_isolated g_square x -> hd 0 [0; 3; 2; 1; 0] <= x) /\
  (forall x, In x [0; 3; 2; 1; 0] <-> non_isolated g_square x).
Proof.
  apply (euler_circuit_vertices [] g_square [0; 3; 2; 1; 0]).
  - exact g_square_wf.
  - vm_compute. constructor.
  - reflexivity.
Defined.

(** ** The flow code with its allocations and 32-bit sums ([maxflow.c]) *)

Local Open Scope Z_scope.

(** *** One augmentation in 32-bit arithmetic *)

Lemma mget_push_flow_wrap : forall k m u v d a b,
  mdim k m -> (u < k)%nat -> (v < k)%nat -> u <> v ->
  mget (push_flow m u v d) a b =
  if (u =? a)%nat && (v =? b)%nat then wrap32 (mget m a b - d)
  else if (v =? a)%nat && (u =? b)%nat then wrap32 (mget m a b + d)
  else mget m a b.
Proof.
  intros k m u v d a b Hd Hu Hv Huv. unfold push_flow.
  rewrite (mget_mset k) by (auto using mset_mdim).
  rewrite !(mget_mset k) by auto.
  destruct (Nat.eqb_spec v a) as [Hva|Hva]; destruct (Nat.eqb_spec u b) as [Hub|Hub];
    destruct (Nat.eqb_spec u a) as [Hua|Hua]; destruct (Nat.eqb_spec v b) as [Hvb|Hvb];
    destruct (Nat.eqb_spec u v) as [Huv'|Huv']; destruct (Nat.eqb_spec v u) as [Hvu|Hvu];
    simpl; try lia; subst; try reflexivity; try lia.
Qed.

Lemma push_flow_wrap_mdim : forall k m u v d, mdim k m -> mdim k (push_flow m u v d).
Proof. intros. unfold push_flow. auto using mset_mdim. Qed.

Lemma matrix_ext : forall k M1 M2,
  mdim k M1 -> mdim k M2 ->
  (forall a b, (a < k)%nat -> (b < k)%nat -> mget M1 a b = mget M2 a b) -> M1 = M2.
Proof.
  intros k M1 M2 [L1 R1] [L2 R2] H.
  apply (nth_ext M1 M2 [] []); [congruence|].
  intros a Ha. rewrite L1 in Ha.
  apply (nth_ext _ _ 0 0); [rewrite R1, R2; auto|].
  intros b Hb. rewrite R1 in Hb by exact Ha. apply (H a b Ha Hb).
Qed.

Lemma chain_edges_parent : forall l v a b,
  In (a, b) (chain_edges (v :: l)) -> In a l.
Proof.
  induction l as [|u rest IH]; intros v a b Hin; [destruct Hin|].
  cbn [chain_edges] in Hin. destruct Hin as [Hin|Hin].
  - injection Hin as <- <-. left; reflexivity.
  - right. apply (IH u a b Hin).
Qed.

Section AugmentWrap.

Variable nv : nat.

Variable s : nat.

Hypothesis Hs : (s < nv)%nat.

(** The entries after [update_residual_graph]: an entry along the chain
    loses the path flow, the opposite entry gains it, the others stay. *)
Lemma update_residual_from_run : forall P l,
  pchain nv s P l ->
  forall v p fuel M d, l = v :: p ->
    NoDup l -> (length l <= fuel)%nat -> mdim nv M ->
    exists M', update_residual_from fuel M s v P d = Some M' /\
      mdim nv M' /\
      (forall a b, In (a, b) (chain_edges l) -> mget M' a b = wrap32 (mget M a b - d)) /\
      (forall a b, In (a, b) (chain_edges l) -> mget M' b a = wrap32 (mget M b a + d)) /\
      (forall a b, ~ In (a, b) (chain_edges l) -> ~ In (b, a) (chain_edges l) ->
                   mget M' a b = mget M a b).
Proof.
  intros P l H. induction H as [|v0 u rest Hv1 Hv2 Hu Hp Hc IH];
    intros v p fuel M d El Hnd Hf Hd; injection El as <- <-.
  - destruct fuel as [|fuel]; [simpl in Hf; lia|]. simpl. rewrite Nat.eqb_refl.
    exists M. split; [reflexivity|]. split; [exact Hd|].
    split; [intros a b []|]. split; [intros a b []|]. reflexivity.
  - destruct fuel as [|fuel]; [simpl in Hf; lia|]. cbn [update_residual_from].
    destruct (Nat.eqb_spec v0 s); [contradiction|].
    rewrite Hp, Nat2Z.id.
    assert (Huv : u <> v0).
    { intros ->. inversion Hnd as [|? ? Hn _]; subst. apply Hn. left; auto. }
    inversion Hnd as [|? ? Hn Hnd']; subst.
    destruct (IH u rest fuel (push_flow M u v0 d) d eq_refl Hnd')
      as [M' [E [D' [F1 [F2 F3]]]]].
    + simpl in Hf. simpl. lia.
    + apply push_flow_wrap_mdim; auto.
    + assert (Hz : forall x y, (x = v0 \/ y = v0) -> ~ In (x, y) (chain_edges (u :: rest))).
      { intros x y Hxy Hin. apply chain_edges_in in Hin. destruct Hin as [H1 H2].
        destruct Hxy as [->| ->]; contradiction. }
      assert (Hcnt := chain_edges_count nv s Hs P (v0 :: u :: rest)
                        (pc_step nv s P v0 u rest Hv1 Hv2 Hu Hp Hc) Hnd).
      exists M'. split; [exact E|]. split; [exact D'|].
      change (chain_edges (v0 :: u :: rest)) with ((u, v0) :: chain_edges (u :: rest)).
      split; [|split].
      * intros a b [Hin|Hin].
        -- injection Hin as <- <-. rewrite F3 by (apply Hz; auto).
           rewrite (mget_push_flow_wrap nv) by auto. rewrite !Nat.eqb_refl. reflexivity.
        -- rewrite (F1 a b Hin). rewrite (mget_push_flow_wrap nv) by auto.
           assert (Hb : b <> v0) by (intros ->; apply (Hz a v0); auto).
           assert (Ha : a <> v0) by (intros ->; apply (Hz v0 b); auto).
           destruct (Nat.eqb_spec v0 b); [congruence|]. destruct (Nat.eqb_spec v0 a); [congruence|].
           rewrite !andb_false_r. cbn [andb]. reflexivity.
      * intros a b [Hin|Hin].
        -- injection Hin as <- <-. rewrite F3 by (apply Hz; auto).
           rewrite (mget_push_flow_wrap nv) by auto. rewrite !Nat.eqb_refl.
           destruct (Nat.eqb_spec u v0); [contradiction|]. reflexivity.
        -- rewrite (F2 a b Hin). rewrite (mget_push_flow_wrap nv) by auto.
           assert (Hb : b <> v0) by (intros ->; apply (Hz a v0); auto).
           assert (Ha : a <> v0) by (intros ->; apply (Hz v0 b); auto).
           destruct (Nat.eqb_spec v0 b); [congruence|]. destruct (Nat.eqb_spec v0 a); [congruence|].
           rewrite !andb_false_r. cbn [andb]. reflexivity.
      * intros a b N1 N2. cbn [In] in N1, N2.
        rewrite F3 by tauto. rewrite (mget_push_flow_wrap nv) by auto.
        destruct (Nat.eqb_spec u a) as [<-|]; [destruct (Nat.eqb_spec v0 b) as [<-|]|].
        -- exfalso. apply N1. left; reflexivity.
        -- cbn [andb]. destruct (Nat.eqb_spec v0 u); [congruence|]. reflexivity.
        -- cbn [andb]. destruct (Nat.eqb_spec v0 a) as [<-|]; [|reflexivity].
           destruct (Nat.eqb_spec u b) as [<-|]; [|reflexivity].
           exfalso. apply N2. left; reflexivity.
Qed.

(** Within the range of [int] the update is the exact one. *)
Lemma update_residual_from_exact : forall P l,
  pchain nv s P l ->
  forall v p fuel M d, l = v :: p ->
    NoDup l -> (length l <= fuel)%nat -> mdim nv M ->
    (forall a b, In (a, b) (chain_edges l) ->
       INT_MIN <= mget M a b - d <= INT_MAX /\ INT_MIN <= mget M b a + d <= INT_MAX) ->
    update_residual_from fuel M s v P d = update_residual_from_ok fuel M s v P d.
Proof.
  intros P l H v p fuel M d El Hnd Hf Hd Hb.
  destruct (update_residual_from_run P l H v p fuel M d El Hnd Hf Hd)
    as [M1 [E1 [D1 [F1 [F2 F3]]]]].
  destruct (update_residual_from_spec nv s Hs P l H v p fuel M d El Hnd Hf Hd)
    as [M2 [E2 [D2 [G1 _]]]].
  rewrite E1, E2. f_equal. apply (matrix_ext nv); auto.
  intros a b Ha Hb'. rewrite G1.
  assert (Hcnt := chain_edges_count nv s Hs P l H Hnd a b).
  destruct (in_dec pair_dec (a, b) (chain_edges l)) as [I1|I1].
  - rewrite (F1 a b I1). rewrite wrap32_id by (apply Hb; exact I1).
    assert (C1 := proj1 (count_pair_in _ a b) I1).
    assert (C2 : count_pair (chain_edges l) a b = 1%nat) by lia.
    assert (C3 : count_pair (chain_edges l) b a = 0%nat) by lia.
    rewrite C2, C3. lia.
  - assert (C2 : count_pair (chain_edges l) a b = 0%nat).
    { apply count_occ_not_In. exact I1. }
    destruct (in_dec pair_dec (b, a) (chain_edges l)) as [I2|I2].
    + rewrite (F2 b a I2). rewrite wrap32_id by (apply (Hb b a); exact I2).
      assert (C1 := proj1 (count_pair_in _ b a) I2).
      assert (C3 : count_pair (chain_edges l) b a = 1%nat) by lia.
      rewrite C2, C3. lia.
    + assert (C3 : count_pair (chain_edges l) b a = 0%nat).
      { apply count_occ_not_In. exact I2. }
      rewrite (F3 a b I1 I2), C2, C3. lia.
Qed.

End AugmentWrap.

(** *** The search with its allocations *)

Lemma bfs_find_path_cases : forall o R n0 s t parent,
  (exists o', bfs_find_path o R n0 s t parent = Some (false, parent, o')) \/
  (exists o', bfs_find_path o R n0 s t parent =
     match bfs_find_path_ok R n0 s t parent with
     | None => None
     | Some (found, parent') => Some (found, parent', o')
     end).
Proof.
  intros o R n0 s t parent. unfold bfs_find_path, bfs_find_path_ok.
  destruct (alloc o) as [m1 o1]. destruct m1; cbn [negb]; [|left; eauto].
  destruct (alloc o1) as [m2 o2]. destruct m2; cbn [negb]; [|left; eauto].
  destruct (alloc o2) as [m3 o3]. destruct m3; cbn [negb]; [|left; eauto].
  right. exists o3. destruct (bfs_loop (n0 + 1) R n0 t (bfs_start n0 s parent)); reflexivity.
Qed.

Lemma bfs_find_path_succeed : forall o R n0 s t parent,
  all_succeed o ->
  exists o', all_succeed o' /\
    bfs_find_path o R n0 s t parent =
    match bfs_find_path_ok R n0 s t parent with
    | None => None
    | Some (found, parent') => Some (found, parent', o')
    end.
Proof.
  intros o R n0 s t parent H. unfold bfs_find_path, bfs_find_path_ok.
  destruct (alloc_succeed o H) as [E1 H1]. destruct (alloc o) as [m1 o1].
  cbn [fst snd] in E1, H1. subst m1. cbn [negb].
  destruct (alloc_succeed o1 H1) as [E2 H2]. destruct (alloc o1) as [m2 o2].
  cbn [fst snd] in E2, H2. subst m2. cbn [negb].
  destruct (alloc_succeed o2 H2) as [E3 H3]. destruct (alloc o2) as [m3 o3].
  cbn [fst snd] in E3, H3. subst m3. cbn [negb].
  exists o3. split; [exact H3|].
  destruct (bfs_loop (n0 + 1) R n0 t (bfs_start n0 s parent)); reflexivity.
Qed.

(** *** The loop within the range of [int] *)

Section FlowExact.

Variable C : Matrix.

Variable nv : nat.

Variable s t : nat.

Hypothesis Hs : (s < nv)%nat.

Hypothesis Ht : (t < nv)%nat.

Hypothesis Hst : s <> t.

Hypothesis Cpair : forall a b, (a < nv)%nat -> (b < nv)%nat ->
  mget C a b + mget C b a <= INT_MAX.

Variable S0 : nat -> bool.

Hypothesis HS0 : is_cut s t S0.

Hypothesis Hcut : cut_capacity C nv S0 <= INT_MAX.

(** With every allocation succeeding, residual entries of at most
    [INT_MAX] and a cut of at most [INT_MAX], no sum wraps: the loop is the
    loop in exact arithmetic. *)
Lemma max_flow_loop_exact : forall fuel o R total parent,
  all_succeed o -> flow_inv C nv s t R total -> 0 <= total -> length parent = nv ->
  max_flow_loop fuel o R nv s t parent total = max_flow_loop_ok fuel R nv s t parent total.
Proof.
  induction fuel as [|fuel IH]; intros o R total parent Ho H Htot Hp; [reflexivity|].
  cbn [max_flow_loop max_flow_loop_ok].
  destruct (bfs_find_path_succeed o R nv s t parent Ho) as [o' [Ho' Eb]]. rewrite Eb.
  destruct (bfs_find_path_spec R nv s t Hs Ht Hst parent Hp)
    as [found [parent' [Hb [Hp' [Hfound _]]]]].
  rewrite Hb. destruct found; [|reflexivity].
  destruct (Hfound eq_refl) as [p [Hc [Hpos Hnd]]].
  assert (Hlen : (length (t :: p) <= nv + 1)%nat).
  { assert (Hl := NoDup_bounded_length (t :: p) nv Hnd (pchain_range nv s Hs _ _ Hc)). lia. }
  destruct (find_path_flow_from_spec nv s Hs parent' R (t :: p) Hc t p (nv + 1) INT_MAX
              eq_refl Hlen Hpos) as [d [Hd [Hdr Hde]]]; [unfold INT_MAX; lia|].
  unfold find_path_flow. rewrite Hd.
  assert (Hrange : forall a b, In (a, b) (chain_edges (t :: p)) -> (a < nv)%nat /\ (b < nv)%nat).
  { intros a b Hin. destruct (chain_edges_in (t :: p) a b Hin) as [H1 H2].
    split; apply (pchain_range nv s Hs parent' (t :: p) Hc); auto. }
  unfold update_residual_graph, update_residual_graph_ok.
  rewrite (update_residual_from_exact nv s Hs parent' (t :: p) Hc t p (nv + 1) R d
             eq_refl Hnd Hlen (fi_dim _ _ _ _ _ _ H)).
  - destruct (update_residual_from_spec nv s Hs parent' (t :: p) Hc t p (nv + 1) R d
                eq_refl Hnd Hlen (fi_dim _ _ _ _ _ _ H)) as [R' [Hu [Hdim' [Hent Hrow]]]].
    rewrite Hu.
    assert (H' : flow_inv C nv s t R' (total + d)).
    { eapply (flow_inv_augment C nv s t Hs Ht Hst R total parent' (t :: p) p d R'); eauto. lia. }
    assert (Hle := flow_le_cut C nv s t Hs Ht Hst R' (total + d) S0 H' HS0).
    rewrite wrap32_id by (unfold INT_MIN; lia).
    apply IH; auto. lia.
  - intros a b Hin. destruct (Hrange a b Hin) as [Ha Hb'].
    assert (H1 := Hde a b Hin).
    assert (H2 := fi_nonneg _ _ _ _ _ _ H a b Ha Hb').
    assert (H3 := fi_nonneg _ _ _ _ _ _ H b a Hb' Ha).
    assert (H4 := fi_pair _ _ _ _ _ _ H a b Ha Hb').
    assert (H5 := Cpair a b Ha Hb'). unfold INT_MIN. lia.
Qed.

End FlowExact.

(** *** The loop in every run *)

Lemma zsum_drop : forall f h k j d,
  (forall i, (i < k)%nat -> h i <= f i) -> (j < k)%nat -> h j + d <= f j ->
  zsum h k + d <= zsum f k.
Proof.
  intros f h k j d. induction k as [|k IH]; intros Hle Hj Hd; [lia|].
  cbn [zsum]. destruct (Nat.eq_dec j k) as [->|Hne].
  - assert (zsum h k <= zsum f k) by (apply zsum_le; intros i Hi; apply Hle; lia). lia.
  - assert (H1 := Hle k (Nat.lt_succ_diag_r k)).
    assert (zsum h k + d <= zsum f k); [|lia].
    apply IH; auto. lia.
Qed.

Lemma out_of_nonneg : forall M k x, 0 <= out_of M k x.
Proof. intros. unfold out_of. apply zsum_nonneg. intros. lia. Qed.

Section FlowRun.

Variable nv : nat.

Variable s t : nat.

Hypothesis Hs : (s < nv)%nat.

Hypothesis Ht : (t < nv)%nat.

Hypothesis Hst : s <> t.

Lemma chain_source_edge : forall P l,
  pchain nv s P l -> forall v p, l = v :: p -> v <> s ->
  exists x, In (s, x) (chain_edges l).
Proof.
  intros P l H. induction H as [|v0 u rest Hv1 Hv2 Hu Hp Hc IH]; intros v p El Hv;
    injection El as <- <-; [congruence|].
  change (chain_edges (v0 :: u :: rest)) with ((u, v0) :: chain_edges (u :: rest)).
  destruct (Nat.eq_dec u s) as [->|Hne].
  - exists v0. left; reflexivity.
  - destruct (IH u rest eq_refl Hne) as [x Hx]. exists x. right; exact Hx.
Qed.

Lemma chain_no_child_source : forall P l,
  pchain nv s P l -> forall a, ~ In (a, s) (chain_edges l).
Proof.
  intros P l H. induction H as [|v0 u rest Hv1 Hv2 Hu Hp Hc IH]; intros a Hin;
    [destruct Hin|].
  change (chain_edges (v0 :: u :: rest)) with ((u, v0) :: chain_edges (u :: rest)) in Hin.
  destruct Hin as [Hin|Hin]; [injection Hin as _ E; congruence|apply (IH a Hin)].
Qed.

(** An augmentation takes the path flow from the positive entries of the
    row of the source and from those of the column of the sink. *)
Lemma augment_run : forall P p M d M',
  pchain nv s P (t :: p) -> NoDup (t :: p) ->
  0 < d -> (forall a b, In (a, b) (chain_edges (t :: p)) -> d <= mget M a b) ->
  (forall a b, In (a, b) (chain_edges (t :: p)) -> mget M' a b = wrap32 (mget M a b - d)) ->
  (forall a b, ~ In (a, b) (chain_edges (t :: p)) -> ~ In (b, a) (chain_edges (t :: p)) ->
               mget M' a b = mget M a b) ->
  out_of M' nv s + d <= out_of M nv s /\ into M' nv t + d <= into M nv t.
Proof.
  intros P p M d M' Hc Hnd Hd Hde F1 F3.
  assert (Hfw : forall a b, In (a, b) (chain_edges (t :: p)) ->
                  Z.max 0 (mget M' a b) + d <= Z.max 0 (mget M a b)).
  { intros a b Hin. rewrite (F1 a b Hin). assert (H1 := Hde a b Hin).
    assert (H2 := wrap32_le (mget M a b - d)). unfold INT_MIN in H2. lia. }
  assert (Hrange : forall a b, In (a, b) (chain_edges (t :: p)) -> (a < nv)%nat /\ (b < nv)%nat).
  { intros a b Hin. destruct (chain_edges_in (t :: p) a b Hin) as [H1 H2].
    split; apply (pchain_range nv s Hs P (t :: p) Hc); auto. }
  split.
  - destruct (chain_source_edge P (t :: p) Hc t p eq_refl (not_eq_sym Hst)) as [x Hx].
    unfold out_of. apply (zsum_drop _ _ nv x).
    + intros i Hi. destruct (in_dec pair_dec (s, i) (chain_edges (t :: p))) as [I1|I1].
      * specialize (Hfw s i I1). lia.
      * rewrite (F3 s i I1); [lia|]. apply (chain_no_child_source P (t :: p) Hc).
    + apply (Hrange s x Hx).
    + apply (Hfw s x Hx).
  - destruct p as [|u rest]; [inversion Hc; congruence|].
    assert (Hu : (u < nv)%nat).
    { apply (pchain_range nv s Hs P _ Hc). right; left; reflexivity. }
    assert (Hin : In (u, t) (chain_edges (t :: u :: rest))) by (left; reflexivity).
    unfold into. apply (zsum_drop _ _ nv u).
    + intros i Hi. destruct (in_dec pair_dec (i, t) (chain_edges (t :: u :: rest))) as [I1|I1].
      * specialize (Hfw i t I1). lia.
      * rewrite (F3 i t I1); [lia|]. intros I2. apply chain_edges_parent in I2.
        inversion Hnd; subst. contradiction.
    + exact Hu.
    + apply (Hfw u t Hin).
Qed.

(** Whatever the allocations give and whatever wraps, the loop ends, and
    what it returns is what 32 bits keep of a sum that is at most the
    positive entries at the source and at most those at the sink. *)
Lemma max_flow_loop_run : forall A B fuel o R parent F,
  mdim nv R -> length parent = nv -> 0 <= F ->
  F + out_of R nv s <= A -> F + into R nv t <= B ->
  (Z.to_nat (out_of R nv s) < fuel)%nat ->
  exists F', max_flow_loop fuel o R nv s t parent (wrap32 F) = Some (wrap32 F') /\
             0 <= F' /\ F' <= A /\ F' <= B.
Proof.
  intros A B. induction fuel as [|fuel IH]; intros o R parent F Hdim Hp HF HA HB Hfuel; [lia|].
  assert (Hstop : exists F', Some (wrap32 F) = Some (wrap32 F') /\ 0 <= F' /\ F' <= A /\ F' <= B).
  { exists F. split; [reflexivity|]. split; [exact HF|].
    assert (H1 := out_of_nonneg R nv s).
    assert (H2 : 0 <= into R nv t) by (unfold into; apply zsum_nonneg; intros; lia). lia. }
  cbn [max_flow_loop].
  destruct (bfs_find_path_cases o R nv s t parent) as [[o' Eb]|[o' Eb]]; rewrite Eb;
    [exact Hstop|].
  destruct (bfs_find_path_spec R nv s t Hs Ht Hst parent Hp)
    as [found [parent' [Hb [Hp' [Hfound _]]]]].
  rewrite Hb. destruct found; [|exact Hstop].
  destruct (Hfound eq_refl) as [p [Hc [Hpos Hnd]]].
  assert (Hlen : (length (t :: p) <= nv + 1)%nat).
  { assert (Hl := NoDup_bounded_length (t :: p) nv Hnd (pchain_range nv s Hs _ _ Hc)). lia. }
  destruct (find_path_flow_from_spec nv s Hs parent' R (t :: p) Hc t p (nv + 1) INT_MAX
              eq_refl Hlen Hpos) as [d [Hd [Hdr Hde]]]; [unfold INT_MAX; lia|].
  unfold find_path_flow. rewrite Hd.
  destruct (update_residual_from_run nv s Hs parent' (t :: p) Hc t p (nv + 1) R d
              eq_refl Hnd Hlen Hdim) as [R' [Hu [Hdim' [F1 [_ F3]]]]].
  unfold update_residual_graph. rewrite Hu.
  destruct (augment_run parent' p R d R' Hc Hnd (proj1 Hdr) Hde F1 F3) as [Ho Hi].
  rewrite wrap32_add_l.
  assert (H1 := out_of_nonneg R' nv s).
  apply IH; auto; lia.
Qed.

End FlowRun.

Local Close Scope Z_scope.

(** *** [graph_max_flow] and its own allocations *)

Lemma alloc_hd : forall o, alloc o = (hd true o, tl o).
Proof. intros [|m o]; reflexivity. Qed.

Lemma all_succeed_firstn_S : forall k o,
  all_succeed (firstn (S k) o) <-> hd true o = true /\ all_succeed (firstn k (tl o)).
Proof.
  intros k [|m o].
  - cbn [firstn hd tl]. rewrite firstn_nil. split; [split; [reflexivity|constructor]|constructor].
  - cbn [firstn hd tl]. split.
    + intros H. inversion H; subst. split; [reflexivity|assumption].
    + intros [-> H]. constructor; [reflexivity|exact H].
Qed.

Lemma skipn_S_tl : forall (k : nat) (o : Alloc), skipn (S k) o = skipn k (tl o).
Proof. intros k [|m o]; [cbn [tl]; rewrite !skipn_nil; reflexivity|reflexivity]. Qed.

Lemma skipn_tl : forall (k : nat) (o : Alloc), tl (skipn k o) = skipn (S k) o.
Proof.
  induction k as [|k IH]; intros o; [destruct o; reflexivity|].
  rewrite (skipn_S_tl (S k)), (skipn_S_tl k o). apply IH.
Qed.

Lemma all_succeed_firstn_add : forall k j o,
  all_succeed (firstn (k + j) o) <->
  all_succeed (firstn k o) /\ all_succeed (firstn j (skipn k o)).
Proof.
  induction k as [|k IH]; intros j o.
  - cbn [Nat.add firstn skipn]. split; [intros H; split; [constructor|exact H]|tauto].
  - change (S k + j)%nat with (S (k + j)). rewrite !all_succeed_firstn_S, IH, skipn_S_tl. tauto.
Qed.

Lemma all_succeed_firstn : forall k o, all_succeed o -> all_succeed (firstn k o).
Proof.
  intros k o H. unfold all_succeed in *. rewrite <- (firstn_skipn k o) in H.
  apply Forall_app in H. tauto.
Qed.

Lemma all_succeed_skipn : forall k o, all_succeed o -> all_succeed (skipn k o).
Proof.
  intros k o H. unfold all_succeed in *. rewrite <- (firstn_skipn k o) in H.
  apply Forall_app in H. tauto.
Qed.

Lemma all_succeed_dec : forall o, all_succeed o \/ ~ all_succeed o.
Proof.
  induction o as [|m o IH]; [left; constructor|].
  destruct m.
  - destruct IH as [H|H]; [left; constructor; auto|right].
    intros H1. inversion H1; subst. contradiction.
  - right. intros H1. inversion H1; subst. discriminate.
Qed.

Lemma alloc_rows_cases : forall k o,
  (all_succeed (firstn k o) /\ alloc_rows k o = (true, skipn k o)) \/
  (~ all_succeed (firstn k o) /\ fst (alloc_rows k o) = false).
Proof.
  induction k as [|k IH]; intros o.
  - left. split; [constructor|reflexivity].
  - cbn [alloc_rows]. rewrite alloc_hd, all_succeed_firstn_S, skipn_S_tl.
    destruct (hd true o).
    + destruct (IH (tl o)) as [[H E]|[H E]]; [left; tauto|right; tauto].
    + right. split; [intros [H _]; discriminate|reflexivity].
Qed.

Local Open Scope Z_scope.

Lemma graph_max_flow_args : forall o g s t,
  graph_max_flow o g s t <> Some None ->
  0 <= s < Z.of_nat (n g) /\ 0 <= t < Z.of_nat (n g) /\ s <> t.
Proof.
  intros o g s t H. unfold graph_max_flow in H.
  destruct (Z.ltb_spec s 0); cbn [orb] in H; [congruence|].
  destruct (Z.ltb_spec t 0); cbn [orb] in H; [congruence|].
  rewrite !Z.geb_leb in H.
  destruct (Z.leb_spec (Z.of_nat (n g)) s); cbn [orb] in H; [congruence|].
  destruct (Z.leb_spec (Z.of_nat (n g)) t); cbn [orb] in H; [congruence|].
  destruct (Z.eqb_spec s t); cbn [orb] in H; [congruence|]. lia.
Qed.

Lemma graph_max_flow_bad_args : forall o g s t,
  ~ (0 <= s < Z.of_nat (n g) /\ 0 <= t < Z.of_nat (n g) /\ s <> t) ->
  graph_max_flow o g s t = Some None.
Proof.
  intros o g s t H. unfold graph_max_flow. rewrite !Z.geb_leb.
  destruct (Z.ltb_spec s 0); cbn [orb]; [reflexivity|].
  destruct (Z.ltb_spec t 0); cbn [orb]; [reflexivity|].
  destruct (Z.leb_spec (Z.of_nat (n g)) s); cbn [orb]; [reflexivity|].
  destruct (Z.leb_spec (Z.of_nat (n g)) t); cbn [orb]; [reflexivity|].
  destruct (Z.eqb_spec s t); cbn [orb]; [reflexivity|]. exfalso. apply H. lia.
Qed.

(** With arguments that it accepts, [graph_max_flow] returns 0 when one of
    its allocations fails and runs the loop otherwise. *)
Lemma graph_max_flow_allocations : forall o g s t,
  0 <= s < Z.of_nat (n g) -> 0 <= t < Z.of_nat (n g) -> s <> t ->
  (flow_allocations_succeed o g /\
   graph_max_flow o g s t =
   match max_flow_loop (max_flow_fuel (build_capacity_matrix g) (n g) (Z.to_nat s))
           (skipn (n g + 2) o) (build_capacity_matrix g) (n g) (Z.to_nat s) (Z.to_nat t)
           (repeat 0 (n g)) 0 with
   | None => None
   | Some v => Some (Some v)
   end) \/
  (~ flow_allocations_succeed o g /\ graph_max_flow o g s t = Some None).
Proof.
  intros o g s t Hs Ht Hst. unfold graph_max_flow, flow_allocations_succeed.
  assert (E : (s <? 0) || (t <? 0) || (s >=? Z.of_nat (n g))
              || (t >=? Z.of_nat (n g)) || (s =? t) = false).
  { rewrite !orb_false_iff. repeat split.
    - apply Z.ltb_ge. lia.
    - apply Z.ltb_ge. lia.
    - rewrite Z.geb_leb. apply Z.leb_gt. lia.
    - rewrite Z.geb_leb. apply Z.leb_gt. lia.
    - apply Z.eqb_neq. lia. }
  rewrite E. clear E.
  replace (n g + 2)%nat with (S (n g + 1)) by lia.
  rewrite all_succeed_firstn_S, all_succeed_firstn_add, (all_succeed_firstn_S 0).
  rewrite alloc_hd. destruct (hd true o); cbn [negb];
    [|right; split; [intros [H _]; discriminate|reflexivity]].
  destruct (alloc_rows_cases (n g) (tl o)) as [[H E]|[H E]].
  - rewrite E. cbn [negb]. rewrite alloc_hd.
    destruct (hd true (skipn (n g) (tl o))) eqn:E3; cbn [negb].
    + left. split; [split; [reflexivity|]; split; [exact H|]; split; [reflexivity|constructor]|].
      rewrite skipn_tl, <- skipn_S_tl. replace (S (S (n g))) with (S (n g + 1)) by lia.
      reflexivity.
    + right. split; [|reflexivity]. intros [_ [_ [H3 _]]]. discriminate.
  - right. destruct (alloc_rows (n g) (tl o)) as [m o2]. cbn [fst] in E. subst m.
    cbn [negb]. split; [tauto|reflexivity].
Qed.

Lemma all_succeed_flow_allocations : forall o g,
  all_succeed o -> flow_allocations_succeed o g.
Proof. intros o g H. apply all_succeed_firstn. exact H. Qed.

Lemma out_of_capacity : forall g x,
  graph_wf g -> weights_nonneg g -> (x < n g)%nat ->
  out_of (build_capacity_matrix g) (n g) x = weight_at g x.
Proof.
  intros g x Hwf Hw Hx. unfold out_of, weight_at. apply zsum_ext. intros v Hv.
  assert (H := capacity_nonneg g Hwf Hw x v Hx Hv).
  rewrite Z.max_r by exact H. rewrite (capacity_entry g Hwf x v Hx Hv).
  rewrite (Nat.eqb_sym v x). reflexivity.
Qed.

Lemma into_capacity : forall g x,
  graph_wf g -> weights_nonneg g -> (x < n g)%nat ->
  into (build_capacity_matrix g) (n g) x = weight_at g x.
Proof.
  intros g x Hwf Hw Hx. rewrite <- (out_of_capacity g x Hwf Hw Hx).
  unfold into, out_of. apply zsum_ext. intros u Hu.
  rewrite (capacity_sym g u x Hwf Hu Hx). reflexivity.
Qed.

(** Every run with accepted arguments and its own allocations returns a
    value: what 32 bits keep of a sum of path flows. *)
Lemma graph_max_flow_returns : forall o g s t,
  graph_wf g ->
  0 <= s < Z.of_nat (n g) -> 0 <= t < Z.of_nat (n g) -> s <> t ->
  flow_allocations_succeed o g ->
  exists F, graph_max_flow o g s t = Some (Some (wrap32 F)) /\
            0 <= F /\
            F <= out_of (build_capacity_matrix g) (n g) (Z.to_nat s) /\
            F <= into (build_capacity_matrix g) (n g) (Z.to_nat t).
Proof.
  intros o g s t Hwf Hs Ht Hst Ha.
  destruct (graph_max_flow_allocations o g s t Hs Ht Hst) as [[_ E]|[N _]]; [|contradiction].
  set (C := build_capacity_matrix g) in *.
  destruct (max_flow_loop_run (n g) (Z.to_nat s) (Z.to_nat t) ltac:(lia) ltac:(lia) ltac:(lia)
              (out_of C (n g) (Z.to_nat s)) (into C (n g) (Z.to_nat t))
              (max_flow_fuel C (n g) (Z.to_nat s)) (skipn (n g + 2) o) C (repeat 0 (n g)) 0)
    as [F [Hrun HF]].
  - apply (proj1 (build_capacity_matrix_spec g Hwf)).
  - apply repeat_length.
  - lia.
  - lia.
  - lia.
  - unfold max_flow_fuel, out_of. lia.
  - change (wrap32 0) with 0 in Hrun. rewrite Hrun in E. exists F. split; [exact E|exact HF].
Qed.

Lemma capacity_fit : forall g,
  graph_wf g -> weights_fit g ->
  forall a b, (a < n g)%nat -> (b < n g)%nat -> 2 * mget (build_capacity_matrix g) a b <= INT_MAX.
Proof.
  intros g Hwf Hw a b Ha Hb. rewrite (proj2 (build_capacity_matrix_spec g Hwf) a b Ha Hb).
  destruct (a =? b)%nat; [unfold INT_MAX; lia|].
  destruct (count_to (head g a) b) as [|c] eqn:E.
  - rewrite first_weight_absent by exact E. unfold INT_MAX. lia.
  - destruct (first_weight_in (head g a) b) as [e [Hin [_ He]]]; [lia|].
    rewrite <- He. apply (Hw a e Hin).
Qed.

(** With every allocation succeeding, weights that fit and a cut of at most
    [INT_MAX], the run is the run in exact arithmetic. *)
Lemma graph_max_flow_exact : forall o g s t S,
  graph_wf g -> weights_nonneg g -> weights_fit g -> all_succeed o ->
  0 <= s < Z.of_nat (n g) -> 0 <= t < Z.of_nat (n g) -> s <> t ->
  is_cut (Z.to_nat s) (Z.to_nat t) S ->
  cut_capacity (build_capacity_matrix g) (n g) S <= INT_MAX ->
  graph_max_flow o g s t = graph_max_flow_ok g s t.
Proof.
  intros o g s t S Hwf Hw Hfit Ho Hs Ht Hst HS Hcap.
  destruct (graph_max_flow_allocations o g s t Hs Ht Hst) as [[_ E]|[N _]];
    [|exfalso; apply N; apply all_succeed_flow_allocations; exact Ho].
  rewrite E.
  rewrite <- (Z2Nat.id s), <- (Z2Nat.id t) by lia.
  rewrite (graph_max_flow_run g (Z.to_nat s) (Z.to_nat t)) by lia.
  rewrite !Nat2Z.id.
  rewrite (max_flow_loop_exact (build_capacity_matrix g) (n g) (Z.to_nat s) (Z.to_nat t)
             ltac:(lia) ltac:(lia) ltac:(lia)) with (S0 := S).
  - reflexivity.
  - intros a b Ha Hb. assert (H1 := capacity_fit g Hwf Hfit a b Ha Hb).
    assert (H2 := capacity_fit g Hwf Hfit b a Hb Ha). lia.
  - exact HS.
  - exact Hcap.
  - apply all_succeed_skipn. exact Ho.
  - apply flow_inv_init; try lia.
    + apply (proj1 (build_capacity_matrix_spec g Hwf)).
    + apply (capacity_nonneg g Hwf Hw).
  - lia.
  - apply repeat_length.
Qed.

Local Close Scope Z_scope.

(** *** The value of the flow *)

Lemma g_wide_wf : graph_wf g_wide.
Proof. apply apply_ops_wf. apply (graph_create_wf 8). reflexivity. Qed.

Lemma g_wide_weights : weights_nonneg g_wide.
Proof.
  intros u e H. unfold head in H.
  do 8 (destruct u as [|u]; [cbv in H; intuition (subst; simpl; lia)|]).
  cbv in H. destruct u; destruct H.
Qed.

Lemma unit_weights_fit : forall g, unit_weights g -> weights_fit g.
Proof. intros g H u e Hin. rewrite (H u e Hin). unfold INT_MAX. lia. Qed.

(** C2 (as amended).  In a run where no allocation fails, on a graph whose
    weights are all nonnegative and at most [INT_MAX / 2], and for two
    different vertices [s] and [t] of the graph between which some cut has a
    capacity of at most [INT_MAX], [graph_max_flow] returns a value; the
    value is nonnegative and is the minimum capacity of the cuts between [s]
    and [t] in the capacity matrix, the matrix that has 0 on the diagonal
    and the weight of the edge (0 without an edge) elsewhere.  When every
    weight is 1 the value is the largest number of edge-disjoint paths from
    [s] to [t]. *)
Theorem max_flow_is_min_cut : forall o g (s t : Z) S0,
  graph_wf g -> weights_nonneg g -> weights_fit g -> all_succeed o ->
  (0 <= s < Z.of_nat (n g))%Z -> (0 <= t < Z.of_nat (n g))%Z -> s <> t ->
  is_cut (Z.to_nat s) (Z.to_nat t) S0 ->
  (cut_capacity (build_capacity_matrix g) (n g) S0 <= INT_MAX)%Z ->
  exists value,
    graph_max_flow o g s t = Some (Some value) /\
    (0 <= value)%Z /\
    (forall u v, u < n g -> v < n g ->
       mget (build_capacity_matrix g) u v
       = if u =? v then 0%Z
         else graph_get_edge_weight (Some g) (Z.of_nat u) (Z.of_nat v)) /\
    (exists S, is_cut (Z.to_nat s) (Z.to_nat t) S /\
               cut_capacity (build_capacity_matrix g) (n g) S = value) /\
    (forall S, is_cut (Z.to_nat s) (Z.to_nat t) S ->
               (value <= cut_capacity (build_capacity_matrix g) (n g) S)%Z) /\
    (unit_weights g ->
       (exists ps, Z.of_nat (length ps) = value /\
                   edge_disjoint_paths g (Z.to_nat s) (Z.to_nat t) ps) /\
       (forall ps, edge_disjoint_paths g (Z.to_nat s) (Z.to_nat t) ps ->
                   (Z.of_nat (length ps) <= value)%Z)).
Proof.
  intros o g s t S0 Hwf Hw Hfit Ho Hs Ht Hst HS0 Hcap.
  rewrite (graph_max_flow_exact o g s t S0 Hwf Hw Hfit Ho Hs Ht Hst HS0 Hcap).
  apply (max_flow_ok_is_min_cut g s t Hwf Hw Hs Ht Hst).
Qed.

Lemma max_flow_is_min_cut_witness :
  exists value,
    graph_max_flow (repeat true 9) g_square 0 2 = Some (Some value) /\
    (0 <= value)%Z /\
    (forall u v, u < n g_square -> v < n g_square ->
       mget (build_capacity_matrix g_square) u v
       = if u =? v then 0%Z
         else graph_get_edge_weight (Some g_square) (Z.of_nat u) (Z.of_nat v)) /\
    (exists S, is_cut (Z.to_nat 0) (Z.to_nat 2) S /\
               cut_capacity (build_capacity_matrix g_square) (n g_square) S = value) /\
    (forall S, is_cut (Z.to_nat 0) (Z.to_nat 2) S ->
               (value <= cut_capacity (build_capacity_matrix g_square) (n g_square) S)%Z) /\
    (unit_weights g_square ->
       (exists ps, Z.of_nat (length ps) = value /\
                   edge_disjoint_paths g_square (Z.to_nat 0) (Z.to_nat 2) ps) /\
       (forall ps, edge_disjoint_paths g_square (Z.to_nat 0) (Z.to_nat 2) ps ->
                   (Z.of_nat (length ps) <= value)%Z)).
Proof.
  apply (max_flow_is_min_cut (repeat true 9) g_square 0 2 (fun x => x =? 0) g_square_wf
           (unit_weights_nonneg g_square g_square_unit_weights)
           (unit_weights_fit g_square g_square_unit_weights)).
  - repeat constructor.
  - simpl. lia.
  - simpl. lia.
  - discriminate.
  - split; reflexivity.
  - vm_compute. discriminate.
Defined.

(** Four runs in which the value returned is not the minimum capacity of a
    cut.  With the weight -5 it is 0, above the capacity of the only cut.
    On the triangle with weights [INT_MAX] the sum of the path flows wraps
    to -2.  On [g_wide] a residual entry wraps and the value from 6 to 3 is
    200000000, below every cut.  On [g_flow] the first search cannot
    allocate and the value is 0, below every cut. *)
Lemma max_flow_counterexample :
  (graph_max_flow [] g_neg 0 1 = Some (Some 0%Z) /\
   exists S, is_cut 0 1 S /\
             (cut_capacity (build_capacity_matrix g_neg) (n g_neg) S < 0)%Z) /\
  graph_max_flow [] g_int_max_triangle 0 2 = Some (Some (-2)%Z) /\
  (graph_max_flow [] g_wide 6 3 = Some (Some 200000000%Z) /\
   weights_nonneg g_wide /\
   forall S, is_cut 6 3 S ->
             (400000000 <= cut_capacity (build_capacity_matrix g_wide) (n g_wide) S)%Z) /\
  (graph_max_flow (repeat true 6 ++ [false]) g_flow 0 3 = Some (Some 0%Z) /\
   forall S, is_cut 0 3 S ->
             (7 <= cut_capacity (build_capacity_matrix g_flow) (n g_flow) S)%Z).
Proof.
  split; [|split; [|split]].
  - split; [reflexivity|].
    exists (fun x => x =? 0). split; [split; reflexivity|]. reflexivity.
  - lazy. reflexivity.
  - split; [lazy; reflexivity|]. split; [exact g_wide_weights|].
    destruct (graph_max_flow_cut g_wide 6 3 g_wide_wf g_wide_weights)
      as [value [E [_ [_ Hmin]]]]; [simpl; lia|simpl; lia|discriminate|].
    assert (E' : graph_max_flow_ok g_wide (Z.of_nat 6) (Z.of_nat 3)
                 = Some (Some 400000000%Z)) by (lazy; reflexivity).
    rewrite E' in E. injection E as <-. exact Hmin.
  - split; [reflexivity|].
    destruct (graph_max_flow_cut g_flow 0 3 g_flow_wf
                (weights_ge_1_nonneg g_flow g_flow_weights))
      as [value [E [_ [_ Hmin]]]]; [simpl; lia|simpl; lia|discriminate|].
    assert (E' : graph_max_flow_ok g_flow (Z.of_nat 0) (Z.of_nat 3) = Some (Some 7%Z))
      by reflexivity.
    rewrite E' in E. injection E as <-. exact Hmin.
Qed.

Local Open Scope Z_scope.

Lemma single_cut_fits : forall g s t,
  graph_wf g -> (s < n g)%nat -> (t < n g)%nat -> s <> t ->
  weight_at g s <= INT_MAX \/ weight_at g t <= INT_MAX ->
  exists S, is_cut s t S /\ cut_capacity (build_capacity_matrix g) (n g) S <= INT_MAX.
Proof.
  intros g s t Hwf Hs Ht Hst [H|H].
  - exists (fun a => (a =? s)%nat). split.
    + split; [apply Nat.eqb_refl|apply Nat.eqb_neq; congruence].
    + rewrite (cut_single g s Hwf Hs). exact H.
  - exists (fun a => negb (a =? t)%nat). split.
    + split; [apply negb_true_iff; apply Nat.eqb_neq; exact Hst
             |apply negb_false_iff; apply Nat.eqb_refl].
    + rewrite (cut_capacity_complement (build_capacity_matrix g) (n g)
                 (fun a => (a =? t)%nat) (fun a b Ha Hb => capacity_sym g a b Hwf Ha Hb)).
      rewrite (cut_single g t Hwf Ht). exact H.
Qed.

(** X19.  In a run where no allocation fails, on a well-formed graph with
    weights that are not negative and at most [INT_MAX / 2], and when the
    weights at [s] or those at [t] sum to at most [INT_MAX],
    [graph_max_flow] from [s] to [t] and from [t] to [s] give the same
    result, the same value or the same refusal. *)
Theorem max_flow_symmetric : forall o g s t,
  graph_wf g -> weights_nonneg g -> weights_fit g -> all_succeed o ->
  weight_at g (Z.to_nat s) <= INT_MAX \/ weight_at g (Z.to_nat t) <= INT_MAX ->
  graph_max_flow o g s t = graph_max_flow o g t s.
Proof.
  intros o g s t Hwf Hw Hfit Ho Hb.
  assert (Hdec : (0 <= s < Z.of_nat (n g) /\ 0 <= t < Z.of_nat (n g) /\ s <> t) \/
                 ~ (0 <= s < Z.of_nat (n g) /\ 0 <= t < Z.of_nat (n g) /\ s <> t)) by lia.
  destruct Hdec as [[Hs [Ht Hst]]|Hinv].
  - destruct (single_cut_fits g (Z.to_nat s) (Z.to_nat t) Hwf) as [S1 [C1 K1]]; try lia.
    destruct (single_cut_fits g (Z.to_nat t) (Z.to_nat s) Hwf) as [S2 [C2 K2]]; try lia.
    rewrite (graph_max_flow_exact o g s t S1 Hwf Hw Hfit Ho Hs Ht Hst C1 K1).
    rewrite (graph_max_flow_exact o g t s S2 Hwf Hw Hfit Ho Ht Hs (not_eq_sym Hst) C2 K2).
    apply (max_flow_ok_symmetric g s t Hwf Hw).
  - rewrite (graph_max_flow_bad_args o g s t Hinv).
    rewrite (graph_max_flow_bad_args o g t s); [reflexivity|]. intros [H1 [H2 H3]]. apply Hinv.
    split; [exact H2|]. split; [exact H1|]. congruence.
Qed.

Lemma g_flow_weights_fit : weights_fit g_flow.
Proof.
  intros u e H. unfold head in H.
  do 4 (destruct u as [|u]; [cbv in H; intuition (subst; simpl; unfold INT_MAX; lia)|]).
  cbv in H. destruct u; destruct H.
Qed.

Lemma max_flow_symmetric_witness :
  graph_max_flow (repeat true 12) g_flow 0 3 = graph_max_flow (repeat true 12) g_flow 3 0.
Proof.
  apply (max_flow_symmetric (repeat true 12) g_flow 0 3).
  - exact g_flow_wf.
  - exact (weights_ge_1_nonneg g_flow g_flow_weights).
  - exact g_flow_weights_fit.
  - repeat constructor.
  - left. vm_compute. discriminate.
Defined.

(** X20.  Whatever the allocations give, the value that [graph_max_flow]
    returns on a well-formed graph with weights that are not negative is at
    most the total weight of the edges at the source, and at most that of
    the edges at the sink, self-loops left out. *)
Theorem max_flow_le_weight_at_ends : forall o g s t value,
  graph_wf g -> weights_nonneg g ->
  graph_max_flow o g s t = Some (Some value) ->
  value <= weight_at g (Z.to_nat s) /\ value <= weight_at g (Z.to_nat t).
Proof.
  intros o g s t value Hwf Hw Hrun.
  destruct (graph_max_flow_args o g s t) as [Hs [Ht Hst]]; [rewrite Hrun; discriminate|].
  destruct (graph_max_flow_allocations o g s t Hs Ht Hst) as [[Ha _]|[_ E]]; [|congruence].
  destruct (graph_max_flow_returns o g s t Hwf Hs Ht Hst Ha) as [F [E [H0 [H1 H2]]]].
  rewrite Hrun in E. injection E as ->.
  rewrite (out_of_capacity g (Z.to_nat s) Hwf Hw) in H1 by lia.
  rewrite (into_capacity g (Z.to_nat t) Hwf Hw) in H2 by lia.
  assert (H3 := wrap32_le F). unfold INT_MIN in H3. lia.
Qed.

Lemma max_flow_le_weight_at_ends_witness :
  7 <= weight_at g_flow (Z.to_nat 0) /\ 7 <= weight_at g_flow (Z.to_nat 3).
Proof.
  apply (max_flow_le_weight_at_ends [] g_flow 0 3 7).
  - exact g_flow_wf.
  - exact (weights_ge_1_nonneg g_flow g_flow_weights).
  - reflexivity.
Defined.

(** X21.  In a run where no allocation fails, on a well-formed graph whose
    weights are all at least 1 and at most [INT_MAX / 2], and when the
    weights at the source or those at the sink sum to at most [INT_MAX],
    the value that [graph_max_flow] returns is positive exactly when the
    sink can be reached from the source along edges of the graph. *)
Theorem max_flow_positive_iff_reachable : forall o g s t value,
  graph_wf g -> weights_ge_1 g -> weights_fit g -> all_succeed o ->
  weight_at g (Z.to_nat s) <= INT_MAX \/ weight_at g (Z.to_nat t) <= INT_MAX ->
  graph_max_flow o g s t = Some (Some value) ->
  (0 < value <-> reach g (Z.to_nat s) (Z.to_nat t)).
Proof.
  intros o g s t value Hwf Hw1 Hfit Ho Hb Hrun.
  assert (Hw := weights_ge_1_nonneg g Hw1).
  destruct (graph_max_flow_args o g s t) as [Hs [Ht Hst]]; [rewrite Hrun; discriminate|].
  destruct (single_cut_fits g (Z.to_nat s) (Z.to_nat t) Hwf) as [S1 [C1 K1]]; try lia.
  rewrite (graph_max_flow_exact o g s t S1 Hwf Hw Hfit Ho Hs Ht Hst C1 K1) in Hrun.
  apply (max_flow_ok_positive_iff_reachable g s t value Hwf Hw1 Hrun).
Qed.

Lemma max_flow_positive_iff_reachable_witness :
  0 < 7 <-> reach g_flow (Z.to_nat 0) (Z.to_nat 3).
Proof.
  apply (max_flow_positive_iff_reachable (repeat true 12) g_flow 0 3 7).
  - exact g_flow_wf.
  - exact g_flow_weights.
  - exact g_flow_weights_fit.
  - repeat constructor.
  - left. vm_compute. discriminate.
  - reflexivity.
Defined.

(** X22.  What [graph_max_flow] refuses, on a well-formed graph and
    whatever the allocations give: it returns 0 exactly when the source or
    the sink is not a vertex, or the two are the same, or one of its own
    [n + 2] allocations fails, and it returns a value otherwise.
    [graph_max_flow_default] returns 0 on a graph of one vertex, and
    otherwise what [graph_max_flow] returns from vertex 0 to vertex
    [n-1]. *)
Theorem max_flow_refusals : forall o g s t,
  graph_wf g ->
  (graph_max_flow o g s t = Some None <->
   ~ (0 <= s < Z.of_nat (n g) /\ 0 <= t < Z.of_nat (n g) /\ s <> t) \/
   ~ flow_allocations_succeed o g) /\
  ((exists value, graph_max_flow o g s t = Some (Some value)) <->
   (0 <= s < Z.of_nat (n g) /\ 0 <= t < Z.of_nat (n g) /\ s <> t) /\
   flow_allocations_succeed o g) /\
  (graph_max_flow_default o (Some g) = Some None <->
   n g = 1%nat \/ ~ flow_allocations_succeed o g) /\
  ((2 <= n g)%nat ->
   graph_max_flow_default o (Some g) = graph_max_flow o g 0 (Z.of_nat (n g) - 1) /\
   (flow_allocations_succeed o g ->
    exists value, graph_max_flow_default o (Some g) = Some (Some value) /\
                  graph_max_flow o g 0 (Z.of_nat (n g) - 1) = Some (Some value))).
Proof.
  intros o g s t Hwf.
  assert (Hok : forall a b, 0 <= a < Z.of_nat (n g) /\ 0 <= b < Z.of_nat (n g) /\ a <> b ->
                  flow_allocations_succeed o g ->
                  exists value, graph_max_flow o g a b = Some (Some value)).
  { intros a b [Ha [Hb Hab]] Hal.
    destruct (graph_max_flow_returns o g a b Hwf Ha Hb Hab Hal) as [F [E _]].
    exists (wrap32 F). exact E. }
  assert (Hno : forall a b, 0 <= a < Z.of_nat (n g) /\ 0 <= b < Z.of_nat (n g) /\ a <> b ->
                  ~ flow_allocations_succeed o g -> graph_max_flow o g a b = Some None).
  { intros a b [Ha [Hb Hab]] Hal.
    destruct (graph_max_flow_allocations o g a b Ha Hb Hab) as [[H _]|[_ E]];
      [contradiction|exact E]. }
  assert (Hdec : forall a b,
            (0 <= a < Z.of_nat (n g) /\ 0 <= b < Z.of_nat (n g) /\ a <> b) \/
            ~ (0 <= a < Z.of_nat (n g) /\ 0 <= b < Z.of_nat (n g) /\ a <> b)) by (intros; lia).
  assert (Hnone : forall a b, graph_max_flow o g a b = Some None <->
            ~ (0 <= a < Z.of_nat (n g) /\ 0 <= b < Z.of_nat (n g) /\ a <> b) \/
            ~ flow_allocations_succeed o g).
  { intros a b. split.
    - intros E. destruct (Hdec a b) as [Hv|Hv]; [|left; exact Hv].
      right. intros Hal. destruct (Hok a b Hv Hal) as [v Ev]. congruence.
    - intros [Hv|Hal]; [apply graph_max_flow_bad_args; exact Hv|].
      destruct (Hdec a b) as [Hv|Hv]; [apply Hno; assumption|].
      apply graph_max_flow_bad_args; exact Hv. }
  split; [apply Hnone|]. split; [|split].
  - split.
    + intros [v Ev]. split; [apply (graph_max_flow_args o g s t); rewrite Ev; discriminate|].
      destruct (all_succeed_dec (firstn (n g + 2) o)) as [Hal|Hal]; [exact Hal|].
      assert (E := proj2 (Hnone s t) (or_intror Hal)). congruence.
    + intros [Hv Hal]. apply Hok; assumption.
  - unfold graph_max_flow_default. assert (Hp := wf_pos Hwf).
    destruct (Nat.ltb_spec (n g) 2) as [H2|H2].
    + split; [left; lia|reflexivity].
    + rewrite Hnone. split; [intros [Hv|Hal]; [exfalso; apply Hv; lia|right; exact Hal]|].
      intros [H1|Hal]; [lia|right; exact Hal].
  - intros H2. unfold graph_max_flow_default.
    destruct (Nat.ltb_spec (n g) 2); [lia|]. split; [reflexivity|].
    intros Hal. destruct (Hok 0 (Z.of_nat (n g) - 1)) as [v Ev]; [lia|exact Hal|].
    exists v. split; exact Ev.
Qed.

Lemma max_flow_refusals_witness :
  (graph_max_flow [true; false] g_flow 0 3 = Some None <->
   ~ (0 <= 0 < Z.of_nat (n g_flow) /\ 0 <= 3 < Z.of_nat (n g_flow) /\ 0 <> 3) \/
   ~ flow_allocations_succeed [true; false] g_flow) /\
  ((exists value, graph_max_flow [true; false] g_flow 0 3 = Some (Some value)) <->
   (0 <= 0 < Z.of_nat (n g_flow) /\ 0 <= 3 < Z.of_nat (n g_flow) /\ 0 <> 3) /\
   flow_allocations_succeed [true; false] g_flow) /\
  (graph_max_flow_default [true; false] (Some g_flow) = Some None <->
   n g_flow = 1%nat \/ ~ flow_allocations_succeed [true; false] g_flow) /\
  ((2 <= n g_flow)%nat ->
   graph_max_flow_default [true; false] (Some g_flow)
   = graph_max_flow [true; false] g_flow 0 (Z.of_nat (n g_flow) - 1) /\
   (flow_allocations_succeed [true; false] g_flow ->
    exists value, graph_max_flow_default [true; false] (Some g_flow) = Some (Some value) /\
                  graph_max_flow [true; false] g_flow 0 (Z.of_nat (n g_flow) - 1)
                  = Some (Some value))).
Proof.
  apply (max_flow_refusals [true; false] g_flow 0 3).
  exact g_flow_wf.
Defined.

Example max_flow_refused_allocation :
  graph_max_flow [true; false] g_flow 0 3 = Some None /\
  graph_max_flow [] g_flow 2 2 = Some None /\
  graph_max_flow [] g_flow 0 3 = Some (Some 7).
Proof. repeat split. Qed.

Local Close Scope Z_scope.
